(** * Medusa speculative decoding utilities: a shallow embedding

    This development embeds the tree-topology builder, the candidate
    generator, the posterior evaluator and the inference-state updater of
    [whisper_medusa/models/medusa_utils.py], together with the verification
    pass over the tree, the reset of the key-value cache and the logits
    processors of that file, and proves properties of them.

    Conventions of the embedding.
    - Python integers and the entries of integer tensors are [Z]; tensor
      sizes that fit in memory are far below the 64-bit range, so no
      wrap-around is modelled.  Building a tensor from a Python integer
      outside the 64-bit range raises; this conversion is not modelled, and
      [Torch.int64] names the range in which it succeeds.
    - A one-dimensional tensor is a [list]; a matrix is a list of rows.
    - A Python exception is a value of [exn]; a computation that may
      raise lives in [result].  Where a function writes to a tensor in place
      and then raises, the writes made before the exception are modelled
      only for the key-value cache, whose store is threaded explicitly. *)

From Stdlib Require Import List ZArith Lia Bool Arith FinFun.
From Stdlib Require Import Permutation Sorted.
From Stdlib Require Import Reals Lra.
Import ListNotations.
Open Scope Z_scope.

(** ** Exceptions and the error monad *)

Inductive exn : Type :=
| ValueError
| TypeError
| IndexError
| ZeroDivisionError
| RuntimeError.

Definition result (A : Type) : Type := (exn + A)%type.

Definition ret {A : Type} (a : A) : result A := inr a.
Definition raise {A : Type} (e : exn) : result A := inl e.

Definition bind {A B : Type} (m : result A) (k : A -> result B) : result B :=
  match m with
  | inl e => inl e
  | inr a => k a
  end.

Notation "x <- m ;; k" := (bind m (fun x => k))
  (at level 61, m at next level, right associativity).
Notation "' pat <- m ;; k" := (bind m (fun x => match x with pat => k end))
  (at level 61, pat pattern, m at next level, right associativity).

(** [for i in range(n): s = body(i, s)], stopping at the first exception. *)
Fixpoint for_range {S : Type} (n : nat) (body : nat -> S -> result S) (s : S)
  : result S :=
  match n with
  | O => ret s
  | Datatypes.S k => s' <- for_range k body s ;; body k s'
  end.

(** [mapM] over a list, left to right. *)
Fixpoint map_result {A B : Type} (f : A -> result B) (l : list A)
  : result (list B) :=
  match l with
  | [] => ret []
  | x :: t => y <- f x ;; ys <- map_result f t ;; ret (y :: ys)
  end.

(** ** The tensor operations the module uses *)

Module Torch.

Definition len {A : Type} (l : list A) : Z := Z.of_nat (length l).

(** The range of the entries of an integer tensor ([torch.long]). *)
Definition int64 (x : Z) : Prop := - 2 ^ 63 <= x < 2 ^ 63.

Definition sum (l : list Z) : Z := fold_right Z.add 0 l.
Definition prod (l : list Z) : Z := fold_right Z.mul 1 l.

Fixpoint cumprod_from (acc : Z) (l : list Z) : list Z :=
  match l with
  | [] => []
  | x :: t => (acc * x) :: cumprod_from (acc * x) t
  end.
Definition cumprod (l : list Z) : list Z := cumprod_from 1 l.

Fixpoint cumsum_from (acc : Z) (l : list Z) : list Z :=
  match l with
  | [] => []
  | x :: t => (acc + x) :: cumsum_from (acc + x) t
  end.
Definition cumsum (l : list Z) : list Z := cumsum_from 0 l.

(** [torch.arange(lo, hi)]: raises when the bounds are inconsistent with
    the step sign. *)
Definition arange2 (lo hi : Z) : result (list Z) :=
  if hi <? lo then raise RuntimeError
  else ret (map (fun k => lo + Z.of_nat k) (seq 0 (Z.to_nat (hi - lo)))).

Definition arange (n : Z) : result (list Z) := arange2 0 n.

(** Python slicing [l[lo:hi]]: negative bounds count from the end, and
    bounds are clamped to the sequence. *)
Definition norm_bound (n i : Z) : Z :=
  if i <? 0 then Z.max (i + n) 0 else Z.min i n.

Definition py_slice {A : Type} (l : list A) (lo hi : Z) : list A :=
  let lo' := norm_bound (len l) lo in
  let hi' := norm_bound (len l) hi in
  firstn (Z.to_nat (hi' - lo')) (skipn (Z.to_nat lo') l).

(** [x.repeat(k, 1)]: [k] copies of [x] stacked as rows; a negative count
    raises.  The same operation tiles the rows of a matrix. *)
Definition repeat_rows {A : Type} (k : Z) (x : A) : result (list A) :=
  if k <? 0 then raise RuntimeError else ret (repeat x (Z.to_nat k)).

Definition tile_rows {A : Type} (k : Z) (m : list A) : result (list A) :=
  if k <? 0 then raise RuntimeError
  else ret (concat (repeat m (Z.to_nat k))).

(** [m.transpose(0, 1)] of a matrix with [ncols] columns. *)
Definition transpose (ncols : nat) (m : list (list Z)) : list (list Z) :=
  map (fun j => map (fun row => nth j row 0) m) (seq 0 ncols).

Definition flatten {A : Type} (m : list (list A)) : list A := concat m.

(** [torch.eye(n, n)]; entries are the floats 0.0 and 1.0, modelled by the
    integers 0 and 1 (the builder only ever adds such rows). *)
Definition eye_row (n : nat) (r : nat) : list Z :=
  map (fun c => if Nat.eqb r c then 1 else 0) (seq 0 n).

Definition eye (n : Z) : result (list (list Z)) :=
  if n <? 0 then raise RuntimeError
  else ret (map (eye_row (Z.to_nat n)) (seq 0 (Z.to_nat n))).

Definition zeros2 (rows : Z) (cols : nat) : result (list (list Z)) :=
  if rows <? 0 then raise RuntimeError
  else ret (repeat (repeat 0 cols) (Z.to_nat rows)).

(** Index normalisation of tensor indexing: [-n <= i < n]. *)
Definition norm_index (n i : Z) : result nat :=
  if (0 <=? i) && (i <? n) then ret (Z.to_nat i)
  else if (- n <=? i) && (i <? 0) then ret (Z.to_nat (i + n))
  else raise IndexError.

(** [m[idx]] for an index tensor [idx]: gathers rows. *)
Definition index_rows {A : Type} (d : A) (m : list A) (idx : list Z)
  : result (list A) :=
  map_result (fun i => k <- norm_index (len m) i ;; ret (nth k m d)) idx.

Definition add_row (r1 r2 : list Z) : list Z :=
  map (fun p => fst p + snd p) (combine r1 r2).

(** [m[lo:hi] += src]: the rows of the slice are updated in place; [src]
    must have as many rows as the slice, or one row that is broadcast. *)
Definition iadd_rows (m : list (list Z)) (lo hi : Z) (src : list (list Z))
  : result (list (list Z)) :=
  let lo' := Z.to_nat (norm_bound (len m) lo) in
  let cnt := Z.to_nat (norm_bound (len m) hi - norm_bound (len m) lo) in
  let upd (src' : list (list Z)) :=
    firstn lo' m
    ++ map (fun p => add_row (fst p) (snd p))
           (combine (firstn cnt (skipn lo' m)) src')
    ++ skipn (lo' + cnt) m in
  if Nat.eqb (length src) cnt then ret (upd src)
  else match src with
       | [row] => ret (upd (repeat row cnt))
       | _ => raise RuntimeError
       end.

(** [m[:, i] = col]: [col] has one entry per row, or a single entry that
    is broadcast. *)
Fixpoint set_nth {A : Type} (i : nat) (v : A) (l : list A) : list A :=
  match l, i with
  | [], _ => []
  | _ :: t, O => v :: t
  | x :: t, Datatypes.S k => x :: set_nth k v t
  end.

Definition set_column (m : list (list Z)) (i : nat) (col : list Z)
  : result (list (list Z)) :=
  let upd (col' : list Z) :=
    map (fun p => set_nth i (snd p) (fst p)) (combine m col') in
  if Nat.eqb (length col) (length m) then ret (upd col)
  else match col with
       | [v] => ret (upd (repeat v (length m)))
       | _ => raise RuntimeError
       end.

(** Python's [a // b] on integers. *)
Definition floordiv (a b : Z) : result Z :=
  if b =? 0 then raise ZeroDivisionError else ret (a / b).

(** [a // b] on integer tensors. *)
Definition tensor_floordiv (a b : Z) : result Z :=
  if b =? 0 then raise RuntimeError else ret (a / b).

(** [torch.cat(ms, dim=1)]: all matrices must have the same number of
    rows. *)
Fixpoint cat_dim1 (ms : list (list (list Z))) : result (list (list Z)) :=
  match ms with
  | [] => raise RuntimeError
  | [m] => ret m
  | m :: rest =>
      r <- cat_dim1 rest ;;
      if Nat.eqb (length m) (length r)
      then ret (map (fun p => fst p ++ snd p) (combine m r))
      else raise RuntimeError
  end.

End Torch.

(** ** TreeTopologyBuilder: [generate_medusa_buffers] *)

(** The dictionary the builder returns.  The mask is returned with two
    leading dimensions of size one ([unsqueeze(0).unsqueeze(0)]); the record
    keeps the matrix. *)
Record medusa_buffers : Type := {
  medusa_attn_mask : list (list Z);
  tree_indices : list Z;
  medusa_position_ids : list Z;
  retrieve_indices : list (list Z);
  list_indices : list (list Z)
}.

Section Buffers.

Import Torch.

Variable medusa_choices : list Z.

Let cumulative_product : list Z := cumprod medusa_choices.
Let cumulative_sum : list Z := cumsum medusa_choices.

(** Step 1 of the builder: one iteration of the loop that extends
    [tree_indices]; the state is
    [(tree_indices, prev_cumsum, prev_cumprod)]. *)
Definition tree_indices_body (medusa_indices : list Z) (i : nat)
    (st : list Z * Z * Z) : result (list Z * Z * Z) :=
  let '(tree_indices, prev_cumsum, prev_cumprod) := st in
  let cumsum := nth i cumulative_sum 0 in
  let cumprod := nth i cumulative_product 0 in
  rows <- repeat_rows prev_cumprod (py_slice medusa_indices prev_cumsum cumsum) ;;
  let slice := flatten rows in
  ret (tree_indices ++ slice, cumsum, cumprod).

(** Step 2: the parent of every node of the level being added,
    [arange(prev, cur).repeat(choice, 1).transpose(0, 1).flatten()]. *)
Definition parent_idx_of (prev_cumprod_sum cumprod_sum choice : Z)
  : result (list Z) :=
  r <- arange2 prev_cumprod_sum cumprod_sum ;;
  rows <- repeat_rows choice r ;;
  ret (flatten (transpose (length r) rows)).

(** Step 2: one iteration of the attention-mask loop; the state is
    [(medusa_attn_mask, prev_cumprod_sum)]. *)
Definition attn_mask_body (i : nat) (st : list (list Z) * Z)
  : result (list (list Z) * Z) :=
  let '(medusa_attn_mask, prev_cumprod_sum) := st in
  let cumprod_sum := sum (firstn i cumulative_product) in
  mask' <-
    (if negb (prev_cumprod_sum =? -1) then
       parent_idx <-
         parent_idx_of prev_cumprod_sum cumprod_sum (nth i medusa_choices 0) ;;
       src <- index_rows [] medusa_attn_mask parent_idx ;;
       iadd_rows medusa_attn_mask cumprod_sum (cumprod_sum + len parent_idx) src
     else ret medusa_attn_mask) ;;
  ret (mask', sum (firstn i cumulative_product)).

(** Step 3: [medusa_position_ids += [i] * cumulative_product[i]]. *)
Definition position_ids_of : list Z :=
  flat_map (fun i => repeat (Z.of_nat i) (Z.to_nat (nth i cumulative_product 0)))
           (seq 0 (length medusa_choices)).

(** Step 4: one iteration of the loop filling column [i] of
    [retrieve_indices]; the state is [(retrieve_indices, prev_cumprod_sum)]. *)
Definition retrieve_body (medusa_len_prod : Z) (i : nat)
    (st : list (list Z) * Z) : result (list (list Z) * Z) :=
  let '(retrieve_indices, prev_cumprod_sum) := st in
  let cumprod_sum := sum (firstn (S i) cumulative_product) in
  r <- arange2 prev_cumprod_sum cumprod_sum ;;
  k <- floordiv medusa_len_prod (cumprod_sum - prev_cumprod_sum) ;;
  rows <- repeat_rows k r ;;
  let col := flatten (transpose (length r) rows) in
  m <- set_column retrieve_indices i col ;;
  ret (m, cumprod_sum).

(** Step 5: one iteration of the loop collecting the blocks of
    [list_indices]; the state is [(list_indices, prev_cumprod_sum)]. *)
Definition list_indices_body (cumulative_product_max : Z) (i : nat)
    (st : list (list (list Z)) * Z) : result (list (list (list Z)) * Z) :=
  let '(list_indices, prev_cumprod_sum) := st in
  let choice := nth i medusa_choices 0 in
  current_indices <- arange2 prev_cumprod_sum (prev_cumprod_sum + choice) ;;
  q <- tensor_floordiv (nth i cumulative_product 0) choice ;;
  rows <- repeat_rows q current_indices ;;
  offs <- arange q ;;
  let current_indices2 :=
    map (fun p => map (fun x => x + snd p * len current_indices) (fst p))
        (combine rows offs) in
  k <- tensor_floordiv cumulative_product_max q ;;
  current_indices3 <- tile_rows k current_indices2 ;;
  ret (list_indices ++ [current_indices3],
       prev_cumprod_sum + nth i cumulative_product 0).

(** The builder.  Its first statement, [torch.tensor(medusa_choices)],
    turns the list into a tensor of 64-bit integers; the embedding computes
    on the list itself, which is the same as long as every entry is an
    [int64] (an entry outside that range makes the conversion raise before
    any of the steps below runs). *)
Definition generate_medusa_buffers : result medusa_buffers :=
  match medusa_choices with
  | [] =>
      (* torch.tensor([]) is a float tensor: its sum is the float 0.0,
         which torch.eye refuses as a size. *)
      raise TypeError
  | _ :: _ =>
      let n := length medusa_choices in
      let medusa_len := sum cumulative_product in
      medusa_attn_mask0 <- eye medusa_len ;;
      (* 1. tree indices *)
      medusa_indices <- arange (last cumulative_sum 0) ;;
      '(tree_indices, _, _) <-
        for_range n (tree_indices_body medusa_indices) ([], 0, 1) ;;
      (* 2. attention mask *)
      '(medusa_attn_mask, _) <-
        for_range n attn_mask_body (medusa_attn_mask0, -1) ;;
      (* 3. position ids *)
      let medusa_position_ids := position_ids_of in
      (* 4. retrieve indices *)
      let medusa_len_prod := prod medusa_choices in
      retrieve_indices0 <- zeros2 medusa_len_prod n ;;
      '(retrieve_indices, _) <-
        for_range n (retrieve_body medusa_len_prod) (retrieve_indices0, 0) ;;
      (* 5. list indices *)
      let cumulative_product_max := fold_right Z.max (hd 0 cumulative_product)
                                               cumulative_product in
      '(blocks, _) <-
        for_range n (list_indices_body cumulative_product_max) ([], 0) ;;
      cat <- cat_dim1 blocks ;;
      let list_indices := transpose (length (hd [] cat)) cat in
      ret {| medusa_attn_mask := medusa_attn_mask;
             tree_indices := tree_indices;
             medusa_position_ids := medusa_position_ids;
             retrieve_indices := retrieve_indices;
             list_indices := list_indices |}
  end.

End Buffers.


(** ** Element types of tensors

    [Ord] is the order a tensor's element type is compared with ([<],
    [argmax], [topk]); [FloatOps] adds the arithmetic and the transcendental
    functions the posterior evaluator applies to logits.  Logits are taken to
    be finite (no NaN). *)

Class Ord (T : Type) : Type := { tlt : T -> T -> bool }.

Class FloatOps (F : Type) : Type := {
  float_ord :: Ord F;
  fzero : F;
  fone : F;
  feps : F;            (* the constant 1e-5 *)
  fadd : F -> F -> F;
  fmul : F -> F -> F;
  fdiv : F -> F -> F;
  fneg : F -> F;
  fexp : F -> F;
  flog : F -> F;
  feqb : F -> F -> bool
}.

#[export] Instance Z_Ord : Ord Z := {| tlt := Z.ltb |}.

(** Logits as real numbers: the arithmetic of the evaluator without
    rounding. *)
Definition Rltb (x y : R) : bool := if Rlt_dec x y then true else false.
Definition Reqb (x y : R) : bool := if Req_dec_T x y then true else false.

#[export] Instance R_Ord : Ord R := {| tlt := Rltb |}.

#[export] Instance R_FloatOps : FloatOps R := {|
  float_ord := R_Ord;
  fzero := 0%R;
  fone := 1%R;
  feps := (1 / 100000)%R;
  fadd := Rplus;
  fmul := Rmult;
  fdiv := Rdiv;
  fneg := Ropp;
  fexp := exp;
  flog := ln;
  feqb := Reqb
|}.

Section TensorOrd.

Context {T : Type} {ord : Ord T}.

(** [torch.argmax] over one dimension: the index of the first maximal
    entry; the dimension must not be empty. *)
Fixpoint argmax_from (best_i : Z) (best_v : T) (i : Z) (l : list T) : Z :=
  match l with
  | [] => best_i
  | v :: t =>
      if tlt best_v v then argmax_from i v (i + 1) t
      else argmax_from best_i best_v (i + 1) t
  end.

Definition argmax_total (l : list T) : Z :=
  match l with
  | [] => 0
  | v :: t => argmax_from 0 v 1 t
  end.

Definition argmax (l : list T) : result Z :=
  match l with
  | [] => raise IndexError
  | _ :: _ => ret (argmax_total l)
  end.

(** [torch.topk(x, k).indices]: the indices of the [k] largest entries,
    largest first (ties, which torch leaves unspecified, keep the lower
    index first); [k] must not exceed the size of [x]. *)
Fixpoint insert_desc (p : Z * T) (l : list (Z * T)) : list (Z * T) :=
  match l with
  | [] => [p]
  | q :: t => if tlt (snd p) (snd q) then q :: insert_desc p t else p :: q :: t
  end.

Definition sort_desc (l : list (Z * T)) : list (Z * T) :=
  fold_right insert_desc [] l.

Definition enumerate (l : list T) : list (Z * T) :=
  combine (map Z.of_nat (seq 0 (length l))) l.

Definition topk_indices (x : list T) (k : Z) : result (list Z) :=
  if (k <? 0) || (Torch.len x <? k) then raise RuntimeError
  else ret (map fst (firstn (Z.to_nat k) (sort_desc (enumerate x)))).

End TensorOrd.

(** [t.max()] of a one-dimensional integer tensor. *)
Definition tensor_max (l : list Z) : result Z :=
  match l with
  | [] => raise RuntimeError
  | x :: t => ret (fold_left Z.max t x)
  end.

(** ** PosteriorEvaluator: [evaluate_posterior] *)

Section Posterior.

Context {F : Type} {ops : FloatOps F}.

Definition fsum (l : list F) : F := fold_left fadd l fzero.

(** [torch.softmax(v, dim=-1)] (the max-subtraction torch performs for
    stability does not change the value). *)
Definition softmax (v : list F) : list F :=
  let e := map fexp v in
  let s := fsum e in
  map (fun x => fdiv x s) e.

(** [-torch.sum(p * torch.log(p + 1e-5), dim=-1)] *)
Definition entropy (p : list F) : F :=
  fneg (fsum (map (fun x => fmul x (flog (fadd x feps))) p)).

(** [torch.minimum] *)
Definition fmin (a b : F) : F := if tlt b a then b else a.

(** One entry of
    [torch.minimum(ones_like(entropy) * posterior_threshold,
                   torch.exp(-entropy) * posterior_alpha)]. *)
Definition threshold_of (posterior_threshold posterior_alpha : F) (h : F) : F :=
  fmin (fmul fone posterior_threshold) (fmul (fexp (fneg h)) posterior_alpha).

(** Elementwise operation on two vectors, with torch's broadcasting: the
    sizes agree, or one of them is 1 and its entry is repeated. *)
Definition zip_rows {A B C : Type} (f : A -> B -> C) (r1 : list A) (r2 : list B)
  : result (list C) :=
  if Nat.eqb (length r1) (length r2)
  then ret (map (fun p => f (fst p) (snd p)) (combine r1 r2))
  else match r1, r2 with
       | [a], _ => ret (map (f a) r2)
       | _, [b] => ret (map (fun a => f a b) r1)
       | _, _ => raise RuntimeError
       end.

(** The same on two matrices: the numbers of rows agree, or one of them is
    1 and its row is repeated; likewise for the columns.  (A matrix without
    rows carries no number of columns in this embedding; the verification
    pass never produces one.) *)
Definition zip_matrix {A B C : Type} (f : A -> B -> C)
    (m1 : list (list A)) (m2 : list (list B)) : result (list (list C)) :=
  if Nat.eqb (length m1) (length m2)
  then map_result (fun p => zip_rows f (fst p) (snd p)) (combine m1 m2)
  else match m1, m2 with
       | [r1], _ => map_result (zip_rows f r1) m2
       | _, [r2] => map_result (fun r1 => zip_rows f r1 r2) m1
       | _, _ => raise RuntimeError
       end.

Definition bool_to_int (c : bool) : Z := if c then 1 else 0.

(** [torch.gather(prob, dim=-1, index=idx.unsqueeze(-1)).squeeze(-1)]: the
    result has the shape of the index, which may not exceed [prob] in the
    dimensions that are not gathered, and every index must lie inside the
    vocabulary. *)
Definition gather_entry (p : list F) (tok : Z) : result F :=
  if (0 <=? tok) && (tok <? Torch.len p) then ret (nth (Z.to_nat tok) p fzero)
  else raise RuntimeError.

Definition gather_rows (prob : list (list F)) (toks : list Z)
  : result (list F) :=
  if Nat.leb (length toks) (length prob)
  then map_result (fun p => gather_entry (fst p) (snd p)) (combine prob toks)
  else raise RuntimeError.

Definition gather_matrix (prob : list (list (list F))) (toks : list (list Z))
  : result (list (list F)) :=
  if Nat.leb (length toks) (length prob)
  then map_result (fun p => gather_rows (fst p) (snd p)) (combine prob toks)
  else raise RuntimeError.

(** [(torch.cumprod(posterior_mask, dim=1)).sum(dim=1)] *)
Definition accept_lengths (posterior_mask : list (list Z)) : list Z :=
  map (fun row => Torch.sum (Torch.cumprod row)) posterior_mask.

(** [torch.where(candidates_accept_length == accept_length)[0]] *)
Definition where_eq (l : list Z) (v : Z) : list Z :=
  map fst (filter (fun p => snd p =? v) (enumerate l)).

(** The branch [temperature == 0]. *)
Definition evaluate_posterior_greedy (logits : list (list (list F)))
    (candidates : list (list Z)) : result (Z * Z) :=
  am <- map_result (fun path => map_result argmax (removelast path)) logits ;;
  posterior_mask <-
    zip_matrix (fun c a => bool_to_int (c =? a)) (map (@tl Z) candidates) am ;;
  let candidates_accept_length := accept_lengths posterior_mask in
  accept_length <- tensor_max candidates_accept_length ;;
  if accept_length =? 0 then ret (0, accept_length)
  else
    best_candidate <- argmax candidates_accept_length ;;
    ret (best_candidate, accept_length).

(** The branch [temperature != 0]. *)
Definition posterior_prob_of (logits : list (list (list F))) (temperature : F)
  : list (list (list F)) :=
  map (fun path =>
         map (fun v => softmax (map (fun x => fdiv x temperature) v))
             (removelast path))
      logits.

Definition thresholds_of (posterior_prob : list (list (list F)))
    (posterior_threshold posterior_alpha : F) : list (list F) :=
  map (map (fun p => threshold_of posterior_threshold posterior_alpha (entropy p)))
      posterior_prob.

(** One entry of
    [torch.sum(torch.log(candidates_prob[best_candidates, :accept_length]),
               dim=-1)],
    for a row that the indexing with [best_candidates] has selected. *)
Definition likelihood_of (accept_length : Z) (row : list F) : F :=
  fsum (map flog (Torch.py_slice row 0 accept_length)).

Definition evaluate_posterior_typical (logits : list (list (list F)))
    (candidates : list (list Z))
    (temperature posterior_threshold posterior_alpha : F) : result (Z * Z) :=
  let posterior_prob := posterior_prob_of logits temperature in
  candidates_prob <- gather_matrix posterior_prob (map (@tl Z) candidates) ;;
  let threshold :=
    thresholds_of posterior_prob posterior_threshold posterior_alpha in
  posterior_mask <-
    zip_matrix (fun c t => bool_to_int (tlt t c)) candidates_prob threshold ;;
  let candidates_accept_length := accept_lengths posterior_mask in
  accept_length <- tensor_max candidates_accept_length ;;
  if accept_length =? 0 then ret (0, accept_length)
  else
    let best_candidates := where_eq candidates_accept_length accept_length in
    rows <- Torch.index_rows [] candidates_prob best_candidates ;;
    let likelihood := map (likelihood_of accept_length) rows in
    j <- argmax likelihood ;;
    ret (nth (Z.to_nat j) best_candidates 0, accept_length).

Definition evaluate_posterior (logits : list (list (list F)))
    (candidates : list (list Z))
    (temperature posterior_threshold posterior_alpha : F) : result (Z * Z) :=
  if feqb temperature fzero then evaluate_posterior_greedy logits candidates
  else evaluate_posterior_typical logits candidates temperature
         posterior_threshold posterior_alpha.

End Posterior.

(** ** CandidateGenerator: [generate_candidates] *)

(** An integer tensor of one or two dimensions. *)
Inductive long_tensor : Type :=
| Tensor1 (v : list Z)
| Tensor2 (m : list (list Z)).

(** The rows of a tensor, a one-dimensional tensor being read as one
    column. *)
Definition rows_of (t : long_tensor) : list (list Z) :=
  match t with
  | Tensor1 v => map (fun x => [x]) v
  | Tensor2 m => m
  end.

(** [x[-1]] and [x[0]] along one dimension. *)
Definition last_position {A : Type} (x : list A) : result A :=
  match rev x with
  | [] => raise IndexError
  | a :: _ => ret a
  end.

Definition first_position {A : Type} (x : list A) : result A :=
  match x with
  | [] => raise IndexError
  | a :: _ => ret a
  end.

(** Python's [l[i]] for a list and a loop counter [i]. *)
Definition list_item (l : list Z) (i : nat) : result Z :=
  match nth_error l i with
  | Some v => ret v
  | None => raise IndexError
  end.

(** [torch.cartesian_prod]: the first tensor varies slowest; a single
    tensor is returned as it is. *)
Fixpoint cartesian_rows (ts : list (list Z)) : list (list Z) :=
  match ts with
  | [] => [[]]
  | t :: rest => flat_map (fun x => map (cons x) (cartesian_rows rest)) t
  end.

Definition cartesian_prod (ts : list (list Z)) : long_tensor :=
  match ts with
  | [t] => Tensor1 t
  | _ => Tensor2 (cartesian_rows ts)
  end.

(** Product of a list of sizes. *)
Definition nat_prod (l : list nat) : nat := fold_right Nat.mul 1%nat l.

(** [len(set(medusa_topk)) == 1] *)
Definition single_valued (l : list Z) : bool :=
  match l with
  | [] => false
  | k :: t => forallb (Z.eqb k) t
  end.

Section Candidates.

Context {F : Type} {ord : Ord F}.

(** [medusa_logits[i, 0, -1]]: head [i], first batch entry, last
    position. *)
Definition head_last (head : list (list (list F))) : result (list F) :=
  batch0 <- first_position head ;;
  last_position batch0.

Definition generate_candidates (medusa_logits : list (list (list (list F))))
    (logits : list (list (list F))) (medusa_topk : list Z)
    (tree_indices : list Z) : result (long_tensor * list (list Z)) :=
  (* greedy decoding for the original logits *)
  lasts <- map_result last_position logits ;;
  root <- argmax (Torch.flatten lasts) ;;
  let candidates0 := [[root]] in
  candidates <-
    (if single_valued medusa_topk then
       candidate_i <-
         map_result (fun head => v <- head_last head ;;
                                 topk_indices v (hd 0 medusa_topk))
                    medusa_logits ;;
       ret (candidates0 ++ candidate_i)
     else
       for_range (length medusa_logits)
         (fun i candidates =>
            v <- head_last (nth i medusa_logits []) ;;
            k <- list_item medusa_topk i ;;
            candidate_i <- topk_indices v k ;;
            ret (candidates ++ [candidate_i]))
         candidates0) ;;
  let candidates_flat := Torch.flatten candidates in
  let candidates' := cartesian_prod candidates in
  tree_candidates <- Torch.index_rows 0 candidates_flat tree_indices ;;
  ret (candidates', [tree_candidates]).

(** Head [head] offers a last position with at least [k >= 1] vocabulary
    entries. *)
Definition head_ok (head : list (list (list F))) (k : Z) : Prop :=
  exists v : list F, head_last head = inr v /\ 1 <= k <= Torch.len v.

End Candidates.

(** ** InferenceStateUpdater: [update_inference_inputs] *)

Record inference_update (F : Type) : Type := {
  upd_input_ids : list (list Z);
  upd_logits : list (list (list F));
  upd_new_token : Z;
  upd_next_tokens : list (list Z)
}.

Arguments upd_input_ids {F} _.
Arguments upd_logits {F} _.
Arguments upd_new_token {F} _.
Arguments upd_next_tokens {F} _.

(** Elementwise operation on two one-dimensional tensors with
    broadcasting of a dimension of size one. *)
Definition broadcast_zip (f : Z -> Z -> Z) (xs ys : list Z) : result (list Z) :=
  if Nat.eqb (length xs) (length ys)
  then ret (map (fun p => f (fst p) (snd p)) (combine xs ys))
  else match xs, ys with
       | _, [y] => ret (map (fun x => f x y) xs)
       | [x], _ => ret (map (fun y => f x y) ys)
       | _, _ => raise RuntimeError
       end.

Section Updater.

Context {F : Type} {ord : Ord F}.

(** The call [model._update_medusa_outputs(...)] only rewrites the cached
    model outputs of the external model; it does not touch any value the
    function returns and is left out. *)
Definition update_inference_inputs (input_ids : list (list Z))
    (candidates : list (list Z)) (best_candidate accept_length : Z)
    (retrieve_indices : list (list Z)) (logits : list (list (list F)))
    (new_token : Z) (eos_token_id pad_token_id : option Z)
    (unfinished_sequences : list Z) (use_base_logits : bool)
  : result (inference_update F) :=
  let prev_input_len := Torch.len (hd [] input_ids) in
  (* map the best candidate to tree indices *)
  k <- Torch.norm_index (Torch.len retrieve_indices) best_candidate ;;
  let selected_tree_indices :=
    Torch.py_slice (nth k retrieve_indices []) 0 (accept_length + 1) in
  let select_indices := map (fun i => i + prev_input_len) selected_tree_indices in
  (* tokens of the best candidate *)
  c <- Torch.norm_index (Torch.len candidates) best_candidate ;;
  let next_tokens := Torch.py_slice (nth c candidates []) 0 (accept_length + 1) in
  next_tokens <-
    (if use_base_logits then
       firsts <- map_result first_position logits ;;
       additional_next_token <- map_result argmax firsts ;;
       ret (next_tokens ++ additional_next_token)
     else ret next_tokens) ;;
  (* finished sentences get the padding token *)
  next_tokens <-
    match eos_token_id with
    | Some _ =>
        match pad_token_id with
        | None => raise ValueError
        | Some pad =>
            kept <- broadcast_zip Z.mul next_tokens unfinished_sequences ;;
            broadcast_zip Z.add kept
              (map (fun u => pad * (1 - u)) unfinished_sequences)
        end
    | None => ret next_tokens
    end ;;
  input_ids' <-
    match input_ids with
    | [row] => ret [row ++ next_tokens]
    | _ => raise RuntimeError
    end ;;
  (* logits of the accepted position *)
  b <- Torch.norm_index (Torch.len logits) best_candidate ;;
  let logits' :=
    [Torch.py_slice (nth b logits []) accept_length (accept_length + 1)] in
  let new_token' :=
    if use_base_logits then new_token + (accept_length + 2)
    else new_token + (accept_length + 1) in
  ret {| upd_input_ids := input_ids';
         upd_logits := logits';
         upd_new_token := new_token';
         upd_next_tokens := [next_tokens] |}.

(** Every path has a first position with a non-empty vocabulary: what
    [torch.argmax(logits[:, 0], dim=-1)] needs. *)
Definition bonus_ready (logits : list (list (list F))) : Prop :=
  Forall (fun path => exists v rest, path = v :: rest /\ v <> []) logits.

(** [best_candidate] is a valid row index of the path table, of the
    candidates and of the logits. *)
Definition best_in_range (best_candidate : Z) (retrieve_indices : list (list Z))
    (candidates : list (list Z)) (logits : list (list (list F))) : Prop :=
  - Torch.len retrieve_indices <= best_candidate < Torch.len retrieve_indices
  /\ - Torch.len candidates <= best_candidate < Torch.len candidates
  /\ - Torch.len logits <= best_candidate < Torch.len logits.

End Updater.

(** ** TreeDecoder: [tree_decoding] *)

Section TreeDecoding.

Context {F K O : Type}.

(** The forward pass of the external model on the tree, from the key-value
    cache, the tree candidates and the decoder position ids to the model
    outputs: [prepare_inputs_for_medusa_tree_generation] followed by the
    call of the model.  Both branches of the source hand the same cache and
    the same position ids to it.  [output_logits] is the field
    [outputs.logits], of shape heads x batch x nodes x vocabulary. *)
Variable model : K -> list (list Z) -> list Z -> O.
Variable output_logits : O -> list (list (list (list F))).

Definition tree_decoding (tree_candidates : list (list Z))
    (past_key_values : K) (medusa_position_ids : list Z)
    (input_ids : list (list Z)) (retrieve_indices : list (list Z))
  : result (list (list (list F)) * O) :=
  let position_ids :=
    map (fun d => d + Torch.len (hd [] input_ids)) medusa_position_ids in
  let outputs := model past_key_values tree_candidates position_ids in
  orig_tree_logits <- first_position (output_logits outputs) ;;
  (* reorder the logits along the paths *)
  nodes <- first_position orig_tree_logits ;;
  logits <- map_result (Torch.index_rows [] nodes) retrieve_indices ;;
  ret (logits, outputs).

End TreeDecoding.

(** ** The key-value cache: [reset_past_key_values]

    Every cache entry carries a [current_length] tensor that the function
    overwrites in place.  These tensors are cells of a store; two entries
    may hold the same cell. *)

Definition store : Type := nat -> Z.

(** [cell.fill_(0)] *)
Definition fill_0 (cell : nat) (h : store) : store :=
  fun x => if Nat.eqb x cell then 0 else h x.

Section KeyValues.

Context {D : Type}.

Record kv_cache : Type := {
  kv_data : D;
  current_length : nat
}.

(** The two iterations [j = 0, 1] on one layer; the store is returned with
    the writes made before an exception. *)
Definition reset_layer (layer : list kv_cache) (h : store)
  : store * option exn :=
  match layer with
  | [] => (h, Some IndexError)
  | [e0] => (fill_0 (current_length e0) h, Some IndexError)
  | e0 :: e1 :: _ =>
      (fill_0 (current_length e1) (fill_0 (current_length e0) h), None)
  end.

Fixpoint reset_past_key_values (passed_key_values : list (list kv_cache))
    (h : store) : store * option exn :=
  match passed_key_values with
  | [] => (h, None)
  | layer :: rest =>
      match reset_layer layer h with
      | (h', None) => reset_past_key_values rest h'
      | (h', Some e) => (h', Some e)
      end
  end.

(** The cells the function is meant to reset: the [current_length] of the
    first two entries of every layer. *)
Definition reset_cells (passed_key_values : list (list kv_cache)) : list nat :=
  flat_map (fun layer => map current_length (firstn 2 layer)) passed_key_values.

End KeyValues.

Arguments kv_cache : clear implicits.

(** ** Logits processors that suppress tokens *)

(** Entry [j] of a vector of [n] scores is addressed by one of [tokens],
    a negative token counting from the end. *)
Definition hits (n : Z) (tokens : list Z) (j : nat) : bool :=
  existsb (fun t => Z.of_nat j =? t mod n) tokens.

Section Suppress.

Context {F : Type}.

(** [-float("inf")] *)
Variable neg_inf : F.

(** [row[tokens] = -inf] on one vector of scores; the bounds of a token are
    checked where an entry is written. *)
Definition suppress_row (tokens : list Z) (row : list F) : result (list F) :=
  idx <- map_result (Torch.norm_index (Torch.len row)) tokens ;;
  ret (fold_left (fun r j => Torch.set_nth j neg_inf r) idx row).

(** [scores[:, :, tokens] = -inf] *)
Definition suppress_tokens_in (tokens : list Z) (scores : list (list (list F)))
  : result (list (list (list F))) :=
  map_result (map_result (suppress_row tokens)) scores.

(** [MedusaSuppressTokensLogitsProcessor.__call__] *)
Definition suppress_tokens_call (suppress_tokens : list Z)
    (input_ids : list (list Z)) (scores : list (list (list F)))
  : result (list (list (list F))) :=
  suppress_tokens_in suppress_tokens scores.

(** [MedusaSuppressTokensAtBeginLogitsProcessor.__call__] *)
Definition suppress_tokens_at_begin_call (begin_suppress_tokens : list Z)
    (begin_index : Z) (input_ids : list (list Z))
    (scores : list (list (list F))) : result (list (list (list F))) :=
  if Torch.len (hd [] input_ids) =? begin_index
  then suppress_tokens_in begin_suppress_tokens scores
  else ret scores.

End Suppress.

(** ** The timestamp rules: [MedusaWhisperTimeStampLogitsProcessor]

    Scores are a batch x heads x vocabulary tensor, a list of lists of
    vectors; the number of heads and the size of the vocabulary are read off
    the first element, so a tensor with an empty batch is outside the
    embedding.  The exception kinds are those of a current torch. *)

(** The fields of the generation config the processor reads; an attribute
    that [getattr] may find missing is an [option], as is a value that may
    be [None].  [_detect_timestamp_from_logprob] may be missing, which
    selects the default, or present and [None], which does not: it has both
    layers.  For [max_initial_timestamp_index] the default is [None], so
    one layer is enough. *)
Record generate_config : Type := {
  cfg_no_timestamps_token_id : Z;
  cfg_eos_token_id : option Z;
  cfg_bos_token_id : option Z;
  cfg_forced_decoder_ids : option (list (Z * Z));
  cfg_detect_timestamp_from_logprob : option (option bool);
  cfg_max_initial_timestamp_index : option Z
}.

(** The attributes of the processor.  [_detect_timestamp_from_logprob] is
    only ever tested for truth, by [__call__]; the record keeps its truth
    value, [None] being falsy. *)
Record timestamp_processor : Type := {
  ts_no_timestamps_token_id : Z;
  ts_timestamp_begin : Z;
  ts_eos_token_id : option Z;
  ts_detect_timestamp_from_logprob : bool;
  ts_begin_index : Z;
  ts_max_initial_timestamp_index : option Z
}.

(** Python's [a or b] on optional integers: [None] and [0] are falsy. *)
Definition py_or (a b : option Z) : option Z :=
  match a with
  | Some x => if x =? 0 then b else Some x
  | None => b
  end.

(** [MedusaWhisperTimeStampLogitsProcessor.__init__] *)
Definition timestamp_processor_init (generate_config : generate_config)
    (begin_index : option Z) (_detect_timestamp_from_logprob : option bool)
  : timestamp_processor :=
  let num_forced_ids :=
    match cfg_forced_decoder_ids generate_config with
    | Some ids => Torch.len ids
    | None => 0
    end in
  {| ts_no_timestamps_token_id := cfg_no_timestamps_token_id generate_config;
     ts_timestamp_begin := cfg_no_timestamps_token_id generate_config + 1;
     ts_eos_token_id :=
       py_or (cfg_eos_token_id generate_config) (cfg_bos_token_id generate_config);
     ts_detect_timestamp_from_logprob :=
       match _detect_timestamp_from_logprob with
       | Some flag => flag
       | None =>
           match cfg_detect_timestamp_from_logprob generate_config with
           | Some (Some flag) => flag
           | Some None => false
           | None => true
           end
       end;
     ts_begin_index :=
       match begin_index with
       | Some i => if i =? 0 then num_forced_ids + 1 else i
       | None => num_forced_ids + 1
       end;
     ts_max_initial_timestamp_index :=
       cfg_max_initial_timestamp_index generate_config |}.

(** [set_begin_index] *)
Definition timestamp_set_begin_index (self : timestamp_processor)
    (begin_index : Z) : timestamp_processor :=
  {| ts_no_timestamps_token_id := ts_no_timestamps_token_id self;
     ts_timestamp_begin := ts_timestamp_begin self;
     ts_eos_token_id := ts_eos_token_id self;
     ts_detect_timestamp_from_logprob := ts_detect_timestamp_from_logprob self;
     ts_begin_index := begin_index;
     ts_max_initial_timestamp_index := ts_max_initial_timestamp_index self |}.

(** [map] with the position of every element. *)
Definition imap {A B : Type} (f : nat -> A -> B) (l : list A) : list B :=
  map (fun p => f (fst p) (snd p)) (combine (seq 0 (length l)) l).

Definition heads_of {F : Type} (scores : list (list (list F))) : Z :=
  Torch.len (hd [] scores).

Definition vocab_of {F : Type} (scores : list (list (list F))) : Z :=
  Torch.len (hd [] (hd [] scores)).

(** Entry [[k, h, j]] of a tensor of scores. *)
Definition entry {F : Type} (d : F) (scores : list (list (list F)))
    (k h j : nat) : F :=
  nth j (nth h (nth k scores []) []) d.

(** A [B x H x V] tensor of scores. *)
Definition rectangular {F : Type} (B H V : nat) (scores : list (list (list F)))
  : Prop :=
  length scores = B
  /\ Forall (fun heads => length heads = H
                          /\ Forall (fun v => length v = V) heads) scores.

(** Last and last but one element of a Python list, if any. *)
Definition last_item (l : list Z) : option Z :=
  match rev l with
  | x :: _ => Some x
  | [] => None
  end.

Definition penultimate_item (l : list Z) : option Z :=
  match rev l with
  | _ :: y :: _ => Some y
  | _ => None
  end.

(** [input_ids[k, self.begin_index :]] for the row [input_ids[k]]. *)
Definition sampled_tokens (self : timestamp_processor) (row : list Z) : list Z :=
  Torch.py_slice row (ts_begin_index self) (Torch.len row).

(** [len(seq) >= 1 and seq[-1] >= self.timestamp_begin] *)
Definition last_was_timestamp (self : timestamp_processor) (row : list Z)
  : bool :=
  match last_item (sampled_tokens self row) with
  | Some x => ts_timestamp_begin self <=? x
  | None => false
  end.

(** [len(seq) < 2 or seq[-2] >= self.timestamp_begin] *)
Definition penultimate_was_timestamp (self : timestamp_processor)
    (row : list Z) : bool :=
  match penultimate_item (sampled_tokens self row) with
  | Some y => ts_timestamp_begin self <=? y
  | None => true
  end.

(** [sampled_tokens[sampled_tokens.ge(self.timestamp_begin)]] *)
Definition timestamps_of (self : timestamp_processor) (row : list Z) : list Z :=
  filter (fun t => ts_timestamp_begin self <=? t) (sampled_tokens self row).

(** The end of the slice [: self.eos_token_id] on a vector of [V] scores. *)
Definition text_stop (self : timestamp_processor) (V : Z) : Z :=
  match ts_eos_token_id self with
  | Some eos => Torch.norm_bound V eos
  | None => V
  end.

Section Timestamps.

Context {F : Type} {ops : FloatOps F}.

(** [-float("inf")] *)
Variable neg_inf : F.

(** An assignment [scores[...] = -inf]: [sel k h j] tells whether the
    indices and slices of the statement select entry [[k, h, j]]. *)
Definition fill_where (sel : nat -> nat -> nat -> bool)
    (scores : list (list (list F))) : list (list (list F)) :=
  imap (fun k => imap (fun h => imap (fun j x =>
    if sel k h j then neg_inf else x))) scores.

(** [s'] has the shape of [s], and each of its entries is the entry of [s]
    or minus infinity. *)
Definition only_masked (s s' : list (list (list F))) : Prop :=
  length s' = length s
  /\ (forall k : nat, length (nth k s' []) = length (nth k s []))
  /\ (forall k h : nat,
        length (nth h (nth k s' []) []) = length (nth h (nth k s []) []))
  /\ forall (d : F) (k h j : nat),
       entry d s' k h j = entry d s k h j \/ entry d s' k h j = neg_inf.

(** [torch.nn.functional.log_softmax(v, dim=-1)] and
    [v.logsumexp(dim=-1)]. *)
Definition logsumexp (v : list F) : F := flog (fsum (map fexp v)).

Definition log_softmax (v : list F) : list F :=
  map (fun x => fadd x (fneg (logsumexp v))) v.

(** [torch.max(v, axis=-1).values]; the dimension must not be empty. *)
Definition max_values (v : list F) : result F :=
  match v with
  | [] => raise IndexError
  | x :: t => ret (fold_left (fun a b => if tlt a b then b else a) t x)
  end.

Variable self : timestamp_processor.

(** The first loop, sequence [k]: timestamps have to appear in pairs. *)
Definition pairing_rules (k : nat) (row : list Z)
    (scores : list (list (list F))) : result (list (list (list F))) :=
  let V := vocab_of scores in
  let timestamp_begin := ts_timestamp_begin self in
  scores <-
    (if last_was_timestamp self row then
       _ <- Torch.norm_index (Torch.len scores) (Z.of_nat k) ;;
       _ <- Torch.norm_index (heads_of scores) 0 ;;
       if penultimate_was_timestamp self row then
         (* has to be non-timestamp *)
         ret (fill_where
                (fun k' h j =>
                   Nat.eqb k' k && Nat.eqb h 0
                   && (Torch.norm_bound V timestamp_begin <=? Z.of_nat j))
                scores)
       else
         (* cannot be normal text tokens *)
         ret (fill_where
                (fun k' h j =>
                   Nat.eqb k' k && Nat.eqb h 0
                   && (Z.of_nat j <? text_stop self V))
                scores)
     else ret scores) ;;
  match last_item (timestamps_of self row) with
  | None => ret scores
  | Some t =>
      let timestamp_last :=
        if last_was_timestamp self row && negb (penultimate_was_timestamp self row)
        then t
        else t + 1 in
      _ <- Torch.norm_index (Torch.len scores) (Z.of_nat k) ;;
      if timestamp_last <=? 0 then raise ValueError
      else
        (* the slice [: timestamp_begin : timestamp_last] *)
        ret (fill_where
               (fun k' h j =>
                  Nat.eqb k' k
                  && (Z.of_nat j <? Torch.norm_bound V timestamp_begin)
                  && (Z.of_nat j mod timestamp_last =? 0))
               scores)
  end.

(** The [max_initial_timestamp] option, applied at the first generated
    position. *)
Definition initial_rules (input_ids : list (list Z))
    (scores : list (list (list F))) : result (list (list (list F))) :=
  let V := vocab_of scores in
  let timestamp_begin := ts_timestamp_begin self in
  if Torch.len (hd [] input_ids) =? ts_begin_index self then
    _ <- Torch.norm_index (heads_of scores) 0 ;;
    let scores :=
      fill_where
        (fun _ h j =>
           Nat.eqb h 0 && (Z.of_nat j <? Torch.norm_bound V timestamp_begin))
        scores in
    _ <- Torch.norm_index (heads_of scores) 1 ;;
    let scores :=
      fill_where
        (fun _ h j =>
           Nat.eqb h 1 && (Torch.norm_bound V timestamp_begin <=? Z.of_nat j))
        scores in
    match ts_max_initial_timestamp_index self with
    | Some max_initial_timestamp_index =>
        let last_allowed := timestamp_begin + max_initial_timestamp_index in
        ret (fill_where
               (fun _ h j =>
                  Nat.eqb h 0
                  && (Torch.norm_bound V (last_allowed + 1) <=? Z.of_nat j))
               scores)
    | None => ret scores
    end
  else ret scores.

(** The second loop, head [i] of sequence [k]; the state is
    [(scores, prev_wav_updated)]. *)
Definition detect_head (k : nat) (medusa_timestamp_logprob : list F)
    (medusa_max_text_token_logprob : list F) (i : nat)
    (st : list (list (list F)) * bool) : result (list (list (list F)) * bool) :=
  let '(scores, prev_wav_updated) := st in
  let timestamp_logprob := nth i medusa_timestamp_logprob fzero in
  let max_text_token_logprob := nth i medusa_max_text_token_logprob fzero in
  if (tlt max_text_token_logprob timestamp_logprob || prev_wav_updated)
     && ts_detect_timestamp_from_logprob self
  then
    ret (fill_where
           (fun k' h j =>
              Nat.eqb k' k && Nat.eqb h i
              && (Z.of_nat j
                  <? Torch.norm_bound (vocab_of scores) (ts_timestamp_begin self)))
           scores,
         negb prev_wav_updated)
  else ret (scores, prev_wav_updated).

(** The second loop, sequence [k]: if the probability mass of the
    timestamps is above any other token, sample a timestamp. *)
Definition detect_rules (logprobs : list (list (list F))) (k : nat)
    (scores : list (list (list F))) : result (list (list (list F))) :=
  let timestamp_begin := ts_timestamp_begin self in
  _ <- Torch.norm_index (Torch.len logprobs) (Z.of_nat k) ;;
  let rows := nth k logprobs [] in
  let medusa_timestamp_logprob :=
    map (fun v => logsumexp (Torch.py_slice v timestamp_begin (Torch.len v)))
        rows in
  medusa_max_text_token_logprob <-
    map_result (fun v => max_values (Torch.py_slice v 0 timestamp_begin)) rows ;;
  '(scores, _) <-
    for_range (length medusa_timestamp_logprob)
      (detect_head k medusa_timestamp_logprob medusa_max_text_token_logprob)
      (scores, false) ;;
  ret scores.

(** [MedusaWhisperTimeStampLogitsProcessor.__call__] *)
Definition timestamp_call (input_ids : list (list Z))
    (scores : list (list (list F))) : result (list (list (list F))) :=
  (* suppress <|notimestamps|> *)
  nts <- Torch.norm_index (vocab_of scores) (ts_no_timestamps_token_id self) ;;
  let scores := fill_where (fun _ _ j => Nat.eqb j nts) scores in
  scores <-
    for_range (length input_ids)
      (fun k scores => pairing_rules k (nth k input_ids []) scores) scores ;;
  scores <- initial_rules input_ids scores ;;
  let logprobs := map (map log_softmax) scores in
  for_range (length input_ids) (detect_rules logprobs) scores.

(** What iteration [k] of the first loop leaves behind for its sequence,
    on vectors of [V] scores and [H] heads. *)
Definition paired (H V : nat) (k : nat) (row : list Z)
    (s : list (list (list F))) : Prop :=
  forall d : F,
    (last_was_timestamp self row = true ->
     penultimate_was_timestamp self row = true ->
     forall j : nat, ts_timestamp_begin self <= Z.of_nat j < Z.of_nat V ->
       entry d s k 0 j = neg_inf)
    /\ (last_was_timestamp self row = true ->
        penultimate_was_timestamp self row = false ->
        forall j : nat, (j < V)%nat -> Z.of_nat j < text_stop self (Z.of_nat V) ->
          entry d s k 0 j = neg_inf)
    /\ (timestamps_of self row <> [] ->
        forall h : nat, (h < H)%nat -> entry d s k h 0 = neg_inf).

End Timestamps.

(** ** Closed forms for the sizes the builder computes *)

Module Topology.

Import Torch.

(** Product of the first [k] branch factors: the number of nodes at depth
    [k-1] (and 1 for [k = 0]). *)
Definition cp (b : list Z) (k : nat) : Z := prod (firstn k b).

(** Sum of the first [k] branch factors. *)
Definition cs (b : list Z) (k : nat) : Z := sum (firstn k b).

(** Id of the first node of depth [k]: the number of nodes of smaller
    depth. *)
Definition st (b : list Z) (k : nat) : Z := sum (firstn k (cumprod b)).

Definition positive_spec (b : list Z) : Prop := Forall (fun x => 0 < x) b.

(** *** Tree structure: depth, parent and ancestor chains

    Nodes are numbered level by level.  The node with offset [o] inside
    level [i] has id [st b i + o]; for [i > 0] its parent is the node with
    offset [o / b[i]] inside level [i - 1] (the entry the builder's
    [parent_idx] tensor holds at position [o]). *)

Definition node_parent (b : list Z) (i : nat) (o : Z) : Z :=
  st b (i - 1) + o / nth i b 0.

(** The chain from a node up to its ancestor of depth 0, the node first. *)
Fixpoint chain_at (b : list Z) (i : nat) (o : Z) : list Z :=
  (st b i + o) ::
  match i with
  | O => []
  | S j => chain_at b j (o / nth i b 0)
  end.

(** Depth of a node, read off the builder's position ids. *)
Definition depth_of (position_ids : list Z) (r : Z) : nat :=
  Z.to_nat (nth (Z.to_nat r) position_ids 0).

(** Node [r] together with its ancestors. *)
Definition ancestors_or_self (b : list Z) (position_ids : list Z) (r : Z)
  : list Z :=
  let d := depth_of position_ids r in
  chain_at b d (r - st b d).

(** The 0/1 row that has ones exactly at the columns listed in [chain]. *)
Definition ind_row (n : nat) (chain : list Z) : list Z :=
  map (fun c => if existsb (Z.eqb (Z.of_nat c)) chain then 1 else 0) (seq 0 n).

(** The interleaved repetition of [arange(lo, lo + n)], each entry [q]
    times: position [x] holds [lo + x / q]. *)
Definition interleave (lo : Z) (n q : nat) : list Z :=
  flatten (transpose n (repeat (map (fun k => lo + Z.of_nat k) (seq 0 n)) q)).

(** Loop invariant of step 2 after [k] iterations: the rows of every level
    below [k] are final (ones exactly on the ancestor chain); the other rows
    are still rows of the identity. *)
Definition mask_inv (b : list Z) (n k : nat) (s : list (list Z) * Z) : Prop :=
  snd s = match k with O => -1 | S j => st b j end
  /\ length (fst s) = n
  /\ (forall (j : nat) (o : Z), (j < k)%nat -> 0 <= o < cp b (S j) ->
        nth (Z.to_nat (st b j + o)) (fst s) [] = ind_row n (chain_at b j o))
  /\ (forall r : nat, (Z.to_nat (st b k) <= r < n)%nat ->
        nth r (fst s) [] = eye_row n r).

(** What the builder returns on a non-empty specification of positive
    branch factors. *)
Record built (b : list Z) (bufs : medusa_buffers) : Prop := {
  built_mask_rows :
    length (medusa_attn_mask bufs) = Z.to_nat (sum (cumprod b));
  built_mask_chain :
    forall (j : nat) (o : Z), (j < length b)%nat -> 0 <= o < cp b (S j) ->
      nth (Z.to_nat (st b j + o)) (medusa_attn_mask bufs) []
      = ind_row (Z.to_nat (sum (cumprod b))) (chain_at b j o);
  built_tree_indices : len (tree_indices bufs) = sum (cumprod b);
  built_position_ids : medusa_position_ids bufs = position_ids_of b;
  built_retrieve_rows :
    length (retrieve_indices bufs) = Z.to_nat (prod b);
  built_retrieve_cols :
    Forall (fun row => length row = length b) (retrieve_indices bufs);
  built_retrieve_entry :
    forall (r j : nat), (r < Z.to_nat (prod b))%nat -> (j < length b)%nat ->
      nth j (nth r (retrieve_indices bufs) []) 0
      = st b j + Z.of_nat r / prod (skipn (S j) b)
}.

(** [nve r]: the computation [r] does not raise [ValueError]. *)
Definition nve {A : Type} (r : result A) : Prop := r <> inl ValueError.

Create HintDb nve.

End Topology.

(** ** Acceptance, position by position

    The notions the evaluator's outcome is stated with: which positions of
    which path are accepted, and what the accepted prefix of a path is. *)

Module Acceptance.

(** [k] is the length of the longest prefix of the positions [0 .. D-1]
    that are all accepted by [acc]: the first [k] positions are accepted and
    position [k], if there is one, is not. *)
Definition prefix_accepted (acc : nat -> bool) (D k : nat) : Prop :=
  (k <= D)%nat
  /\ (forall i : nat, (i < k)%nat -> acc i = true)
  /\ ((k < D)%nat -> acc k = false).

Fixpoint longest_true_prefix (m : list bool) : nat :=
  match m with
  | true :: t => S (longest_true_prefix t)
  | _ => O
  end.

(** Length of the accepted prefix of a path under the rule [acc]. *)
Definition accepted_length (acc : nat -> bool) (D : nat) : nat :=
  longest_true_prefix (map acc (seq 0 D)).

(** The 0/1 acceptance matrix of [P] paths with [D] positions each. *)
Definition mask_of (acc : nat -> nat -> bool) (P D : nat) : list (list Z) :=
  map (fun p => map (fun i => bool_to_int (acc p i)) (seq 0 D)) (seq 0 P).

Section Shapes.

Context {F : Type}.

(** [logits] is a [P x (D+1) x V] tensor and [candidates] a [P x (D+1)]
    matrix. *)
Definition shaped (P D V : nat) (logits : list (list (list F)))
    (candidates : list (list Z)) : Prop :=
  length logits = P
  /\ length candidates = P
  /\ Forall (fun path => length path = S D
                         /\ Forall (fun v => length v = V) path) logits
  /\ Forall (fun row => length row = S D) candidates.

(** Every proposed token is a vocabulary index. *)
Definition tokens_in_vocab (V : nat) (candidates : list (list Z)) : Prop :=
  Forall (Forall (fun tok => 0 <= tok < Z.of_nat V)) candidates.

End Shapes.

Section Rules.

Context {F : Type} {ops : FloatOps F}.

Variable logits : list (list (list F)).
Variable candidates : list (list Z).

(** Token proposed for position [i + 1] of path [p], and the logits the
    verification pass produced after position [i] of that path. *)
Definition proposed (p i : nat) : Z := nth (S i) (nth p candidates []) 0.
Definition verified (p i : nat) : list F := nth i (nth p logits []) [].

(** Greedy rule: the proposed token is the argmax of the verified logits. *)
Definition greedy_accepts (p i : nat) : bool :=
  proposed p i =? argmax_total (verified p i).

Variable temperature posterior_threshold posterior_alpha : F.

Definition prob_at (p i : nat) : list F :=
  softmax (map (fun x => fdiv x temperature) (verified p i)).

Definition cand_prob_at (p i : nat) : F :=
  nth (Z.to_nat (proposed p i)) (prob_at p i) fzero.

Definition threshold_at (p i : nat) : F :=
  threshold_of posterior_threshold posterior_alpha (entropy (prob_at p i)).

(** Typical-acceptance rule: the probability of the proposed token strictly
    exceeds [min(posterior_threshold, exp(-entropy) * posterior_alpha)]. *)
Definition typical_accepts (p i : nat) : bool :=
  tlt (threshold_at p i) (cand_prob_at p i).

(** Sum of the log-probabilities of the first [k] proposed tokens of path
    [p]. *)
Definition likelihood_at (k p : nat) : F :=
  fsum (map (fun i => flog (cand_prob_at p i)) (seq 0 k)).

End Rules.

End Acceptance.

(** ** The embedding at work *)

Module Examples.

(** The builder on the branch specification [[2, 3]]. *)
Example buffers_2_3 :
  generate_medusa_buffers [2; 3]
  = inr {| medusa_attn_mask :=
             [[1; 0; 0; 0; 0; 0; 0; 0]; [0; 1; 0; 0; 0; 0; 0; 0];
              [1; 0; 1; 0; 0; 0; 0; 0]; [1; 0; 0; 1; 0; 0; 0; 0];
              [1; 0; 0; 0; 1; 0; 0; 0]; [0; 1; 0; 0; 0; 1; 0; 0];
              [0; 1; 0; 0; 0; 0; 1; 0]; [0; 1; 0; 0; 0; 0; 0; 1]];
           tree_indices := [0; 1; 2; 3; 4; 2; 3; 4];
           medusa_position_ids := [0; 0; 1; 1; 1; 1; 1; 1];
           retrieve_indices := [[0; 2]; [0; 3]; [0; 4]; [1; 5]; [1; 6]; [1; 7]];
           list_indices :=
             [[0; 0; 0; 0; 0; 0]; [1; 1; 1; 1; 1; 1]; [2; 5; 2; 5; 2; 5];
              [3; 6; 3; 6; 3; 6]; [4; 7; 4; 7; 4; 7]] |}.
Proof. reflexivity. Qed.

(** Malformed specifications stop the builder in different places. *)
Example buffers_empty : generate_medusa_buffers [] = inl TypeError.
Proof. reflexivity. Qed.

Example buffers_zero : generate_medusa_buffers [2; 0] = inl ZeroDivisionError.
Proof. reflexivity. Qed.

Example buffers_negative : generate_medusa_buffers [2; -1] = inl RuntimeError.
Proof. reflexivity. Qed.

(** Two heads with top-K values 2 and 2 over integer-valued logits; the
    last tree index counts from the end of the pool. *)
Example candidates_2_2 :
  generate_candidates (F := Z) [[[[5; 1; 3]]]; [[[2; 9; 4]]]] [[[1; 7; 2]]]
    [2; 2] [0; 1; 2; 3; 4; -1]
  = inr (Tensor2 [[1; 0; 1]; [1; 0; 2]; [1; 2; 1]; [1; 2; 2]],
         [[1; 0; 2; 1; 2; 2]]).
Proof. reflexivity. Qed.

(** A finished sequence receives the padding token. *)
Example update_finished :
  update_inference_inputs (F := Z) [[100; 101]] [[5; 7]; [5; 8]] 0 1
    [[0; 1]; [0; 2]] [[[0; 1]; [1; 0]]; [[1; 0]; [0; 1]]] 10
    (Some 50) (Some 99) [0] false
  = inr {| upd_input_ids := [[100; 101; 99; 99]];
           upd_logits := [[[1; 0]]];
           upd_new_token := 12;
           upd_next_tokens := [[99; 99]] |}.
Proof. reflexivity. Qed.

Example update_without_pad :
  update_inference_inputs (F := Z) [[100; 101]] [[5; 7]; [5; 8]] 0 1
    [[0; 1]; [0; 2]] [[[0; 1]; [1; 0]]; [[1; 0]; [0; 1]]] 10
    (Some 50) None [1] false
  = inl ValueError.
Proof. reflexivity. Qed.

End Examples.

(** ** Facts about the closed forms *)

Module TopologyFacts.

Import Torch Topology.

Lemma cumprod_from_length (a : Z) (l : list Z) :
  length (cumprod_from a l) = length l.
Proof. revert a; induction l as [|x t IH]; intros a; simpl; auto. Qed.

Lemma cumsum_from_length (a : Z) (l : list Z) :
  length (cumsum_from a l) = length l.
Proof. revert a; induction l as [|x t IH]; intros a; simpl; auto. Qed.

Lemma cumprod_length (l : list Z) : length (cumprod l) = length l.
Proof. apply cumprod_from_length. Qed.

Lemma cumsum_length (l : list Z) : length (cumsum l) = length l.
Proof. apply cumsum_from_length. Qed.

Lemma cumprod_from_nth (l : list Z) : forall (a : Z) (i : nat),
  (i < length l)%nat ->
  nth i (cumprod_from a l) 0 = a * prod (firstn (S i) l).
Proof.
  induction l as [|x t IH]; intros a i Hi; simpl in Hi; [lia|].
  destruct i as [|i].
  - simpl. destruct t; simpl; lia.
  - change (nth (S i) (cumprod_from a (x :: t)) 0)
      with (nth i (cumprod_from (a * x) t) 0).
    rewrite IH by lia.
    change (firstn (S (S i)) (x :: t)) with (x :: firstn (S i) t).
    change (prod (x :: firstn (S i) t)) with (x * prod (firstn (S i) t)).
    lia.
Qed.

Lemma cumsum_from_nth (l : list Z) : forall (a : Z) (i : nat),
  (i < length l)%nat ->
  nth i (cumsum_from a l) 0 = a + sum (firstn (S i) l).
Proof.
  induction l as [|x t IH]; intros a i Hi; simpl in Hi; [lia|].
  destruct i as [|i].
  - simpl. destruct t; simpl; lia.
  - change (nth (S i) (cumsum_from a (x :: t)) 0)
      with (nth i (cumsum_from (a + x) t) 0).
    rewrite IH by lia.
    change (firstn (S (S i)) (x :: t)) with (x :: firstn (S i) t).
    change (sum (x :: firstn (S i) t)) with (x + sum (firstn (S i) t)).
    lia.
Qed.

Lemma cumprod_nth (b : list Z) (i : nat) :
  (i < length b)%nat -> nth i (cumprod b) 0 = cp b (S i).
Proof. intros Hi. unfold cumprod, cp. rewrite cumprod_from_nth by lia. lia. Qed.

Lemma cumsum_nth (b : list Z) (i : nat) :
  (i < length b)%nat -> nth i (cumsum b) 0 = cs b (S i).
Proof. intros Hi. unfold cumsum, cs. rewrite cumsum_from_nth by lia. lia. Qed.

Lemma sum_cons (x : Z) (l : list Z) : sum (x :: l) = x + sum l.
Proof. reflexivity. Qed.

Lemma prod_cons (x : Z) (l : list Z) : prod (x :: l) = x * prod l.
Proof. reflexivity. Qed.

Lemma sum_app (l1 l2 : list Z) : sum (l1 ++ l2) = sum l1 + sum l2.
Proof.
  induction l1 as [|x t IH]; [reflexivity|].
  rewrite <- app_comm_cons, !sum_cons, IH. lia.
Qed.

Lemma prod_app (l1 l2 : list Z) : prod (l1 ++ l2) = prod l1 * prod l2.
Proof.
  induction l1 as [|x t IH].
  - change (prod []) with 1. rewrite app_nil_l. lia.
  - rewrite <- app_comm_cons, !prod_cons, IH. lia.
Qed.

Lemma firstn_S_snoc {A : Type} (d : A) (l : list A) (i : nat) :
  (i < length l)%nat -> firstn (S i) l = firstn i l ++ [nth i l d].
Proof.
  revert i; induction l as [|x t IH]; intros i Hi; simpl in Hi; [lia|].
  destruct i as [|i]; simpl; [reflexivity|].
  f_equal. apply IH. lia.
Qed.

Lemma sum_firstn_S (l : list Z) (i : nat) :
  (i < length l)%nat -> sum (firstn (S i) l) = sum (firstn i l) + nth i l 0.
Proof.
  intros Hi. rewrite (firstn_S_snoc 0) by exact Hi.
  rewrite sum_app. change (sum [nth i l 0]) with (nth i l 0 + 0). lia.
Qed.

Lemma prod_firstn_S (l : list Z) (i : nat) :
  (i < length l)%nat -> prod (firstn (S i) l) = prod (firstn i l) * nth i l 0.
Proof.
  intros Hi. rewrite (firstn_S_snoc 0) by exact Hi.
  rewrite prod_app. change (prod [nth i l 0]) with (nth i l 0 * 1). lia.
Qed.

Lemma cp_0 (b : list Z) : cp b 0 = 1.
Proof. reflexivity. Qed.

Lemma cs_0 (b : list Z) : cs b 0 = 0.
Proof. reflexivity. Qed.

Lemma st_0 (b : list Z) : st b 0 = 0.
Proof. reflexivity. Qed.

Lemma cp_S (b : list Z) (i : nat) :
  (i < length b)%nat -> cp b (S i) = cp b i * nth i b 0.
Proof. apply prod_firstn_S. Qed.

Lemma cs_S (b : list Z) (i : nat) :
  (i < length b)%nat -> cs b (S i) = cs b i + nth i b 0.
Proof. apply sum_firstn_S. Qed.

Lemma st_S (b : list Z) (i : nat) :
  (i < length b)%nat -> st b (S i) = st b i + cp b (S i).
Proof.
  intros Hi. unfold st. rewrite sum_firstn_S by (rewrite cumprod_length; lia).
  rewrite cumprod_nth by lia. reflexivity.
Qed.

Lemma cp_all (b : list Z) : cp b (length b) = prod b.
Proof. unfold cp. rewrite firstn_all. reflexivity. Qed.

Lemma cs_all (b : list Z) : cs b (length b) = sum b.
Proof. unfold cs. rewrite firstn_all. reflexivity. Qed.

Lemma st_all (b : list Z) : st b (length b) = sum (cumprod b).
Proof.
  unfold st. rewrite <- (cumprod_length b). rewrite firstn_all. reflexivity.
Qed.

Lemma positive_nth (b : list Z) (i : nat) :
  positive_spec b -> (i < length b)%nat -> 0 < nth i b 0.
Proof.
  intros Hb Hi. unfold positive_spec in Hb. rewrite Forall_forall in Hb.
  apply Hb. apply nth_In. exact Hi.
Qed.

Lemma cp_pos (b : list Z) (k : nat) : positive_spec b -> 0 < cp b k.
Proof.
  intros Hb. unfold cp.
  assert (H : Forall (fun x => 0 < x) (firstn k b)).
  { apply Forall_forall. intros x Hx. unfold positive_spec in Hb.
    rewrite Forall_forall in Hb. apply Hb.
    rewrite <- (firstn_skipn k b). apply in_or_app. left. exact Hx. }
  induction H as [|x t Hx Ht IH]; [reflexivity|]. rewrite prod_cons. nia.
Qed.

Lemma st_mono_S (b : list Z) (k : nat) :
  positive_spec b -> st b k <= st b (S k).
Proof.
  intros Hb. destruct (Nat.lt_ge_cases k (length b)) as [Hk|Hk].
  - rewrite st_S by exact Hk. pose proof (cp_pos b (S k) Hb). lia.
  - unfold st. rewrite !firstn_all2 by (rewrite cumprod_length; lia). lia.
Qed.

Lemma st_nonneg (b : list Z) (k : nat) : positive_spec b -> 0 <= st b k.
Proof.
  intros Hb. induction k as [|k IH]; [rewrite st_0; lia|].
  pose proof (st_mono_S b k Hb). lia.
Qed.

Lemma st_mono (b : list Z) (j k : nat) :
  positive_spec b -> (j <= k)%nat -> st b j <= st b k.
Proof.
  intros Hb Hjk. induction Hjk as [|k Hjk IH]; [lia|].
  pose proof (st_mono_S b k Hb). lia.
Qed.

Lemma cs_mono_S (b : list Z) (k : nat) :
  positive_spec b -> cs b k <= cs b (S k).
Proof.
  intros Hb. destruct (Nat.lt_ge_cases k (length b)) as [Hk|Hk].
  - rewrite cs_S by exact Hk. pose proof (positive_nth b k Hb Hk). lia.
  - unfold cs. rewrite !firstn_all2 by lia. lia.
Qed.

Lemma cs_mono (b : list Z) (j k : nat) :
  positive_spec b -> (j <= k)%nat -> cs b j <= cs b k.
Proof.
  intros Hb Hjk. induction Hjk as [|k Hjk IH]; [lia|].
  pose proof (cs_mono_S b k Hb). lia.
Qed.

Lemma cs_nonneg (b : list Z) (k : nat) : positive_spec b -> 0 <= cs b k.
Proof.
  intros Hb. pose proof (cs_mono b 0 k Hb). rewrite cs_0 in H. lia.
Qed.

Lemma cs_le_sum (b : list Z) (k : nat) : positive_spec b -> cs b k <= sum b.
Proof.
  intros Hb. rewrite <- cs_all.
  destruct (Nat.le_ge_cases k (length b)) as [Hk|Hk].
  - apply cs_mono; assumption.
  - unfold cs. rewrite !firstn_all2 by lia. lia.
Qed.

Lemma chain_at_length (b : list Z) (i : nat) (o : Z) :
  length (chain_at b i o) = S i.
Proof. revert o; induction i as [|i IH]; intros o; simpl; auto. Qed.

Lemma chain_at_head (b : list Z) (i : nat) (o : Z) :
  hd 0 (chain_at b i o) = st b i + o.
Proof. destruct i; reflexivity. Qed.

Lemma chain_at_step (b : list Z) (i : nat) (o : Z) :
  chain_at b (S i) o
  = (st b (S i) + o) :: chain_at b i (node_parent b (S i) o - st b i).
Proof.
  unfold node_parent. simpl chain_at. f_equal. f_equal.
  rewrite Nat.sub_0_r. lia.
Qed.

Lemma offset_div_bound (b : list Z) (i : nat) (o : Z) :
  positive_spec b -> (S i < length b)%nat ->
  0 <= o < cp b (S (S i)) ->
  0 <= o / nth (S i) b 0 < cp b (S i).
Proof.
  intros Hb Hi Ho.
  pose proof (positive_nth b (S i) Hb Hi) as Hpos.
  rewrite (cp_S b (S i)) in Ho by exact Hi.
  split.
  - apply Z.div_pos; lia.
  - apply Z.div_lt_upper_bound; lia.
Qed.

Lemma chain_at_range (b : list Z) (i : nat) :
  positive_spec b -> (i < length b)%nat ->
  forall o : Z, 0 <= o < cp b (S i) ->
  Forall (fun x => 0 <= x < st b (S i)) (chain_at b i o).
Proof.
  intros Hb. induction i as [|i IH]; intros Hi o Ho.
  - constructor; [|constructor].
    rewrite st_S, st_0 by exact Hi. lia.
  - pose proof (st_nonneg b (S i) Hb) as Hst.
    cbn [chain_at]. constructor.
    + rewrite (st_S b (S i)) by exact Hi. lia.
    + pose proof (offset_div_bound b i o Hb Hi Ho) as Hdiv.
      specialize (IH ltac:(lia) _ Hdiv).
      eapply Forall_impl; [|exact IH].
      intros x Hx. cbn beta in Hx.
      pose proof (st_mono_S b (S i) Hb). lia.
Qed.

(** The ids along a chain decrease strictly: each ancestor lives in the
    level just above. *)
Lemma chain_at_NoDup (b : list Z) (i : nat) :
  positive_spec b -> (i < length b)%nat ->
  forall o : Z, 0 <= o < cp b (S i) -> NoDup (chain_at b i o).
Proof.
  intros Hb. induction i as [|i IH]; intros Hi o Ho.
  - simpl. constructor; [intros []|constructor].
  - cbn [chain_at]. pose proof (offset_div_bound b i o Hb Hi Ho) as Hdiv.
    constructor.
    + intros Hin.
      pose proof (chain_at_range b i Hb ltac:(lia) _ Hdiv) as Hr.
      rewrite Forall_forall in Hr. specialize (Hr _ Hin). lia.
    + apply IH; [lia | exact Hdiv].
Qed.

End TopologyFacts.

(** ** The builder on a well-formed branch specification *)

Module BuilderFacts.

Import Torch Topology TopologyFacts.

Lemma bind_inr {A B : Type} (m : result A) (k : A -> result B) (a : A) :
  m = inr a -> bind m k = k a.
Proof. intros ->. reflexivity. Qed.

Lemma bind_inr_inv {A B : Type} (m : result A) (k : A -> result B) (y : B) :
  bind m k = inr y -> exists a : A, m = inr a /\ k a = inr y.
Proof.
  destruct m as [e|a]; cbn [bind]; [discriminate|]. intros H. exists a. auto.
Qed.

Lemma for_range_S {S : Type} (n : nat) (body : nat -> S -> result S) (s : S) :
  for_range (Datatypes.S n) body s = bind (for_range n body s) (body n).
Proof. reflexivity. Qed.

Lemma len_app {A : Type} (l1 l2 : list A) : len (l1 ++ l2) = len l1 + len l2.
Proof. unfold len. rewrite length_app. lia. Qed.

Lemma length_concat_repeat {A : Type} (x : list A) (n : nat) :
  length (concat (repeat x n)) = (n * length x)%nat.
Proof.
  induction n as [|n IH]; simpl; [reflexivity|].
  rewrite length_app, IH. reflexivity.
Qed.

Lemma arange2_ok (lo hi : Z) :
  lo <= hi ->
  arange2 lo hi = inr (map (fun k => lo + Z.of_nat k) (seq 0 (Z.to_nat (hi - lo)))).
Proof.
  intros H. unfold arange2. destruct (Z.ltb_spec hi lo); [lia|reflexivity].
Qed.

Lemma repeat_rows_ok {A : Type} (k : Z) (x : A) :
  0 <= k -> repeat_rows k x = inr (repeat x (Z.to_nat k)).
Proof.
  intros H. unfold repeat_rows. destruct (Z.ltb_spec k 0); [lia|reflexivity].
Qed.

Lemma norm_bound_id (n i : Z) : 0 <= i <= n -> norm_bound n i = i.
Proof.
  intros H. unfold norm_bound. destruct (Z.ltb_spec i 0); lia.
Qed.

Lemma py_slice_length {A : Type} (l : list A) (lo hi : Z) :
  0 <= lo <= hi -> hi <= len l ->
  length (py_slice l lo hi) = Z.to_nat (hi - lo).
Proof.
  intros H1 H2. unfold py_slice.
  rewrite !norm_bound_id by lia.
  rewrite length_firstn, length_skipn. unfold len in H2. lia.
Qed.

(** Step 1 on a well-formed specification: after [k] iterations the list
    holds one index per node of depth below [k]. *)
Lemma tree_indices_loop_ok (b : list Z) (medusa_indices : list Z) :
  positive_spec b ->
  len medusa_indices = sum b ->
  forall k : nat, (k <= length b)%nat ->
  exists ti : list Z,
    for_range k (tree_indices_body b medusa_indices) ([], 0, 1)
      = inr (ti, cs b k, cp b k)
    /\ len ti = st b k.
Proof.
  intros Hb Hlen k. induction k as [|k IH]; intros Hk.
  - exists []. split; reflexivity.
  - destruct IH as [ti [Hrun Hti]]; [lia|].
    rewrite for_range_S, (bind_inr _ _ _ Hrun).
    unfold tree_indices_body.
    rewrite cumsum_nth, cumprod_nth by lia.
    pose proof (cp_pos b k Hb) as Hcp.
    rewrite repeat_rows_ok by lia. cbn [bind].
    eexists. split; [reflexivity|].
    rewrite len_app, Hti. unfold flatten, len.
    rewrite length_concat_repeat, py_slice_length.
    + rewrite st_S, cp_S, cs_S by lia.
      pose proof (positive_nth b k Hb ltac:(lia)) as Hbk.
      rewrite Nat2Z.inj_mul, !Z2Nat.id by lia. lia.
    + split; [apply cs_nonneg; exact Hb | apply cs_mono_S; exact Hb].
    + rewrite Hlen. apply cs_le_sum. exact Hb.
Qed.

(** *** Interleaved repetition: [x.repeat(q, 1).transpose(0, 1).flatten()] *)

Lemma transpose_repeat (r : list Z) (q : nat) :
  transpose (length r) (repeat r q)
  = map (fun j => repeat (nth j r 0) q) (seq 0 (length r)).
Proof.
  unfold transpose. apply map_ext. intros j. apply map_repeat.
Qed.

Lemma length_blocks {A : Type} (f : nat -> A) (q : nat) :
  forall (n s : nat),
  length (concat (map (fun j => repeat (f j) q) (seq s n))) = (n * q)%nat.
Proof.
  induction n as [|n IH]; intros s; simpl; [reflexivity|].
  rewrite length_app, repeat_length, IH. reflexivity.
Qed.

Lemma nth_blocks {A : Type} (f : nat -> A) (q : nat) (d : A) :
  forall (n s x : nat), (x < n * q)%nat ->
  nth x (concat (map (fun j => repeat (f j) q) (seq s n))) d
  = f (s + x / q)%nat.
Proof.
  induction n as [|n IH]; intros s x Hx; [simpl in Hx; lia|].
  assert (Hq : (0 < q)%nat) by (destruct q; lia).
  cbn [seq map concat].
  destruct (Nat.lt_ge_cases x q) as [Hlt|Hge].
  - rewrite app_nth1 by (rewrite repeat_length; exact Hlt).
    rewrite nth_repeat_lt by exact Hlt.
    rewrite Nat.div_small by exact Hlt. f_equal. lia.
  - rewrite app_nth2 by (rewrite repeat_length; lia).
    rewrite repeat_length, IH by (simpl in Hx; lia).
    f_equal.
    replace x with ((x - q) + 1 * q)%nat at 2 by lia.
    rewrite Nat.div_add by lia. lia.
Qed.

Lemma arange2_length (lo hi : Z) (r : list Z) :
  arange2 lo hi = inr r -> length r = Z.to_nat (hi - lo).
Proof.
  unfold arange2. destruct (Z.ltb_spec hi lo); [discriminate|].
  intros [= <-]. rewrite length_map, length_seq. reflexivity.
Qed.

Lemma nth_arange (lo : Z) (n j : nat) :
  (j < n)%nat ->
  nth j (map (fun k => lo + Z.of_nat k) (seq 0 n)) 0 = lo + Z.of_nat j.
Proof.
  intros Hj.
  rewrite (nth_indep _ 0 (lo + Z.of_nat 0)) by (rewrite length_map, length_seq; lia).
  rewrite (map_nth (fun k => lo + Z.of_nat k)), seq_nth by lia. reflexivity.
Qed.

Lemma interleave_length (lo : Z) (n q : nat) :
  length (interleave lo n q) = (n * q)%nat.
Proof.
  unfold interleave, flatten.
  pose proof (transpose_repeat (map (fun k => lo + Z.of_nat k) (seq 0 n)) q) as H.
  rewrite length_map, length_seq in H. rewrite H. apply length_blocks.
Qed.

Lemma interleave_nth (lo : Z) (n q x : nat) :
  (x < n * q)%nat ->
  nth x (interleave lo n q) 0 = lo + Z.of_nat (x / q).
Proof.
  intros Hx. unfold interleave, flatten.
  pose proof (transpose_repeat (map (fun k => lo + Z.of_nat k) (seq 0 n)) q) as H.
  rewrite length_map, length_seq in H. rewrite H.
  rewrite (nth_blocks (fun j => nth j (map (fun k => lo + Z.of_nat k) (seq 0 n)) 0))
    by exact Hx.
  assert (Hq : (0 < q)%nat) by (destruct q; lia).
  apply nth_arange. simpl.
  apply Nat.Div0.div_lt_upper_bound. lia.
Qed.

(** *** Divisibility of the number of paths by every level size *)

Lemma prod_split (b : list Z) (k : nat) :
  prod b = cp b k * prod (skipn k b).
Proof.
  unfold cp. rewrite <- prod_app, firstn_skipn. reflexivity.
Qed.

Lemma prod_skipn_pos (b : list Z) (k : nat) :
  positive_spec b -> 0 < prod (skipn k b).
Proof.
  intros Hb.
  assert (H : Forall (fun x => 0 < x) (skipn k b)).
  { apply Forall_forall. intros x Hx. unfold positive_spec in Hb.
    rewrite Forall_forall in Hb. apply Hb.
    rewrite <- (firstn_skipn k b). apply in_or_app. right. exact Hx. }
  induction H as [|x t Hx Ht IH]; [reflexivity|]. rewrite prod_cons. nia.
Qed.

Lemma prod_div_cp (b : list Z) (k : nat) :
  positive_spec b -> prod b / cp b k = prod (skipn k b).
Proof.
  intros Hb. rewrite (prod_split b k).
  pose proof (cp_pos b k Hb).
  rewrite Z.mul_comm, Z.div_mul by lia. reflexivity.
Qed.

Lemma prod_pos (b : list Z) : positive_spec b -> 0 < prod b.
Proof. intros Hb. rewrite <- cp_all. apply cp_pos. exact Hb. Qed.

(** *** Column assignment *)

Lemma set_nth_length {A : Type} (i : nat) (v : A) (l : list A) :
  length (set_nth i v l) = length l.
Proof.
  revert i; induction l as [|x t IH]; intros [|i]; simpl; auto.
Qed.

Lemma set_nth_same {A : Type} (i : nat) (v d : A) (l : list A) :
  (i < length l)%nat -> nth i (set_nth i v l) d = v.
Proof.
  revert i; induction l as [|x t IH]; intros [|i] Hi; simpl in *;
    try lia; auto. apply IH. lia.
Qed.

Lemma set_nth_other {A : Type} (i j : nat) (v d : A) (l : list A) :
  i <> j -> nth j (set_nth i v l) d = nth j l d.
Proof.
  revert i j; induction l as [|x t IH]; intros [|i] [|j] Hij; simpl;
    try reflexivity; try lia. apply IH. lia.
Qed.

Lemma set_column_ok (m : list (list Z)) (i : nat) (col : list Z) :
  length col = length m ->
  exists m' : list (list Z),
    set_column m i col = inr m'
    /\ length m' = length m
    /\ forall r : nat, (r < length m)%nat ->
         nth r m' [] = set_nth i (nth r col 0) (nth r m []).
Proof.
  intros Hlen. unfold set_column. rewrite Hlen, Nat.eqb_refl.
  eexists. split; [reflexivity|]. split.
  - rewrite length_map, length_combine. lia.
  - intros r Hr.
    rewrite (nth_indep _ [] ((fun p => set_nth i (snd p) (fst p)) ([], 0)))
      by (rewrite length_map, length_combine; lia).
    rewrite (map_nth (fun p : list Z * Z => set_nth i (snd p) (fst p))).
    rewrite combine_nth by lia. reflexivity.
Qed.

(** Step 4 on a well-formed specification: after [k] iterations the first
    [k] columns are filled; column [j] of row [r] holds the node of depth
    [j] that path [r] goes through. *)
Lemma retrieve_loop_ok (b : list Z) (m0 : list (list Z)) :
  positive_spec b ->
  length m0 = Z.to_nat (prod b) ->
  Forall (fun row => length row = length b) m0 ->
  forall k : nat, (k <= length b)%nat ->
  exists m : list (list Z),
    for_range k (retrieve_body b (prod b)) (m0, 0) = inr (m, st b k)
    /\ length m = Z.to_nat (prod b)
    /\ Forall (fun row => length row = length b) m
    /\ forall (r j : nat), (r < Z.to_nat (prod b))%nat -> (j < k)%nat ->
         nth j (nth r m []) 0
         = st b j + Z.of_nat r / prod (skipn (S j) b).
Proof.
  intros Hb Hm0 Hrows k. induction k as [|k IH]; intros Hk.
  - exists m0. repeat split; auto. intros r j _ Hj. lia.
  - destruct IH as [m [Hrun [Hlen [Hall Hcols]]]]; [lia|].
    rewrite for_range_S, (bind_inr _ _ _ Hrun).
    unfold retrieve_body.
    pose proof (cp_pos b (S k) Hb) as Hcp.
    pose proof (prod_skipn_pos b (S k) Hb) as Hq.
    pose proof (prod_pos b Hb) as HP.
    assert (Hst : sum (firstn (S k) (cumprod b)) = st b (S k)) by reflexivity.
    rewrite Hst, st_S by lia.
    rewrite arange2_ok by lia. cbn [bind].
    unfold floordiv.
    replace (st b k + cp b (S k) - st b k) with (cp b (S k)) by lia.
    destruct (Z.eqb_spec (cp b (S k)) 0) as [H0|_]; [lia|]. cbn [bind].
    rewrite prod_div_cp by exact Hb. cbn [bind ret].
    rewrite repeat_rows_ok by lia. cbn [bind].
    rewrite length_map, length_seq.
    fold (interleave (st b k) (Z.to_nat (cp b (S k)))
            (Z.to_nat (prod (skipn (S k) b)))).
    set (col := interleave _ _ _).
    assert (Hcol : length col = length m).
    { unfold col. rewrite interleave_length, Hlen.
      rewrite (prod_split b (S k)). rewrite Z2Nat.inj_mul by lia. reflexivity. }
    destruct (set_column_ok m k col Hcol) as [m' [Hset [Hlen' Hnth]]].
    rewrite Hset. cbn [bind].
    exists m'. split; [reflexivity|]. split; [lia|]. split.
    + apply Forall_forall. intros row Hin.
      destruct (In_nth _ _ [] Hin) as [r [Hr Hrow]].
      rewrite <- Hrow, Hnth by lia. rewrite set_nth_length.
      rewrite Forall_forall in Hall. apply Hall. apply nth_In. lia.
    + intros r j Hr Hj. rewrite Hnth by lia.
      destruct (Nat.eq_dec j k) as [->|Hne].
      * rewrite set_nth_same.
        -- unfold col. rewrite interleave_nth.
           ++ rewrite Nat2Z.inj_div, Z2Nat.id by lia. reflexivity.
           ++ rewrite <- Z2Nat.inj_mul, <- prod_split by lia. exact Hr.
        -- rewrite Forall_forall in Hall. rewrite (Hall (nth r m [])).
           ++ lia.
           ++ apply nth_In. lia.
      * rewrite set_nth_other by lia. apply Hcols; lia.
Qed.

(** *** Step 5 never fails on a well-formed specification *)

Lemma fold_max_eq (l : list Z) (d m : Z) :
  (forall x, In x l -> x <= m) -> d <= m -> In m l \/ d = m ->
  fold_right Z.max d l = m.
Proof.
  intros Hle Hd Hin.
  assert (Hub : fold_right Z.max d l <= m).
  { clear Hin. induction l as [|x t IH]; simpl; [exact Hd|].
    apply Z.max_lub; [apply Hle; left; reflexivity|].
    apply IH. intros y Hy. apply Hle. right. exact Hy. }
  assert (Hlb : m <= fold_right Z.max d l).
  { clear Hub Hle Hd. induction l as [|x t IH]; simpl.
    - destruct Hin as [[]|Hin]. lia.
    - destruct Hin as [[Hin|Hin]|Hin].
      + subst x. apply Z.le_max_l.
      + etransitivity; [apply IH; left; exact Hin | apply Z.le_max_r].
      + etransitivity; [apply IH; right; exact Hin | apply Z.le_max_r]. }
  lia.
Qed.

Lemma cp_le_prod (b : list Z) (k : nat) : positive_spec b -> cp b k <= prod b.
Proof.
  intros Hb. rewrite (prod_split b k).
  pose proof (cp_pos b k Hb). pose proof (prod_skipn_pos b k Hb). nia.
Qed.

Lemma cumprod_max (b : list Z) :
  positive_spec b -> b <> [] ->
  fold_right Z.max (hd 0 (cumprod b)) (cumprod b) = prod b.
Proof.
  intros Hb Hne.
  assert (HL : (0 < length b)%nat) by (destruct b; [congruence | simpl; lia]).
  assert (Hall : forall x, In x (cumprod b) -> x <= prod b).
  { intros x Hx. destruct (In_nth _ _ 0 Hx) as [i [Hi <-]].
    rewrite cumprod_length in Hi. rewrite cumprod_nth by exact Hi.
    apply cp_le_prod. exact Hb. }
  apply fold_max_eq.
  - exact Hall.
  - apply Hall. destruct b as [|x t]; [congruence|]. left. reflexivity.
  - left. rewrite <- cp_all.
    replace (length b) with (S (length b - 1)) by lia.
    rewrite <- cumprod_nth by lia. apply nth_In. rewrite cumprod_length. lia.
Qed.

Lemma tensor_floordiv_ok (a c : Z) : c <> 0 -> tensor_floordiv a c = inr (a / c).
Proof.
  intros H. unfold tensor_floordiv. destruct (Z.eqb_spec c 0); [lia|reflexivity].
Qed.

Lemma tile_rows_ok {A : Type} (k : Z) (m : list A) :
  0 <= k -> tile_rows k m = inr (concat (repeat m (Z.to_nat k))).
Proof.
  intros H. unfold tile_rows. destruct (Z.ltb_spec k 0); [lia|reflexivity].
Qed.

Lemma list_indices_loop_ok (b : list Z) :
  positive_spec b ->
  forall k : nat, (k <= length b)%nat ->
  exists blocks : list (list (list Z)),
    for_range k (list_indices_body b (prod b)) ([], 0) = inr (blocks, st b k)
    /\ length blocks = k
    /\ Forall (fun m => length m = Z.to_nat (prod b)) blocks.
Proof.
  intros Hb k. induction k as [|k IH]; intros Hk.
  - exists []. repeat split; auto.
  - destruct IH as [blocks [Hrun [Hlen Hall]]]; [lia|].
    rewrite for_range_S, (bind_inr _ _ _ Hrun).
    unfold list_indices_body.
    pose proof (positive_nth b k Hb ltac:(lia)) as Hbk.
    pose proof (cp_pos b k Hb) as Hcp.
    pose proof (prod_skipn_pos b k Hb) as Hq.
    rewrite arange2_ok by lia. cbn [bind].
    rewrite cumprod_nth, cp_S by lia.
    rewrite tensor_floordiv_ok by lia. cbn [bind].
    rewrite Z.div_mul by lia.
    rewrite repeat_rows_ok by lia. cbn [bind].
    unfold arange. rewrite arange2_ok by lia. cbn [bind].
    rewrite tensor_floordiv_ok by lia. cbn [bind].
    rewrite prod_div_cp by exact Hb.
    rewrite tile_rows_ok by lia. cbn [bind ret].
    eexists. split; [rewrite st_S, cp_S by lia; reflexivity|].
    split; [rewrite length_app, Hlen; simpl; lia|].
    apply Forall_app. split; [exact Hall|].
    constructor; [|constructor].
    rewrite length_concat_repeat, length_map, length_combine.
    rewrite repeat_length, length_map, length_seq.
    rewrite Z.sub_0_r, Nat.min_id.
    rewrite (prod_split b k), Z2Nat.inj_mul by lia. lia.
Qed.

Lemma cat_dim1_ok (n : nat) (blocks : list (list (list Z))) :
  blocks <> [] ->
  Forall (fun m => length m = n) blocks ->
  exists c : list (list Z), cat_dim1 blocks = inr c /\ length c = n.
Proof.
  intros Hne Hall. induction Hall as [|m rest Hm Hrest IH]; [congruence|].
  destruct rest as [|m2 rest'].
  - exists m. split; [reflexivity | exact Hm].
  - destruct IH as [c [Hc Hlen]]; [discriminate|].
    change (cat_dim1 (m :: m2 :: rest'))
      with (r <- cat_dim1 (m2 :: rest') ;;
            if Nat.eqb (length m) (length r)
            then ret (map (fun p => fst p ++ snd p) (combine m r))
            else raise RuntimeError).
    rewrite Hc. cbn [bind]. rewrite Hm, Hlen, Nat.eqb_refl.
    eexists. split; [reflexivity|].
    rewrite length_map, length_combine. lia.
Qed.

(** *** Step 3: position ids *)

Lemma flat_map_seq_S {A : Type} (f : nat -> list A) (k : nat) :
  flat_map f (seq 0 (S k)) = flat_map f (seq 0 k) ++ f k.
Proof.
  rewrite seq_S, flat_map_app. simpl. rewrite app_nil_r. reflexivity.
Qed.

Lemma position_ids_prefix (b : list Z) :
  positive_spec b ->
  forall k : nat, (k <= length b)%nat ->
  let pos :=
    flat_map (fun i => repeat (Z.of_nat i) (Z.to_nat (nth i (cumprod b) 0)))
             (seq 0 k) in
  len pos = st b k
  /\ forall (d : nat) (r : Z), (d < k)%nat -> st b d <= r < st b (S d) ->
       nth (Z.to_nat r) pos 0 = Z.of_nat d.
Proof.
  intros Hb k. induction k as [|k IH]; intros Hk pos.
  - split; [reflexivity|]. intros d r Hd. lia.
  - destruct IH as [IHlen IHnth]; [lia|].
    subst pos. rewrite flat_map_seq_S.
    set (pre := flat_map _ (seq 0 k)) in *.
    rewrite cumprod_nth by lia.
    pose proof (cp_pos b (S k) Hb) as Hcp.
    pose proof (st_nonneg b k Hb) as Hst.
    split.
    + rewrite len_app, IHlen. unfold len. rewrite repeat_length.
      rewrite st_S by lia. lia.
    + intros d r Hd Hr.
      pose proof (st_nonneg b d Hb) as Hstd.
      destruct (Nat.eq_dec d k) as [->|Hne].
      * rewrite app_nth2 by (unfold len in IHlen; lia).
        rewrite st_S in Hr by lia.
        apply nth_repeat_lt. unfold len in IHlen. lia.
      * pose proof (st_mono b (S d) k Hb ltac:(lia)) as Hmono.
        rewrite app_nth1 by (unfold len in IHlen; lia).
        apply IHnth; [lia | exact Hr].
Qed.

Lemma position_ids_length (b : list Z) :
  positive_spec b -> len (position_ids_of b) = sum (cumprod b).
Proof.
  intros Hb. rewrite <- st_all.
  apply (position_ids_prefix b Hb (length b)). lia.
Qed.

Lemma position_ids_depth (b : list Z) (d : nat) (r : Z) :
  positive_spec b -> (d < length b)%nat -> st b d <= r < st b (S d) ->
  depth_of (position_ids_of b) r = d.
Proof.
  intros Hb Hd Hr. unfold depth_of.
  pose proof (position_ids_prefix b Hb (length b) ltac:(lia)) as [_ H].
  unfold position_ids_of. rewrite (H d r Hd Hr). apply Nat2Z.id.
Qed.

(** Every node id lies in exactly one level. *)
Lemma node_level (b : list Z) (r : Z) :
  positive_spec b -> 0 <= r < sum (cumprod b) ->
  exists d : nat, (d < length b)%nat /\ st b d <= r < st b (S d).
Proof.
  intros Hb Hr. rewrite <- st_all in Hr.
  induction (length b) as [|n IH].
  - rewrite st_0 in Hr. lia.
  - destruct (Z.lt_ge_cases r (st b n)) as [Hlt|Hge].
    + destruct IH as [d [Hd Hin]]; [lia|]. exists d. split; [lia | exact Hin].
    + exists n. split; [lia|]. lia.
Qed.

(** *** Step 2: the attention mask *)

Lemma norm_index_ok (n i : Z) : 0 <= i < n -> norm_index n i = inr (Z.to_nat i).
Proof.
  intros H. unfold norm_index.
  destruct (Z.leb_spec 0 i); [|lia]. destruct (Z.ltb_spec i n); [|lia].
  reflexivity.
Qed.

Lemma index_rows_ok {A : Type} (d : A) (m : list A) (idx : list Z) :
  Forall (fun i => 0 <= i < len m) idx ->
  index_rows d m idx = inr (map (fun i => nth (Z.to_nat i) m d) idx).
Proof.
  intros H. unfold index_rows. induction H as [|i t Hi Ht IH]; [reflexivity|].
  cbn [map_result]. rewrite norm_index_ok by exact Hi. cbn [bind ret].
  rewrite IH. reflexivity.
Qed.

Lemma add_row_maps {A : Type} (f g : A -> Z) (l : list A) :
  add_row (map f l) (map g l) = map (fun x => f x + g x) l.
Proof.
  unfold add_row. induction l as [|x t IH]; simpl; [reflexivity|].
  f_equal. exact IH.
Qed.

Lemma iadd_rows_ok (m : list (list Z)) (lo hi : Z) (src : list (list Z)) :
  0 <= lo <= hi -> hi <= len m ->
  length src = Z.to_nat (hi - lo) ->
  exists m' : list (list Z),
    iadd_rows m lo hi src = inr m'
    /\ length m' = length m
    /\ forall r : nat, (r < length m)%nat ->
         nth r m' []
         = if (Z.to_nat lo <=? r)%nat && (r <? Z.to_nat hi)%nat
           then add_row (nth r m []) (nth (r - Z.to_nat lo) src [])
           else nth r m [].
Proof.
  intros Hlo Hhi Hsrc. unfold iadd_rows.
  rewrite !norm_bound_id by lia. rewrite Hsrc, Nat.eqb_refl.
  unfold len in Hhi.
  set (lo' := Z.to_nat lo). set (cnt := Z.to_nat (hi - lo)).
  assert (Hcnt : (lo' + cnt = Z.to_nat hi)%nat) by (subst lo' cnt; lia).
  assert (Hle : (lo' + cnt <= length m)%nat) by lia.
  set (mid := map (fun p => add_row (fst p) (snd p))
                  (combine (firstn cnt (skipn lo' m)) src)).
  assert (Hmid : length mid = cnt).
  { subst mid. rewrite length_map, length_combine, length_firstn, length_skipn.
    fold cnt in Hsrc. lia. }
  eexists. split; [reflexivity|]. split.
  - rewrite !length_app, Hmid, length_firstn, length_skipn. lia.
  - intros r Hr. rewrite <- Hcnt.
    destruct (Nat.leb_spec lo' r) as [H1|H1]; cbn [andb].
    + rewrite app_nth2 by (rewrite length_firstn; lia).
      rewrite length_firstn, Nat.min_l by lia.
      destruct (Nat.ltb_spec r (lo' + cnt)) as [H2|H2].
      * rewrite app_nth1 by lia. subst mid.
        rewrite (nth_indep _ [] ((fun p => add_row (fst p) (snd p)) ([], [])))
          by (rewrite length_map, length_combine, length_firstn, length_skipn;
              fold cnt in Hsrc; lia).
        rewrite (map_nth (fun p : list Z * list Z => add_row (fst p) (snd p))).
        rewrite combine_nth
          by (rewrite length_firstn, length_skipn; fold cnt in Hsrc; lia).
        cbn [fst snd]. rewrite nth_firstn.
        destruct (Nat.ltb_spec (r - lo') cnt); [|lia].
        rewrite nth_skipn. do 2 f_equal. lia.
      * rewrite app_nth2 by lia. rewrite Hmid, nth_skipn. f_equal. lia.
    + rewrite app_nth1 by (rewrite length_firstn; lia).
      rewrite nth_firstn. destruct (Nat.ltb_spec r lo'); [reflexivity|lia].
Qed.

Lemma eye_row_ind (n r : nat) : eye_row n r = ind_row n [Z.of_nat r].
Proof.
  unfold eye_row, ind_row. apply map_ext. intros c. cbn [existsb].
  rewrite orb_false_r.
  destruct (Nat.eqb_spec r c) as [->|Hne].
  - rewrite Z.eqb_refl. reflexivity.
  - destruct (Z.eqb_spec (Z.of_nat c) (Z.of_nat r)); [lia|reflexivity].
Qed.

Lemma existsb_eqb_In (x : Z) (l : list Z) :
  existsb (Z.eqb x) l = true <-> In x l.
Proof.
  rewrite existsb_exists. split.
  - intros [y [Hy Heq]]. apply Z.eqb_eq in Heq. subst. exact Hy.
  - intros H. exists x. split; [exact H | apply Z.eqb_refl].
Qed.

Lemma add_eye_ind (n r : nat) (chain : list Z) :
  ~ In (Z.of_nat r) chain ->
  add_row (eye_row n r) (ind_row n chain) = ind_row n (Z.of_nat r :: chain).
Proof.
  intros Hnot. unfold eye_row, ind_row. rewrite add_row_maps.
  apply map_ext. intros c. cbn [existsb].
  destruct (Nat.eqb_spec r c) as [->|Hne].
  - rewrite Z.eqb_refl. cbn [orb].
    destruct (existsb (Z.eqb (Z.of_nat c)) chain) eqn:E; [|reflexivity].
    apply existsb_eqb_In in E. contradiction.
  - destruct (Z.eqb_spec (Z.of_nat c) (Z.of_nat r)); [lia|]. cbn [orb].
    destruct (existsb (Z.eqb (Z.of_nat c)) chain); reflexivity.
Qed.

Lemma eye_rows (n r : nat) :
  (r < n)%nat -> nth r (map (eye_row n) (seq 0 n)) [] = eye_row n r.
Proof.
  intros Hr.
  rewrite (nth_indep _ [] (eye_row n 0)) by (rewrite length_map, length_seq; lia).
  rewrite (map_nth (eye_row n)), seq_nth by lia. reflexivity.
Qed.

Lemma interleave_range (lo : Z) (n q : nat) (hi : Z) :
  0 <= lo -> lo + Z.of_nat n <= hi ->
  Forall (fun i => 0 <= i < hi) (interleave lo n q).
Proof.
  intros Hlo Hhi. apply Forall_forall. intros x Hx.
  destruct (In_nth _ _ 0 Hx) as [j [Hj <-]].
  rewrite interleave_length in Hj. rewrite interleave_nth by exact Hj.
  assert (Hq : (0 < q)%nat) by (destruct q; lia).
  assert ((j / q < n)%nat) by (apply Nat.Div0.div_lt_upper_bound; lia).
  lia.
Qed.

(** The parent tensor of level [j + 1] lists, for the node of offset [o],
    the node of offset [o / b[j + 1]] of level [j]. *)
Lemma parent_idx_of_ok (b : list Z) (j : nat) :
  positive_spec b -> (S j < length b)%nat ->
  parent_idx_of (st b j) (st b (S j)) (nth (S j) b 0)
  = inr (interleave (st b j) (Z.to_nat (cp b (S j))) (Z.to_nat (nth (S j) b 0))).
Proof.
  intros Hb Hk. unfold parent_idx_of.
  pose proof (cp_pos b (S j) Hb) as Hcpj.
  pose proof (positive_nth b (S j) Hb Hk) as Hbk.
  rewrite (st_S b j) by lia.
  rewrite arange2_ok by lia. cbn [bind].
  rewrite repeat_rows_ok by lia. cbn [bind ret].
  rewrite length_map, length_seq.
  replace (st b j + cp b (S j) - st b j) with (cp b (S j)) by lia.
  reflexivity.
Qed.

Lemma parent_idx_entry (b : list Z) (j : nat) (o : Z) :
  positive_spec b -> (S j < length b)%nat -> 0 <= o < cp b (S (S j)) ->
  exists parent_idx : list Z,
    parent_idx_of (st b j) (st b (S j)) (nth (S j) b 0) = inr parent_idx
    /\ len parent_idx = cp b (S (S j))
    /\ nth (Z.to_nat o) parent_idx 0 = node_parent b (S j) o.
Proof.
  intros Hb Hk Ho.
  pose proof (cp_pos b (S j) Hb) as Hcpj.
  pose proof (positive_nth b (S j) Hb Hk) as Hbk.
  eexists. split; [apply parent_idx_of_ok; assumption|]. split.
  - unfold len. rewrite interleave_length, (cp_S b (S j)) by lia.
    rewrite Nat2Z.inj_mul, !Z2Nat.id by lia. reflexivity.
  - rewrite interleave_nth
      by (rewrite <- Z2Nat.inj_mul, <- (cp_S b (S j)) by lia; lia).
    rewrite Nat2Z.inj_div, !Z2Nat.id by lia.
    unfold node_parent. rewrite Nat.sub_succ, Nat.sub_0_r. reflexivity.
Qed.

Lemma mask_step (b : list Z) (k : nat) (s : list (list Z) * Z) :
  positive_spec b -> (k < length b)%nat ->
  mask_inv b (Z.to_nat (sum (cumprod b))) k s ->
  exists s' : list (list Z) * Z,
    attn_mask_body b k s = inr s'
    /\ mask_inv b (Z.to_nat (sum (cumprod b))) (S k) s'.
Proof.
  intros Hb Hk [Hprev [Hlen [Hdone Htodo]]].
  destruct s as [mask prev]. cbn [fst snd] in *.
  set (n := Z.to_nat (sum (cumprod b))) in *.
  assert (HN : sum (cumprod b) = st b (length b)) by (symmetry; apply st_all).
  pose proof (st_nonneg b k Hb) as Hstk.
  pose proof (st_mono b (S k) (length b) Hb ltac:(lia)) as HstSk.
  pose proof (cp_pos b (S k) Hb) as HcpSk.
  unfold attn_mask_body.
  assert (Hsum : sum (firstn k (cumprod b)) = st b k) by reflexivity.
  rewrite Hsum.
  destruct k as [|j].
  - (* first level: nothing to inherit *)
    subst prev. cbn [Z.eqb negb bind ret].
    eexists. split; [reflexivity|]. unfold mask_inv. cbn [fst snd].
    split; [reflexivity|]. split; [exact Hlen|]. split.
    + intros j o Hj Ho. assert (j = 0%nat) by lia. subst j.
      rewrite st_0, Z.add_0_l.
      rewrite st_S, st_0 in HstSk by lia.
      rewrite Htodo by (rewrite st_0; lia).
      rewrite eye_row_ind, Z2Nat.id by lia.
      cbn [chain_at]. rewrite st_0, Z.add_0_l. reflexivity.
    + intros r Hr. apply Htodo. rewrite st_0. lia.
  - (* deeper levels inherit the parent's row *)
    subst prev.
    pose proof (st_nonneg b j Hb) as Hstj.
    pose proof (cp_pos b (S j) Hb) as Hcpj.
    pose proof (positive_nth b (S j) Hb Hk) as Hbk.
    destruct (Z.eqb_spec (st b j) (-1)) as [Hbad|_]; [lia|]. cbn [negb].
    rewrite (parent_idx_of_ok b j Hb Hk). cbn [bind].
    set (pidx := interleave _ _ _).
    assert (Hplen : length pidx = Z.to_nat (cp b (S (S j)))).
    { subst pidx. rewrite interleave_length, (cp_S b (S j)) by lia.
      rewrite Z2Nat.inj_mul by lia. reflexivity. }
    assert (Hprange : Forall (fun i => 0 <= i < len mask) pidx).
    { subst pidx. apply interleave_range; [lia|].
      unfold len. rewrite Hlen. subst n. rewrite HN.
      pose proof (st_mono b (S j) (length b) Hb ltac:(lia)) as Hm.
      rewrite (st_S b j) in Hm by lia. lia. }
    rewrite (index_rows_ok [] mask pidx Hprange). cbn [bind].
    set (src := map (fun i => nth (Z.to_nat i) mask []) pidx).
    assert (Hhi : st b (S j) + len pidx = st b (S (S j))).
    { unfold len. rewrite Hplen, (st_S b (S j)) by lia. lia. }
    rewrite Hhi.
    destruct (iadd_rows_ok mask (st b (S j)) (st b (S (S j))) src)
      as [mask' [Hrun [Hlen' Hrows]]].
    + pose proof (st_nonneg b (S j) Hb). rewrite (st_S b (S j)) by lia. lia.
    + unfold len. rewrite Hlen. subst n. lia.
    + subst src. rewrite length_map, Hplen, (st_S b (S j)) by lia. f_equal. lia.
    + rewrite Hrun. cbn [bind ret].
      eexists. split; [reflexivity|]. unfold mask_inv. cbn [fst snd].
      split; [reflexivity|]. split; [lia|]. split.
      * intros i o Hi Ho.
        pose proof (st_nonneg b i Hb) as Hsti.
        assert (Hin : (Z.to_nat (st b i + o) < length mask)%nat).
        { rewrite Hlen. subst n.
          pose proof (st_mono b (S i) (length b) Hb ltac:(lia)) as Hm.
          rewrite (st_S b i) in Hm by lia. lia. }
        rewrite Hrows by exact Hin.
        destruct (Nat.eq_dec i (S j)) as [->|Hne].
        -- destruct (Nat.leb_spec (Z.to_nat (st b (S j))) (Z.to_nat (st b (S j) + o)));
             [|lia].
           destruct (Nat.ltb_spec (Z.to_nat (st b (S j) + o)) (Z.to_nat (st b (S (S j)))));
             [|rewrite (st_S b (S j)) in * by lia; lia].
           cbn [andb].
           rewrite Htodo by lia.
           replace (Z.to_nat (st b (S j) + o) - Z.to_nat (st b (S j)))%nat
             with (Z.to_nat o) by lia.
           subst src.
           rewrite (nth_indep _ [] ((fun i => nth (Z.to_nat i) mask []) 0))
             by (rewrite length_map, Hplen; lia).
           rewrite (map_nth (fun i => nth (Z.to_nat i) mask [])).
           subst pidx. rewrite interleave_nth
             by (rewrite <- Z2Nat.inj_mul, <- (cp_S b (S j)) by lia; lia).
           rewrite Nat2Z.inj_div, !Z2Nat.id by lia.
           pose proof (offset_div_bound b j o Hb Hk Ho) as Hdiv.
           rewrite Hdone by (try lia; exact Hdiv).
           cbn [chain_at].
           replace (st b (S j) + o) with (Z.of_nat (Z.to_nat (st b (S j) + o))) at 2
             by lia.
           apply add_eye_ind.
           intros Hmem.
           pose proof (chain_at_range b j Hb ltac:(lia) _ Hdiv) as Hr.
           rewrite Forall_forall in Hr. specialize (Hr _ Hmem). lia.
        -- pose proof (st_mono b (S i) (S j) Hb ltac:(lia)) as Hm.
           rewrite (st_S b i) in Hm by lia.
           destruct (Nat.leb_spec (Z.to_nat (st b (S j))) (Z.to_nat (st b i + o)));
             [lia|]. cbn [andb].
           apply Hdone; lia.
      * intros r Hr.
        pose proof (st_mono_S b (S j) Hb) as Hm.
        rewrite Hrows by lia.
        destruct (Nat.ltb_spec r (Z.to_nat (st b (S (S j))))); [lia|].
        rewrite andb_false_r. apply Htodo. lia.
Qed.

Lemma mask_loop_ok (b : list Z) (mask0 : list (list Z)) :
  positive_spec b ->
  eye (sum (cumprod b)) = inr mask0 ->
  forall k : nat, (k <= length b)%nat ->
  exists s : list (list Z) * Z,
    for_range k (attn_mask_body b) (mask0, -1) = inr s
    /\ mask_inv b (Z.to_nat (sum (cumprod b))) k s.
Proof.
  intros Hb Heye k. induction k as [|k IH]; intros Hk.
  - exists (mask0, -1). split; [reflexivity|].
    unfold eye in Heye.
    destruct (Z.ltb_spec (sum (cumprod b)) 0); [discriminate|].
    injection Heye as <-. unfold mask_inv. cbn [fst snd].
    split; [reflexivity|]. split; [rewrite length_map, length_seq; reflexivity|].
    split; [intros j o Hj; lia|].
    intros r Hr. apply eye_rows. lia.
  - destruct IH as [s [Hrun Hinv]]; [lia|].
    destruct (mask_step b k s Hb ltac:(lia) Hinv) as [s' [Hstep Hinv']].
    exists s'. split; [|exact Hinv'].
    rewrite for_range_S, (bind_inr _ _ _ Hrun). exact Hstep.
Qed.

(** *** The whole builder *)

Lemma last_cumsum_from (l : list Z) : forall a : Z,
  l <> [] -> last (cumsum_from a l) 0 = a + sum l.
Proof.
  induction l as [|x t IH]; intros a Hne; [congruence|].
  destruct t as [|y t'].
  - cbn [cumsum_from last]. rewrite sum_cons. change (sum []) with 0. lia.
  - change (cumsum_from a (x :: y :: t'))
      with ((a + x) :: cumsum_from (a + x) (y :: t')).
    change (last ((a + x) :: cumsum_from (a + x) (y :: t')) 0)
      with (last (cumsum_from (a + x) (y :: t')) 0).
    rewrite IH by discriminate. rewrite (sum_cons x). lia.
Qed.

Lemma sum_cumprod_nonneg (b : list Z) : positive_spec b -> 0 <= sum (cumprod b).
Proof. intros Hb. rewrite <- st_all. apply st_nonneg. exact Hb. Qed.

Lemma sum_nonneg (b : list Z) : positive_spec b -> 0 <= sum b.
Proof. intros Hb. rewrite <- cs_all. apply cs_nonneg. exact Hb. Qed.

Lemma generate_medusa_buffers_ok (b : list Z) :
  positive_spec b -> b <> [] ->
  exists bufs : medusa_buffers,
    generate_medusa_buffers b = inr bufs /\ built b bufs.
Proof.
  intros Hb Hne.
  pose proof (sum_cumprod_nonneg b Hb) as HN.
  pose proof (sum_nonneg b Hb) as HS.
  pose proof (prod_pos b Hb) as HP.
  unfold generate_medusa_buffers.
  destruct b as [|x t] eqn:Eb; [congruence|]. rewrite <- Eb in *.
  cbv zeta.
  (* the identity mask *)
  destruct (eye (sum (cumprod b))) as [e|mask0] eqn:Heye.
  { unfold eye in Heye. destruct (Z.ltb_spec (sum (cumprod b)) 0); [lia|discriminate]. }
  cbn [bind].
  (* 1. tree indices *)
  unfold cumsum. rewrite last_cumsum_from, Z.add_0_l by (rewrite Eb; discriminate).
  unfold arange. rewrite arange2_ok by lia. cbn [bind].
  set (medusa_indices := map _ (seq 0 (Z.to_nat (sum b - 0)))).
  assert (Hmi : len medusa_indices = sum b).
  { subst medusa_indices. unfold len. rewrite length_map, length_seq. lia. }
  destruct (tree_indices_loop_ok b medusa_indices Hb Hmi (length b) (le_n _))
    as [ti [Hti Htilen]].
  rewrite Hti. cbn [bind].
  (* 2. attention mask *)
  destruct (mask_loop_ok b mask0 Hb Heye (length b) (le_n _))
    as [[mask prev] [Hmask [_ [Hmlen [Hmchain _]]]]].
  rewrite Hmask. cbn [bind]. cbn [fst snd] in *.
  (* 4. retrieve indices *)
  unfold zeros2. destruct (Z.ltb_spec (prod b) 0); [lia|]. cbn [bind ret].
  destruct (retrieve_loop_ok b (repeat (repeat 0 (length b)) (Z.to_nat (prod b))) Hb)
    with (k := length b) as [ri [Hri [Hrilen [Hricols Hrient]]]].
  { apply repeat_length. }
  { apply Forall_forall. intros row Hin. apply repeat_spec in Hin. subst row.
    apply repeat_length. }
  { lia. }
  rewrite Hri. cbn [bind].
  (* 5. list indices *)
  rewrite cumprod_max by (try exact Hb; rewrite Eb; discriminate).
  destruct (list_indices_loop_ok b Hb (length b) (le_n _))
    as [blocks [Hli [Hblen Hball]]].
  rewrite Hli. cbn [bind].
  destruct (cat_dim1_ok (Z.to_nat (prod b)) blocks) as [c [Hcat _]].
  { intros ->. rewrite Eb in Hblen. discriminate. }
  { exact Hball. }
  rewrite Hcat. cbn [bind ret].
  eexists. split; [reflexivity|].
  constructor; cbn [medusa_attn_mask tree_indices medusa_position_ids
                    retrieve_indices list_indices].
  - exact Hmlen.
  - exact Hmchain.
  - rewrite Htilen. apply st_all.
  - reflexivity.
  - exact Hrilen.
  - exact Hricols.
  - exact Hrient.
Qed.

End BuilderFacts.

(** ** Properties of the candidate tree *)

Module TreeFacts.

Import Torch Topology TopologyFacts BuilderFacts.

Lemma cumprod_explicit (b : list Z) :
  cumprod b = map (fun i => prod (firstn (S i) b)) (seq 0 (length b)).
Proof.
  apply (nth_ext _ _ 0 0).
  - rewrite cumprod_length, length_map, length_seq. reflexivity.
  - intros i Hi. rewrite cumprod_length in Hi.
    rewrite cumprod_nth by exact Hi.
    rewrite (nth_indep _ 0 ((fun i => prod (firstn (S i) b)) 0%nat))
      by (rewrite length_map, length_seq; exact Hi).
    rewrite (map_nth (fun i => prod (firstn (S i) b))), seq_nth by exact Hi.
    reflexivity.
Qed.

(** The row of any node is the indicator of its ancestor chain. *)
Lemma mask_row_of_node (b : list Z) (bufs : medusa_buffers) (r : Z) :
  positive_spec b -> built b bufs -> 0 <= r < sum (cumprod b) ->
  exists d : nat,
    (d < length b)%nat
    /\ st b d <= r < st b (S d)
    /\ depth_of (medusa_position_ids bufs) r = d
    /\ ancestors_or_self b (medusa_position_ids bufs) r = chain_at b d (r - st b d)
    /\ nth (Z.to_nat r) (medusa_attn_mask bufs) []
       = ind_row (Z.to_nat (sum (cumprod b)))
                 (ancestors_or_self b (medusa_position_ids bufs) r).
Proof.
  intros Hb Hbuilt Hr.
  destruct (node_level b r Hb Hr) as [d [Hd Hlev]].
  exists d. split; [exact Hd|]. split; [exact Hlev|].
  assert (Hdepth : depth_of (medusa_position_ids bufs) r = d).
  { rewrite (built_position_ids _ _ Hbuilt).
    apply position_ids_depth; assumption. }
  split; [exact Hdepth|].
  unfold ancestors_or_self. rewrite Hdepth. split; [reflexivity|].
  rewrite <- (built_mask_chain _ _ Hbuilt d (r - st b d)).
  - do 2 f_equal. lia.
  - exact Hd.
  - rewrite (st_S b d) in Hlev by exact Hd. lia.
Qed.

Lemma ind_row_length (n : nat) (chain : list Z) : length (ind_row n chain) = n.
Proof. unfold ind_row. rewrite length_map, length_seq. reflexivity. Qed.

Lemma ind_row_nth (n : nat) (chain : list Z) (c : nat) :
  (c < n)%nat ->
  nth c (ind_row n chain) 0
  = if existsb (Z.eqb (Z.of_nat c)) chain then 1 else 0.
Proof.
  intros Hc. unfold ind_row.
  set (f := fun c : nat => if existsb (Z.eqb (Z.of_nat c)) chain then 1 else 0).
  rewrite (nth_indep _ 0 (f 0%nat)) by (rewrite length_map, length_seq; exact Hc).
  rewrite (map_nth f), seq_nth by exact Hc. reflexivity.
Qed.

Lemma count_indicator (g : nat -> bool) (l : list nat) :
  count_occ Z.eq_dec (map (fun c => if g c then 1 else 0) l) 1
  = length (filter g l).
Proof.
  induction l as [|x t IH]; [reflexivity|].
  cbn [map filter]. destruct (g x).
  - rewrite count_occ_cons_eq by reflexivity. cbn [length]. rewrite IH. reflexivity.
  - rewrite count_occ_cons_neq by discriminate. exact IH.
Qed.

(** A row that marks a duplicate-free chain of valid columns has as many
    ones as the chain has nodes. *)
Lemma ind_row_count (n : nat) (chain : list Z) :
  NoDup chain -> Forall (fun x => 0 <= x < Z.of_nat n) chain ->
  count_occ Z.eq_dec (ind_row n chain) 1 = length chain.
Proof.
  intros Hnd Hrange. unfold ind_row.
  rewrite (count_indicator (fun c => existsb (Z.eqb (Z.of_nat c)) chain)).
  set (sel := filter _ (seq 0 n)).
  assert (Hsel : forall x, In x (map Z.of_nat sel) <-> In x chain).
  { intros x. rewrite in_map_iff. split.
    - intros [c [<- Hc]]. apply filter_In in Hc. destruct Hc as [_ Hc].
      apply existsb_eqb_In. exact Hc.
    - intros Hx. rewrite Forall_forall in Hrange. specialize (Hrange x Hx).
      exists (Z.to_nat x). split; [lia|].
      apply filter_In. split; [apply in_seq; lia|].
      apply existsb_eqb_In. rewrite Z2Nat.id by lia. exact Hx. }
  assert (Hnd' : NoDup (map Z.of_nat sel)).
  { apply Injective_map_NoDup.
    - intros x y. apply Nat2Z.inj.
    - apply NoDup_filter. apply seq_NoDup. }
  rewrite <- (length_map Z.of_nat sel).
  apply Nat.le_antisymm; apply NoDup_incl_length; try assumption;
    intros x Hx; apply Hsel; exact Hx.
Qed.

(** Rows of the path table are told apart by their last column. *)
Lemma retrieve_rows_distinct (b : list Z) (bufs : medusa_buffers) :
  positive_spec b -> b <> [] -> built b bufs -> NoDup (retrieve_indices bufs).
Proof.
  intros Hb Hne Hbuilt.
  assert (HL : (0 < length b)%nat) by (destruct b; [congruence | simpl; lia]).
  set (l := (length b - 1)%nat).
  apply (NoDup_map_inv (fun row => nth l row 0)).
  assert (Heq : map (fun row => nth l row 0) (retrieve_indices bufs)
                = map (fun r => st b l + Z.of_nat r) (seq 0 (Z.to_nat (prod b)))).
  { apply (nth_ext _ _ 0 0).
    - rewrite !length_map, length_seq. apply (built_retrieve_rows _ _ Hbuilt).
    - intros r Hr. rewrite length_map, (built_retrieve_rows _ _ Hbuilt) in Hr.
      rewrite (nth_indep _ 0 ((fun row => nth l row 0) []))
        by (rewrite length_map, (built_retrieve_rows _ _ Hbuilt); exact Hr).
      rewrite (map_nth (fun row => nth l row 0)).
      rewrite (built_retrieve_entry _ _ Hbuilt) by (subst l; lia).
      rewrite (nth_indep _ 0 ((fun r => st b l + Z.of_nat r) 0%nat))
        by (rewrite length_map, length_seq; exact Hr).
      rewrite (map_nth (fun r => st b l + Z.of_nat r)), seq_nth by exact Hr.
      replace (S l) with (length b) by (subst l; lia).
      rewrite skipn_all. change (prod []) with 1. rewrite Z.div_1_r.
      reflexivity. }
  rewrite Heq. apply Injective_map_NoDup.
  - intros x y Hxy. lia.
  - apply seq_NoDup.
Qed.

(** *** The path table follows the ancestor chains *)

Lemma skipn_nth_cons {A : Type} (d : A) (l : list A) : forall i : nat,
  (i < length l)%nat -> skipn i l = nth i l d :: skipn (S i) l.
Proof.
  induction l as [|x t IH]; intros i Hi; [cbn in Hi; lia|].
  destruct i as [|i]; [reflexivity|].
  cbn [skipn nth]. apply IH. cbn in Hi. lia.
Qed.

Lemma path_offset_parent (b : list Z) (p : Z) (j : nat) :
  positive_spec b -> (S j < length b)%nat -> 0 <= p ->
  p / prod (skipn (S (S j)) b) / nth (S j) b 0 = p / prod (skipn (S j) b).
Proof.
  intros Hb Hj Hp.
  pose proof (positive_nth b (S j) Hb Hj) as Hbj.
  pose proof (prod_skipn_pos b (S (S j)) Hb) as Hq.
  rewrite (skipn_nth_cons 0 b (S j) Hj), prod_cons.
  rewrite Z.div_div by lia. f_equal. lia.
Qed.

(** Row [p] of [retrieve_indices], read from column [j] back to column 0,
    is the ancestor chain of the node in column [j]: every path visits one
    node per depth, each the parent of the next. *)
Lemma path_follows_chain (b : list Z) (bufs : medusa_buffers) (p j : nat) :
  positive_spec b -> built b bufs ->
  (p < Z.to_nat (prod b))%nat -> (j < length b)%nat ->
  chain_at b j (nth j (nth p (retrieve_indices bufs) []) 0 - st b j)
  = map (fun i => nth i (nth p (retrieve_indices bufs) []) 0) (rev (seq 0 (S j))).
Proof.
  intros Hb Hbuilt Hp. induction j as [|j IH]; intros Hj.
  - cbn [chain_at seq rev map app]. f_equal. lia.
  - rewrite seq_S, rev_app_distr. cbn [rev app map chain_at Nat.add].
    f_equal; [lia|].
    rewrite <- IH by lia. f_equal.
    rewrite !(built_retrieve_entry _ _ Hbuilt) by lia.
    replace (st b (S j) + Z.of_nat p / prod (skipn (S (S j)) b) - st b (S j))
      with (Z.of_nat p / prod (skipn (S (S j)) b)) by lia.
    rewrite path_offset_parent by (try assumption; lia). lia.
Qed.

End TreeFacts.

Module TreeClaims.

Import Torch Topology TopologyFacts BuilderFacts TreeFacts.

(** C4: for a non-empty specification [b] of positive branch factors the
    builder returns buffers; with [N] the sum over depths [i] of
    [b[0] * ... * b[i]], the attention mask is [N] x [N], [tree_indices] and
    the position ids have length [N], [retrieve_indices] has [prod b] rows
    of [length b] columns, and its rows are pairwise distinct. *)
Theorem C4_buffer_shapes (b : list Z) :
  positive_spec b -> b <> [] ->
  exists bufs : medusa_buffers,
    generate_medusa_buffers b = inr bufs
    /\ let N := sum (map (fun i => prod (firstn (S i) b)) (seq 0 (length b))) in
       len (medusa_attn_mask bufs) = N
       /\ Forall (fun row => len row = N) (medusa_attn_mask bufs)
       /\ len (tree_indices bufs) = N
       /\ len (medusa_position_ids bufs) = N
       /\ len (retrieve_indices bufs) = prod b
       /\ Forall (fun row => length row = length b) (retrieve_indices bufs)
       /\ NoDup (retrieve_indices bufs).
Proof.
  intros Hb Hne.
  destruct (generate_medusa_buffers_ok b Hb Hne) as [bufs [Hrun Hbuilt]].
  exists bufs. split; [exact Hrun|]. cbv zeta.
  rewrite <- cumprod_explicit.
  pose proof (sum_cumprod_nonneg b Hb) as HN.
  pose proof (prod_pos b Hb) as HP.
  assert (Hrows : len (medusa_attn_mask bufs) = sum (cumprod b)).
  { unfold len. rewrite (built_mask_rows _ _ Hbuilt). lia. }
  split; [exact Hrows|]. split.
  { apply Forall_forall. intros row Hin.
    destruct (In_nth _ _ [] Hin) as [r [Hr <-]].
    destruct (mask_row_of_node b bufs (Z.of_nat r) Hb Hbuilt)
      as [d [_ [_ [_ [_ Hrow]]]]].
    - unfold len in Hrows. lia.
    - rewrite Nat2Z.id in Hrow. rewrite Hrow. unfold len.
      rewrite ind_row_length. lia. }
  split; [apply (built_tree_indices _ _ Hbuilt)|].
  split; [rewrite (built_position_ids _ _ Hbuilt); apply position_ids_length;
          exact Hb|].
  split; [unfold len; rewrite (built_retrieve_rows _ _ Hbuilt); lia|].
  split; [apply (built_retrieve_cols _ _ Hbuilt)|].
  apply (retrieve_rows_distinct b bufs Hb Hne Hbuilt).
Qed.

(** The instance [b = [2, 3]] of C4: 8 nodes, 6 paths, a 6 x 2 path table
    with six distinct rows. *)
Lemma C4_buffer_shapes_witness :
  exists bufs : medusa_buffers,
    generate_medusa_buffers [2; 3] = inr bufs
    /\ len (medusa_attn_mask bufs) = 8
    /\ Forall (fun row => len row = 8) (medusa_attn_mask bufs)
    /\ len (tree_indices bufs) = 8
    /\ len (medusa_position_ids bufs) = 8
    /\ len (retrieve_indices bufs) = 6
    /\ Forall (fun row => length row = 2%nat) (retrieve_indices bufs)
    /\ NoDup (retrieve_indices bufs).
Proof.
  apply (C4_buffer_shapes [2; 3]).
  - repeat constructor.
  - discriminate.
Defined.

(** C5: for a non-empty specification of positive branch factors and every
    node [r] of the tree, row [r] of the attention mask has a one exactly at
    the columns of [r] and of its ancestors, a zero everywhere else, and so
    exactly [depth r + 1] ones; the ancestors form the duplicate-free chain
    that starts at [r] and has one node per depth. *)
Theorem C5_mask_rows_are_ancestor_chains (b : list Z) :
  positive_spec b -> b <> [] ->
  exists bufs : medusa_buffers,
    generate_medusa_buffers b = inr bufs
    /\ forall r : Z, 0 <= r < len (medusa_attn_mask bufs) ->
       let row := nth (Z.to_nat r) (medusa_attn_mask bufs) [] in
       let d := depth_of (medusa_position_ids bufs) r in
       let chain := ancestors_or_self b (medusa_position_ids bufs) r in
       len row = len (medusa_attn_mask bufs)
       /\ hd 0 chain = r
       /\ length chain = S d
       /\ NoDup chain
       /\ (forall c : Z, 0 <= c < len row ->
             (In c chain -> nth (Z.to_nat c) row 0 = 1)
             /\ (~ In c chain -> nth (Z.to_nat c) row 0 = 0))
       /\ count_occ Z.eq_dec row 1 = S d.
Proof.
  intros Hb Hne.
  destruct (generate_medusa_buffers_ok b Hb Hne) as [bufs [Hrun Hbuilt]].
  exists bufs. split; [exact Hrun|].
  pose proof (sum_cumprod_nonneg b Hb) as HN.
  assert (Hrows : len (medusa_attn_mask bufs) = sum (cumprod b)).
  { unfold len. rewrite (built_mask_rows _ _ Hbuilt). lia. }
  intros r Hr. cbv zeta. rewrite Hrows in *.
  destruct (mask_row_of_node b bufs r Hb Hbuilt Hr)
    as [d [Hd [Hlev [Hdepth [Hchain Hrow]]]]].
  rewrite Hrow, Hdepth, Hchain.
  assert (Ho : 0 <= r - st b d < cp b (S d)).
  { rewrite (st_S b d) in Hlev by exact Hd. lia. }
  assert (Hlen : len (ind_row (Z.to_nat (sum (cumprod b)))
                              (chain_at b d (r - st b d))) = sum (cumprod b)).
  { unfold len. rewrite ind_row_length. lia. }
  rewrite Hlen.
  split; [reflexivity|].
  split; [rewrite chain_at_head; lia|].
  split; [apply chain_at_length|].
  split; [apply chain_at_NoDup; assumption|].
  split.
  - intros c Hc. rewrite ind_row_nth by lia. rewrite Z2Nat.id by lia.
    destruct (existsb (Z.eqb c) (chain_at b d (r - st b d))) eqn:E.
    + split; [reflexivity|]. intros Hnot. apply existsb_eqb_In in E. contradiction.
    + split; [|reflexivity]. intros Hin. apply existsb_eqb_In in Hin. congruence.
  - rewrite ind_row_count.
    + apply chain_at_length.
    + apply chain_at_NoDup; assumption.
    + pose proof (chain_at_range b d Hb Hd _ Ho) as Hrange.
      eapply Forall_impl; [|exact Hrange]. intros x Hx. cbn beta in Hx.
      pose proof (st_mono b (S d) (length b) Hb ltac:(lia)) as Hm.
      rewrite st_all in Hm. lia.
Qed.

Lemma C5_mask_rows_are_ancestor_chains_witness :
  exists bufs : medusa_buffers,
    generate_medusa_buffers [2; 3] = inr bufs
    /\ forall r : Z, 0 <= r < len (medusa_attn_mask bufs) ->
       let row := nth (Z.to_nat r) (medusa_attn_mask bufs) [] in
       let d := depth_of (medusa_position_ids bufs) r in
       let chain := ancestors_or_self [2; 3] (medusa_position_ids bufs) r in
       len row = len (medusa_attn_mask bufs)
       /\ hd 0 chain = r
       /\ length chain = S d
       /\ NoDup chain
       /\ (forall c : Z, 0 <= c < len row ->
             (In c chain -> nth (Z.to_nat c) row 0 = 1)
             /\ (~ In c chain -> nth (Z.to_nat c) row 0 = 0))
       /\ count_occ Z.eq_dec row 1 = S d.
Proof.
  apply (C5_mask_rows_are_ancestor_chains [2; 3]).
  - repeat constructor.
  - discriminate.
Defined.

End TreeClaims.

(** ** The builder on a malformed branch specification *)

Module BuilderErrors.

Import Torch Topology TopologyFacts BuilderFacts.

Lemma nve_ret {A : Type} (a : A) : nve (ret a).
Proof. discriminate. Qed.

Lemma nve_bind {A B : Type} (m : result A) (k : A -> result B) :
  nve m -> (forall a, nve (k a)) -> nve (bind m k).
Proof.
  intros Hm Hk. destruct m as [e|a]; cbn [bind]; [|apply Hk].
  intros H. apply Hm. injection H as ->. reflexivity.
Qed.

Lemma nve_for_range {S : Type} (body : nat -> S -> result S) (n : nat) (s : S) :
  (forall i s', nve (body i s')) -> nve (for_range n body s).
Proof.
  intros Hbody. induction n as [|n IH]; [apply nve_ret|].
  rewrite for_range_S. apply nve_bind; [exact IH | apply Hbody].
Qed.

Lemma nve_map_result {A B : Type} (f : A -> result B) (l : list A) :
  (forall x, nve (f x)) -> nve (map_result f l).
Proof.
  intros Hf. induction l as [|x t IH]; [apply nve_ret|].
  cbn [map_result]. apply nve_bind; [apply Hf|]. intros y.
  apply nve_bind; [exact IH|]. intros ys. apply nve_ret.
Qed.

Lemma nve_arange2 (lo hi : Z) : nve (arange2 lo hi).
Proof. unfold arange2. destruct (hi <? lo); discriminate. Qed.

Lemma nve_repeat_rows {A : Type} (k : Z) (x : A) : nve (repeat_rows k x).
Proof. unfold repeat_rows. destruct (k <? 0); discriminate. Qed.

Lemma nve_tile_rows {A : Type} (k : Z) (m : list A) : nve (tile_rows k m).
Proof. unfold tile_rows. destruct (k <? 0); discriminate. Qed.

Lemma nve_eye (n : Z) : nve (eye n).
Proof. unfold eye. destruct (n <? 0); discriminate. Qed.

Lemma nve_zeros2 (rows : Z) (cols : nat) : nve (zeros2 rows cols).
Proof. unfold zeros2. destruct (rows <? 0); discriminate. Qed.

Lemma nve_norm_index (n i : Z) : nve (norm_index n i).
Proof.
  unfold norm_index.
  destruct ((0 <=? i) && (i <? n)); [discriminate|].
  destruct ((- n <=? i) && (i <? 0)); discriminate.
Qed.

Lemma nve_index_rows {A : Type} (d : A) (m : list A) (idx : list Z) :
  nve (index_rows d m idx).
Proof.
  unfold index_rows. apply nve_map_result. intros i.
  apply nve_bind; [apply nve_norm_index|]. intros k. apply nve_ret.
Qed.

Lemma nve_iadd_rows (m : list (list Z)) (lo hi : Z) (src : list (list Z)) :
  nve (iadd_rows m lo hi src).
Proof.
  unfold iadd_rows. destruct (Nat.eqb _ _); [discriminate|].
  destruct src as [|row [|row' rest]]; discriminate.
Qed.

Lemma nve_set_column (m : list (list Z)) (i : nat) (col : list Z) :
  nve (set_column m i col).
Proof.
  unfold set_column. destruct (Nat.eqb _ _); [discriminate|].
  destruct col as [|v [|v' rest]]; discriminate.
Qed.

Lemma nve_floordiv (a c : Z) : nve (floordiv a c).
Proof. unfold floordiv. destruct (c =? 0); discriminate. Qed.

Lemma nve_tensor_floordiv (a c : Z) : nve (tensor_floordiv a c).
Proof. unfold tensor_floordiv. destruct (c =? 0); discriminate. Qed.

Lemma nve_cat_dim1 (ms : list (list (list Z))) : nve (cat_dim1 ms).
Proof.
  induction ms as [|m rest IH]; [discriminate|].
  destruct rest as [|m2 rest']; [discriminate|].
  change (cat_dim1 (m :: m2 :: rest'))
    with (r <- cat_dim1 (m2 :: rest') ;;
          if Nat.eqb (length m) (length r)
          then ret (map (fun p => fst p ++ snd p) (combine m r))
          else raise RuntimeError).
  apply nve_bind; [exact IH|]. intros r.
  destruct (Nat.eqb _ _); discriminate.
Qed.

Lemma nve_parent_idx_of (prev cur choice : Z) : nve (parent_idx_of prev cur choice).
Proof.
  unfold parent_idx_of. apply nve_bind; [apply nve_arange2|]. intros r.
  apply nve_bind; [apply nve_repeat_rows|]. intros rows. apply nve_ret.
Qed.

#[local] Hint Resolve nve_ret nve_arange2 nve_repeat_rows nve_tile_rows nve_eye
  nve_zeros2 nve_index_rows nve_iadd_rows nve_set_column nve_floordiv
  nve_tensor_floordiv nve_cat_dim1 nve_parent_idx_of : nve.

Ltac nve_steps :=
  repeat (first [ apply nve_bind; [solve [auto with nve] | intros ?]
                | solve [auto with nve] ]).

Lemma nve_tree_indices_body (b mi : list Z) (i : nat) (s : list Z * Z * Z) :
  nve (tree_indices_body b mi i s).
Proof. destruct s as [[ti pcs] pcp]. unfold tree_indices_body. nve_steps. Qed.

Lemma nve_attn_mask_body (b : list Z) (i : nat) (s : list (list Z) * Z) :
  nve (attn_mask_body b i s).
Proof.
  destruct s as [mask prev]. unfold attn_mask_body.
  apply nve_bind; [|intros; apply nve_ret].
  destruct (negb (prev =? -1)); nve_steps.
Qed.

Lemma nve_retrieve_body (b : list Z) (P : Z) (i : nat) (s : list (list Z) * Z) :
  nve (retrieve_body b P i s).
Proof. destruct s as [m prev]. unfold retrieve_body. nve_steps. Qed.

Lemma nve_list_indices_body (b : list Z) (cmax : Z) (i : nat)
    (s : list (list (list Z)) * Z) :
  nve (list_indices_body b cmax i s).
Proof.
  destruct s as [blocks prev]. unfold list_indices_body, arange. nve_steps.
Qed.

(** The builder has no validation step: whatever it raises, it is never
    the [ValueError] the module uses for configuration errors. *)
Lemma nve_generate_medusa_buffers (b : list Z) : nve (generate_medusa_buffers b).
Proof.
  unfold generate_medusa_buffers. destruct b as [|x t]; [discriminate|].
  cbv zeta. unfold arange.
  apply nve_bind; [apply nve_eye|]. intros mask0.
  apply nve_bind; [apply nve_arange2|]. intros mi.
  apply nve_bind; [apply nve_for_range; intros; apply nve_tree_indices_body|].
  intros [[ti ?] ?].
  apply nve_bind; [apply nve_for_range; intros; apply nve_attn_mask_body|].
  intros [mask ?].
  apply nve_bind; [apply nve_zeros2|]. intros r0.
  apply nve_bind; [apply nve_for_range; intros; apply nve_retrieve_body|].
  intros [ri ?].
  apply nve_bind; [apply nve_for_range; intros; apply nve_list_indices_body|].
  intros [blocks ?].
  apply nve_bind; [apply nve_cat_dim1|]. intros c. apply nve_ret.
Qed.

(** If step 4 runs through [k] iterations, the first [k] levels are
    non-empty: an empty level divides by zero, a negative one makes
    [arange] fail. *)
Lemma retrieve_loop_success (b : list Z) (P : Z) (m0 : list (list Z)) :
  forall (k : nat) (m : list (list Z)) (prev : Z),
  (k <= length b)%nat ->
  for_range k (retrieve_body b P) (m0, 0) = inr (m, prev) ->
  prev = st b k /\ forall i : nat, (i < k)%nat -> 0 < cp b (S i).
Proof.
  induction k as [|k IH]; intros m prev Hk Hrun.
  - injection Hrun as <- <-. split; [reflexivity|]. intros i Hi. lia.
  - rewrite for_range_S in Hrun.
    apply bind_inr_inv in Hrun. destruct Hrun as [[m1 prev1] [Hrun1 Hbody]].
    destruct (IH m1 prev1 ltac:(lia) Hrun1) as [-> Hpos].
    unfold retrieve_body in Hbody.
    assert (Hst : sum (firstn (S k) (cumprod b)) = st b (S k)) by reflexivity.
    rewrite Hst, (st_S b k) in Hbody by lia.
    apply bind_inr_inv in Hbody. destruct Hbody as [r [Hr Hbody]].
    apply bind_inr_inv in Hbody. destruct Hbody as [q [Hq Hbody]].
    apply bind_inr_inv in Hbody. destruct Hbody as [rows [_ Hbody]].
    apply bind_inr_inv in Hbody. destruct Hbody as [m2 [_ Hbody]].
    injection Hbody as <- <-.
    unfold arange2 in Hr.
    destruct (Z.ltb_spec (st b k + cp b (S k)) (st b k)) as [|Hge]; [discriminate|].
    unfold floordiv in Hq.
    destruct (Z.eqb_spec (st b k + cp b (S k) - st b k) 0) as [|Hnz]; [discriminate|].
    split; [rewrite (st_S b k) by lia; reflexivity|].
    intros i Hi. destruct (Nat.eq_dec i k) as [->|Hne]; [lia | apply Hpos; lia].
Qed.

Lemma levels_nonempty_positive (b : list Z) :
  (forall i : nat, (i < length b)%nat -> 0 < cp b (S i)) -> positive_spec b.
Proof.
  intros H. unfold positive_spec. apply Forall_forall. intros x Hx.
  destruct (In_nth _ _ 0 Hx) as [i [Hi <-]].
  pose proof (H i Hi) as HS. rewrite (cp_S b i) in HS by exact Hi.
  assert (Hprev : 0 < cp b i).
  { destruct i as [|j]; [rewrite cp_0; lia | apply H; lia]. }
  nia.
Qed.

Lemma generate_medusa_buffers_success (b : list Z) (bufs : medusa_buffers) :
  generate_medusa_buffers b = inr bufs -> b <> [] /\ positive_spec b.
Proof.
  intros Hrun. unfold generate_medusa_buffers in Hrun.
  destruct b as [|x t] eqn:Eb; [discriminate|]. rewrite <- Eb in *.
  split; [rewrite Eb; discriminate|].
  cbv zeta in Hrun.
  apply bind_inr_inv in Hrun. destruct Hrun as [mask0 [_ Hrun]].
  apply bind_inr_inv in Hrun. destruct Hrun as [mi [_ Hrun]].
  apply bind_inr_inv in Hrun. destruct Hrun as [[[ti ?] ?] [_ Hrun]].
  apply bind_inr_inv in Hrun. destruct Hrun as [[mask ?] [_ Hrun]].
  apply bind_inr_inv in Hrun. destruct Hrun as [r0 [_ Hrun]].
  apply bind_inr_inv in Hrun. destruct Hrun as [[ri prev] [Hloop _]].
  apply levels_nonempty_positive.
  eapply (retrieve_loop_success b (prod b) r0 (length b) ri prev (le_n _) Hloop).
Qed.

End BuilderErrors.

Module BuilderClaims.

Import Torch Topology BuilderErrors.

(** C9 (as stated, refuted): on the specification [[0]] the builder does
    stop, but with the [ZeroDivisionError] of [medusa_len_prod // 0] in
    step 4, not with a configuration error ([ValueError]). *)
Lemma C9_no_configuration_error_counterexample :
  Exists (fun x => x <= 0) [0]
  /\ generate_medusa_buffers [0] = inl ZeroDivisionError
  /\ generate_medusa_buffers [0] <> inl ValueError.
Proof.
  split; [constructor; lia|]. split; [reflexivity | discriminate].
Qed.

(** C9 (amended): for every branch specification that is empty or contains
    a non-positive entry the builder returns no buffers: it stops with an
    exception raised by one of its tensor or integer operations.  When every
    entry is a 64-bit integer, so that the conversion of the specification
    to a tensor succeeds, that exception is not the [ValueError] used for
    configuration errors. *)
Theorem C9_malformed_spec_fails (b : list Z) :
  b = [] \/ Exists (fun x => x <= 0) b ->
  exists e : exn,
    generate_medusa_buffers b = inl e
    /\ (Forall int64 b -> e <> ValueError).
Proof.
  intros Hbad.
  destruct (generate_medusa_buffers b) as [e|bufs] eqn:Hrun.
  - exists e. split; [reflexivity|]. intros _ ->.
    exact (nve_generate_medusa_buffers b Hrun).
  - exfalso.
    destruct (generate_medusa_buffers_success b bufs Hrun) as [Hne Hpos].
    destruct Hbad as [Hempty|Hex]; [contradiction|].
    apply Exists_exists in Hex. destruct Hex as [x [Hin Hx]].
    unfold positive_spec in Hpos. rewrite Forall_forall in Hpos.
    specialize (Hpos x Hin). lia.
Qed.

Lemma C9_malformed_spec_fails_witness :
  exists e : exn,
    generate_medusa_buffers [2; -1] = inl e
    /\ (Forall int64 [2; -1] -> e <> ValueError).
Proof.
  apply (C9_malformed_spec_fails [2; -1]).
  right. apply Exists_cons_tl. apply Exists_cons_hd. lia.
Defined.

End BuilderClaims.

(** ** Facts about list-shaped tensors *)

Module TensorFacts.

Import Torch Acceptance TopologyFacts BuilderFacts.

Lemma map_seq_ext {A : Type} (d : A) (l : list A) (n : nat) (g : nat -> A) :
  length l = n -> (forall i : nat, (i < n)%nat -> nth i l d = g i) ->
  l = map g (seq 0 n).
Proof.
  intros Hlen Hnth. apply (nth_ext _ _ d (g 0%nat)).
  - rewrite length_map, length_seq. exact Hlen.
  - intros i Hi. rewrite Hlen in Hi.
    rewrite (map_nth g), seq_nth by exact Hi. apply Hnth. exact Hi.
Qed.

Lemma nth_map_seq {A : Type} (d : A) (g : nat -> A) (n i : nat) :
  (i < n)%nat -> nth i (map g (seq 0 n)) d = g i.
Proof.
  intros Hi.
  rewrite (nth_indep _ d (g 0%nat)) by (rewrite length_map, length_seq; exact Hi).
  rewrite (map_nth g), seq_nth by exact Hi. reflexivity.
Qed.

Lemma map_result_ok {A B : Type} (f : A -> result B) (g : A -> B) (l : list A) :
  (forall x, In x l -> f x = inr (g x)) -> map_result f l = inr (map g l).
Proof.
  induction l as [|x t IH]; intros H; [reflexivity|].
  cbn [map_result map]. rewrite (H x) by (left; reflexivity). cbn [bind].
  rewrite IH by (intros y Hy; apply H; right; exact Hy). reflexivity.
Qed.

Lemma map_result_map {A B C : Type} (f : B -> result C) (g : A -> B) (l : list A) :
  map_result f (map g l) = map_result (fun x => f (g x)) l.
Proof.
  induction l as [|x t IH]; [reflexivity|].
  cbn [map map_result]. rewrite IH. reflexivity.
Qed.

Lemma map_result_seq {A B : Type} (f : A -> result B) (g : nat -> A)
    (h : nat -> B) (n : nat) :
  (forall i : nat, (i < n)%nat -> f (g i) = inr (h i)) ->
  map_result f (map g (seq 0 n)) = inr (map h (seq 0 n)).
Proof.
  intros H. rewrite map_result_map.
  apply (map_result_ok (fun i => f (g i)) h).
  intros i Hi. apply in_seq in Hi. apply H. lia.
Qed.

Lemma combine_map_seq {A B : Type} (a : nat -> A) (b : nat -> B) (n : nat) :
  combine (map a (seq 0 n)) (map b (seq 0 n)) = map (fun i => (a i, b i)) (seq 0 n).
Proof.
  generalize 0%nat. induction n as [|n IH]; intros s; [reflexivity|].
  cbn [seq map combine]. rewrite IH. reflexivity.
Qed.

Lemma zip_rows_seq {A B C : Type} (f : A -> B -> C) (a : nat -> A)
    (b : nat -> B) (n : nat) :
  zip_rows f (map a (seq 0 n)) (map b (seq 0 n))
  = inr (map (fun i => f (a i) (b i)) (seq 0 n)).
Proof.
  unfold zip_rows. rewrite !length_map, Nat.eqb_refl.
  rewrite combine_map_seq, map_map. reflexivity.
Qed.

Lemma zip_matrix_seq {A B C : Type} (f : A -> B -> C) (a : nat -> nat -> A)
    (b : nat -> nat -> B) (P D : nat) :
  zip_matrix f (map (fun p => map (a p) (seq 0 D)) (seq 0 P))
               (map (fun p => map (b p) (seq 0 D)) (seq 0 P))
  = inr (map (fun p => map (fun i => f (a p i) (b p i)) (seq 0 D)) (seq 0 P)).
Proof.
  unfold zip_matrix. rewrite !length_map, Nat.eqb_refl.
  rewrite combine_map_seq.
  apply map_result_seq. intros p Hp. cbn [fst snd]. apply zip_rows_seq.
Qed.

(** *** Canonical form of well-shaped inputs *)

Section Canonical.

Context {F : Type}.

Variables (P D V : nat).
Variable logits : list (list (list F)).
Variable candidates : list (list Z).
Hypothesis Hshape : shaped P D V logits candidates.

Lemma shaped_path (p : nat) :
  (p < P)%nat -> length (nth p logits []) = S D.
Proof.
  intros Hp. destruct Hshape as [Hl [_ [Hall _]]].
  rewrite Forall_forall in Hall.
  apply (Hall (nth p logits [])). apply nth_In. lia.
Qed.

Lemma shaped_vocab (p i : nat) :
  (p < P)%nat -> (i < S D)%nat -> length (verified logits p i) = V.
Proof.
  intros Hp Hi. destruct Hshape as [Hl [_ [Hall _]]].
  rewrite Forall_forall in Hall.
  destruct (Hall (nth p logits [])) as [Hlen Hv]; [apply nth_In; lia|].
  rewrite Forall_forall in Hv. apply Hv. apply nth_In. lia.
Qed.

Lemma shaped_row (p : nat) :
  (p < P)%nat -> length (nth p candidates []) = S D.
Proof.
  intros Hp. destruct Hshape as [_ [Hc [_ Hall]]].
  rewrite Forall_forall in Hall.
  apply (Hall (nth p candidates [])). apply nth_In. lia.
Qed.

Lemma nth_tl {A : Type} (l : list A) (i : nat) (d : A) :
  nth i (tl l) d = nth (S i) l d.
Proof. destruct l; [destruct i; reflexivity | reflexivity]. Qed.

Lemma length_tl {A : Type} (l : list A) : length (tl l) = (length l - 1)%nat.
Proof. destruct l; simpl; lia. Qed.

Lemma length_removelast {A : Type} (l : list A) :
  length (removelast l) = (length l - 1)%nat.
Proof. rewrite removelast_firstn_len, length_firstn. lia. Qed.

Lemma nth_removelast {A : Type} (l : list A) (i : nat) (d : A) :
  (i < length l - 1)%nat -> nth i (removelast l) d = nth i l d.
Proof.
  intros Hi. rewrite removelast_firstn_len, nth_firstn.
  destruct (Nat.ltb_spec i (Nat.pred (length l))); [reflexivity | lia].
Qed.

(** [candidates[:, 1:]] *)
Lemma candidates_tail :
  map (@tl Z) candidates
  = map (fun p => map (proposed candidates p) (seq 0 D)) (seq 0 P).
Proof.
  destruct Hshape as [_ [Hc _]].
  apply (map_seq_ext []).
  - rewrite length_map. exact Hc.
  - intros p Hp.
    rewrite (nth_indep _ [] (tl [])) by (rewrite length_map; lia).
    rewrite (map_nth (@tl Z)).
    apply (map_seq_ext 0).
    + rewrite length_tl, shaped_row by exact Hp. lia.
    + intros i Hi. rewrite nth_tl. reflexivity.
Qed.

(** [logits[:, :-1]] *)
Lemma logits_init :
  map (@removelast (list F)) logits
  = map (fun p => map (verified logits p) (seq 0 D)) (seq 0 P).
Proof.
  destruct Hshape as [Hl _].
  apply (map_seq_ext []).
  - rewrite length_map. exact Hl.
  - intros p Hp.
    rewrite (nth_indep _ [] (removelast [])) by (rewrite length_map; lia).
    rewrite (map_nth (@removelast (list F))).
    apply (map_seq_ext []).
    + rewrite length_removelast, shaped_path by exact Hp. lia.
    + intros i Hi. rewrite nth_removelast by (rewrite shaped_path by exact Hp; lia).
      reflexivity.
Qed.

End Canonical.

End TensorFacts.

(** ** Accepted prefixes and the choice of the best path *)

Module SelectionFacts.

Import Torch Acceptance TopologyFacts BuilderFacts TensorFacts.

Lemma sum_cumprod_from_zero (l : list Z) : sum (cumprod_from 0 l) = 0.
Proof.
  induction l as [|x t IH]; [reflexivity|].
  cbn [cumprod_from]. rewrite sum_cons, Z.mul_0_l, IH. reflexivity.
Qed.

(** The sum of the running product of a 0/1 row counts its leading ones. *)
Lemma sum_cumprod_mask (m : list bool) :
  sum (cumprod (map bool_to_int m)) = Z.of_nat (longest_true_prefix m).
Proof.
  unfold cumprod. induction m as [|c t IH]; [reflexivity|].
  cbn [map cumprod_from]. rewrite sum_cons. destruct c; cbn [bool_to_int].
  - rewrite Z.mul_1_l, IH. cbn [longest_true_prefix]. lia.
  - rewrite Z.mul_0_r, sum_cumprod_from_zero. reflexivity.
Qed.

Lemma longest_true_prefix_list (m : list bool) :
  (longest_true_prefix m <= length m)%nat
  /\ (forall i : nat, (i < longest_true_prefix m)%nat -> nth i m false = true)
  /\ ((longest_true_prefix m < length m)%nat ->
      nth (longest_true_prefix m) m true = false).
Proof.
  induction m as [|c t [IH1 [IH2 IH3]]].
  - cbn. repeat split; intros; lia.
  - destruct c; cbn [longest_true_prefix length].
    + split; [lia|]. split.
      * intros [|i] Hi; [reflexivity|]. cbn [nth]. apply IH2. lia.
      * intros H. cbn [nth]. apply IH3. lia.
    + split; [lia|]. split; [intros i Hi; lia|]. intros _. reflexivity.
Qed.

Lemma longest_true_prefix_accepted (acc : nat -> bool) (D : nat) :
  prefix_accepted acc D (longest_true_prefix (map acc (seq 0 D))).
Proof.
  pose proof (longest_true_prefix_list (map acc (seq 0 D))) as [H1 [H2 H3]].
  rewrite length_map, length_seq in *.
  split; [exact H1|]. split.
  - intros i Hi. rewrite <- (nth_map_seq false acc D i) by lia. apply H2. exact Hi.
  - intros Hk. rewrite <- (nth_map_seq true acc D _ Hk). apply H3. exact Hk.
Qed.

Lemma prefix_accepted_unique (acc : nat -> bool) (D k k' : nat) :
  prefix_accepted acc D k -> prefix_accepted acc D k' -> k = k'.
Proof.
  intros [H1 [H2 H3]] [H1' [H2' H3']].
  destruct (Nat.lt_trichotomy k k') as [Hlt|[Heq|Hgt]]; [|exact Heq|].
  - specialize (H3 ltac:(lia)). specialize (H2' k Hlt). congruence.
  - specialize (H3' ltac:(lia)). specialize (H2 k' Hgt). congruence.
Qed.

(** A rule that accepts less has a shorter accepted prefix. *)
Lemma prefix_accepted_mono (acc acc' : nat -> bool) (D k k' : nat) :
  (forall i : nat, (i < D)%nat -> acc' i = true -> acc i = true) ->
  prefix_accepted acc D k -> prefix_accepted acc' D k' -> (k' <= k)%nat.
Proof.
  intros Himp [H1 [H2 H3]] [H1' [H2' H3']].
  destruct (Nat.le_gt_cases k' k) as [Hle|Hgt]; [exact Hle|].
  specialize (H3 ltac:(lia)).
  pose proof (Himp k ltac:(lia) (H2' k Hgt)). congruence.
Qed.

Lemma fold_left_max_spec (t : list Z) : forall x : Z,
  In (fold_left Z.max t x) (x :: t)
  /\ forall y : Z, In y (x :: t) -> y <= fold_left Z.max t x.
Proof.
  induction t as [|a t IH]; intros x; cbn [fold_left].
  - split; [left; reflexivity|]. intros y [->|[]]. lia.
  - destruct (IH (Z.max x a)) as [Hin Hle]. split.
    + destruct Hin as [Heq|Hin].
      * rewrite <- Heq. destruct (Z.max_spec x a) as [[_ ->]|[_ ->]].
        -- right. left. reflexivity.
        -- left. reflexivity.
      * right. right. exact Hin.
    + intros y [->|[->|Hy]].
      * etransitivity; [apply Z.le_max_l | apply Hle; left; reflexivity].
      * etransitivity; [apply Z.le_max_r | apply Hle; left; reflexivity].
      * apply Hle. right. exact Hy.
Qed.

Lemma tensor_max_spec (l : list Z) :
  l <> [] ->
  exists m : Z, tensor_max l = inr m /\ In m l /\ forall y, In y l -> y <= m.
Proof.
  intros Hne. destruct l as [|x t]; [congruence|].
  exists (fold_left Z.max t x). split; [reflexivity|]. apply fold_left_max_spec.
Qed.

(** *** [argmax] returns a maximal entry, the first one for a total order *)

Section Argmax.

Context {T : Type} {ord : Ord T}.

Hypothesis tlt_irrefl : forall x : T, tlt x x = false.
Hypothesis tlt_trans :
  forall x y z : T, tlt x y = true -> tlt y z = true -> tlt x z = true.

Lemma argmax_from_max (d : T) (l : list T) :
  forall (pre : list T) (bi : Z) (bv : T),
  0 <= bi < len pre -> nth (Z.to_nat bi) pre d = bv ->
  (forall x, In x pre -> tlt bv x = false) ->
  let j := argmax_from bi bv (len pre) l in
  0 <= j < len (pre ++ l)
  /\ forall x, In x (pre ++ l) -> tlt (nth (Z.to_nat j) (pre ++ l) d) x = false.
Proof.
  induction l as [|v t IH]; intros pre bi bv Hbi Hnth Hmax; cbn [argmax_from].
  - rewrite app_nil_r. cbv zeta. rewrite Hnth. split; assumption.
  - assert (Hlen : len pre + 1 = len (pre ++ [v])).
    { rewrite len_app. reflexivity. }
    assert (Happ : pre ++ v :: t = (pre ++ [v]) ++ t).
    { rewrite <- app_assoc. reflexivity. }
    rewrite Hlen, Happ.
    destruct (tlt bv v) eqn:E.
    + apply IH.
      * rewrite len_app. unfold len in *. cbn [length]. lia.
      * unfold len. rewrite Nat2Z.id. apply nth_middle.
      * intros x Hx. apply in_app_or in Hx. destruct Hx as [Hx|[<-|[]]].
        -- destruct (tlt v x) eqn:E2; [|reflexivity].
           pose proof (Hmax x Hx) as Hbad.
           rewrite (tlt_trans _ _ _ E E2) in Hbad. discriminate.
        -- apply tlt_irrefl.
    + apply IH.
      * rewrite len_app. unfold len in *. cbn [length]. lia.
      * rewrite app_nth1 by (unfold len in Hbi; lia). exact Hnth.
      * intros x Hx. apply in_app_or in Hx. destruct Hx as [Hx|[<-|[]]].
        -- apply Hmax. exact Hx.
        -- exact E.
Qed.

Lemma argmax_max (d : T) (l : list T) :
  l <> [] ->
  argmax l = inr (argmax_total l)
  /\ 0 <= argmax_total l < len l
  /\ forall x, In x l -> tlt (nth (Z.to_nat (argmax_total l)) l d) x = false.
Proof.
  intros Hne. destruct l as [|v t]; [congruence|].
  split; [reflexivity|].
  change (argmax_total (v :: t)) with (argmax_from 0 v (len [v]) t).
  change (v :: t) with ([v] ++ t).
  apply argmax_from_max.
  - unfold len. cbn. lia.
  - reflexivity.
  - intros x [<-|[]]. apply tlt_irrefl.
Qed.

Hypothesis tlt_cotrans :
  forall x y z : T, tlt x z = true -> tlt x y = true \/ tlt y z = true.

Lemma argmax_from_first (d : T) (l : list T) :
  forall (pre : list T) (bi : Z) (bv : T),
  0 <= bi < len pre -> nth (Z.to_nat bi) pre d = bv ->
  (forall x, In x pre -> tlt bv x = false) ->
  (forall k : nat, (k < Z.to_nat bi)%nat -> tlt (nth k pre d) bv = true) ->
  let j := argmax_from bi bv (len pre) l in
  forall k : nat, (k < Z.to_nat j)%nat ->
    tlt (nth k (pre ++ l) d) (nth (Z.to_nat j) (pre ++ l) d) = true.
Proof.
  induction l as [|v t IH]; intros pre bi bv Hbi Hnth Hmax Hfirst;
    cbn [argmax_from].
  - rewrite app_nil_r. cbv zeta. rewrite Hnth. exact Hfirst.
  - assert (Hlen : len pre + 1 = len (pre ++ [v])).
    { rewrite len_app. reflexivity. }
    assert (Happ : pre ++ v :: t = (pre ++ [v]) ++ t).
    { rewrite <- app_assoc. reflexivity. }
    rewrite Hlen, Happ.
    destruct (tlt bv v) eqn:E.
    + apply IH.
      * rewrite len_app. unfold len in *. cbn [length]. lia.
      * unfold len. rewrite Nat2Z.id. apply nth_middle.
      * intros x Hx. apply in_app_or in Hx. destruct Hx as [Hx|[<-|[]]].
        -- destruct (tlt v x) eqn:E2; [|reflexivity].
           pose proof (Hmax x Hx) as Hbad.
           rewrite (tlt_trans _ _ _ E E2) in Hbad. discriminate.
        -- apply tlt_irrefl.
      * intros k Hk. unfold len in Hk. rewrite Nat2Z.id in Hk.
        rewrite app_nth1 by exact Hk.
        destruct (tlt_cotrans bv (nth k pre d) v E) as [Hbad|Hok]; [|exact Hok].
        rewrite Hmax in Hbad by (apply nth_In; exact Hk). discriminate.
    + apply IH.
      * rewrite len_app. unfold len in *. cbn [length]. lia.
      * rewrite app_nth1 by (unfold len in Hbi; lia). exact Hnth.
      * intros x Hx. apply in_app_or in Hx. destruct Hx as [Hx|[<-|[]]].
        -- apply Hmax. exact Hx.
        -- exact E.
      * intros k Hk. rewrite app_nth1 by (unfold len in Hbi; lia).
        apply Hfirst. exact Hk.
Qed.

Lemma argmax_first (d : T) (l : list T) (k : nat) :
  (k < Z.to_nat (argmax_total l))%nat ->
  tlt (nth k l d) (nth (Z.to_nat (argmax_total l)) l d) = true.
Proof.
  destruct l as [|v t]; [cbn; lia|].
  change (argmax_total (v :: t)) with (argmax_from 0 v (len [v]) t).
  change (v :: t) with ([v] ++ t).
  revert k. apply argmax_from_first.
  - unfold len. cbn. lia.
  - reflexivity.
  - intros x [<-|[]]. apply tlt_irrefl.
  - intros k Hk. cbn in Hk. lia.
Qed.

End Argmax.

End SelectionFacts.

(** ** The posterior evaluator on well-shaped inputs *)

Module EvaluatorFacts.

Import Torch Acceptance TopologyFacts BuilderFacts TensorFacts SelectionFacts.

Lemma Zltb_trans (x y z : Z) : (x <? y) = true -> (y <? z) = true -> (x <? z) = true.
Proof. rewrite !Z.ltb_lt. lia. Qed.

Lemma Zltb_cotrans (x y z : Z) : (x <? z) = true -> (x <? y) = true \/ (y <? z) = true.
Proof. rewrite !Z.ltb_lt. lia. Qed.

Lemma Rltb_true (x y : R) : Rltb x y = true <-> (x < y)%R.
Proof.
  unfold Rltb. destruct (Rlt_dec x y); split; intros; try assumption;
    try reflexivity; try discriminate; contradiction.
Qed.

Lemma Rltb_false (x y : R) : Rltb x y = false <-> (y <= x)%R.
Proof.
  unfold Rltb. destruct (Rlt_dec x y); split; intros; try reflexivity;
    try discriminate; lra.
Qed.

Lemma Rltb_irrefl (x : R) : Rltb x x = false.
Proof. apply Rltb_false. lra. Qed.

Lemma Rltb_trans (x y z : R) :
  Rltb x y = true -> Rltb y z = true -> Rltb x z = true.
Proof. rewrite !Rltb_true. lra. Qed.

Lemma Reqb_true (x y : R) : Reqb x y = true <-> x = y.
Proof.
  unfold Reqb. destruct (Req_dec_T x y); split; intros; try assumption;
    try reflexivity; try discriminate; contradiction.
Qed.

Lemma Reqb_false (x y : R) : Reqb x y = false <-> x <> y.
Proof.
  unfold Reqb. destruct (Req_dec_T x y); split; intros; try assumption;
    try reflexivity; try discriminate; contradiction.
Qed.

Section Selection.

Variable acc : nat -> nat -> bool.
Variables P D : nat.
Hypothesis HP : (0 < P)%nat.

Let lens : list Z := accept_lengths (mask_of acc P D).

Lemma accept_lengths_mask :
  lens = map (fun p => Z.of_nat (accepted_length (acc p) D)) (seq 0 P).
Proof.
  unfold lens, accept_lengths, mask_of. rewrite map_map.
  apply map_ext. intros p. rewrite <- map_map. apply sum_cumprod_mask.
Qed.

Lemma lens_nth (p : nat) :
  (p < P)%nat -> nth p lens 0 = Z.of_nat (accepted_length (acc p) D).
Proof.
  intros Hp. rewrite accept_lengths_mask.
  apply (nth_map_seq 0 (fun p => Z.of_nat (accepted_length (acc p) D))). exact Hp.
Qed.

Lemma lens_length : length lens = P.
Proof. rewrite accept_lengths_mask, length_map, length_seq. reflexivity. Qed.

Lemma lens_nonempty : lens <> [].
Proof.
  intros H. pose proof lens_length as Hl. rewrite H in Hl. cbn in Hl. lia.
Qed.

(** The accept length is the largest accepted prefix over the paths. *)
Lemma select_max :
  exists al : nat,
    tensor_max lens = inr (Z.of_nat al)
    /\ (exists p : nat, (p < P)%nat /\ accepted_length (acc p) D = al)
    /\ (forall p : nat, (p < P)%nat -> (accepted_length (acc p) D <= al)%nat).
Proof.
  destruct (tensor_max_spec lens lens_nonempty) as [m [Hm [Hin Hle]]].
  destruct (In_nth _ _ 0 Hin) as [p [Hp Hnth]].
  rewrite lens_length in Hp. rewrite lens_nth in Hnth by exact Hp.
  exists (accepted_length (acc p) D).
  split; [rewrite Hnth; exact Hm|].
  split; [exists p; split; [exact Hp | reflexivity]|].
  intros q Hq.
  assert (Hq' : nth q lens 0 <= m).
  { apply Hle. apply nth_In. rewrite lens_length. exact Hq. }
  rewrite lens_nth in Hq' by exact Hq. lia.
Qed.

(** [torch.argmax] over the accept lengths picks the first path that
    attains the largest one. *)
Lemma select_first (al : nat) :
  tensor_max lens = inr (Z.of_nat al) ->
  exists best : nat,
    argmax lens = inr (Z.of_nat best)
    /\ (best < P)%nat
    /\ accepted_length (acc best) D = al
    /\ forall p : nat, (p < best)%nat -> (accepted_length (acc p) D < al)%nat.
Proof.
  intros Hal.
  destruct (tensor_max_spec lens lens_nonempty) as [m [Hm [Hin Hle]]].
  rewrite Hal in Hm. injection Hm as <-.
  pose proof (argmax_max (ord := Z_Ord) Z.ltb_irrefl Zltb_trans 0 lens lens_nonempty)
    as [Hrun [Hrange Hmax]].
  pose proof (argmax_first (ord := Z_Ord) Z.ltb_irrefl Zltb_trans Zltb_cotrans 0 lens)
    as Hfirst.
  set (j := argmax_total lens) in *.
  unfold len in Hrange. rewrite lens_length in Hrange.
  exists (Z.to_nat j). rewrite Z2Nat.id by lia.
  split; [exact Hrun|]. split; [lia|].
  assert (Hj : nth (Z.to_nat j) lens 0 = Z.of_nat al).
  { apply Z.le_antisymm.
    - apply Hle. apply nth_In. rewrite lens_length. lia.
    - specialize (Hmax _ Hin). cbn [tlt Z_Ord] in Hmax.
      apply Z.ltb_ge in Hmax. exact Hmax. }
  split.
  - rewrite lens_nth in Hj by lia. lia.
  - intros p Hp. specialize (Hfirst p Hp). cbn [tlt Z_Ord] in Hfirst.
    apply Z.ltb_lt in Hfirst. rewrite Hj, lens_nth in Hfirst by lia. lia.
Qed.

End Selection.

(** *** The greedy branch *)

Section Greedy.

Context {F : Type} {ops : FloatOps F}.

Variables (P D V : nat).
Variable logits : list (list (list F)).
Variable candidates : list (list Z).
Hypothesis Hshape : shaped P D V logits candidates.
Hypothesis HP : (0 < P)%nat.
Hypothesis HV : (0 < V)%nat.

Lemma argmax_verified (p i : nat) :
  (p < P)%nat -> (i < D)%nat ->
  argmax (verified logits p i) = inr (argmax_total (verified logits p i)).
Proof.
  intros Hp Hi.
  pose proof (shaped_vocab P D V logits candidates Hshape p i Hp ltac:(lia)) as Hlen.
  destruct (verified logits p i) as [|v t]; [cbn in Hlen; lia | reflexivity].
Qed.

Lemma greedy_argmax_ok :
  map_result (fun path => map_result argmax (removelast path)) logits
  = inr (map (fun p => map (fun i => argmax_total (verified logits p i)) (seq 0 D))
             (seq 0 P)).
Proof.
  rewrite <- (map_result_map (map_result argmax) (@removelast (list F))).
  rewrite (logits_init P D V logits candidates Hshape).
  apply map_result_seq. intros p Hp.
  apply map_result_seq. intros i Hi. apply argmax_verified; assumption.
Qed.

Lemma greedy_mask_ok :
  zip_matrix (fun c a => bool_to_int (c =? a)) (map (@tl Z) candidates)
    (map (fun p => map (fun i => argmax_total (verified logits p i)) (seq 0 D))
         (seq 0 P))
  = inr (mask_of (greedy_accepts logits candidates) P D).
Proof.
  rewrite (candidates_tail P D V logits candidates Hshape).
  apply (zip_matrix_seq (fun c a => bool_to_int (c =? a))).
Qed.

Lemma greedy_run :
  exists best al : nat,
    evaluate_posterior_greedy logits candidates = inr (Z.of_nat best, Z.of_nat al)
    /\ (best < P)%nat
    /\ accepted_length (greedy_accepts logits candidates best) D = al
    /\ (forall p : nat, (p < P)%nat ->
          (accepted_length (greedy_accepts logits candidates p) D <= al)%nat)
    /\ (forall p : nat, (p < best)%nat ->
          (accepted_length (greedy_accepts logits candidates p) D < al)%nat)
    /\ (al = 0%nat -> best = 0%nat).
Proof.
  unfold evaluate_posterior_greedy.
  rewrite greedy_argmax_ok. cbn [bind].
  rewrite greedy_mask_ok. cbn [bind].
  set (acc := greedy_accepts logits candidates).
  destruct (select_max acc P D HP) as [al [Hmax [[p0 [Hp0 Hp0al]] Hle]]].
  rewrite Hmax. cbn [bind].
  destruct (Z.eqb_spec (Z.of_nat al) 0) as [H0|Hnz].
  - exists 0%nat, al. split; [reflexivity|]. split; [exact HP|].
    assert (al = 0%nat) by lia. subst al.
    split; [pose proof (Hle 0%nat HP); lia|].
    split; [exact Hle|]. split; [intros p Hp; lia | reflexivity].
  - destruct (select_first acc P D HP al Hmax) as [best [Hrun [Hb [Hbal Hfirst]]]].
    rewrite Hrun. cbn [bind ret].
    exists best, al. split; [reflexivity|]. split; [exact Hb|].
    split; [exact Hbal|]. split; [exact Hle|]. split; [exact Hfirst|].
    intros ->. lia.
Qed.

(** If every proposed token of path 0 is confirmed, path 0 is returned
    with the full depth as accept length. *)
Lemma greedy_full_match :
  (forall i : nat, (i < D)%nat -> greedy_accepts logits candidates 0 i = true) ->
  evaluate_posterior_greedy logits candidates = inr (0, Z.of_nat D).
Proof.
  intros Hall.
  destruct greedy_run as [best [al [Hrun [Hb [Hbal [Hle [Hfirst Hzero]]]]]]].
  assert (H0 : accepted_length (greedy_accepts logits candidates 0) D = D).
  { apply (prefix_accepted_unique (greedy_accepts logits candidates 0) D).
    - apply longest_true_prefix_accepted.
    - split; [lia|]. split; [exact Hall | lia]. }
  pose proof (Hle 0%nat HP) as Hle0. rewrite H0 in Hle0.
  destruct (longest_true_prefix_accepted (greedy_accepts logits candidates best) D)
    as [Hbound _]. fold (accepted_length (greedy_accepts logits candidates best) D)
    in Hbound. rewrite Hbal in Hbound.
  assert (Hal : al = D) by lia.
  destruct best as [|best'].
  - rewrite Hrun, Hal. reflexivity.
  - pose proof (Hfirst 0%nat ltac:(lia)) as Hlt. rewrite H0 in Hlt. lia.
Qed.

End Greedy.

(** *** The branch with a temperature *)

Lemma firstn_seq (k : nat) : forall s n : nat,
  firstn k (seq s n) = seq s (Nat.min k n).
Proof.
  induction k as [|k IH]; intros s [|n]; cbn [firstn seq Nat.min]; try reflexivity.
  f_equal. apply IH.
Qed.

Lemma enumerate_seq (l : list Z) :
  enumerate l = map (fun i => (Z.of_nat i, nth i l 0)) (seq 0 (length l)).
Proof.
  unfold enumerate.
  rewrite (map_seq_ext 0 l (length l) (fun i => nth i l 0)) at 2
    by (intros; reflexivity).
  apply (combine_map_seq Z.of_nat (fun i => nth i l 0)).
Qed.

Lemma where_eq_In (l : list Z) (v x : Z) :
  In x (where_eq l v)
  <-> exists i : nat, (i < length l)%nat /\ x = Z.of_nat i /\ nth i l 0 = v.
Proof.
  unfold where_eq. rewrite enumerate_seq, in_map_iff. split.
  - intros [[k w] [Hfst Hin]]. cbn [fst] in Hfst. subst k.
    apply filter_In in Hin. destruct Hin as [Hin Heq]. cbn [snd] in Heq.
    apply in_map_iff in Hin. destruct Hin as [i [Hi Hseq]].
    injection Hi as Hx Hw. apply in_seq in Hseq. apply Z.eqb_eq in Heq.
    exists i. split; [lia|]. split; [lia | congruence].
  - intros [i [Hi [-> Hv]]]. exists (Z.of_nat i, nth i l 0). split; [reflexivity|].
    apply filter_In. split.
    + apply in_map_iff. exists i. split; [reflexivity | apply in_seq; lia].
    + cbn [snd]. apply Z.eqb_eq. exact Hv.
Qed.

Section Typical.

Context {F : Type} {ops : FloatOps F}.

Variables (P D V : nat).
Variable logits : list (list (list F)).
Variable candidates : list (list Z).
Variables temperature posterior_threshold posterior_alpha : F.
Hypothesis Hshape : shaped P D V logits candidates.
Hypothesis Htok : tokens_in_vocab V candidates.
Hypothesis HP : (0 < P)%nat.

Let acc : nat -> nat -> bool :=
  typical_accepts logits candidates temperature posterior_threshold posterior_alpha.

Lemma softmax_length (v : list F) : length (softmax v) = length v.
Proof. unfold softmax. rewrite !length_map. reflexivity. Qed.

Lemma prob_at_length (p i : nat) :
  (p < P)%nat -> (i < D)%nat -> length (prob_at logits temperature p i) = V.
Proof.
  intros Hp Hi. unfold prob_at. rewrite softmax_length, length_map.
  apply (shaped_vocab P D V logits candidates Hshape); lia.
Qed.

Lemma proposed_in_vocab (p i : nat) :
  (p < P)%nat -> (i < D)%nat -> 0 <= proposed candidates p i < Z.of_nat V.
Proof.
  intros Hp Hi. unfold tokens_in_vocab in Htok. rewrite Forall_forall in Htok.
  destruct Hshape as [_ [Hc _]].
  assert (Hrow : In (nth p candidates []) candidates) by (apply nth_In; lia).
  specialize (Htok _ Hrow). rewrite Forall_forall in Htok.
  apply Htok. unfold proposed. apply nth_In.
  rewrite (shaped_row P D V logits candidates Hshape) by exact Hp. lia.
Qed.

Lemma posterior_prob_canonical :
  posterior_prob_of logits temperature
  = map (fun p => map (prob_at logits temperature p) (seq 0 D)) (seq 0 P).
Proof.
  unfold posterior_prob_of.
  rewrite <- (map_map (@removelast (list F))
                (map (fun v => softmax (map (fun x => fdiv x temperature) v)))).
  rewrite (logits_init P D V logits candidates Hshape), map_map.
  apply map_ext. intros p. rewrite map_map. reflexivity.
Qed.

Lemma gather_ok :
  gather_matrix (posterior_prob_of logits temperature) (map (@tl Z) candidates)
  = inr (map (fun p => map (cand_prob_at logits candidates temperature p) (seq 0 D))
             (seq 0 P)).
Proof.
  rewrite posterior_prob_canonical.
  rewrite (candidates_tail P D V logits candidates Hshape).
  unfold gather_matrix. rewrite !length_map, Nat.leb_refl, combine_map_seq.
  apply map_result_seq. intros p Hp. cbn [fst snd].
  unfold gather_rows. rewrite !length_map, Nat.leb_refl, combine_map_seq.
  apply map_result_seq. intros i Hi. cbn [fst snd].
  unfold gather_entry, len. rewrite prob_at_length by assumption.
  pose proof (proposed_in_vocab p i Hp Hi) as Hr.
  destruct (Z.leb_spec 0 (proposed candidates p i)); [|lia].
  destruct (Z.ltb_spec (proposed candidates p i) (Z.of_nat V)); [|lia].
  reflexivity.
Qed.

Lemma thresholds_canonical :
  thresholds_of (posterior_prob_of logits temperature)
                posterior_threshold posterior_alpha
  = map (fun p =>
           map (threshold_at logits temperature posterior_threshold
                             posterior_alpha p) (seq 0 D))
        (seq 0 P).
Proof.
  unfold thresholds_of. rewrite posterior_prob_canonical, map_map.
  apply map_ext. intros p. rewrite map_map. reflexivity.
Qed.

Lemma typical_mask_ok :
  zip_matrix (fun c t => bool_to_int (tlt t c))
    (map (fun p => map (cand_prob_at logits candidates temperature p) (seq 0 D))
         (seq 0 P))
    (thresholds_of (posterior_prob_of logits temperature)
                   posterior_threshold posterior_alpha)
  = inr (mask_of acc P D).
Proof.
  rewrite thresholds_canonical.
  apply (zip_matrix_seq (fun c t => bool_to_int (tlt t c))).
Qed.

Lemma likelihood_canonical (al p : nat) :
  (p < P)%nat -> (al <= D)%nat ->
  likelihood_of (Z.of_nat al)
    (nth p
       (map (fun p => map (cand_prob_at logits candidates temperature p) (seq 0 D))
            (seq 0 P)) [])
  = likelihood_at logits candidates temperature al p.
Proof.
  intros Hp Hal. unfold likelihood_of, likelihood_at.
  rewrite (nth_map_seq [] _ P p Hp).
  unfold py_slice, len. rewrite length_map, length_seq.
  rewrite !norm_bound_id by lia.
  replace (Z.to_nat (Z.of_nat al - 0)) with al by lia.
  change (Z.to_nat 0) with 0%nat. cbn [skipn].
  rewrite firstn_map, firstn_seq, Nat.min_l by exact Hal.
  rewrite map_map. reflexivity.
Qed.

(** The value the branch returns: the accept length is the largest
    accepted prefix; the path is 0 when nothing is accepted, otherwise the
    entry of [best_candidates] that [argmax(likelihood)] points to. *)
Lemma typical_run_form :
  exists al : nat,
    (exists p : nat, (p < P)%nat /\ accepted_length (acc p) D = al)
    /\ (forall p : nat, (p < P)%nat -> (accepted_length (acc p) D <= al)%nat)
    /\ let best_candidates :=
         where_eq (accept_lengths (mask_of acc P D)) (Z.of_nat al) in
       let likelihood :=
         map (fun q => likelihood_at logits candidates temperature al (Z.to_nat q))
             best_candidates in
       best_candidates <> []
       /\ evaluate_posterior_typical logits candidates temperature
            posterior_threshold posterior_alpha
          = inr (if Z.of_nat al =? 0 then 0
                 else nth (Z.to_nat (argmax_total likelihood)) best_candidates 0,
                 Z.of_nat al).
Proof.
  destruct (select_max acc P D HP) as [al [Hmax [[p0 [Hp0 Hp0al]] Hle]]].
  exists al. split; [exists p0; split; assumption|]. split; [exact Hle|].
  cbv zeta.
  assert (Hmem : forall x, In x (where_eq (accept_lengths (mask_of acc P D)) (Z.of_nat al))
                 -> exists q : nat, (q < P)%nat /\ x = Z.of_nat q).
  { intros x Hx. apply where_eq_In in Hx. destruct Hx as [q [Hq [-> _]]].
    rewrite lens_length in Hq. exists q. split; [exact Hq | reflexivity]. }
  assert (Hne : where_eq (accept_lengths (mask_of acc P D)) (Z.of_nat al) <> []).
  { intros Hnil.
    assert (Hin : In (Z.of_nat p0)
                     (where_eq (accept_lengths (mask_of acc P D)) (Z.of_nat al))).
    { apply where_eq_In. exists p0. rewrite lens_length.
      split; [exact Hp0|]. split; [reflexivity|].
      rewrite lens_nth by exact Hp0. lia. }
    rewrite Hnil in Hin. exact Hin. }
  split; [exact Hne|].
  unfold evaluate_posterior_typical. cbv zeta.
  rewrite gather_ok. cbn [bind].
  rewrite typical_mask_ok. cbn [bind].
  rewrite Hmax. cbn [bind].
  destruct (Z.eqb_spec (Z.of_nat al) 0) as [H0|Hnz]; [reflexivity|].
  set (bc := where_eq _ _) in *.
  rewrite index_rows_ok.
  2:{ apply Forall_forall. intros x Hx. destruct (Hmem x Hx) as [q [Hq ->]].
      unfold len. rewrite length_map, length_seq. lia. }
  cbn [bind]. rewrite map_map.
  assert (Hlik : map (fun q =>
                        likelihood_of (Z.of_nat al)
                          (nth (Z.to_nat q)
                             (map (fun p => map (cand_prob_at logits candidates
                                                   temperature p) (seq 0 D))
                                  (seq 0 P)) [])) bc
                 = map (fun q => likelihood_at logits candidates temperature al (Z.to_nat q))
                       bc).
  { apply map_ext_in. intros x Hx. destruct (Hmem x Hx) as [q [Hq ->]].
    rewrite Nat2Z.id. apply likelihood_canonical; [exact Hq|].
    destruct (longest_true_prefix_accepted (acc p0) D) as [Hk _].
    unfold accepted_length in Hp0al. lia. }
  rewrite Hlik.
  set (lik := map _ bc).
  assert (Hlne : lik <> []).
  { subst lik. destruct bc; [congruence | discriminate]. }
  destruct lik as [|v t] eqn:El; [congruence|].
  cbn [argmax bind ret]. reflexivity.
Qed.

Hypothesis tlt_irrefl : forall x : F, tlt x x = false.
Hypothesis tlt_trans :
  forall x y z : F, tlt x y = true -> tlt y z = true -> tlt x z = true.

(** Among the paths with the longest accepted prefix the branch returns
    one of highest likelihood. *)
Lemma typical_run :
  exists best al : nat,
    evaluate_posterior_typical logits candidates temperature
      posterior_threshold posterior_alpha = inr (Z.of_nat best, Z.of_nat al)
    /\ (best < P)%nat
    /\ accepted_length (acc best) D = al
    /\ (forall p : nat, (p < P)%nat -> (accepted_length (acc p) D <= al)%nat)
    /\ (forall q : nat, (q < P)%nat -> accepted_length (acc q) D = al ->
          tlt (likelihood_at logits candidates temperature al best)
              (likelihood_at logits candidates temperature al q) = false).
Proof.
  destruct typical_run_form as [al [[p0 [Hp0 Hp0al]] [Hle Hform]]].
  cbv zeta in Hform. destruct Hform as [Hne Hrun].
  set (bc := where_eq (accept_lengths (mask_of acc P D)) (Z.of_nat al)) in *.
  set (lik := map (fun q => likelihood_at logits candidates temperature al (Z.to_nat q))
                  bc) in *.
  destruct (Z.eqb_spec (Z.of_nat al) 0) as [H0|Hnz].
  - destruct al as [|n]; [|lia].
    exists 0%nat, 0%nat. split; [exact Hrun|]. split; [exact HP|].
    split; [pose proof (Hle 0%nat HP); lia|]. split; [exact Hle|].
    intros q _ _. apply (tlt_irrefl fzero).
  - assert (Hlne : lik <> []).
    { subst lik. destruct bc; [congruence | discriminate]. }
    pose proof (argmax_max tlt_irrefl tlt_trans fzero lik Hlne)
      as [_ [Hrange Hmax]].
    set (j := argmax_total lik) in *.
    assert (Hj : (Z.to_nat j < length bc)%nat).
    { unfold len in Hrange. subst lik. rewrite length_map in Hrange. lia. }
    assert (Hin : In (nth (Z.to_nat j) bc 0) bc) by (apply nth_In; exact Hj).
    apply where_eq_In in Hin. destruct Hin as [best [Hb [Hbest Hbal]]].
    rewrite lens_length in Hb. rewrite lens_nth in Hbal by exact Hb.
    exists best, al. rewrite <- Hbest. split; [exact Hrun|].
    split; [exact Hb|]. split; [lia|]. split; [exact Hle|].
    intros q Hq Hqal.
    assert (Hlj : nth (Z.to_nat j) lik fzero
                  = likelihood_at logits candidates temperature al best).
    { subst lik.
      rewrite (nth_indep _ fzero
                 ((fun q => likelihood_at logits candidates temperature al (Z.to_nat q)) 0))
        by (rewrite length_map; exact Hj).
      rewrite (map_nth (fun q => likelihood_at logits candidates temperature al (Z.to_nat q))).
      rewrite Hbest, Nat2Z.id. reflexivity. }
    rewrite <- Hlj. apply Hmax.
    subst lik. apply in_map_iff. exists (Z.of_nat q).
    split; [rewrite Nat2Z.id; reflexivity|].
    apply where_eq_In. exists q. rewrite lens_length.
    split; [exact Hq|]. split; [reflexivity|].
    rewrite lens_nth by exact Hq. lia.
Qed.

End Typical.

(** *** The threshold and the acceptance rule over the reals *)

Section RealThreshold.

Lemma fmin_Rmin (x y : R) : fmin (F := R) x y = Rmin x y.
Proof.
  unfold fmin, Rmin. cbn [tlt float_ord R_FloatOps R_Ord]. unfold Rltb.
  destruct (Rlt_dec y x), (Rle_dec x y); try reflexivity; lra.
Qed.

(** A larger [posterior_alpha] never lowers a threshold. *)
Lemma threshold_of_mono (pt a1 a2 h : R) :
  (a1 <= a2)%R -> (threshold_of pt a1 h <= threshold_of pt a2 h)%R.
Proof.
  intros Ha. unfold threshold_of. rewrite !fmin_Rmin.
  cbn [fmul fexp fneg fone R_FloatOps].
  pose proof (exp_pos (- h)) as He.
  assert (Hm : (exp (- h) * a1 <= exp (- h) * a2)%R)
    by (apply Rmult_le_compat_l; lra).
  unfold Rmin.
  destruct (Rle_dec (1 * pt) (exp (- h) * a1)),
           (Rle_dec (1 * pt) (exp (- h) * a2)); lra.
Qed.

Variable logits : list (list (list R)).
Variable candidates : list (list Z).
Variables temperature posterior_threshold a1 a2 : R.
Hypothesis Ha : (a1 <= a2)%R.

Lemma threshold_at_mono (p i : nat) :
  (threshold_at logits temperature posterior_threshold a1 p i
   <= threshold_at logits temperature posterior_threshold a2 p i)%R.
Proof. unfold threshold_at. apply threshold_of_mono. exact Ha. Qed.

Lemma thresholds_of_mono (prob : list (list (list R))) :
  Forall2 (Forall2 Rle) (thresholds_of prob posterior_threshold a1)
                        (thresholds_of prob posterior_threshold a2).
Proof.
  unfold thresholds_of. induction prob as [|path rest IH]; [constructor|].
  cbn [map]. constructor; [|exact IH].
  induction path as [|v t IHt]; [constructor|].
  cbn [map]. constructor; [|exact IHt]. apply threshold_of_mono. exact Ha.
Qed.

(** Whatever is accepted with the larger [posterior_alpha] is accepted
    with the smaller one. *)
Lemma typical_accepts_anti (p i : nat) :
  typical_accepts logits candidates temperature posterior_threshold a2 p i = true ->
  typical_accepts logits candidates temperature posterior_threshold a1 p i = true.
Proof.
  unfold typical_accepts. cbn [tlt float_ord R_FloatOps R_Ord].
  rewrite !Rltb_true. pose proof (threshold_at_mono p i). lra.
Qed.

End RealThreshold.

End EvaluatorFacts.

Module EvaluatorClaims.

Import Torch Acceptance TensorFacts SelectionFacts EvaluatorFacts.

(** C1: with temperature 0, on a [P x (D+1)] candidates matrix and
    [P x (D+1) x V] logits, the evaluator returns as accept length the
    maximum over the paths of the length of the longest prefix of positions
    [i] with [candidates[p][i+1] = argmax(logits[p][i])]: every path's
    prefix stops at its first mismatch and is at most the accept length,
    and some path's prefix has exactly that length. *)
Theorem C1_greedy_accept_length {F : Type} {ops : FloatOps F} (P D V : nat)
    (logits : list (list (list F))) (candidates : list (list Z))
    (temperature posterior_threshold posterior_alpha : F) :
  feqb temperature fzero = true ->
  shaped P D V logits candidates -> (0 < P)%nat -> (0 < V)%nat ->
  exists best accept_length : Z,
    evaluate_posterior logits candidates temperature posterior_threshold
      posterior_alpha = inr (best, accept_length)
    /\ (forall p : nat, (p < P)%nat ->
        exists k : nat,
          prefix_accepted (greedy_accepts logits candidates p) D k
          /\ Z.of_nat k <= accept_length)
    /\ (exists p k : nat,
          (p < P)%nat
          /\ prefix_accepted (greedy_accepts logits candidates p) D k
          /\ Z.of_nat k = accept_length).
Proof.
  intros HT Hshape HP HV.
  destruct (greedy_run P D V logits candidates Hshape HP HV)
    as [best [al [Hrun [Hb [Hbal [Hle _]]]]]].
  exists (Z.of_nat best), (Z.of_nat al).
  unfold evaluate_posterior. rewrite HT. split; [exact Hrun|]. split.
  - intros p Hp. exists (accepted_length (greedy_accepts logits candidates p) D).
    split; [apply longest_true_prefix_accepted|]. specialize (Hle p Hp). lia.
  - exists best, al. split; [exact Hb|]. split; [|reflexivity].
    rewrite <- Hbal. apply longest_true_prefix_accepted.
Qed.

(** C2: with temperature 0 the evaluator returns the lowest path id among
    the paths whose accepted prefix has the maximal length; when that
    length is 0 it returns path 0 with accept length 0. *)
Theorem C2_greedy_best_candidate {F : Type} {ops : FloatOps F} (P D V : nat)
    (logits : list (list (list F))) (candidates : list (list Z))
    (temperature posterior_threshold posterior_alpha : F) :
  feqb temperature fzero = true ->
  shaped P D V logits candidates -> (0 < P)%nat -> (0 < V)%nat ->
  exists best accept_length : nat,
    evaluate_posterior logits candidates temperature posterior_threshold
      posterior_alpha = inr (Z.of_nat best, Z.of_nat accept_length)
    /\ (best < P)%nat
    /\ prefix_accepted (greedy_accepts logits candidates best) D accept_length
    /\ (forall p k : nat, (p < P)%nat ->
          prefix_accepted (greedy_accepts logits candidates p) D k ->
          (k <= accept_length)%nat)
    /\ (forall p k : nat, (p < best)%nat ->
          prefix_accepted (greedy_accepts logits candidates p) D k ->
          (k < accept_length)%nat)
    /\ (accept_length = 0%nat -> best = 0%nat).
Proof.
  intros HT Hshape HP HV.
  destruct (greedy_run P D V logits candidates Hshape HP HV)
    as [best [al [Hrun [Hb [Hbal [Hle [Hfirst Hzero]]]]]]].
  exists best, al.
  unfold evaluate_posterior. rewrite HT. split; [exact Hrun|].
  split; [exact Hb|].
  split; [rewrite <- Hbal; apply longest_true_prefix_accepted|].
  split; [|split; [|exact Hzero]].
  - intros p k Hp Hk.
    rewrite (prefix_accepted_unique _ _ _ _ Hk (longest_true_prefix_accepted _ D)).
    apply Hle. exact Hp.
  - intros p k Hp Hk.
    rewrite (prefix_accepted_unique _ _ _ _ Hk (longest_true_prefix_accepted _ D)).
    apply Hfirst. exact Hp.
Qed.

(** Two paths of depth 1 over a vocabulary of two tokens; only path 0
    proposes the token the verification pass prefers. *)
Lemma C1_greedy_accept_length_witness :
  exists best accept_length : Z,
    evaluate_posterior (F := R)
      [[[0; 1]; [0; 0]]; [[1; 0]; [0; 0]]]%R [[0; 1]; [0; 1]]
      0%R (9 / 100)%R (3 / 10)%R = inr (best, accept_length)
    /\ (forall p : nat, (p < 2)%nat ->
        exists k : nat,
          prefix_accepted
            (greedy_accepts (F := R) [[[0; 1]; [0; 0]]; [[1; 0]; [0; 0]]]%R
                            [[0; 1]; [0; 1]] p) 1 k
          /\ Z.of_nat k <= accept_length)
    /\ (exists p k : nat,
          (p < 2)%nat
          /\ prefix_accepted
               (greedy_accepts (F := R) [[[0; 1]; [0; 0]]; [[1; 0]; [0; 0]]]%R
                               [[0; 1]; [0; 1]] p) 1 k
          /\ Z.of_nat k = accept_length).
Proof.
  apply (C1_greedy_accept_length (F := R) 2 1 2).
  - cbn. unfold Reqb. destruct (Req_dec_T 0 0) as [_|Hne]; [reflexivity|].
    exfalso. apply Hne. reflexivity.
  - repeat split; repeat constructor.
  - lia.
  - lia.
Defined.

Lemma C2_greedy_best_candidate_witness :
  exists best accept_length : nat,
    evaluate_posterior (F := R)
      [[[0; 1]; [0; 0]]; [[1; 0]; [0; 0]]]%R [[0; 1]; [0; 1]]
      0%R (9 / 100)%R (3 / 10)%R = inr (Z.of_nat best, Z.of_nat accept_length)
    /\ (best < 2)%nat
    /\ prefix_accepted
         (greedy_accepts (F := R) [[[0; 1]; [0; 0]]; [[1; 0]; [0; 0]]]%R
                         [[0; 1]; [0; 1]] best) 1 accept_length
    /\ (forall p k : nat, (p < 2)%nat ->
          prefix_accepted
            (greedy_accepts (F := R) [[[0; 1]; [0; 0]]; [[1; 0]; [0; 0]]]%R
                            [[0; 1]; [0; 1]] p) 1 k ->
          (k <= accept_length)%nat)
    /\ (forall p k : nat, (p < best)%nat ->
          prefix_accepted
            (greedy_accepts (F := R) [[[0; 1]; [0; 0]]; [[1; 0]; [0; 0]]]%R
                            [[0; 1]; [0; 1]] p) 1 k ->
          (k < accept_length)%nat)
    /\ (accept_length = 0%nat -> best = 0%nat).
Proof.
  apply (C2_greedy_best_candidate (F := R) 2 1 2).
  - cbn. unfold Reqb. destruct (Req_dec_T 0 0) as [_|Hne]; [reflexivity|].
    exfalso. apply Hne. reflexivity.
  - repeat split; repeat constructor.
  - lia.
  - lia.
Defined.

(** C3: with a non-zero temperature, position [i] of path [p] is accepted
    iff the softmax probability of the proposed token strictly exceeds
    [min(posterior_threshold, exp(-entropy) * posterior_alpha)], the entropy
    being [-sum(prob * log(prob + 1e-5))]; the accept length is the largest
    accepted prefix over the paths, and the returned path has an accepted
    prefix of that length and, among the paths that do, a highest sum of
    log-probabilities over that prefix. *)
Theorem C3_typical_acceptance {F : Type} {ops : FloatOps F} (P D V : nat)
    (logits : list (list (list F))) (candidates : list (list Z))
    (temperature posterior_threshold posterior_alpha : F) :
  (forall x : F, tlt x x = false) ->
  (forall x y z : F, tlt x y = true -> tlt y z = true -> tlt x z = true) ->
  feqb temperature fzero = false ->
  shaped P D V logits candidates -> tokens_in_vocab V candidates ->
  (0 < P)%nat ->
  let accepts :=
    typical_accepts logits candidates temperature posterior_threshold
                    posterior_alpha in
  let likelihood := likelihood_at logits candidates temperature in
  (forall p i : nat,
     accepts p i
     = tlt (fmin (fmul fone posterior_threshold)
                 (fmul (fexp (fneg (entropy (prob_at logits temperature p i))))
                       posterior_alpha))
           (cand_prob_at logits candidates temperature p i))
  /\ (forall prob : list F,
        entropy prob
        = fneg (fsum (map (fun x => fmul x (flog (fadd x feps))) prob)))
  /\ exists best accept_length : nat,
       evaluate_posterior logits candidates temperature posterior_threshold
         posterior_alpha = inr (Z.of_nat best, Z.of_nat accept_length)
       /\ (best < P)%nat
       /\ prefix_accepted (accepts best) D accept_length
       /\ (forall p k : nat, (p < P)%nat ->
             prefix_accepted (accepts p) D k -> (k <= accept_length)%nat)
       /\ (forall q : nat, (q < P)%nat ->
             prefix_accepted (accepts q) D accept_length ->
             tlt (likelihood accept_length best) (likelihood accept_length q)
             = false).
Proof.
  intros Hirr Htrans HT Hshape Htok HP accepts likelihood.
  split; [reflexivity|]. split; [reflexivity|].
  destruct (typical_run P D V logits candidates temperature posterior_threshold
              posterior_alpha Hshape Htok HP Hirr Htrans)
    as [best [al [Hrun [Hb [Hbal [Hle Hlik]]]]]].
  exists best, al. unfold evaluate_posterior. rewrite HT.
  split; [exact Hrun|]. split; [exact Hb|].
  split; [rewrite <- Hbal; apply longest_true_prefix_accepted|]. split.
  - intros p k Hp Hk.
    rewrite (prefix_accepted_unique _ _ _ _ Hk (longest_true_prefix_accepted _ D)).
    apply Hle. exact Hp.
  - intros q Hq Hk. apply Hlik; [exact Hq|].
    symmetry. apply (prefix_accepted_unique _ _ _ _ Hk).
    apply longest_true_prefix_accepted.
Qed.

Lemma C3_typical_acceptance_witness :
  exists best accept_length : nat,
    evaluate_posterior (F := R)
      [[[0; 1]; [0; 0]]; [[1; 0]; [0; 0]]]%R [[0; 1]; [0; 1]]
      1%R (9 / 100)%R (3 / 10)%R = inr (Z.of_nat best, Z.of_nat accept_length)
    /\ (best < 2)%nat.
Proof.
  destruct (C3_typical_acceptance (F := R) 2 1 2
              [[[0; 1]; [0; 0]]; [[1; 0]; [0; 0]]]%R [[0; 1]; [0; 1]]
              1%R (9 / 100)%R (3 / 10)%R)
    as [_ [_ [best [al [Hrun [Hb _]]]]]].
  - exact Rltb_irrefl.
  - exact Rltb_trans.
  - cbn. apply Reqb_false. intros Heq. lra.
  - repeat split; repeat constructor.
  - repeat constructor; lia.
  - lia.
  - exists best, al. split; assumption.
Defined.

(** C10 (as stated, refuted): one path, one speculated position, uniform
    logits over two tokens, temperature 1 and [posterior_threshold = 0.9].
    The proposed token has probability 1/2; with [posterior_alpha = 0.3]
    the threshold is 0.150003 and the token is accepted, with
    [posterior_alpha = 1.5] the threshold is 0.750015 and it is rejected:
    the accept length drops from 1 to 0 as [posterior_alpha] grows. *)
Lemma C10_accept_length_counterexample :
  (3 / 10 <= 3 / 2)%R
  /\ exists b1 b2 : Z,
       evaluate_posterior (F := R) [[[0; 0]; [0; 0]]]%R [[0; 0]]
         1%R (9 / 10)%R (3 / 10)%R = inr (b1, 1)
       /\ evaluate_posterior (F := R) [[[0; 0]; [0; 0]]]%R [[0; 0]]
            1%R (9 / 10)%R (3 / 2)%R = inr (b2, 0).
Proof.
  split; [lra|].
  set (lg := [[[0; 0]; [0; 0]]]%R). set (cd := [[0; 0]]).
  assert (Hshape : shaped 1 1 2 lg cd) by (repeat split; repeat constructor).
  assert (Htok : tokens_in_vocab 2 cd) by (repeat constructor; lia).
  assert (HT : feqb (F := R) 1%R fzero = false) by (cbn; apply Reqb_false; intros Heq; lra).
  (* the probability of the proposed token and the entropy *)
  assert (Hexp : exp (0 / 1) = 1%R).
  { replace (0 / 1)%R with 0%R by lra. apply exp_0. }
  assert (Hprob : prob_at (F := R) lg 1%R 0 0 = [1 / 2; 1 / 2]%R).
  { unfold prob_at, verified, lg. cbn [nth map]. unfold softmax, fsum.
    cbn [map fold_left fexp fdiv fadd fzero R_FloatOps]. rewrite Hexp.
    repeat f_equal; lra. }
  assert (Hcand : cand_prob_at (F := R) lg cd 1%R 0 0 = (1 / 2)%R).
  { unfold cand_prob_at. rewrite Hprob. reflexivity. }
  assert (Hent : entropy (F := R) [1 / 2; 1 / 2]%R
                 = (- ln (1 / 2 + 1 / 100000))%R).
  { unfold entropy, fsum.
    cbn [map fold_left fneg fmul fadd flog feps fzero R_FloatOps]. lra. }
  assert (Hthr : forall a : R,
             threshold_at (F := R) lg 1%R (9 / 10)%R a 0 0
             = Rmin (9 / 10) ((1 / 2 + 1 / 100000) * a)).
  { intros a. unfold threshold_at, threshold_of. rewrite Hprob, Hent, fmin_Rmin.
    cbn [fmul fexp fneg fone R_FloatOps].
    rewrite Ropp_involutive, exp_ln by lra. f_equal. lra. }
  assert (Hacc1 : typical_accepts (F := R) lg cd 1%R (9 / 10)%R (3 / 10)%R 0 0 = true).
  { unfold typical_accepts. rewrite Hthr, Hcand.
    apply Rltb_true. unfold Rmin. destruct (Rle_dec _ _); lra. }
  assert (Hacc2 : typical_accepts (F := R) lg cd 1%R (9 / 10)%R (3 / 2)%R 0 0 = false).
  { unfold typical_accepts. rewrite Hthr, Hcand.
    apply Rltb_false. unfold Rmin. destruct (Rle_dec _ _); lra. }
  unfold evaluate_posterior. rewrite HT.
  destruct (typical_run_form 1 1 2 lg cd 1%R (9 / 10)%R (3 / 10)%R Hshape Htok
              ltac:(lia)) as [al1 [[p1 [Hp1 Hal1]] [_ [_ Hrun1]]]].
  destruct (typical_run_form 1 1 2 lg cd 1%R (9 / 10)%R (3 / 2)%R Hshape Htok
              ltac:(lia)) as [al2 [[p2 [Hp2 Hal2]] [_ [_ Hrun2]]]].
  assert (p1 = 0%nat) by lia. assert (p2 = 0%nat) by lia. subst p1 p2.
  unfold accepted_length in Hal1, Hal2. cbn [seq map] in Hal1, Hal2.
  rewrite Hacc1 in Hal1. rewrite Hacc2 in Hal2.
  cbn [longest_true_prefix] in Hal1, Hal2. subst al1 al2.
  eexists. eexists. split; [exact Hrun1 | exact Hrun2].
Qed.

(** C10 (amended): for a non-zero temperature and [a1 <= a2], every
    threshold the evaluator computes with [posterior_alpha = a2] is at least
    the corresponding threshold with [a1]; hence the accept length with [a2]
    is at most the accept length with [a1] (a larger [posterior_alpha]
    never raises the accept length). *)
Theorem C10_alpha_monotone (P D V : nat) (logits : list (list (list R)))
    (candidates : list (list Z)) (temperature posterior_threshold a1 a2 : R) :
  feqb temperature fzero = false -> (a1 <= a2)%R ->
  shaped P D V logits candidates -> tokens_in_vocab V candidates ->
  (0 < P)%nat ->
  Forall2 (Forall2 Rle)
    (thresholds_of (posterior_prob_of logits temperature) posterior_threshold a1)
    (thresholds_of (posterior_prob_of logits temperature) posterior_threshold a2)
  /\ exists b1 l1 b2 l2 : Z,
       evaluate_posterior logits candidates temperature posterior_threshold a1
       = inr (b1, l1)
       /\ evaluate_posterior logits candidates temperature posterior_threshold a2
          = inr (b2, l2)
       /\ l2 <= l1.
Proof.
  intros HT Ha Hshape Htok HP.
  split; [apply thresholds_of_mono; exact Ha|].
  unfold evaluate_posterior. rewrite HT.
  destruct (typical_run_form P D V logits candidates temperature
              posterior_threshold a1 Hshape Htok HP)
    as [al1 [_ [Hle1 [_ Hrun1]]]].
  destruct (typical_run_form P D V logits candidates temperature
              posterior_threshold a2 Hshape Htok HP)
    as [al2 [[p2 [Hp2 Hal2]] [_ [_ Hrun2]]]].
  eexists. exists (Z.of_nat al1). eexists. exists (Z.of_nat al2).
  split; [exact Hrun1|]. split; [exact Hrun2|].
  specialize (Hle1 p2 Hp2).
  assert (Hmono : (al2 <= accepted_length
                     (typical_accepts logits candidates temperature
                        posterior_threshold a1 p2) D)%nat).
  { rewrite <- Hal2.
    apply (prefix_accepted_mono
             (typical_accepts logits candidates temperature posterior_threshold a1 p2)
             (typical_accepts logits candidates temperature posterior_threshold a2 p2)
             D).
    - intros i _. apply typical_accepts_anti. exact Ha.
    - apply longest_true_prefix_accepted.
    - apply longest_true_prefix_accepted. }
  lia.
Qed.

Lemma C10_alpha_monotone_witness :
  exists b1 l1 b2 l2 : Z,
    evaluate_posterior (F := R) [[[0; 0]; [0; 0]]]%R [[0; 0]]
      1%R (9 / 10)%R (3 / 10)%R = inr (b1, l1)
    /\ evaluate_posterior (F := R) [[[0; 0]; [0; 0]]]%R [[0; 0]]
         1%R (9 / 10)%R (3 / 2)%R = inr (b2, l2)
    /\ l2 <= l1.
Proof.
  apply (C10_alpha_monotone 1 1 2 [[[0; 0]; [0; 0]]]%R [[0; 0]]
           1%R (9 / 10)%R (3 / 10)%R (3 / 2)%R).
  - cbn. apply Reqb_false. intros Heq. lra.
  - lra.
  - repeat split; repeat constructor.
  - repeat constructor; lia.
  - lia.
Defined.

End EvaluatorClaims.

(** ** The candidate generator *)

Module CandidateFacts.

Import Torch TopologyFacts BuilderFacts TensorFacts.

Lemma last_position_ok {A : Type} (d : A) (x : list A) :
  x <> [] -> last_position x = inr (last x d).
Proof.
  intros Hne. unfold last_position.
  rewrite (app_removelast_last d Hne) at 1. rewrite rev_unit. reflexivity.
Qed.

Lemma rows_of_cartesian (ts : list (list Z)) :
  rows_of (cartesian_prod ts) = cartesian_rows ts.
Proof.
  destruct ts as [|t [|t' rest]]; reflexivity.
Qed.

Lemma Forall2_nth {A B : Type} (R : A -> B -> Prop) (d : A) (d' : B)
    (l : list A) (l' : list B) (i : nat) :
  Forall2 R l l' -> (i < length l)%nat -> R (nth i l d) (nth i l' d').
Proof.
  intros H. revert i. induction H as [|x y t t' Hxy Ht IH]; intros i Hi.
  - cbn in Hi. lia.
  - destruct i as [|i]; [exact Hxy|]. cbn [nth]. apply IH. cbn in Hi. lia.
Qed.

Lemma cartesian_rows_length (ts : list (list Z)) :
  len (cartesian_rows ts) = prod (map len ts).
Proof.
  induction ts as [|t rest IH]; [reflexivity|].
  cbn [cartesian_rows map]. rewrite prod_cons, <- IH.
  induction t as [|x t IHt]; [unfold len; cbn; lia|].
  cbn [flat_map]. rewrite len_app, IHt. unfold len. cbn [length].
  rewrite length_map. lia.
Qed.

Lemma cartesian_rows_root (root : Z) (rest : list (list Z)) :
  Forall (fun row => hd_error row = Some root) (cartesian_rows ([root] :: rest)).
Proof.
  cbn [cartesian_rows flat_map]. rewrite app_nil_r.
  apply Forall_forall. intros row Hin.
  apply in_map_iff in Hin. destruct Hin as [r [<- _]]. reflexivity.
Qed.

Section Topk.

Context {T : Type} {ord : Ord T}.

Lemma insert_desc_length (p : Z * T) (l : list (Z * T)) :
  length (insert_desc p l) = S (length l).
Proof.
  induction l as [|q t IH]; [reflexivity|].
  cbn [insert_desc]. destruct (tlt (snd p) (snd q)); cbn [length]; [rewrite IH|];
    reflexivity.
Qed.

Lemma sort_desc_length (l : list (Z * T)) : length (sort_desc l) = length l.
Proof.
  unfold sort_desc. induction l as [|p t IH]; [reflexivity|].
  cbn [fold_right]. rewrite insert_desc_length. cbn [length]. rewrite IH.
  reflexivity.
Qed.

Lemma enumerate_length (x : list T) : length (enumerate x) = length x.
Proof.
  unfold enumerate. rewrite length_combine, length_map, length_seq. lia.
Qed.

Lemma topk_indices_ok (x : list T) (k : Z) :
  0 <= k <= len x ->
  exists l : list Z, topk_indices x k = inr l /\ len l = k.
Proof.
  intros Hk. unfold topk_indices.
  destruct (Z.ltb_spec k 0); [lia|]. destruct (Z.ltb_spec (len x) k); [lia|].
  cbn [orb]. eexists. split; [reflexivity|].
  unfold len in *. rewrite length_map, length_firstn, sort_desc_length,
    enumerate_length. lia.
Qed.

End Topk.

Lemma single_valued_all (l : list Z) :
  single_valued l = true -> forall k, In k l -> k = hd 0 l.
Proof.
  destruct l as [|k0 t]; [discriminate|]. cbn [single_valued hd].
  intros H k [<-|Hin]; [reflexivity|].
  rewrite forallb_forall in H. specialize (H k Hin).
  apply Z.eqb_eq in H. congruence.
Qed.


Lemma Forall2_len_map (tk : list (list Z)) (ks : list Z) :
  Forall2 (fun l k => len l = k) tk ks -> map len tk = ks.
Proof.
  intros H. induction H as [|l k t ks' Hlk Ht IH]; [reflexivity|].
  cbn [map]. rewrite Hlk, IH. reflexivity.
Qed.

Section Generator.

Context {F : Type} {ord : Ord F}.

(** First branch: all heads share one [k]. *)
Lemma topk_all_heads (k0 : Z) (medusa_logits : list (list (list (list F))))
    (medusa_topk : list Z) :
  Forall2 head_ok medusa_logits medusa_topk ->
  (forall k, In k medusa_topk -> k = k0) ->
  exists tk : list (list Z),
    map_result (fun head => v <- head_last head ;; topk_indices v k0) medusa_logits
    = inr tk
    /\ Forall2 (fun l k => len l = k) tk medusa_topk.
Proof.
  intros Hheads. induction Hheads as [|head k heads ks [v [Hv Hk]] Hrest IH];
    intros Hall.
  - exists []. split; [reflexivity | constructor].
  - destruct IH as [tk [Hrun Hlen]]; [intros k' Hk'; apply Hall; right; exact Hk'|].
    assert (k = k0) by (apply Hall; left; reflexivity). subst k0.
    destruct (topk_indices_ok v k ltac:(lia)) as [l [Hl Hll]].
    cbn [map_result]. rewrite Hv. cbn [bind]. rewrite Hl. cbn [bind].
    rewrite Hrun. cbn [bind ret].
    exists (l :: tk). split; [reflexivity|]. constructor; assumption.
Qed.

Variable medusa_logits : list (list (list (list F))).
Variable medusa_topk : list Z.
Hypothesis Hheads : Forall2 head_ok medusa_logits medusa_topk.

(** Second branch: head [i] uses [medusa_topk[i]]. *)
Lemma topk_each_head (c0 : list (list Z)) :
  forall n : nat, (n <= length medusa_logits)%nat ->
  exists tk : list (list Z),
    for_range n
      (fun i candidates =>
         v <- head_last (nth i medusa_logits []) ;;
         k <- list_item medusa_topk i ;;
         candidate_i <- topk_indices v k ;;
         ret (candidates ++ [candidate_i]))
      c0
    = inr (c0 ++ tk)
    /\ Forall2 (fun l k => len l = k) tk (firstn n medusa_topk).
Proof.
  pose proof (Forall2_length Hheads) as Hlen.
  induction n as [|n IH]; intros Hn.
  - exists []. rewrite app_nil_r. split; [reflexivity | constructor].
  - destruct IH as [tk [Hrun Htk]]; [lia|].
    rewrite for_range_S, Hrun. cbn [bind].
    assert (Hok : head_ok (nth n medusa_logits []) (nth n medusa_topk 0)).
    { apply (Forall2_nth head_ok); [exact Hheads | lia]. }
    destruct Hok as [v [Hv Hk]]. rewrite Hv. cbn [bind].
    unfold list_item. rewrite (nth_error_nth' medusa_topk 0) by lia. cbn [bind ret].
    destruct (topk_indices_ok v (nth n medusa_topk 0) ltac:(lia)) as [l [Hl Hll]].
    rewrite Hl. cbn [bind].
    exists (tk ++ [l]). split; [rewrite app_assoc; reflexivity|].
    rewrite (firstn_S_snoc 0) by lia.
    apply Forall2_app; [exact Htk|]. constructor; [exact Hll | constructor].
Qed.

End Generator.

End CandidateFacts.

Module CandidateClaims.

Import Torch TopologyFacts BuilderFacts TensorFacts CandidateFacts.



End CandidateClaims.

(** ** The inference-state updater *)

Module UpdaterFacts.

Import Torch TopologyFacts BuilderFacts TensorFacts.

Lemma norm_index_total (n i : Z) :
  - n <= i < n -> exists k : nat, norm_index n i = inr k.
Proof.
  intros H. unfold norm_index.
  destruct ((0 <=? i) && (i <? n)) eqn:E1; [eexists; reflexivity|].
  destruct ((- n <=? i) && (i <? 0)) eqn:E2; [eexists; reflexivity|].
  exfalso. apply andb_false_iff in E1. apply andb_false_iff in E2.
  rewrite Z.leb_gt, Z.ltb_ge in E1. rewrite Z.leb_gt, Z.ltb_ge in E2. lia.
Qed.

Lemma broadcast_zip_scalar (f : Z -> Z -> Z) (xs : list Z) (y : Z) :
  broadcast_zip f xs [y] = inr (map (fun x => f x y) xs).
Proof.
  unfold broadcast_zip.
  destruct (Nat.eqb_spec (length xs) (length [y])) as [Heq|Hne].
  - destruct xs as [|x [|x' t]]; try discriminate. reflexivity.
  - destruct xs as [|x [|x' t]]; reflexivity.
Qed.

Section Bonus.

Context {F : Type} {ord : Ord F}.

(** What [torch.argmax(logits[:, 0], dim=-1)] evaluates to: one token per
    path, the argmax of that path's first position. *)
Lemma bonus_tokens_ok (logits : list (list (list F))) :
  bonus_ready logits ->
  (firsts <- map_result first_position logits ;; map_result argmax firsts)
  = inr (map (fun path => argmax_total (hd [] path)) logits).
Proof.
  intros H. unfold bonus_ready in H. rewrite Forall_forall in H.
  rewrite (map_result_ok first_position (fun path => hd [] path)).
  - cbn [bind]. rewrite map_result_map.
    apply (map_result_ok _ (fun path => argmax_total (hd [] path))).
    intros path Hin. destruct (H path Hin) as [v [rest [-> Hv]]].
    cbn [hd]. destruct v; [congruence | reflexivity].
  - intros path Hin. destruct (H path Hin) as [v [rest [-> _]]]. reflexivity.
Qed.

Variable input_ids : list (list Z).
Variable candidates : list (list Z).
Variables best_candidate accept_length : Z.
Variable retrieve_indices : list (list Z).
Variable logits : list (list (list F)).
Variable new_token : Z.
Variable use_base_logits : bool.

Hypothesis Hrange : best_in_range best_candidate retrieve_indices candidates logits.
Hypothesis Hbonus : use_base_logits = true -> bonus_ready logits.

(** The run of the updater once the indexing of the first lines has gone
    through: [toks] are the tokens selected for appending (the accepted
    tokens of the best path, then the bonus tokens). *)
Lemma update_form :
  exists (c b : nat) (toks : list Z),
    norm_index (len candidates) best_candidate = inr c
    /\ norm_index (len logits) best_candidate = inr b
    /\ toks = py_slice (nth c candidates []) 0 (accept_length + 1)
              ++ (if use_base_logits
                  then map (fun path => argmax_total (hd [] path)) logits
                  else [])
    /\ forall (eos_token_id pad_token_id : option Z)
         (unfinished_sequences : list Z),
       update_inference_inputs input_ids candidates best_candidate
         accept_length retrieve_indices logits new_token eos_token_id
         pad_token_id unfinished_sequences use_base_logits
       = (next_tokens <-
            match eos_token_id with
            | Some _ =>
                match pad_token_id with
                | None => raise ValueError
                | Some pad =>
                    kept <- broadcast_zip Z.mul toks unfinished_sequences ;;
                    broadcast_zip Z.add kept
                      (map (fun u => pad * (1 - u)) unfinished_sequences)
                end
            | None => ret toks
            end ;;
          input_ids' <-
            match input_ids with
            | [row] => ret [row ++ next_tokens]
            | _ => raise RuntimeError
            end ;;
          ret {| upd_input_ids := input_ids';
                 upd_logits :=
                   [py_slice (nth b logits []) accept_length (accept_length + 1)];
                 upd_new_token :=
                   if use_base_logits then new_token + (accept_length + 2)
                   else new_token + (accept_length + 1);
                 upd_next_tokens := [next_tokens] |}).
Proof.
  destruct Hrange as [Hr [Hc Hl]].
  destruct (norm_index_total _ _ Hr) as [k Hk].
  destruct (norm_index_total _ _ Hc) as [c Hcc].
  destruct (norm_index_total _ _ Hl) as [b Hb].
  exists c, b. eexists. split; [exact Hcc|]. split; [exact Hb|].
  split; [reflexivity|].
  intros eos pad unfinished. unfold update_inference_inputs.
  rewrite Hk. cbn [bind]. rewrite Hcc. cbn [bind].
  destruct use_base_logits.
  - pose proof (bonus_tokens_ok logits (Hbonus eq_refl)) as Hbt.
    apply bind_inr_inv in Hbt. destruct Hbt as [firsts [Hf Ha]].
    rewrite Hf. cbn [bind]. rewrite Ha. cbn [bind ret].
    destruct eos as [e|]; [destruct pad as [pd|]|]; cbn [bind raise ret].
    + destruct (broadcast_zip Z.mul _ unfinished) as [err|kept]; cbn [bind];
        [reflexivity|].
      destruct (broadcast_zip Z.add kept _) as [err|nt]; cbn [bind];
        [reflexivity|].
      destruct input_ids as [|row [|row' rest]]; cbn [bind raise ret];
        try reflexivity.
      rewrite Hb. reflexivity.
    + reflexivity.
    + destruct input_ids as [|row [|row' rest]]; cbn [bind raise ret];
        try reflexivity.
      rewrite Hb. reflexivity.
  - cbn [bind ret]. rewrite app_nil_r.
    destruct eos as [e|]; [destruct pad as [pd|]|]; cbn [bind raise ret].
    + destruct (broadcast_zip Z.mul _ unfinished) as [err|kept]; cbn [bind];
        [reflexivity|].
      destruct (broadcast_zip Z.add kept _) as [err|nt]; cbn [bind];
        [reflexivity|].
      destruct input_ids as [|row [|row' rest]]; cbn [bind raise ret];
        try reflexivity.
      rewrite Hb. reflexivity.
    + reflexivity.
    + destruct input_ids as [|row [|row' rest]]; cbn [bind raise ret];
        try reflexivity.
      rewrite Hb. reflexivity.
Qed.

End Bonus.

End UpdaterFacts.

Module UpdaterClaims.

Import Torch TopologyFacts BuilderFacts TensorFacts UpdaterFacts.

(** C7 (not met by the code): two paths, best path 0 with accept length 1,
    [use_base_logits] set.  One bonus token is specified, the argmax of the
    logits at position 1 of path 0, which gives the three tokens [5; 7; 0].
    The code appends [5; 7; 1; 0]: after the two accepted tokens come the
    argmax of position 0 of every path, two tokens here, while the counter
    still grows by [accept_length + 2 = 3]. *)
Theorem C7_bonus_tokens_failing_input :
  exists u : inference_update Z,
    update_inference_inputs (F := Z) [[100; 101]] [[5; 7]; [5; 8]] 0 1
      [[0; 1]; [0; 2]] [[[0; 1]; [1; 0]]; [[1; 0]; [0; 1]]] 10 None None [1] true
    = inr u
    /\ upd_next_tokens u = [[5; 7; 1; 0]]
    /\ upd_input_ids u = [[100; 101; 5; 7; 1; 0]]
    /\ upd_new_token u = 10 + (1 + 2)
    /\ argmax_total (T := Z) (nth 1 (nth 0 [[[0; 1]; [1; 0]]; [[1; 0]; [0; 1]]] []) [])
       = 0.
Proof.
  eexists. split; [reflexivity|]. repeat split.
Qed.

(** C8: once the best candidate indexes the tables (and, with
    [use_base_logits], every path has logits for its first position), the
    updater raises the configuration error ([ValueError]) exactly when
    [eos_token_id] is set and [pad_token_id] is not.  With both set and a
    batch of one sequence, a sequence whose unfinished flag is 0 gets
    [pad_token_id] in place of every token appended in this step, and a
    sequence whose flag is 1 gets the selected tokens unchanged (the tokens
    appended when no eos token is configured). *)
Theorem C8_pad_finished_sequences {F : Type} {ord : Ord F}
    (row : list Z) (candidates : list (list Z))
    (best_candidate accept_length : Z) (retrieve_indices : list (list Z))
    (logits : list (list (list F))) (new_token : Z) (use_base_logits : bool) :
  best_in_range best_candidate retrieve_indices candidates logits ->
  (use_base_logits = true -> bonus_ready logits) ->
  let update := fun eos_token_id pad_token_id unfinished_sequences =>
    update_inference_inputs [row] candidates best_candidate accept_length
      retrieve_indices logits new_token eos_token_id pad_token_id
      unfinished_sequences use_base_logits in
  (forall (eos_token_id pad_token_id : option Z) (unfinished_sequences : list Z),
     update eos_token_id pad_token_id unfinished_sequences = inl ValueError
     <-> (eos_token_id <> None /\ pad_token_id = None))
  /\ exists (c : nat) (selected : list Z),
       norm_index (len candidates) best_candidate = inr c
       /\ selected
          = py_slice (nth c candidates []) 0 (accept_length + 1)
            ++ (if use_base_logits
                then map (fun path => argmax_total (hd [] path)) logits
                else [])
       /\ (forall (pad_token_id : option Z) (unfinished_sequences : list Z),
            exists u : inference_update F,
              update None pad_token_id unfinished_sequences = inr u
              /\ upd_next_tokens u = [selected]
              /\ upd_input_ids u = [row ++ selected])
       /\ forall eos pad : Z,
            (exists u : inference_update F,
               update (Some eos) (Some pad) [1] = inr u
               /\ upd_next_tokens u = [selected]
               /\ upd_input_ids u = [row ++ selected])
            /\ (exists u : inference_update F,
                  update (Some eos) (Some pad) [0] = inr u
                  /\ upd_next_tokens u = [map (fun _ => pad) selected]
                  /\ upd_input_ids u = [row ++ map (fun _ => pad) selected]).
Proof.
  intros Hrange Hbonus update.
  destruct (update_form [row] candidates best_candidate accept_length
              retrieve_indices logits new_token use_base_logits Hrange Hbonus)
    as [c [b [toks [Hc [_ [Htoks Hform]]]]]].
  subst update. cbv beta. split.
  - intros eos pad unfinished. rewrite Hform. split.
    + destruct eos as [e|]; [destruct pad as [pd|]|]; cbn [bind raise ret].
      * destruct (broadcast_zip Z.mul toks unfinished) as [err|kept] eqn:E1;
          cbn [bind].
        -- unfold broadcast_zip in E1.
           destruct (Nat.eqb _ _); [discriminate|].
           destruct toks as [|t [|t' ts]], unfinished as [|x [|x' xs]];
             try discriminate; injection E1 as <-; discriminate.
        -- destruct (broadcast_zip Z.add kept _) as [err|nt] eqn:E2; cbn [bind];
             [|discriminate].
           unfold broadcast_zip in E2.
           destruct (Nat.eqb _ _); [discriminate|].
           destruct kept as [|t [|t' ts]], unfinished as [|x [|x' xs]];
             try discriminate; injection E2 as <-; discriminate.
      * intros _. split; [discriminate | reflexivity].
      * discriminate.
    + intros [Heos ->]. destruct eos as [e|]; [reflexivity | congruence].
  - exists c, toks. split; [exact Hc|]. split; [exact Htoks|]. split.
    + intros pad unfinished. rewrite Hform. cbn [bind ret].
      eexists. split; [reflexivity|]. split; reflexivity.
    + intros eos pad. split.
      * rewrite Hform. rewrite broadcast_zip_scalar. cbn [bind map].
        rewrite broadcast_zip_scalar. cbn [bind ret]. rewrite map_map.
        assert (Hid : map (fun x => x * 1 + pad * (1 - 1)) toks = toks).
        { rewrite <- (map_id toks) at 2. apply map_ext. intros x. lia. }
        rewrite Hid. eexists. split; [reflexivity|]. split; reflexivity.
      * rewrite Hform. rewrite broadcast_zip_scalar. cbn [bind map].
        rewrite broadcast_zip_scalar. cbn [bind ret]. rewrite map_map.
        assert (Hpad : map (fun x => x * 0 + pad * (1 - 0)) toks
                       = map (fun _ => pad) toks).
        { apply map_ext. intros x. lia. }
        rewrite Hpad. eexists. split; [reflexivity|]. split; reflexivity.
Qed.

Lemma C8_pad_finished_sequences_witness :
  exists selected : list Z,
    (exists u : inference_update Z,
       update_inference_inputs (F := Z) [[100; 101]] [[5; 7]; [5; 8]] 0 1
         [[0; 1]; [0; 2]] [[[0; 1]; [1; 0]]; [[1; 0]; [0; 1]]] 10
         (Some 50) (Some 99) [1] false = inr u
       /\ upd_next_tokens u = [selected])
    /\ (exists u : inference_update Z,
          update_inference_inputs (F := Z) [[100; 101]] [[5; 7]; [5; 8]] 0 1
            [[0; 1]; [0; 2]] [[[0; 1]; [1; 0]]; [[1; 0]; [0; 1]]] 10
            (Some 50) (Some 99) [0] false = inr u
          /\ upd_next_tokens u = [map (fun _ => 99) selected]).
Proof.
  destruct (C8_pad_finished_sequences (F := Z) [100; 101] [[5; 7]; [5; 8]] 0 1
              [[0; 1]; [0; 2]] [[[0; 1]; [1; 0]]; [[1; 0]; [0; 1]]] 10 false)
    as [_ [c [selected [_ [_ [_ Hsel]]]]]].
  - unfold best_in_range, len. cbn. lia.
  - discriminate.
  - destruct (Hsel 50 99) as [[u1 [H1 [Hn1 _]]] [u0 [H0 [Hn0 _]]]].
    exists selected. split.
    + exists u1. split; assumption.
    + exists u0. split; assumption.
Defined.

End UpdaterClaims.

(** ** More on the candidate tree: pool indices and paths *)

Module TreePlumbing.

Import Torch Topology TopologyFacts BuilderFacts TreeFacts BuilderErrors.

Lemma nth_concat_repeat {A : Type} (d : A) (x : list A) (n : nat) :
  forall o : nat, (o < n * length x)%nat ->
  nth o (concat (repeat x n)) d = nth (o mod length x) x d.
Proof.
  induction n as [|n IH]; intros o Ho; [cbn in Ho; lia|].
  assert (Hx : (0 < length x)%nat) by (destruct x; cbn in *; lia).
  cbn [repeat concat].
  destruct (Nat.lt_ge_cases o (length x)) as [Hlt|Hge].
  - rewrite app_nth1 by exact Hlt. rewrite Nat.mod_small by exact Hlt. reflexivity.
  - rewrite app_nth2 by lia. rewrite IH by (cbn in Ho; lia).
    f_equal.
    replace o with ((o - length x) + 1 * length x)%nat at 2 by lia.
    rewrite Nat.Div0.mod_add. reflexivity.
Qed.

Lemma py_slice_nth {A : Type} (d : A) (l : list A) (lo hi : Z) (m : nat) :
  0 <= lo <= hi -> hi <= len l -> (m < Z.to_nat (hi - lo))%nat ->
  nth m (py_slice l lo hi) d = nth (Z.to_nat lo + m) l d.
Proof.
  intros H1 H2 Hm. unfold py_slice. rewrite !norm_bound_id by lia.
  rewrite nth_firstn. destruct (Nat.ltb_spec m (Z.to_nat (hi - lo))); [|lia].
  apply nth_skipn.
Qed.

(** Step 1 on a well-formed specification, with the content of the list:
    the node of offset [o] in level [i] takes the pool entry
    [cs b i + o mod b[i]]. *)
Lemma tree_indices_loop_content (b : list Z) :
  positive_spec b ->
  forall k : nat, (k <= length b)%nat ->
  exists ti : list Z,
    for_range k
      (tree_indices_body b (map (fun j => 0 + Z.of_nat j) (seq 0 (Z.to_nat (sum b - 0)))))
      ([], 0, 1)
    = inr (ti, cs b k, cp b k)
    /\ len ti = st b k
    /\ forall (i : nat) (o : Z), (i < k)%nat -> 0 <= o < cp b (S i) ->
         nth (Z.to_nat (st b i + o)) ti 0 = cs b i + o mod nth i b 0.
Proof.
  intros Hb k. set (mi := map _ (seq 0 (Z.to_nat (sum b - 0)))).
  assert (Hmi : len mi = sum b).
  { subst mi. unfold len. rewrite length_map, length_seq.
    pose proof (sum_nonneg b Hb). lia. }
  induction k as [|k IH]; intros Hk.
  - exists []. split; [reflexivity|]. split; [reflexivity|]. intros i o Hi. lia.
  - destruct IH as [ti [Hrun [Hlen Hcontent]]]; [lia|].
    rewrite for_range_S, (bind_inr _ _ _ Hrun).
    unfold tree_indices_body.
    rewrite cumsum_nth, cumprod_nth by lia.
    pose proof (cp_pos b k Hb) as Hcp.
    pose proof (positive_nth b k Hb ltac:(lia)) as Hbk.
    pose proof (cs_nonneg b k Hb) as Hcs.
    pose proof (cs_le_sum b (S k) Hb) as Hcs'.
    pose proof (st_nonneg b k Hb) as Hst.
    rewrite repeat_rows_ok by lia. cbn [bind].
    rewrite (cs_S b k) in * by lia.
    set (sl := py_slice mi (cs b k) (cs b k + nth k b 0)).
    assert (Hsl : length sl = Z.to_nat (nth k b 0)).
    { subst sl. rewrite py_slice_length; rewrite ?Hmi; lia. }
    eexists. split; [reflexivity|]. split.
    + rewrite len_app, Hlen. unfold flatten, len.
      rewrite length_concat_repeat, Hsl, (st_S b k), (cp_S b k) by lia.
      rewrite Nat2Z.inj_mul, !Z2Nat.id by lia. lia.
    + intros i o Hi Ho.
      pose proof (st_nonneg b i Hb) as Hsti.
      destruct (Nat.eq_dec i k) as [->|Hne].
      * rewrite app_nth2 by (unfold len in Hlen; lia).
        replace (Z.to_nat (st b k + o) - length ti)%nat with (Z.to_nat o)
          by (unfold len in Hlen; lia).
        rewrite (cp_S b k) in Ho by lia.
        unfold flatten. rewrite nth_concat_repeat
          by (rewrite Hsl, <- Z2Nat.inj_mul by lia; lia).
        rewrite Hsl. subst sl.
        set (bk := Z.to_nat (nth k b 0)) in *.
        assert (Hmod : (Z.to_nat o mod bk < bk)%nat)
          by (apply Nat.mod_upper_bound; subst bk; lia).
        rewrite py_slice_nth; rewrite ?Hmi; try lia.
        subst mi. rewrite nth_arange.
        -- rewrite Nat2Z.inj_add, Nat2Z.inj_mod. subst bk.
           rewrite !Z2Nat.id by lia. lia.
        -- subst bk. lia.
      * pose proof (st_mono b (S i) k Hb ltac:(lia)) as Hm.
        rewrite (st_S b i) in Hm by lia.
        rewrite app_nth1 by (unfold len in Hlen; lia).
        apply Hcontent; [lia | exact Ho].
Qed.

(** The [tree_indices] buffer the builder returns is the list step 1
    computes. *)
Lemma generate_tree_indices (b : list Z) (bufs : medusa_buffers) :
  generate_medusa_buffers b = inr bufs ->
  exists (pcs pcp : Z),
    for_range (length b)
      (tree_indices_body b (map (fun j => 0 + Z.of_nat j) (seq 0 (Z.to_nat (sum b - 0)))))
      ([], 0, 1)
    = inr (tree_indices bufs, pcs, pcp).
Proof.
  intros Hrun.
  destruct (generate_medusa_buffers_success b bufs Hrun) as [Hne Hb].
  pose proof (sum_nonneg b Hb) as HS.
  unfold generate_medusa_buffers in Hrun.
  destruct b as [|x t] eqn:Eb; [discriminate|]. rewrite <- Eb in *.
  cbv zeta in Hrun.
  apply bind_inr_inv in Hrun. destruct Hrun as [mask0 [_ Hrun]].
  unfold cumsum in Hrun.
  rewrite last_cumsum_from, Z.add_0_l in Hrun by (rewrite Eb; discriminate).
  unfold arange in Hrun. rewrite arange2_ok in Hrun by lia. cbn [bind] in Hrun.
  apply bind_inr_inv in Hrun. destruct Hrun as [[[ti pcs] pcp] [Hloop Hrun]].
  apply bind_inr_inv in Hrun. destruct Hrun as [[mask ?] [_ Hrun]].
  apply bind_inr_inv in Hrun. destruct Hrun as [r0 [_ Hrun]].
  apply bind_inr_inv in Hrun. destruct Hrun as [[ri prev] [_ Hrun]].
  apply bind_inr_inv in Hrun. destruct Hrun as [[blocks ?] [_ Hrun]].
  apply bind_inr_inv in Hrun. destruct Hrun as [c [_ Hrun]].
  injection Hrun as <-. cbn [tree_indices].
  exists pcs, pcp. exact Hloop.
Qed.

Lemma tree_indices_entry (b : list Z) (bufs : medusa_buffers) (i : nat) (o : Z) :
  generate_medusa_buffers b = inr bufs ->
  (i < length b)%nat -> 0 <= o < cp b (S i) ->
  nth (Z.to_nat (st b i + o)) (tree_indices bufs) 0 = cs b i + o mod nth i b 0.
Proof.
  intros Hrun Hi Ho.
  destruct (generate_medusa_buffers_success b bufs Hrun) as [Hne Hb].
  destruct (generate_tree_indices b bufs Hrun) as [pcs [pcp Hloop]].
  destruct (tree_indices_loop_content b Hb (length b) (le_n _))
    as [ti [Hrun' [_ Hcontent]]].
  rewrite Hloop in Hrun'. injection Hrun' as -> _ _.
  apply Hcontent; assumption.
Qed.

(** Every pool index the builder emits addresses the candidate pool. *)
Lemma tree_indices_range (b : list Z) (bufs : medusa_buffers) :
  generate_medusa_buffers b = inr bufs ->
  Forall (fun idx => 0 <= idx < sum b) (tree_indices bufs).
Proof.
  intros Hrun.
  destruct (generate_medusa_buffers_success b bufs Hrun) as [Hne Hb].
  destruct (generate_medusa_buffers_ok b Hb Hne) as [bufs' [Hrun' Hbuilt]].
  rewrite Hrun in Hrun'. injection Hrun' as <-.
  pose proof (built_tree_indices _ _ Hbuilt) as Hlen.
  apply Forall_forall. intros idx Hin.
  destruct (In_nth _ _ 0 Hin) as [r [Hr <-]].
  destruct (node_level b (Z.of_nat r) Hb) as [d [Hd Hlev]];
    [unfold len in Hlen; lia|].
  rewrite (st_S b d) in Hlev by exact Hd.
  pose proof (tree_indices_entry b bufs d (Z.of_nat r - st b d) Hrun Hd ltac:(lia))
    as Hentry.
  replace (st b d + (Z.of_nat r - st b d)) with (Z.of_nat r) in Hentry by lia.
  rewrite Nat2Z.id in Hentry. rewrite Hentry.
  pose proof (positive_nth b d Hb Hd) as Hbd.
  pose proof (Z.mod_pos_bound (Z.of_nat r - st b d) (nth d b 0) Hbd) as Hmod.
  pose proof (cs_nonneg b d Hb). pose proof (cs_le_sum b (S d) Hb) as Hle.
  rewrite (cs_S b d) in Hle by exact Hd. lia.
Qed.

(** *** Entries of the cartesian product *)

Lemma nth_flat_map_blocks {A B : Type} (f : A -> list B) (q : nat)
    (dl : A) (d : B) :
  (forall x, length (f x) = q) ->
  forall (l : list A) (p : nat), (p < length l * q)%nat ->
  nth p (flat_map f l) d = nth (p mod q) (f (nth (p / q) l dl)) d.
Proof.
  intros Hq. induction l as [|x t IH]; intros p Hp; [cbn in Hp; lia|].
  assert (H0 : (0 < q)%nat)
    by (destruct q; [rewrite Nat.mul_0_r in Hp; lia | lia]).
  cbn [flat_map].
  destruct (Nat.lt_ge_cases p q) as [Hlt|Hge].
  - rewrite app_nth1 by (rewrite Hq; exact Hlt).
    rewrite Nat.mod_small, Nat.div_small by exact Hlt. reflexivity.
  - rewrite app_nth2 by (rewrite Hq; lia). rewrite Hq.
    rewrite IH by (cbn in Hp; lia).
    replace p with ((p - q) + 1 * q)%nat at 3 4 by lia.
    rewrite Nat.Div0.mod_add, Nat.div_add by lia.
    replace ((p - q) / q + 1)%nat with (S ((p - q) / q)) by lia.
    reflexivity.
Qed.

Lemma cartesian_rows_length_nat (ts : list (list Z)) :
  length (cartesian_rows ts) = nat_prod (map (@length Z) ts).
Proof.
  induction ts as [|t rest IH]; [reflexivity|].
  cbn [cartesian_rows map nat_prod fold_right]. fold (nat_prod (map (@length Z) rest)).
  rewrite <- IH. induction t as [|x t IHt]; [reflexivity|].
  cbn [flat_map length]. rewrite length_app, length_map, IHt. reflexivity.
Qed.

Lemma nat_prod_pos (l : list nat) :
  Forall (fun n => (0 < n)%nat) l -> (0 < nat_prod l)%nat.
Proof.
  induction 1 as [|n t Hn Ht IH]; [cbn; lia|].
  cbn [nat_prod fold_right]. fold (nat_prod t). nia.
Qed.

Lemma nat_prod_split (l : list nat) (i : nat) :
  (i < length l)%nat ->
  nat_prod l
  = (nat_prod (firstn i l) * (nth i l 0%nat * nat_prod (skipn (S i) l)))%nat.
Proof.
  revert i. induction l as [|n t IH]; intros i Hi; [cbn in Hi; lia|].
  destruct i as [|i].
  - cbn. lia.
  - cbn [firstn skipn nth].
    change (nat_prod (n :: t)) with (n * nat_prod t)%nat.
    change (nat_prod (n :: firstn i t)) with (n * nat_prod (firstn i t))%nat.
    rewrite (IH i) by (cbn in Hi; lia). rewrite !Nat.mul_assoc. reflexivity.
Qed.

Lemma digit_of_remainder (p A n q : nat) :
  (0 < n)%nat -> (0 < q)%nat ->
  (((p mod (A * (n * q))) / q) mod n = (p / q) mod n)%nat.
Proof.
  intros Hn Hq.
  destruct (Nat.eq_dec A 0) as [->|HA].
  - cbn [Nat.mul]. rewrite Nat.mod_0_r. reflexivity.
  - set (Q := (A * (n * q))%nat).
    assert (HQ : (0 < Q)%nat) by (subst Q; nia).
    rewrite (Nat.div_mod_eq p Q) at 2.
    replace (Q * (p / Q) + p mod Q)%nat
      with (p mod Q + (A * (p / Q) * n) * q)%nat by (subst Q; nia).
    rewrite Nat.div_add by lia.
    rewrite Nat.Div0.mod_add. reflexivity.
Qed.

(** Row [p] of the cartesian product holds, in column [i], the entry of the
    [i]-th tensor selected by the [i]-th mixed-radix digit of [p]. *)
Lemma cartesian_rows_entry (ts : list (list Z)) :
  Forall (fun t => t <> []) ts ->
  forall (p i : nat),
  (p < nat_prod (map (@length Z) ts))%nat -> (i < length ts)%nat ->
  nth i (nth p (cartesian_rows ts) []) 0
  = nth ((p / nat_prod (skipn (S i) (map (@length Z) ts)))
           mod length (nth i ts []))
        (nth i ts []) 0.
Proof.
  induction 1 as [|t rest Ht Hrest IH]; intros p i Hp Hi; [cbn in Hi; lia|].
  assert (Hlens : Forall (fun n => (0 < n)%nat) (map (@length Z) rest)).
  { apply Forall_forall. intros n Hn. apply in_map_iff in Hn.
    destruct Hn as [u [<- Hu]]. rewrite Forall_forall in Hrest.
    specialize (Hrest u Hu). destruct u; [congruence | cbn; lia]. }
  pose proof (nat_prod_pos _ Hlens) as HQ.
  set (Q := nat_prod (map (@length Z) rest)) in *.
  cbn [map nat_prod fold_right] in Hp. fold (nat_prod (map (@length Z) rest)) in Hp.
  fold Q in Hp.
  cbn [cartesian_rows].
  rewrite (nth_flat_map_blocks (fun x => map (cons x) (cartesian_rows rest)) Q 0 [])
    by (try (intros x; rewrite length_map; apply cartesian_rows_length_nat);
        exact Hp).
  assert (HpQ : (p mod Q < Q)%nat) by (apply Nat.mod_upper_bound; lia).
  rewrite (nth_indep _ [] (cons (nth (p / Q) t 0) []))
    by (rewrite length_map, cartesian_rows_length_nat; exact HpQ).
  rewrite (map_nth (cons (nth (p / Q) t 0))).
  destruct i as [|i].
  - cbn [nth map skipn]. fold Q.
    assert (Hdiv : (p / Q < length t)%nat)
      by (apply Nat.Div0.div_lt_upper_bound; lia).
    rewrite Nat.mod_small by exact Hdiv. reflexivity.
  - cbn [nth map skipn].
    rewrite IH by (try exact HpQ; cbn in Hi; lia).
    assert (Hi' : (i < length (map (@length Z) rest))%nat)
      by (rewrite length_map; cbn in Hi; lia).
    assert (Hn : (0 < length (nth i rest []))%nat).
    { rewrite Forall_forall in Hrest.
      assert (Hin : In (nth i rest []) rest) by (apply nth_In; cbn in Hi; lia).
      specialize (Hrest _ Hin). destruct (nth i rest []); [congruence | cbn; lia]. }
    assert (Hq : (0 < nat_prod (skipn (S i) (map (@length Z) rest)))%nat).
    { apply nat_prod_pos. apply Forall_forall. intros n Hin.
      rewrite Forall_forall in Hlens. apply Hlens.
      rewrite <- (firstn_skipn (S i) (map (@length Z) rest)).
      apply in_or_app. right. exact Hin. }
    f_equal.
    unfold Q. rewrite (nat_prod_split _ i Hi').
    rewrite (nth_indep _ 0%nat (length (@nil Z))) by exact Hi'.
    rewrite (map_nth (@length Z)).
    apply digit_of_remainder; assumption.
Qed.

(** *** The flattened pool *)

Lemma nth_concat_at {A : Type} (d : A) (ts : list (list A)) :
  forall (i m : nat), (i < length ts)%nat -> (m < length (nth i ts []))%nat ->
  nth (length (concat (firstn i ts)) + m) (concat ts) d = nth m (nth i ts []) d.
Proof.
  induction ts as [|t rest IH]; intros i m Hi Hm; [cbn in Hi; lia|].
  destruct i as [|i].
  - cbn [firstn concat length nth Nat.add] in *. apply app_nth1. exact Hm.
  - cbn [firstn concat nth] in *. rewrite length_app, <- Nat.add_assoc.
    rewrite app_nth2_plus. apply IH; [cbn in Hi; lia | exact Hm].
Qed.

Lemma len_concat_firstn (ts : list (list Z)) (i : nat) :
  len (concat (firstn i ts)) = cs (map len ts) i.
Proof.
  unfold cs. rewrite firstn_map.
  induction (firstn i ts) as [|t rest IH]; [reflexivity|].
  cbn [concat map]. rewrite len_app, sum_cons, IH. reflexivity.
Qed.

Lemma prod_map_len (l : list (list Z)) :
  prod (map len l) = Z.of_nat (nat_prod (map (@length Z) l)).
Proof.
  induction l as [|t rest IH]; [reflexivity|].
  cbn [map]. rewrite prod_cons, IH.
  change (nat_prod (length t :: map (@length Z) rest))
    with (length t * nat_prod (map (@length Z) rest))%nat.
  rewrite Nat2Z.inj_mul. reflexivity.
Qed.

Lemma positive_pool (ts : list (list Z)) :
  positive_spec (map len ts) -> Forall (fun t => t <> []) ts.
Proof.
  intros H. unfold positive_spec in H. rewrite Forall_forall in *.
  intros t Ht Hnil. subst t.
  specialize (H (len []) (in_map len ts [] Ht)). unfold len in H. cbn in H. lia.
Qed.

(** Gathering the pool with the builder's [tree_indices] and reading the
    result along row [p] of [retrieve_indices] gives back row [p] of the
    cartesian product. *)
Lemma pool_gather (ts : list (list Z)) (bufs : medusa_buffers) :
  generate_medusa_buffers (map len ts) = inr bufs ->
  exists tree : list Z,
    index_rows 0 (flatten ts) (tree_indices bufs) = inr tree
    /\ len tree = sum (cumprod (map len ts))
    /\ forall (p i : nat),
         (p < length (cartesian_rows ts))%nat -> (i < length ts)%nat ->
         nth (Z.to_nat (nth i (nth p (retrieve_indices bufs) []) 0)) tree 0
         = nth i (nth p (cartesian_rows ts) []) 0.
Proof.
  intros Hrun. set (b := map len ts) in *.
  destruct (generate_medusa_buffers_success b bufs Hrun) as [Hne Hb].
  destruct (generate_medusa_buffers_ok b Hb Hne) as [bufs' [Hrun' Hbuilt]].
  rewrite Hrun in Hrun'. injection Hrun' as <-.
  pose proof (positive_pool ts Hb) as Hpool.
  assert (Hflat : len (flatten ts) = sum b).
  { unfold flatten. rewrite <- (firstn_all ts) at 1. rewrite len_concat_firstn.
    fold b. rewrite <- (length_map len ts). fold b. apply cs_all. }
  assert (Hrange : Forall (fun idx => 0 <= idx < len (flatten ts)) (tree_indices bufs)).
  { rewrite Hflat. apply tree_indices_range. exact Hrun. }
  rewrite (index_rows_ok 0 (flatten ts) (tree_indices bufs) Hrange).
  eexists. split; [reflexivity|]. split.
  { unfold len. rewrite length_map. apply (built_tree_indices _ _ Hbuilt). }
  intros p i Hp Hi.
  assert (HL : length b = length ts) by (subst b; apply length_map).
  rewrite cartesian_rows_length_nat in Hp.
  assert (HP : prod b = Z.of_nat (nat_prod (map (@length Z) ts)))
    by (subst b; apply prod_map_len).
  rewrite (built_retrieve_entry _ _ Hbuilt) by lia.
  rewrite cartesian_rows_entry by assumption.
  set (q := nat_prod (skipn (S i) (map (@length Z) ts))).
  assert (Hq : prod (skipn (S i) b) = Z.of_nat q).
  { subst b q. rewrite !skipn_map. apply prod_map_len. }
  rewrite Hq, <- Nat2Z.inj_div.
  pose proof (prod_skipn_pos b (S i) Hb) as Hqpos.
  pose proof (cp_pos b (S i) Hb) as Hcp.
  pose proof (st_nonneg b i Hb) as Hst.
  assert (Ho : 0 <= Z.of_nat (p / q) < cp b (S i)).
  { split; [lia|]. rewrite Nat2Z.inj_div.
    apply Z.div_lt_upper_bound; [lia|].
    rewrite <- Hq, Z.mul_comm, <- prod_split. lia. }
  assert (Hn : (Z.to_nat (st b i + Z.of_nat (p / q)) < length (tree_indices bufs))%nat).
  { pose proof (built_tree_indices _ _ Hbuilt) as Hlen. unfold len in Hlen.
    pose proof (st_mono b (S i) (length b) Hb ltac:(lia)) as Hm.
    rewrite st_all, (st_S b i) in Hm by lia. lia. }
  rewrite (nth_indep _ 0 ((fun idx => nth (Z.to_nat idx) (flatten ts) 0) 0))
    by (rewrite length_map; exact Hn).
  rewrite (map_nth (fun idx => nth (Z.to_nat idx) (flatten ts) 0)).
  rewrite (tree_indices_entry b bufs i _ Hrun ltac:(lia) Ho).
  assert (Hbi : nth i b 0 = Z.of_nat (length (nth i ts []))).
  { subst b. rewrite (nth_indep _ 0 (len (@nil Z))) by (rewrite length_map; exact Hi).
    rewrite (map_nth (@len Z)). reflexivity. }
  rewrite Hbi, <- Nat2Z.inj_mod.
  pose proof (len_concat_firstn ts i) as Hcs. fold b in Hcs. unfold len in Hcs.
  rewrite <- Hcs, <- Nat2Z.inj_add, Nat2Z.id.
  unfold flatten. apply nth_concat_at; [exact Hi|].
  apply Nat.mod_upper_bound.
  rewrite Forall_forall in Hpool.
  assert (Hin : In (nth i ts []) ts) by (apply nth_In; exact Hi).
  specialize (Hpool _ Hin). destruct (nth i ts []); [congruence | cbn; lia].
Qed.

(** *** Nodes of a path *)

Lemma path_offset_range (b : list Z) (p j : nat) :
  positive_spec b -> (p < Z.to_nat (prod b))%nat -> (j < length b)%nat ->
  0 <= Z.of_nat p / prod (skipn (S j) b) < cp b (S j).
Proof.
  intros Hb Hp Hj.
  pose proof (prod_skipn_pos b (S j) Hb) as Hq.
  pose proof (prod_pos b Hb) as HP.
  split; [apply Z.div_pos; lia|].
  apply Z.div_lt_upper_bound; [lia|].
  rewrite Z.mul_comm, <- prod_split. lia.
Qed.

(** The node in column [j] of a path lies in level [j]. *)
Lemma path_node_level (b : list Z) (bufs : medusa_buffers) (p j : nat) :
  positive_spec b -> built b bufs ->
  (p < Z.to_nat (prod b))%nat -> (j < length b)%nat ->
  st b j <= nth j (nth p (retrieve_indices bufs) []) 0 < st b (S j).
Proof.
  intros Hb Hbuilt Hp Hj.
  rewrite (built_retrieve_entry _ _ Hbuilt) by assumption.
  pose proof (path_offset_range b p j Hb Hp Hj).
  rewrite (st_S b j) by exact Hj. lia.
Qed.

Lemma In_rev_seq (i n : nat) : In i (rev (seq 0 n)) <-> (i < n)%nat.
Proof. rewrite <- in_rev, in_seq. lia. Qed.

(** Every pool index lies in the block of exactly one head. *)
Lemma pool_level (b : list Z) (x : Z) :
  positive_spec b -> 0 <= x < sum b ->
  exists i : nat, (i < length b)%nat /\ cs b i <= x < cs b (S i).
Proof.
  intros Hb Hx. rewrite <- cs_all in Hx.
  induction (length b) as [|n IH].
  - rewrite cs_0 in Hx. lia.
  - destruct (Z.lt_ge_cases x (cs b n)) as [Hlt|Hge].
    + destruct IH as [i [Hi Hin]]; [lia|]. exists i. split; [lia | exact Hin].
    + exists n. split; [lia|]. lia.
Qed.

Lemma cp_ge_factor (b : list Z) (i : nat) :
  positive_spec b -> (i < length b)%nat -> nth i b 0 <= cp b (S i).
Proof.
  intros Hb Hi. rewrite cp_S by exact Hi.
  pose proof (cp_pos b i Hb). pose proof (positive_nth b i Hb Hi). nia.
Qed.

(** What a successful run of the builder tells about its argument and its
    result. *)
Lemma generate_medusa_buffers_built (b : list Z) (bufs : medusa_buffers) :
  generate_medusa_buffers b = inr bufs ->
  b <> [] /\ positive_spec b /\ built b bufs.
Proof.
  intros Hrun.
  destruct (generate_medusa_buffers_success b bufs Hrun) as [Hne Hb].
  destruct (generate_medusa_buffers_ok b Hb Hne) as [bufs' [Hrun' Hbuilt]].
  rewrite Hrun in Hrun'. injection Hrun' as <-.
  split; [exact Hne | split; [exact Hb | exact Hbuilt]].
Qed.

(** *** The generator's pool *)

Import TensorFacts CandidateFacts.

Section Pool.

Context {F : Type} {ord : Ord F}.

(** On well-shaped logits both branches of the generator build the pool
    [[root], top-k of head 1, ...], and what remains is the gather with
    [tree_indices]. *)
Lemma generate_candidates_form (medusa_logits : list (list (list (list F))))
    (logits : list (list (list F))) (medusa_topk tree_indices : list Z) :
  Forall (fun b => b <> []) logits ->
  flatten (map (fun b => last b []) logits) <> [] ->
  Forall2 head_ok medusa_logits medusa_topk ->
  exists tk : list (list Z),
    map len tk = medusa_topk
    /\ generate_candidates medusa_logits logits medusa_topk tree_indices
       = (tree_candidates <-
            index_rows 0
              (flatten ([argmax_total (flatten (map (fun b => last b []) logits))]
                        :: tk))
              tree_indices ;;
          ret (cartesian_prod
                 ([argmax_total (flatten (map (fun b => last b []) logits))] :: tk),
               [tree_candidates])).
Proof.
  intros Hlast Hne Hheads.
  set (root := argmax_total (flatten (map (fun b => last b []) logits))).
  unfold generate_candidates.
  rewrite (map_result_ok last_position (fun b => last b [])) by
    (intros b Hb; apply last_position_ok; rewrite Forall_forall in Hlast;
     apply Hlast; exact Hb).
  cbn [bind].
  assert (Hroot : argmax (flatten (map (fun b => last b []) logits)) = inr root).
  { subst root. destruct (flatten (map (fun b => last b []) logits));
      [congruence | reflexivity]. }
  rewrite Hroot. cbn [bind].
  destruct (single_valued medusa_topk) eqn:Esv.
  - destruct (topk_all_heads (hd 0 medusa_topk) medusa_logits medusa_topk Hheads
                (single_valued_all medusa_topk Esv)) as [tk [Hrun Hlen]].
    rewrite Hrun. cbn [bind ret app]. exists tk.
    split; [apply Forall2_len_map; exact Hlen | reflexivity].
  - destruct (topk_each_head medusa_logits medusa_topk Hheads [[root]]
                (length medusa_logits) (le_n _)) as [tk [Hrun Hlen]].
    rewrite Hrun. cbn [bind ret app]. exists tk. split; [|reflexivity].
    rewrite (Forall2_length Hheads), firstn_all in Hlen.
    apply Forall2_len_map; exact Hlen.
Qed.

End Pool.

End TreePlumbing.

Module TreePlumbingTheorems.

Import Torch Topology TopologyFacts BuilderFacts TreeFacts BuilderErrors.
Import TensorFacts CandidateFacts TreePlumbing.

(** X1: the builder and the generator fit together.  When the builder is
    run on [1 :: medusa_topk] (one root, then the per-head top-K values) and
    the generator is given the builder's [tree_indices], the generator
    succeeds, [tree_candidates] has one token per tree node, the cartesian
    product has one row per row of [retrieve_indices], and reading
    [tree_candidates] at the node ids of row [p] of [retrieve_indices] gives
    row [p] of [candidates]. *)
Theorem tree_candidates_along_paths {F : Type} {ord : Ord F}
    (medusa_logits : list (list (list (list F))))
    (logits : list (list (list F))) (medusa_topk : list Z)
    (bufs : medusa_buffers) :
  Forall (fun b => b <> []) logits ->
  flatten (map (fun b => last b []) logits) <> [] ->
  Forall2 head_ok medusa_logits medusa_topk ->
  generate_medusa_buffers (1 :: medusa_topk) = inr bufs ->
  exists (candidates : long_tensor) (tree_candidates : list Z),
    generate_candidates medusa_logits logits medusa_topk (tree_indices bufs)
    = inr (candidates, [tree_candidates])
    /\ len tree_candidates = sum (cumprod (1 :: medusa_topk))
    /\ length (rows_of candidates) = length (retrieve_indices bufs)
    /\ forall (p i : nat),
         (p < length (rows_of candidates))%nat ->
         (i <= length medusa_topk)%nat ->
         nth (Z.to_nat (nth i (nth p (retrieve_indices bufs) []) 0))
             tree_candidates 0
         = nth i (nth p (rows_of candidates) []) 0.
Proof.
  intros Hlast Hne Hheads Hrun.
  destruct (generate_candidates_form medusa_logits logits medusa_topk
              (tree_indices bufs) Hlast Hne Hheads) as [tk [Hlens Hform]].
  set (root := argmax_total (flatten (map (fun b => last b []) logits))) in *.
  assert (Hb : map len ([root] :: tk) = 1 :: medusa_topk).
  { cbn [map]. rewrite Hlens. reflexivity. }
  rewrite <- Hb in Hrun.
  destruct (pool_gather ([root] :: tk) bufs Hrun) as [tree [Htree [Hlen Hent]]].
  rewrite Hform, Htree. cbn [bind ret].
  exists (cartesian_prod ([root] :: tk)), tree.
  split; [reflexivity|]. rewrite rows_of_cartesian.
  split; [rewrite Hlen, Hb; reflexivity|].
  destruct (generate_medusa_buffers_success _ bufs Hrun) as [Hne' Hpos].
  destruct (generate_medusa_buffers_ok _ Hpos Hne') as [bufs' [Hrun' Hbuilt]].
  rewrite Hrun in Hrun'. injection Hrun' as <-.
  split.
  - rewrite (built_retrieve_rows _ _ Hbuilt), <- cartesian_rows_length.
    unfold len. rewrite Nat2Z.id. reflexivity.
  - intros p i Hp Hi. apply Hent; [exact Hp|].
    cbn [length]. rewrite <- Hlens, length_map in Hi. lia.
Qed.

(** Two heads with top-K values 1 and 2 over a vocabulary of three
    tokens. *)
Lemma tree_candidates_along_paths_witness :
  exists (bufs : medusa_buffers) (candidates : long_tensor)
         (tree_candidates : list Z),
    generate_medusa_buffers [1; 1; 2] = inr bufs
    /\ generate_candidates (F := Z) [[[[5; 1; 3]]]; [[[2; 9; 4]]]] [[[1; 7; 2]]]
         [1; 2] (tree_indices bufs)
       = inr (candidates, [tree_candidates])
    /\ len tree_candidates = 4
    /\ length (rows_of candidates) = length (retrieve_indices bufs)
    /\ forall (p i : nat),
         (p < length (rows_of candidates))%nat -> (i <= 2)%nat ->
         nth (Z.to_nat (nth i (nth p (retrieve_indices bufs) []) 0))
             tree_candidates 0
         = nth i (nth p (rows_of candidates) []) 0.
Proof.
  assert (H1 : Forall (fun b : list (list Z) => b <> []) [[[1; 7; 2]]])
    by (repeat constructor; discriminate).
  assert (H2 : flatten (map (fun b : list (list Z) => last b []) [[[1; 7; 2]]]) <> [])
    by discriminate.
  assert (H3 : Forall2 (head_ok (F := Z)) [[[[5; 1; 3]]]; [[[2; 9; 4]]]] [1; 2])
    by (repeat constructor; eexists;
        (split; [reflexivity | unfold len; cbn; lia])).
  destruct (generate_medusa_buffers [1; 1; 2]) as [e|bufs] eqn:Hrun;
    [vm_compute in Hrun; discriminate|].
  destruct (tree_candidates_along_paths (F := Z) [[[[5; 1; 3]]]; [[[2; 9; 4]]]]
              [[[1; 7; 2]]] [1; 2] bufs H1 H2 H3 Hrun)
    as [candidates [tree [Hgen [Hlen [Hrows Hent]]]]].
  exists bufs, candidates, tree.
  split; [reflexivity|]. split; [exact Hgen|]. split; [exact Hlen|].
  split; [exact Hrows | exact Hent].
Defined.

(** X2: the rows of [retrieve_indices] are root-to-leaf paths on which the
    attention mask is causal.  For buffers returned by the builder, the node
    in column [j] of any path is a node of the tree, its position id is
    [j], and in the attention mask it attends to the node in column [i] of
    the same path exactly when [i <= j]. *)
Theorem mask_is_causal_along_paths (b : list Z) (bufs : medusa_buffers)
    (p i j : nat) :
  generate_medusa_buffers b = inr bufs ->
  (p < length (retrieve_indices bufs))%nat ->
  (i < length b)%nat -> (j < length b)%nat ->
  let path := nth p (retrieve_indices bufs) [] in
  0 <= nth j path 0 < len (medusa_attn_mask bufs)
  /\ nth (Z.to_nat (nth j path 0)) (medusa_position_ids bufs) 0 = Z.of_nat j
  /\ nth (Z.to_nat (nth i path 0))
         (nth (Z.to_nat (nth j path 0)) (medusa_attn_mask bufs) []) 0
     = if (i <=? j)%nat then 1 else 0.
Proof.
  intros Hrun Hp Hi Hj. cbv zeta.
  destruct (generate_medusa_buffers_built b bufs Hrun) as [Hne [Hb Hbuilt]].
  rewrite (built_retrieve_rows _ _ Hbuilt) in Hp.
  pose proof (path_node_level b bufs p j Hb Hbuilt Hp Hj) as Hlj.
  pose proof (path_node_level b bufs p i Hb Hbuilt Hp Hi) as Hli.
  pose proof (st_nonneg b j Hb) as Hstj.
  pose proof (st_nonneg b i Hb) as Hsti.
  pose proof (st_mono b (S j) (length b) Hb ltac:(lia)) as Hmj.
  pose proof (st_mono b (S i) (length b) Hb ltac:(lia)) as Hmi.
  rewrite st_all in Hmj, Hmi.
  set (rj := nth j (nth p (retrieve_indices bufs) []) 0) in *.
  set (ri := nth i (nth p (retrieve_indices bufs) []) 0) in *.
  assert (HN : len (medusa_attn_mask bufs) = sum (cumprod b)).
  { unfold len. rewrite (built_mask_rows _ _ Hbuilt). lia. }
  split; [lia|]. split.
  { pose proof (position_ids_depth b j rj Hb Hj Hlj) as Hd.
    unfold depth_of in Hd. rewrite (built_position_ids _ _ Hbuilt).
    pose proof (position_ids_prefix b Hb (length b) ltac:(lia)) as [_ H].
    unfold position_ids_of. apply (H j rj Hj Hlj). }
  replace rj with (st b j + (rj - st b j)) at 1 by lia.
  rewrite (built_mask_chain _ _ Hbuilt j (rj - st b j) Hj)
    by (rewrite (st_S b j) in Hlj by exact Hj; lia).
  rewrite ind_row_nth by lia. rewrite Z2Nat.id by lia.
  subst rj. rewrite (path_follows_chain b bufs p j Hb Hbuilt Hp Hj).
  fold ri.
  destruct (Nat.leb_spec i j) as [Hle|Hgt].
  - assert (Hin : In ri (map (fun k => nth k (nth p (retrieve_indices bufs) []) 0)
                            (rev (seq 0 (S j))))).
    { apply in_map_iff. exists i. split; [reflexivity|].
      apply In_rev_seq. lia. }
    apply existsb_eqb_In in Hin. rewrite Hin. reflexivity.
  - destruct (existsb (Z.eqb ri) _) eqn:E; [|reflexivity].
    exfalso. apply existsb_eqb_In in E. apply in_map_iff in E.
    destruct E as [k [Hk Hin]]. apply In_rev_seq in Hin.
    pose proof (path_node_level b bufs p k Hb Hbuilt Hp ltac:(lia)) as Hlk.
    pose proof (st_mono b (S k) i Hb ltac:(lia)). lia.
Qed.

(** The paths of the tree with branch factors [[2; 3]]: on path 4 the leaf
    attends to the root of the path, not the other way round. *)
Lemma mask_is_causal_along_paths_witness :
  exists bufs : medusa_buffers,
    generate_medusa_buffers [2; 3] = inr bufs
    /\ let path := nth 4%nat (retrieve_indices bufs) [] in
       (0 <= nth 1%nat path 0 < len (medusa_attn_mask bufs)
        /\ nth (Z.to_nat (nth 1%nat path 0)) (medusa_position_ids bufs) 0 = 1
        /\ nth (Z.to_nat (nth 0%nat path 0))
               (nth (Z.to_nat (nth 1%nat path 0)) (medusa_attn_mask bufs) []) 0
           = 1)
       /\ nth (Z.to_nat (nth 1%nat path 0))
              (nth (Z.to_nat (nth 0%nat path 0)) (medusa_attn_mask bufs) []) 0
          = 0.
Proof.
  destruct (generate_medusa_buffers [2; 3]) as [e|bufs] eqn:Hrun;
    [vm_compute in Hrun; discriminate|].
  assert (Hp : (4 < length (retrieve_indices bufs))%nat).
  { vm_compute in Hrun. injection Hrun as <-. cbn. lia. }
  exists bufs. split; [reflexivity|]. cbv zeta. split.
  - exact (mask_is_causal_along_paths [2; 3] bufs 4 0 1 Hrun Hp
             ltac:(cbn; lia) ltac:(cbn; lia)).
  - exact (proj2 (proj2 (mask_is_causal_along_paths [2; 3] bufs 4 1 0 Hrun Hp
                           ltac:(cbn; lia) ltac:(cbn; lia)))).
Defined.

(** X3: the paths cover the tree.  Every node of the tree built for [b]
    occurs in some row of [retrieve_indices], in the column of its depth. *)
Theorem every_node_is_on_a_path (b : list Z) (bufs : medusa_buffers) (r : Z) :
  generate_medusa_buffers b = inr bufs ->
  0 <= r < len (medusa_attn_mask bufs) ->
  exists (p j : nat),
    (p < length (retrieve_indices bufs))%nat
    /\ (j < length b)%nat
    /\ Z.of_nat j = nth (Z.to_nat r) (medusa_position_ids bufs) 0
    /\ nth j (nth p (retrieve_indices bufs) []) 0 = r.
Proof.
  intros Hrun Hr.
  destruct (generate_medusa_buffers_built b bufs Hrun) as [Hne [Hb Hbuilt]].
  assert (HN : len (medusa_attn_mask bufs) = sum (cumprod b)).
  { unfold len. rewrite (built_mask_rows _ _ Hbuilt).
    pose proof (sum_cumprod_nonneg b Hb). lia. }
  rewrite HN in Hr.
  destruct (node_level b r Hb Hr) as [j [Hj Hlev]].
  pose proof (prod_skipn_pos b (S j) Hb) as Hq.
  pose proof (cp_pos b (S j) Hb) as Hcp.
  pose proof (prod_pos b Hb) as HP.
  rewrite (st_S b j) in Hlev by exact Hj.
  set (o := r - st b j).
  assert (Hlt : o * prod (skipn (S j) b) < prod b).
  { rewrite (prod_split b (S j)). subst o. nia. }
  exists (Z.to_nat (o * prod (skipn (S j) b))), j.
  rewrite (built_retrieve_rows _ _ Hbuilt).
  assert (Ho : 0 <= o * prod (skipn (S j) b)) by (subst o; nia).
  split; [lia|]. split; [exact Hj|]. split.
  - rewrite (built_position_ids _ _ Hbuilt).
    pose proof (position_ids_prefix b Hb (length b) ltac:(lia)) as [_ H].
    unfold position_ids_of. symmetry. apply (H j r Hj).
    rewrite (st_S b j) by exact Hj. lia.
  - rewrite (built_retrieve_entry _ _ Hbuilt) by lia.
    rewrite Z2Nat.id by lia. rewrite Z.div_mul by lia. subst o. lia.
Qed.

Lemma every_node_is_on_a_path_witness :
  exists (bufs : medusa_buffers) (p j : nat),
    generate_medusa_buffers [2; 3] = inr bufs
    /\ (p < length (retrieve_indices bufs))%nat
    /\ (j < 2)%nat
    /\ Z.of_nat j = nth 5%nat (medusa_position_ids bufs) 0
    /\ nth j (nth p (retrieve_indices bufs) []) 0 = 5.
Proof.
  destruct (generate_medusa_buffers [2; 3]) as [e|bufs] eqn:Hrun;
    [vm_compute in Hrun; discriminate|].
  assert (Hr : 0 <= 5 < len (medusa_attn_mask bufs)).
  { vm_compute in Hrun. injection Hrun as <-. unfold len. cbn. lia. }
  destruct (every_node_is_on_a_path [2; 3] bufs 5 Hrun Hr)
    as [p [j [Hp [Hj [Hd Hn]]]]].
  exists bufs, p, j. repeat split; assumption.
Defined.

(** X4: closed form of [tree_indices].  For buffers returned by the builder
    on [b], the node with offset [o] in level [i] carries the pool index
    [b[0] + ... + b[i-1] + o mod b[i]]; every entry of [tree_indices]
    addresses the pool of [sum b] candidates, and every pool index is
    used by some node. *)
Theorem tree_indices_closed_form (b : list Z) (bufs : medusa_buffers) :
  generate_medusa_buffers b = inr bufs ->
  (forall (i : nat) (o : Z), (i < length b)%nat -> 0 <= o < cp b (S i) ->
     nth (Z.to_nat (st b i + o)) (tree_indices bufs) 0
     = cs b i + o mod nth i b 0)
  /\ Forall (fun idx => 0 <= idx < sum b) (tree_indices bufs)
  /\ forall idx : Z, 0 <= idx < sum b -> In idx (tree_indices bufs).
Proof.
  intros Hrun.
  destruct (generate_medusa_buffers_built b bufs Hrun) as [Hne [Hb Hbuilt]].
  split; [intros i o Hi Ho; apply (tree_indices_entry b bufs i o Hrun Hi Ho)|].
  split; [apply tree_indices_range; exact Hrun|].
  intros idx Hidx.
  destruct (pool_level b idx Hb Hidx) as [i [Hi Hlev]].
  rewrite (cs_S b i) in Hlev by exact Hi.
  pose proof (cp_ge_factor b i Hb Hi) as Hcp.
  pose proof (st_nonneg b i Hb) as Hst.
  pose proof (st_mono b (S i) (length b) Hb ltac:(lia)) as Hm.
  rewrite st_all, (st_S b i) in Hm by exact Hi.
  assert (Ho : 0 <= idx - cs b i < cp b (S i)) by lia.
  pose proof (tree_indices_entry b bufs i _ Hrun Hi Ho) as Hent.
  rewrite Z.mod_small in Hent by lia.
  replace (cs b i + (idx - cs b i)) with idx in Hent by lia.
  rewrite <- Hent. apply nth_In.
  pose proof (built_tree_indices _ _ Hbuilt) as Hlen. unfold len in Hlen. lia.
Qed.

Lemma tree_indices_closed_form_witness :
  exists bufs : medusa_buffers,
    generate_medusa_buffers [2; 3] = inr bufs
    /\ (forall (i : nat) (o : Z), (i < 2)%nat -> 0 <= o < cp [2; 3] (S i) ->
          nth (Z.to_nat (st [2; 3] i + o)) (tree_indices bufs) 0
          = cs [2; 3] i + o mod nth i [2; 3] 0)
    /\ Forall (fun idx => 0 <= idx < 5) (tree_indices bufs)
    /\ forall idx : Z, 0 <= idx < 5 -> In idx (tree_indices bufs).
Proof.
  destruct (generate_medusa_buffers [2; 3]) as [e|bufs] eqn:Hrun;
    [vm_compute in Hrun; discriminate|].
  exists bufs. split; [reflexivity|].
  exact (tree_indices_closed_form [2; 3] bufs Hrun).
Defined.

End TreePlumbingTheorems.

(** ** One decoding step: evaluator, then updater *)

Module StepFacts.

Import Torch Acceptance TensorFacts SelectionFacts EvaluatorFacts UpdaterFacts.
Import BuilderFacts.

Lemma py_slice_prefix {A : Type} (l : list A) (n : nat) :
  (n <= length l)%nat -> py_slice l 0 (Z.of_nat n) = firstn n l.
Proof.
  intros Hn. unfold py_slice, len.
  rewrite !norm_bound_id by lia.
  rewrite Z.sub_0_r, Nat2Z.id. reflexivity.
Qed.

Lemma firstn_1_skipn {A : Type} (d : A) (l : list A) : forall n : nat,
  (n < length l)%nat -> firstn 1 (skipn n l) = [nth n l d].
Proof.
  induction l as [|x t IH]; intros n Hn; [cbn in Hn; lia|].
  destruct n as [|n]; [reflexivity|].
  cbn [skipn nth]. apply IH. cbn in Hn. lia.
Qed.

Lemma py_slice_single {A : Type} (d : A) (l : list A) (n : nat) :
  (n < length l)%nat ->
  py_slice l (Z.of_nat n) (Z.of_nat n + 1) = [nth n l d].
Proof.
  intros Hn. unfold py_slice, len.
  rewrite !norm_bound_id by lia.
  replace (Z.to_nat (Z.of_nat n + 1 - Z.of_nat n)) with 1%nat by lia.
  rewrite Nat2Z.id. apply firstn_1_skipn. exact Hn.
Qed.

Lemma norm_index_nat (n : Z) (k : nat) :
  Z.of_nat k < n -> norm_index n (Z.of_nat k) = inr k.
Proof.
  intros H. unfold norm_index.
  destruct (Z.leb_spec 0 (Z.of_nat k)); [|lia].
  destruct (Z.ltb_spec (Z.of_nat k) n); [|lia].
  cbn [andb ret]. rewrite Nat2Z.id. reflexivity.
Qed.

(** An accepted position is one where the proposed token is the argmax of
    the verified logits. *)
Lemma accepted_prefix_greedy {F : Type} {ops : FloatOps F}
    (logits : list (list (list F))) (candidates : list (list Z))
    (p D i : nat) :
  (i < accepted_length (greedy_accepts logits candidates p) D)%nat ->
  nth (S i) (nth p candidates []) 0
  = argmax_total (nth i (nth p logits []) []).
Proof.
  intros Hi.
  destruct (longest_true_prefix_accepted (greedy_accepts logits candidates p) D)
    as [_ [Hacc _]].
  specialize (Hacc i Hi). unfold greedy_accepts, proposed, verified in Hacc.
  apply Z.eqb_eq in Hacc. exact Hacc.
Qed.

End StepFacts.

Module StepTheorems.

Import Torch Acceptance TensorFacts SelectionFacts EvaluatorFacts UpdaterFacts.
Import BuilderFacts StepFacts.

(** X5: one greedy decoding step.  On well-shaped candidates and logits the
    outcome of the evaluator at temperature 0 is always accepted by the
    updater (no eos token configured, no bonus token): the step appends the
    first [accept_length + 1] tokens of the best path to the sequence, so
    at least one token; every appended token after the first is the argmax
    of the logits verified at the position before it; the logits handed to
    the next step are those of the last appended position of the best path;
    and the token counter grows by the number of appended tokens. *)
Theorem greedy_step_appends_verified_tokens {F : Type} {ops : FloatOps F}
    (P D V : nat) (logits : list (list (list F))) (candidates : list (list Z))
    (retrieve_indices : list (list Z)) (row : list Z) (new_token : Z)
    (pad_token_id : option Z) (unfinished_sequences : list Z)
    (temperature posterior_threshold posterior_alpha : F) :
  feqb temperature fzero = true ->
  shaped P D V logits candidates -> (0 < P)%nat -> (0 < V)%nat ->
  length retrieve_indices = P ->
  exists (best al : nat) (u : inference_update F),
    evaluate_posterior logits candidates temperature posterior_threshold
      posterior_alpha = inr (Z.of_nat best, Z.of_nat al)
    /\ update_inference_inputs [row] candidates (Z.of_nat best) (Z.of_nat al)
         retrieve_indices logits new_token None pad_token_id
         unfinished_sequences false = inr u
    /\ (best < P)%nat /\ (al <= D)%nat
    /\ upd_next_tokens u = [firstn (S al) (nth best candidates [])]
    /\ upd_input_ids u = [row ++ firstn (S al) (nth best candidates [])]
    /\ length (firstn (S al) (nth best candidates [])) = S al
    /\ (forall i : nat, (i < al)%nat ->
          nth (S i) (nth best candidates []) 0
          = argmax_total (nth i (nth best logits []) []))
    /\ upd_logits u = [[nth al (nth best logits []) []]]
    /\ upd_new_token u = new_token + Z.of_nat (S al).
Proof.
  intros HT Hshape HP HV Hret.
  destruct (greedy_run P D V logits candidates Hshape HP HV)
    as [best [al [Hrun [Hb [Hbal _]]]]].
  assert (HalD : (al <= D)%nat).
  { destruct (longest_true_prefix_accepted (greedy_accepts logits candidates best) D)
      as [Hbound _].
    fold (accepted_length (greedy_accepts logits candidates best) D) in Hbound.
    lia. }
  pose proof (shaped_row P D V logits candidates Hshape best Hb) as Hrow.
  pose proof (shaped_path P D V logits candidates Hshape best Hb) as Hpath.
  destruct Hshape as [Hl [Hc _]].
  exists best, al. eexists.
  split; [unfold evaluate_posterior; rewrite HT; exact Hrun|].
  split.
  { unfold update_inference_inputs.
    rewrite !norm_index_nat by (unfold len; lia). cbn [bind ret].
    reflexivity. }
  cbn [upd_next_tokens upd_input_ids upd_logits upd_new_token].
  replace (Z.of_nat al + 1) with (Z.of_nat (S al)) by lia.
  rewrite !py_slice_prefix by lia.
  split; [exact Hb|]. split; [exact HalD|].
  split; [reflexivity|]. split; [reflexivity|].
  split; [rewrite length_firstn; lia|].
  split.
  { intros i Hi. apply (accepted_prefix_greedy logits candidates best D).
    rewrite Hbal. exact Hi. }
  split; [|reflexivity].
  replace (Z.of_nat (S al)) with (Z.of_nat al + 1) by lia.
  rewrite (py_slice_single [] _ al) by lia. reflexivity.
Qed.

(** Two paths of depth 1 over a vocabulary of two tokens; path 0 proposes
    the token the verification pass prefers. *)
Lemma greedy_step_appends_verified_tokens_witness :
  exists (best al : nat) (u : inference_update R),
    evaluate_posterior (F := R)
      [[[0; 1]; [0; 0]]; [[1; 0]; [0; 0]]]%R [[0; 1]; [0; 0]]
      0%R (9 / 100)%R (3 / 10)%R = inr (Z.of_nat best, Z.of_nat al)
    /\ update_inference_inputs (F := R) [[7; 8]] [[0; 1]; [0; 0]]
         (Z.of_nat best) (Z.of_nat al) [[0; 1]; [0; 2]]
         [[[0; 1]; [0; 0]]; [[1; 0]; [0; 0]]]%R 3 None None [1] false = inr u
    /\ (best < 2)%nat /\ (al <= 1)%nat
    /\ upd_next_tokens u = [firstn (S al) (nth best [[0; 1]; [0; 0]] [])]
    /\ upd_input_ids u = [[7; 8] ++ firstn (S al) (nth best [[0; 1]; [0; 0]] [])]
    /\ length (firstn (S al) (nth best [[0; 1]; [0; 0]] [])) = S al
    /\ (forall i : nat, (i < al)%nat ->
          nth (S i) (nth best [[0; 1]; [0; 0]] []) 0
          = argmax_total
              (nth i (nth best [[[0; 1]; [0; 0]]; [[1; 0]; [0; 0]]]%R []) []))
    /\ upd_logits u
       = [[nth al (nth best [[[0; 1]; [0; 0]]; [[1; 0]; [0; 0]]]%R []) []]]
    /\ upd_new_token u = 3 + Z.of_nat (S al).
Proof.
  assert (HT : feqb (F := R) 0%R fzero = true) by (apply Reqb_true; reflexivity).
  assert (Hshape : shaped (F := R) 2 1 2 [[[0; 1]; [0; 0]]; [[1; 0]; [0; 0]]]%R
                     [[0; 1]; [0; 0]]).
  { split; [reflexivity|]. split; [reflexivity|].
    split; repeat constructor. }
  exact (greedy_step_appends_verified_tokens (F := R) 2 1 2
           [[[0; 1]; [0; 0]]; [[1; 0]; [0; 0]]]%R [[0; 1]; [0; 0]]
           [[0; 1]; [0; 2]] [7; 8] 3 None [1] 0%R (9 / 100)%R (3 / 10)%R
           HT Hshape ltac:(lia) ltac:(lia) eq_refl).
Defined.

(** X6: whatever its arguments, a run of the updater that returns only
    appends.  The batch then holds exactly one sequence, the new
    [input_ids] is that sequence followed by the returned [next_tokens],
    the counter has grown by [accept_length + 1] ([+ 2] with
    [use_base_logits]), the returned logits have a batch dimension of one
    and at most one position, and a configured eos token came with a pad
    token. *)
Theorem update_only_appends {F : Type} {ord : Ord F}
    (input_ids candidates : list (list Z)) (best_candidate accept_length : Z)
    (retrieve_indices : list (list Z)) (logits : list (list (list F)))
    (new_token : Z) (eos_token_id pad_token_id : option Z)
    (unfinished_sequences : list Z) (use_base_logits : bool)
    (u : inference_update F) :
  update_inference_inputs input_ids candidates best_candidate accept_length
    retrieve_indices logits new_token eos_token_id pad_token_id
    unfinished_sequences use_base_logits = inr u ->
  exists (row toks : list Z) (kept : list (list F)),
    input_ids = [row]
    /\ upd_next_tokens u = [toks]
    /\ upd_input_ids u = [row ++ toks]
    /\ upd_new_token u
       = new_token + accept_length + (if use_base_logits then 2 else 1)
    /\ upd_logits u = [kept] /\ (length kept <= 1)%nat
    /\ (eos_token_id <> None -> pad_token_id <> None).
Proof.
  intros Hrun. unfold update_inference_inputs in Hrun.
  apply bind_inr_inv in Hrun. destruct Hrun as [k [_ Hrun]].
  apply bind_inr_inv in Hrun. destruct Hrun as [c [_ Hrun]].
  apply bind_inr_inv in Hrun. destruct Hrun as [nt0 [_ Hrun]].
  apply bind_inr_inv in Hrun. destruct Hrun as [nt [Hpad Hrun]].
  apply bind_inr_inv in Hrun. destruct Hrun as [ids [Hids Hrun]].
  apply bind_inr_inv in Hrun. destruct Hrun as [b [_ Hrun]].
  injection Hrun as <-.
  cbn [upd_next_tokens upd_input_ids upd_logits upd_new_token].
  destruct input_ids as [|row [|row' rest]]; try discriminate.
  injection Hids as <-.
  exists row, nt. eexists.
  split; [reflexivity|]. split; [reflexivity|]. split; [reflexivity|].
  split; [destruct use_base_logits; lia|].
  split; [reflexivity|]. split.
  - unfold py_slice. rewrite length_firstn.
    set (n := len (nth b logits [])).
    assert (norm_bound n (accept_length + 1) - norm_bound n accept_length <= 1).
    { unfold norm_bound.
      destruct (Z.ltb_spec (accept_length + 1) 0), (Z.ltb_spec accept_length 0);
        lia. }
    lia.
  - intros Heos Hnone. subst pad_token_id.
    destruct eos_token_id; [discriminate | congruence].
Qed.

Lemma update_only_appends_witness :
  exists (u : inference_update Z) (row toks : list Z) (kept : list (list Z)),
    update_inference_inputs (F := Z) [[100; 101]] [[5; 7]; [5; 8]] 0 1
      [[0; 1]; [0; 2]] [[[0; 1]; [1; 0]]; [[1; 0]; [0; 1]]] 10
      (Some 50) (Some 99) [1] true = inr u
    /\ [[100; 101]] = [row]
    /\ upd_next_tokens u = [toks]
    /\ upd_input_ids u = [row ++ toks]
    /\ upd_new_token u = 10 + 1 + 2
    /\ upd_logits u = [kept] /\ (length kept <= 1)%nat
    /\ (Some 50 <> None -> Some 99 <> @None Z).
Proof.
  destruct (update_inference_inputs (F := Z) [[100; 101]] [[5; 7]; [5; 8]] 0 1
              [[0; 1]; [0; 2]] [[[0; 1]; [1; 0]]; [[1; 0]; [0; 1]]] 10
              (Some 50) (Some 99) [1] true) as [e|u] eqn:Hrun;
    [vm_compute in Hrun; discriminate|].
  destruct (update_only_appends _ _ _ _ _ _ _ _ _ _ _ u Hrun)
    as [row [toks [kept H]]].
  exists u, row, toks, kept. split; [reflexivity | exact H].
Defined.

End StepTheorems.

(** ** Verification pass over the tree *)

Module DecoderFacts.

Import Torch Topology TopologyFacts BuilderFacts TreeFacts TensorFacts.
Import TreePlumbing.

Lemma nth_map_in {A B : Type} (f : A -> B) (l : list A) (i : nat) (d : A)
    (d' : B) :
  (i < length l)%nat -> nth i (map f l) d' = f (nth i l d).
Proof.
  intros Hi. rewrite (nth_indep _ d' (f d)) by (rewrite length_map; exact Hi).
  apply map_nth.
Qed.

(** Every entry of the path table is a node id. *)
Lemma retrieve_entries_are_nodes (b : list Z) (bufs : medusa_buffers) :
  positive_spec b -> built b bufs ->
  Forall (Forall (fun idx => 0 <= idx < sum (cumprod b))) (retrieve_indices bufs).
Proof.
  intros Hb Hbuilt. apply Forall_forall. intros row Hrow.
  destruct (In_nth _ _ [] Hrow) as [p [Hp <-]].
  rewrite (built_retrieve_rows _ _ Hbuilt) in Hp.
  pose proof (built_retrieve_cols _ _ Hbuilt) as Hcols.
  rewrite Forall_forall in Hcols.
  assert (Hlen : length (nth p (retrieve_indices bufs) []) = length b).
  { apply Hcols. apply nth_In. rewrite (built_retrieve_rows _ _ Hbuilt). exact Hp. }
  apply Forall_forall. intros idx Hidx.
  destruct (In_nth _ _ 0 Hidx) as [j [Hj <-]]. rewrite Hlen in Hj.
  pose proof (path_node_level b bufs p j Hb Hbuilt Hp Hj) as Hlev.
  pose proof (st_nonneg b j Hb).
  pose proof (st_mono b (S j) (length b) Hb ltac:(lia)) as Hm.
  rewrite st_all in Hm. lia.
Qed.

End DecoderFacts.

Module DecoderTheorems.

Import Torch Topology TopologyFacts BuilderFacts TreeFacts TensorFacts.
Import TreePlumbing DecoderFacts.

(** X7: the verification pass with the builder's buffers.  When the model
    returns logits for every node of the tree (one head and one batch entry
    at least), [tree_decoding] returns, hands back the model outputs
    untouched, and reorders the base logits along the paths: entry [i] of
    path [p] is the logits vector of the node in column [i] of row [p] of
    [retrieve_indices].  The position id the model was given for that node
    is the length of the sequence plus [i]. *)
Theorem tree_decoding_follows_paths {F K O : Type}
    (model : K -> list (list Z) -> list Z -> O)
    (output_logits : O -> list (list (list (list F))))
    (b : list Z) (bufs : medusa_buffers) (tree_candidates : list (list Z))
    (past_key_values : K) (input_ids : list (list Z))
    (nodes : list (list F)) (batch_rest : list (list (list F)))
    (heads_rest : list (list (list (list F)))) :
  let position_ids :=
    map (fun d => d + len (hd [] input_ids)) (medusa_position_ids bufs) in
  let outputs := model past_key_values tree_candidates position_ids in
  generate_medusa_buffers b = inr bufs ->
  output_logits outputs = (nodes :: batch_rest) :: heads_rest ->
  len nodes = len (medusa_attn_mask bufs) ->
  exists logits : list (list (list F)),
    tree_decoding model output_logits tree_candidates past_key_values
      (medusa_position_ids bufs) input_ids (retrieve_indices bufs)
    = inr (logits, outputs)
    /\ length logits = length (retrieve_indices bufs)
    /\ forall (p i : nat),
         (p < length (retrieve_indices bufs))%nat -> (i < length b)%nat ->
         let node := Z.to_nat (nth i (nth p (retrieve_indices bufs) []) 0) in
         length (nth p logits []) = length b
         /\ nth i (nth p logits []) [] = nth node nodes []
         /\ nth node position_ids 0 = len (hd [] input_ids) + Z.of_nat i.
Proof.
  intros position_ids outputs Hrun Hout Hnodes.
  destruct (generate_medusa_buffers_built b bufs Hrun) as [Hne [Hb Hbuilt]].
  assert (HN : len (medusa_attn_mask bufs) = sum (cumprod b)).
  { unfold len. rewrite (built_mask_rows _ _ Hbuilt).
    pose proof (sum_cumprod_nonneg b Hb). lia. }
  pose proof (retrieve_entries_are_nodes b bufs Hb Hbuilt) as Hentries.
  rewrite Forall_forall in Hentries.
  unfold tree_decoding. fold position_ids. fold outputs.
  rewrite Hout. cbn [first_position bind ret].
  rewrite (map_result_ok (index_rows [] nodes)
             (map (fun i => nth (Z.to_nat i) nodes []))).
  2:{ intros row Hrow. apply index_rows_ok. rewrite Hnodes, HN.
      apply Hentries. exact Hrow. }
  cbn [bind ret]. eexists. split; [reflexivity|].
  split; [apply length_map|].
  intros p i Hp Hi. cbv zeta.
  pose proof (built_retrieve_cols _ _ Hbuilt) as Hcols.
  rewrite Forall_forall in Hcols.
  assert (Hlen : length (nth p (retrieve_indices bufs) []) = length b).
  { apply Hcols. apply nth_In. exact Hp. }
  rewrite (nth_map_in _ _ p [] []) by exact Hp.
  split; [rewrite length_map; exact Hlen|].
  split.
  { rewrite (nth_map_in (fun k => nth (Z.to_nat k) nodes []) _ i 0 []) by lia.
    reflexivity. }
  rewrite (built_retrieve_rows _ _ Hbuilt) in Hp.
  pose proof (path_node_level b bufs p i Hb Hbuilt Hp Hi) as Hlev.
  pose proof (st_nonneg b i Hb) as Hst.
  pose proof (st_mono b (S i) (length b) Hb ltac:(lia)) as Hm.
  rewrite st_all in Hm.
  subst position_ids.
  rewrite (nth_map_in _ _ _ 0 0).
  - rewrite (built_position_ids _ _ Hbuilt).
    pose proof (position_ids_prefix b Hb (length b) ltac:(lia)) as [_ H].
    unfold position_ids_of. rewrite (H i _ Hi Hlev). lia.
  - rewrite (built_position_ids _ _ Hbuilt).
    pose proof (position_ids_length b Hb) as Hpl. unfold len in Hpl. lia.
Qed.

(** The tree with branch factors [[1; 2]] and a model that answers every
    node with its own id and position id as logits. *)
Lemma tree_decoding_follows_paths_witness :
  exists (bufs : medusa_buffers) (logits : list (list (list Z))),
    generate_medusa_buffers [1; 2] = inr bufs
    /\ tree_decoding (F := Z) (K := unit)
         (fun _ _ pos => pos) (fun pos => [[map (fun x => [x]) pos]])
         [[4; 5; 6]] tt (medusa_position_ids bufs) [[7; 8]]
         (retrieve_indices bufs)
       = inr (logits,
              map (fun d => d + len (hd [] [[7; 8]])) (medusa_position_ids bufs))
    /\ length logits = length (retrieve_indices bufs)
    /\ forall (p i : nat),
         (p < length (retrieve_indices bufs))%nat -> (i < 2)%nat ->
         let node := Z.to_nat (nth i (nth p (retrieve_indices bufs) []) 0) in
         length (nth p logits []) = 2%nat
         /\ nth i (nth p logits []) []
            = nth node
                (map (fun x => [x])
                   (map (fun d => d + len (hd [] [[7; 8]]))
                      (medusa_position_ids bufs))) []
         /\ nth node
              (map (fun d => d + len (hd [] [[7; 8]])) (medusa_position_ids bufs))
              0
            = len (hd [] [[7; 8]]) + Z.of_nat i.
Proof.
  destruct (generate_medusa_buffers [1; 2]) as [e|bufs] eqn:Hrun;
    [vm_compute in Hrun; discriminate|].
  assert (Hnodes :
    len (map (fun x : Z => [x])
           (map (fun d => d + len (hd [] [[7; 8]])) (medusa_position_ids bufs)))
    = len (medusa_attn_mask bufs)).
  { vm_compute in Hrun. injection Hrun as <-. reflexivity. }
  destruct (tree_decoding_follows_paths (F := Z) (K := unit)
              (fun _ _ pos => pos) (fun pos => [[map (fun x => [x]) pos]])
              [1; 2] bufs [[4; 5; 6]] tt [[7; 8]] _ [] [] Hrun eq_refl Hnodes)
    as [logits [Hdec [Hlen Hent]]].
  exists bufs, logits. split; [reflexivity|]. split; [exact Hdec|].
  split; [exact Hlen | exact Hent].
Defined.

End DecoderTheorems.

(** ** The processors that suppress tokens *)

Module SuppressFacts.

Import Torch BuilderFacts TensorFacts DecoderFacts.

(** *** Failure and success of [map_result] *)

Lemma bind_inl_inv {A B : Type} (m : result A) (k : A -> result B) (e : exn) :
  bind m k = inl e -> m = inl e \/ exists a : A, m = inr a /\ k a = inl e.
Proof.
  destruct m as [e'|a]; cbn [bind].
  - intros [= ->]. left. reflexivity.
  - intros Hk. right. exists a. split; [reflexivity | exact Hk].
Qed.

Lemma map_result_inl_inv {A B : Type} (f : A -> result B) (l : list A) (e : exn) :
  map_result f l = inl e -> exists x : A, In x l /\ f x = inl e.
Proof.
  induction l as [|x t IH]; [discriminate|].
  cbn [map_result]. destruct (f x) as [e'|y] eqn:Hx; cbn [bind].
  - intros [= <-]. exists x. split; [left; reflexivity | exact Hx].
  - destruct (map_result f t) as [e'|ys]; cbn [bind ret]; [|discriminate].
    intros [= <-]. destruct (IH eq_refl) as [x' [Hin Hx']].
    exists x'. split; [right; exact Hin | exact Hx'].
Qed.

Lemma map_result_inr_inv {A B : Type} (f : A -> result B) (l : list A)
    (r : list B) :
  map_result f l = inr r ->
  length r = length l
  /\ forall (i : nat) (d : A) (d' : B), (i < length l)%nat ->
       f (nth i l d) = inr (nth i r d').
Proof.
  revert r. induction l as [|x t IH]; intros r.
  - intros [= <-]. split; [reflexivity|]. intros i d d' Hi. cbn in Hi. lia.
  - cbn [map_result]. destruct (f x) as [e'|y] eqn:Hx; cbn [bind]; [discriminate|].
    destruct (map_result f t) as [e'|ys]; cbn [bind ret]; [discriminate|].
    intros [= <-]. destruct (IH ys eq_refl) as [Hlen Hnth].
    split; [cbn [length]; rewrite Hlen; reflexivity|].
    intros [|i] d d' Hi; [exact Hx|]. cbn [nth]. apply Hnth. cbn in Hi. lia.
Qed.

(** When [f] can only fail with [e], one failing element makes the whole
    traversal fail with [e]. *)
Lemma map_result_fails {A B : Type} (f : A -> result B) (l : list A) (e : exn) :
  (forall (y : A) (e' : exn), In y l -> f y = inl e' -> e' = e) ->
  (exists x : A, In x l /\ f x = inl e) ->
  map_result f l = inl e.
Proof.
  intros Hsame [x [Hin Hx]].
  destruct (map_result f l) as [e'|r] eqn:Hrun.
  - destruct (map_result_inl_inv f l e' Hrun) as [y [Hy Hfy]].
    rewrite (Hsame y e' Hy Hfy). reflexivity.
  - exfalso. destruct (In_nth l x x Hin) as [i [Hi Hnth]].
    destruct (map_result_inr_inv f l r Hrun) as [Hlen Hall].
    destruct r as [|y0 r'].
    + cbn in Hlen. lia.
    + specialize (Hall i x y0 Hi). rewrite Hnth, Hx in Hall. discriminate.
Qed.

(** *** Token indices *)

Lemma norm_index_mod (n t : Z) :
  - n <= t < n -> norm_index n t = inr (Z.to_nat (t mod n)).
Proof.
  intros H. unfold norm_index.
  destruct (Z.leb_spec 0 t); destruct (Z.ltb_spec t n); cbn [andb]; try lia.
  - rewrite Z.mod_small by lia. reflexivity.
  - destruct (Z.leb_spec (- n) t); destruct (Z.ltb_spec t 0); cbn [andb]; try lia.
    rewrite <- (Z_mod_plus_full t 1 n), Z.mul_1_l.
    rewrite Z.mod_small by lia. reflexivity.
Qed.

Lemma norm_index_fails (n t : Z) (e : exn) :
  norm_index n t = inl e -> e = IndexError /\ ~ (- n <= t < n).
Proof.
  unfold norm_index.
  destruct (Z.leb_spec 0 t); destruct (Z.ltb_spec t n); cbn [andb];
    try discriminate;
    destruct (Z.leb_spec (- n) t); destruct (Z.ltb_spec t 0); cbn [andb];
    try discriminate; intros [= <-]; (split; [reflexivity | lia]).
Qed.

Lemma norm_index_out (n t : Z) :
  ~ (- n <= t < n) -> norm_index n t = inl IndexError.
Proof.
  intros H. destruct (norm_index n t) as [e|k] eqn:E.
  - destruct (norm_index_fails n t e E) as [-> _]. reflexivity.
  - exfalso. apply H. unfold norm_index in E.
    destruct (Z.leb_spec 0 t); destruct (Z.ltb_spec t n); cbn [andb] in E;
      try lia;
      destruct (Z.leb_spec (- n) t); destruct (Z.ltb_spec t 0); cbn [andb] in E;
      try lia; discriminate.
Qed.

Lemma in_range_dec (n : Z) (t : Z) : {- n <= t < n} + {~ (- n <= t < n)}.
Proof.
  destruct (Z_le_dec (- n) t); destruct (Z_lt_dec t n);
    [left; lia | right; lia | right; lia | right; lia].
Qed.

(** *** One vector of scores *)

Section Rows.

Context {F : Type}.
Variable neg_inf : F.

Lemma fold_set_length (idx : list nat) : forall row : list F,
  length (fold_left (fun r j => set_nth j neg_inf r) idx row) = length row.
Proof.
  induction idx as [|i t IH]; intros row; [reflexivity|].
  cbn [fold_left]. rewrite IH. apply set_nth_length.
Qed.

Lemma fold_set_nth (d : F) (idx : list nat) : forall (row : list F) (j : nat),
  (j < length row)%nat ->
  nth j (fold_left (fun r k => set_nth k neg_inf r) idx row) d
  = if existsb (Nat.eqb j) idx then neg_inf else nth j row d.
Proof.
  induction idx as [|i t IH]; intros row j Hj; [reflexivity|].
  cbn [fold_left existsb]. rewrite IH by (rewrite set_nth_length; exact Hj).
  destruct (Nat.eqb_spec j i) as [->|Hne]; cbn [orb].
  - rewrite set_nth_same by exact Hj. destruct (existsb _ t); reflexivity.
  - rewrite set_nth_other by congruence. reflexivity.
Qed.

Lemma existsb_hits (n : Z) (tokens : list Z) (j : nat) :
  0 < n ->
  existsb (Nat.eqb j) (map (fun t => Z.to_nat (t mod n)) tokens)
  = hits n tokens j.
Proof.
  intros Hn. unfold hits. induction tokens as [|t ts IH]; [reflexivity|].
  cbn [map existsb]. rewrite IH. f_equal.
  pose proof (Z.mod_pos_bound t n Hn).
  destruct (Nat.eqb_spec j (Z.to_nat (t mod n)));
    destruct (Z.eqb_spec (Z.of_nat j) (t mod n)); try reflexivity; lia.
Qed.

Lemma suppress_row_ok (tokens : list Z) (row : list F) :
  Forall (fun t => - len row <= t < len row) tokens ->
  suppress_row neg_inf tokens row
  = inr (fold_left (fun r j => set_nth j neg_inf r)
           (map (fun t => Z.to_nat (t mod len row)) tokens) row).
Proof.
  intros H. unfold suppress_row.
  rewrite (map_result_ok _ (fun t => Z.to_nat (t mod len row))).
  - reflexivity.
  - intros t Ht. rewrite Forall_forall in H. apply norm_index_mod. apply H. exact Ht.
Qed.

Lemma suppress_row_fails (tokens : list Z) (row : list F) (e : exn) :
  suppress_row neg_inf tokens row = inl e ->
  e = IndexError /\ Exists (fun t => ~ (- len row <= t < len row)) tokens.
Proof.
  unfold suppress_row. intros H.
  destruct (map_result (norm_index (len row)) tokens) as [e'|idx] eqn:E;
    cbn [bind ret] in H; [|discriminate].
  injection H as <-.
  destruct (map_result_inl_inv _ _ _ E) as [t [Hin Ht]].
  destruct (norm_index_fails _ _ _ Ht) as [-> Hout].
  split; [reflexivity|]. apply Exists_exists. exists t. split; assumption.
Qed.

Lemma suppress_row_out (tokens : list Z) (row : list F) :
  Exists (fun t => ~ (- len row <= t < len row)) tokens ->
  suppress_row neg_inf tokens row = inl IndexError.
Proof.
  intros H. apply Exists_exists in H. destruct H as [t [Hin Hout]].
  unfold suppress_row.
  rewrite (map_result_fails (norm_index (len row)) tokens IndexError).
  - reflexivity.
  - intros y e' _ Hy. apply (norm_index_fails _ _ _ Hy).
  - exists t. split; [exact Hin | apply norm_index_out; exact Hout].
Qed.

(** The entries of a suppressed vector. *)
Lemma suppress_row_entries (d : F) (tokens : list Z) (row row' : list F) :
  suppress_row neg_inf tokens row = inr row' ->
  length row' = length row
  /\ forall j : nat, (j < length row)%nat ->
       nth j row' d = if hits (len row) tokens j then neg_inf else nth j row d.
Proof.
  intros Hrun.
  assert (Hall : Forall (fun t => - len row <= t < len row) tokens).
  { apply Forall_forall. intros t Ht.
    destruct (in_range_dec (len row) t) as [Hin|Hout]; [exact Hin|].
    rewrite suppress_row_out in Hrun; [discriminate|].
    apply Exists_exists. exists t. split; assumption. }
  rewrite (suppress_row_ok tokens row Hall) in Hrun. injection Hrun as <-.
  split; [apply fold_set_length|].
  intros j Hj. rewrite fold_set_nth by exact Hj.
  rewrite existsb_hits by (unfold len; lia). reflexivity.
Qed.

(** Suppressing [b] after [a] is suppressing [a ++ b]. *)
Lemma suppress_row_app (a b : list Z) (row row' : list F) :
  suppress_row neg_inf a row = inr row' ->
  suppress_row neg_inf b row' = suppress_row neg_inf (a ++ b) row.
Proof.
  intros Ha.
  destruct (suppress_row_entries neg_inf a row row' Ha) as [Hlen _].
  assert (Hlen' : len row' = len row) by (unfold len; rewrite Hlen; reflexivity).
  unfold suppress_row in *. rewrite Hlen'.
  destruct (map_result (norm_index (len row)) a) as [e|ia] eqn:Ea;
    cbn [bind ret] in Ha; [discriminate|].
  injection Ha as <-.
  assert (Happ : map_result (norm_index (len row)) (a ++ b)
                 = (ib <- map_result (norm_index (len row)) b ;; ret (ia ++ ib))).
  { clear Hlen Hlen'. revert ia Ea. induction a as [|t ts IH]; intros ia Ea.
    - injection Ea as <-. cbn [app].
      destruct (map_result (norm_index (len row)) b); reflexivity.
    - cbn [app map_result] in *.
      destruct (norm_index (len row) t) as [e|k]; cbn [bind] in *; [discriminate|].
      destruct (map_result (norm_index (len row)) ts) as [e|ks]; cbn [bind ret] in *;
        [discriminate|].
      injection Ea as <-. rewrite (IH ks eq_refl).
      destruct (map_result (norm_index (len row)) b); reflexivity. }
  rewrite Happ.
  destruct (map_result (norm_index (len row)) b) as [e|ib]; cbn [bind ret];
    [reflexivity|].
  rewrite fold_left_app. reflexivity.
Qed.

Lemma hits_app (n : Z) (a b : list Z) (j : nat) :
  hits n (a ++ b) j = hits n a j || hits n b j.
Proof. unfold hits. apply existsb_app. Qed.

End Rows.

(** *** The whole tensor of scores *)

Section Scores.

Context {F : Type}.
Variable neg_inf : F.

Lemma suppress_row_range (tokens : list Z) (row row' : list F) :
  suppress_row neg_inf tokens row = inr row' ->
  Forall (fun t => - len row <= t < len row) tokens.
Proof.
  intros Hrun. apply Forall_forall. intros t Ht.
  destruct (in_range_dec (len row) t) as [Hin|Hout]; [exact Hin|].
  rewrite suppress_row_out in Hrun; [discriminate|].
  apply Exists_exists. exists t. split; assumption.
Qed.

Lemma suppress_row_idem (tokens : list Z) (row row' : list F) :
  suppress_row neg_inf tokens row = inr row' ->
  suppress_row neg_inf tokens row' = inr row'.
Proof.
  intros Hrun.
  destruct (suppress_row_entries neg_inf neg_inf tokens row row' Hrun)
    as [Hlen Hent].
  pose proof (suppress_row_range tokens row row' Hrun) as Hrange.
  assert (Hlen' : len row' = len row) by (unfold len; rewrite Hlen; reflexivity).
  destruct (suppress_row neg_inf tokens row') as [e|row''] eqn:Hagain.
  - exfalso. destruct (suppress_row_fails neg_inf tokens row' e Hagain) as [_ Hex].
    apply Exists_exists in Hex. destruct Hex as [t [Hin Hout]].
    rewrite Forall_forall in Hrange. rewrite Hlen' in Hout.
    exact (Hout (Hrange t Hin)).
  - destruct (suppress_row_entries neg_inf neg_inf tokens row' row'' Hagain)
      as [Hlen2 Hent2].
    f_equal. apply (nth_ext _ _ neg_inf neg_inf); [exact Hlen2|].
    intros j Hj. rewrite Hlen2 in Hj.
    rewrite Hent2 by exact Hj. rewrite Hlen'.
    rewrite Hent by (rewrite <- Hlen; exact Hj).
    destruct (hits (len row) tokens j); reflexivity.
Qed.

(** On a rectangular tensor with in-range tokens the assignment goes
    through. *)
Lemma suppress_tokens_in_ok (V : nat) (tokens : list Z)
    (scores : list (list (list F))) :
  Forall (Forall (fun row => length row = V)) scores ->
  Forall (fun t => - Z.of_nat V <= t < Z.of_nat V) tokens ->
  suppress_tokens_in neg_inf tokens scores
  = inr (map (map (fun row =>
                     fold_left (fun r j => set_nth j neg_inf r)
                       (map (fun t => Z.to_nat (t mod len row)) tokens) row))
             scores).
Proof.
  intros Hrect Htok. unfold suppress_tokens_in.
  apply map_result_ok. intros heads Hheads.
  apply map_result_ok. intros row Hrow.
  apply suppress_row_ok.
  rewrite Forall_forall in Hrect. specialize (Hrect heads Hheads).
  rewrite Forall_forall in Hrect. specialize (Hrect row Hrow).
  unfold len. rewrite Hrect. exact Htok.
Qed.

Lemma suppress_tokens_in_fails (V : nat) (tokens : list Z)
    (scores : list (list (list F))) (e : exn) :
  Forall (Forall (fun row => length row = V)) scores ->
  suppress_tokens_in neg_inf tokens scores = inl e ->
  e = IndexError
  /\ Exists (fun t => ~ (- Z.of_nat V <= t < Z.of_nat V)) tokens.
Proof.
  intros Hrect Hrun. unfold suppress_tokens_in in Hrun.
  destruct (map_result_inl_inv _ _ _ Hrun) as [heads [Hheads Hh]].
  destruct (map_result_inl_inv _ _ _ Hh) as [row [Hrow Hr]].
  rewrite Forall_forall in Hrect. specialize (Hrect heads Hheads).
  rewrite Forall_forall in Hrect. specialize (Hrect row Hrow).
  destruct (suppress_row_fails neg_inf tokens row e Hr) as [He Hex].
  unfold len in Hex. rewrite Hrect in Hex. split; assumption.
Qed.

Lemma suppress_tokens_in_out (V : nat) (tokens : list Z)
    (scores : list (list (list F))) :
  Forall (Forall (fun row => length row = V)) scores ->
  (exists heads row, In heads scores /\ In row heads) ->
  Exists (fun t => ~ (- Z.of_nat V <= t < Z.of_nat V)) tokens ->
  suppress_tokens_in neg_inf tokens scores = inl IndexError.
Proof.
  intros Hrect [heads [row [Hheads Hrow]]] Hex.
  assert (Hwidth : forall hs r, In hs scores -> In r hs -> len r = Z.of_nat V).
  { intros hs r Hhs Hr. rewrite Forall_forall in Hrect.
    specialize (Hrect hs Hhs). rewrite Forall_forall in Hrect.
    unfold len. rewrite (Hrect r Hr). reflexivity. }
  assert (Hrowfail : forall hs r e', In hs scores -> In r hs ->
            suppress_row neg_inf tokens r = inl e' -> e' = IndexError).
  { intros hs r e' _ _ Hr. apply (suppress_row_fails neg_inf tokens r e' Hr). }
  unfold suppress_tokens_in. apply map_result_fails.
  - intros hs e' Hhs Hfail.
    destruct (map_result_inl_inv _ _ _ Hfail) as [r [Hr Hrf]].
    apply (Hrowfail hs r e' Hhs Hr Hrf).
  - exists heads. split; [exact Hheads|]. apply map_result_fails.
    + intros r e' Hr Hrf. apply (Hrowfail heads r e' Hheads Hr Hrf).
    + exists row. split; [exact Hrow|]. apply suppress_row_out.
      rewrite (Hwidth heads row Hheads Hrow). exact Hex.
Qed.

End Scores.

(** *** Traversals that agree element by element *)

Lemma map_result_chain {A B : Type} (f : A -> result A) (g h : A -> result B)
    (l l' : list A) :
  (forall x x' : A, In x l -> f x = inr x' -> h x' = g x) ->
  map_result f l = inr l' ->
  map_result h l' = map_result g l.
Proof.
  revert l'. induction l as [|x t IH]; intros l' Hpt Hrun.
  - injection Hrun as <-. reflexivity.
  - cbn [map_result] in Hrun.
    destruct (f x) as [e|x'] eqn:Hx; cbn [bind] in Hrun; [discriminate|].
    destruct (map_result f t) as [e|t'] eqn:Ht; cbn [bind ret] in Hrun;
      [discriminate|].
    injection Hrun as <-. cbn [map_result].
    rewrite (Hpt x x' (or_introl eq_refl) Hx).
    rewrite (IH t' (fun y y' Hy => Hpt y y' (or_intror Hy)) eq_refl).
    reflexivity.
Qed.

End SuppressFacts.

Module SuppressTheorems.

Import Torch BuilderFacts TensorFacts DecoderFacts SuppressFacts.

(** X8: what [MedusaSuppressTokensLogitsProcessor] does to the scores.  On a
    rectangular tensor whose vectors have [V] scores, and for tokens inside
    [-V, V), the processor returns a tensor of the same shape in which entry
    [j] of every vector is minus infinity when [j] is one of the tokens
    (a negative token counting from the end) and is the old score
    otherwise. *)
Theorem suppress_tokens_sets_entries {F : Type} (neg_inf d : F) (V : nat)
    (suppress_tokens : list Z) (input_ids : list (list Z))
    (scores : list (list (list F))) :
  Forall (Forall (fun row => length row = V)) scores ->
  Forall (fun t => - Z.of_nat V <= t < Z.of_nat V) suppress_tokens ->
  exists scores' : list (list (list F)),
    suppress_tokens_call neg_inf suppress_tokens input_ids scores = inr scores'
    /\ length scores' = length scores
    /\ forall (k h : nat),
         (k < length scores)%nat -> (h < length (nth k scores []))%nat ->
         length (nth k scores' []) = length (nth k scores [])
         /\ length (nth h (nth k scores' []) []) = V
         /\ forall j : nat, (j < V)%nat ->
              nth j (nth h (nth k scores' []) []) d
              = if hits (Z.of_nat V) suppress_tokens j then neg_inf
                else nth j (nth h (nth k scores []) []) d.
Proof.
  intros Hrect Htok. unfold suppress_tokens_call.
  rewrite (suppress_tokens_in_ok neg_inf V suppress_tokens scores Hrect Htok).
  eexists. split; [reflexivity|]. split; [apply length_map|].
  intros k h Hk Hh.
  rewrite (nth_map_in _ _ k [] []) by exact Hk.
  split; [apply length_map|].
  rewrite (nth_map_in _ _ h [] []) by exact Hh.
  assert (Hrow : length (nth h (nth k scores []) []) = V).
  { rewrite Forall_forall in Hrect.
    specialize (Hrect (nth k scores []) (nth_In _ _ Hk)).
    rewrite Forall_forall in Hrect. apply Hrect. apply nth_In. exact Hh. }
  split; [rewrite fold_set_length; exact Hrow|].
  intros j Hj. rewrite fold_set_nth by (rewrite Hrow; exact Hj).
  unfold len. rewrite Hrow.
  rewrite existsb_hits by lia. reflexivity.
Qed.

(** Tokens 1 and -1 on vectors of three scores: entries 1 and 2 are
    suppressed, entry 0 is kept. *)
Lemma suppress_tokens_sets_entries_witness :
  exists scores' : list (list (list Z)),
    suppress_tokens_call (-1000) [1; -1] [[7; 8]] [[[5; 6; 7]; [1; 2; 3]]]
    = inr scores'
    /\ length scores' = 1%nat
    /\ forall (k h : nat),
         (k < 1)%nat -> (h < 2)%nat ->
         length (nth k scores' []) = length (nth k [[[5; 6; 7]; [1; 2; 3]]] [])
         /\ length (nth h (nth k scores' []) []) = 3%nat
         /\ forall j : nat, (j < 3)%nat ->
              nth j (nth h (nth k scores' []) []) 0
              = if hits 3 [1; -1] j then -1000
                else nth j (nth h (nth k [[[5; 6; 7]; [1; 2; 3]]] []) []) 0.
Proof.
  assert (H1 : Forall (Forall (fun row : list Z => length row = 3%nat))
                 [[[5; 6; 7]; [1; 2; 3]]]) by (repeat constructor).
  assert (H2 : Forall (fun t => - Z.of_nat 3 <= t < Z.of_nat 3) [1; -1])
    by (repeat constructor; cbn; lia).
  destruct (suppress_tokens_sets_entries (-1000) 0 3 [1; -1] [[7; 8]]
              [[[5; 6; 7]; [1; 2; 3]]] H1 H2) as [scores' [Hrun [Hlen Hent]]].
  exists scores'. split; [exact Hrun|]. split; [exact Hlen|].
  intros k h Hk Hh. apply Hent; [exact Hk|].
  destruct k as [|k]; [exact Hh | cbn in Hk; lia].
Defined.

(** X9: when the two processors raise.  On a rectangular tensor that holds
    at least one vector of [V] scores, the plain processor raises exactly
    when some token lies outside [-V, V), and then an [IndexError]; the
    processor for the first step raises exactly when, in addition, the
    sequence length equals [begin_index]; off that step it returns the
    scores as they are, whatever the tokens. *)
Theorem suppress_tokens_index_error {F : Type} (neg_inf : F) (V : nat)
    (tokens : list Z) (begin_index : Z) (input_ids : list (list Z))
    (scores : list (list (list F))) (e : exn) :
  Forall (Forall (fun row => length row = V)) scores ->
  (exists heads row, In heads scores /\ In row heads) ->
  let out_of_range :=
    Exists (fun t => ~ (- Z.of_nat V <= t < Z.of_nat V)) tokens in
  (suppress_tokens_call neg_inf tokens input_ids scores = inl e
   <-> e = IndexError /\ out_of_range)
  /\ (suppress_tokens_at_begin_call neg_inf tokens begin_index input_ids scores
      = inl e
      <-> e = IndexError /\ len (hd [] input_ids) = begin_index /\ out_of_range)
  /\ (len (hd [] input_ids) <> begin_index ->
      suppress_tokens_at_begin_call neg_inf tokens begin_index input_ids scores
      = inr scores).
Proof.
  intros Hrect Hrow out_of_range.
  assert (Hplain : suppress_tokens_in neg_inf tokens scores = inl e
                   <-> e = IndexError /\ out_of_range).
  { split.
    - apply (suppress_tokens_in_fails neg_inf V tokens scores e Hrect).
    - intros [-> Hex].
      apply (suppress_tokens_in_out neg_inf V tokens scores Hrect Hrow Hex). }
  split; [exact Hplain|].
  unfold suppress_tokens_at_begin_call.
  destruct (Z.eqb_spec (len (hd [] input_ids)) begin_index) as [Heq|Hne].
  - split; [|intros Hne; contradiction].
    rewrite Hplain. split.
    + intros [He Hex]. split; [exact He|]. split; [exact Heq | exact Hex].
    + intros [He [_ Hex]]. split; assumption.
  - split; [|intros _; reflexivity].
    split; [discriminate|]. intros [_ [Heq _]]. contradiction.
Qed.

Lemma suppress_tokens_index_error_witness :
  (suppress_tokens_call 0 [1; 3] [[7; 8]] [[[5; 6; 7]]] = inl IndexError
   <-> IndexError = IndexError
       /\ Exists (fun t => ~ (- Z.of_nat 3 <= t < Z.of_nat 3)) [1; 3])
  /\ (suppress_tokens_at_begin_call 0 [1; 3] 2 [[7; 8]] [[[5; 6; 7]]]
      = inl IndexError
      <-> IndexError = IndexError /\ len (hd [] [[7; 8]]) = 2
          /\ Exists (fun t => ~ (- Z.of_nat 3 <= t < Z.of_nat 3)) [1; 3])
  /\ (len (hd [] [[7; 8]]) <> 2 ->
      suppress_tokens_at_begin_call 0 [1; 3] 2 [[7; 8]] [[[5; 6; 7]]]
      = inr [[[5; 6; 7]]]).
Proof.
  assert (H1 : Forall (Forall (fun row : list Z => length row = 3%nat)) [[[5; 6; 7]]])
    by (repeat constructor).
  assert (H2 : exists heads row, In heads [[[5; 6; 7]]] /\ In row heads).
  { exists [[5; 6; 7]], [5; 6; 7]. split; left; reflexivity. }
  exact (suppress_tokens_index_error 0 3 [1; 3] 2 [[7; 8]] [[[5; 6; 7]]]
           IndexError H1 H2).
Defined.

(** X10: the plain processor composes and is idempotent.  After a run with
    the tokens [a], a run with the tokens [b] gives what one run with
    [a ++ b] gives on the original scores (the same tensor or the same
    exception), and a second run with [a] changes nothing. *)
Theorem suppress_tokens_compose {F : Type} (neg_inf : F) (a b : list Z)
    (input_ids : list (list Z)) (scores scores' : list (list (list F))) :
  suppress_tokens_call neg_inf a input_ids scores = inr scores' ->
  suppress_tokens_call neg_inf b input_ids scores'
  = suppress_tokens_call neg_inf (a ++ b) input_ids scores
  /\ suppress_tokens_call neg_inf a input_ids scores' = inr scores'.
Proof.
  unfold suppress_tokens_call, suppress_tokens_in. intros Hrun. split.
  - apply (map_result_chain (map_result (suppress_row neg_inf a))); [|exact Hrun].
    intros heads heads' _ Hheads.
    apply (map_result_chain (suppress_row neg_inf a)); [|exact Hheads].
    intros row row' _ Hrow. apply suppress_row_app. exact Hrow.
  - rewrite <- Hrun.
    apply (map_result_chain (map_result (suppress_row neg_inf a))); [|exact Hrun].
    intros heads heads' _ Hheads.
    apply (map_result_chain (suppress_row neg_inf a)); [|exact Hheads].
    intros row row' _ Hrow. rewrite Hrow.
    apply (suppress_row_idem neg_inf a row row' Hrow).
Qed.

Lemma suppress_tokens_compose_witness :
  suppress_tokens_call (-1000) [0; 5] [[7; 8]] [[[5; -1000; 7]; [1; -1000; 3]]]
  = suppress_tokens_call (-1000) ([1] ++ [0; 5]) [[7; 8]] [[[5; 6; 7]; [1; 2; 3]]]
  /\ suppress_tokens_call (-1000) [1] [[7; 8]] [[[5; -1000; 7]; [1; -1000; 3]]]
     = inr [[[5; -1000; 7]; [1; -1000; 3]]].
Proof.
  exact (suppress_tokens_compose (-1000) [1] [0; 5] [[7; 8]]
           [[[5; 6; 7]; [1; 2; 3]]] [[[5; -1000; 7]; [1; -1000; 3]]] eq_refl).
Defined.

End SuppressTheorems.

(** ** Resetting the key-value cache *)

Module CacheFacts.

Lemma fill_0_cases (cell x : nat) (h : store) :
  fill_0 cell h x = if Nat.eqb x cell then 0 else h x.
Proof. reflexivity. Qed.

Section Layers.

Context {D : Type}.

Lemma reset_layer_cells (layer : list (kv_cache D)) (h : store) (x : nat) :
  (In x (map current_length (firstn 2 layer)) -> fst (reset_layer layer h) x = 0)
  /\ (~ In x (map current_length (firstn 2 layer)) ->
      fst (reset_layer layer h) x = h x).
Proof.
  destruct layer as [|e0 [|e1 rest]]; cbn [reset_layer fst firstn map In].
  - split; [intros [] | reflexivity].
  - rewrite fill_0_cases. destruct (Nat.eqb_spec x (current_length e0)).
    + split; [reflexivity | intros H; exfalso; apply H; left; congruence].
    + split; [intros [H|[]]; congruence | reflexivity].
  - rewrite !fill_0_cases.
    destruct (Nat.eqb_spec x (current_length e1));
      destruct (Nat.eqb_spec x (current_length e0)); split; try reflexivity;
      try (intros H; exfalso; apply H; (left; congruence) || (right; left; congruence)).
    intros [H|[H|[]]]; congruence.
Qed.

Lemma reset_layer_outcome (layer : list (kv_cache D)) (h : store) :
  snd (reset_layer layer h)
  = if (length layer <? 2)%nat then Some IndexError else None.
Proof. destruct layer as [|e0 [|e1 rest]]; reflexivity. Qed.

(** Every cell is left as it was or set to 0, and only cells of the first
    two entries of a layer are written. *)
Lemma reset_cells_only (pkv : list (list (kv_cache D))) : forall (h : store) (x : nat),
  (fst (reset_past_key_values pkv h) x = h x
   \/ fst (reset_past_key_values pkv h) x = 0)
  /\ (~ In x (reset_cells pkv) -> fst (reset_past_key_values pkv h) x = h x).
Proof.
  induction pkv as [|layer rest IH]; intros h x.
  - cbn. split; [left; reflexivity | reflexivity].
  - cbn [reset_past_key_values reset_cells flat_map].
    destruct (reset_layer_cells layer h x) as [Hin Hout].
    destruct (reset_layer layer h) as [h' [e|]] eqn:E; cbn [fst] in *.
    + split.
      * destruct (in_dec Nat.eq_dec x (map current_length (firstn 2 layer)));
          [right; auto | left; auto].
      * intros Hn. apply Hout. intros H. apply Hn. apply in_or_app. left. exact H.
    + destruct (IH h' x) as [Hcase Hkeep]. split.
      * destruct Hcase as [Hc|Hc]; [|right; exact Hc].
        rewrite Hc.
        destruct (in_dec Nat.eq_dec x (map current_length (firstn 2 layer)));
          [right; auto | left; auto].
      * intros Hn. rewrite Hkeep by (intros H; apply Hn; apply in_or_app; right; exact H).
        apply Hout. intros H. apply Hn. apply in_or_app. left. exact H.
Qed.

Lemma reset_zero_stays (pkv : list (list (kv_cache D))) (h : store) (x : nat) :
  h x = 0 -> fst (reset_past_key_values pkv h) x = 0.
Proof.
  intros H0. destruct (reset_cells_only pkv h x) as [[H|H] _]; [congruence | exact H].
Qed.

Lemma reset_success (pkv : list (list (kv_cache D))) : forall h : store,
  Forall (fun layer => (2 <= length layer)%nat) pkv ->
  snd (reset_past_key_values pkv h) = None
  /\ forall x : nat, In x (reset_cells pkv) ->
       fst (reset_past_key_values pkv h) x = 0.
Proof.
  induction pkv as [|layer rest IH]; intros h Hall.
  - split; [reflexivity | intros x []].
  - inversion Hall as [|? ? Hl Hrest]; subst.
    cbn [reset_past_key_values reset_cells flat_map].
    pose proof (reset_layer_outcome layer h) as Hout.
    destruct (Nat.ltb_spec (length layer) 2); [lia|].
    destruct (reset_layer layer h) as [h' [e|]] eqn:E; cbn [snd] in Hout;
      [discriminate|].
    destruct (IH h' Hrest) as [Hnone Hzero]. split; [exact Hnone|].
    intros x Hx. apply in_app_or in Hx. destruct Hx as [Hx|Hx].
    + apply reset_zero_stays.
      destruct (reset_layer_cells layer h x) as [Hin _].
      rewrite E in Hin. cbn [fst] in Hin. apply Hin. exact Hx.
    + apply Hzero. exact Hx.
Qed.

Lemma reset_failure (pkv : list (list (kv_cache D))) : forall (h : store) (e : exn),
  snd (reset_past_key_values pkv h) = Some e
  <-> e = IndexError /\ Exists (fun layer => (length layer < 2)%nat) pkv.
Proof.
  induction pkv as [|layer rest IH]; intros h e.
  - cbn. split; [discriminate | intros [_ H]; inversion H].
  - cbn [reset_past_key_values].
    pose proof (reset_layer_outcome layer h) as Hout.
    destruct (reset_layer layer h) as [h' [e'|]] eqn:E; cbn [snd] in *.
    + destruct (Nat.ltb_spec (length layer) 2); [|discriminate].
      injection Hout as ->. split.
      * intros [= <-]. split; [reflexivity | apply Exists_cons_hd; assumption].
      * intros [-> _]. reflexivity.
    + destruct (Nat.ltb_spec (length layer) 2); [discriminate|].
      rewrite IH. split.
      * intros [He Hex]. split; [exact He | apply Exists_cons_tl; exact Hex].
      * intros [He Hex]. split; [exact He|].
        inversion Hex as [? ? Hlt|? ? Hex']; subst; [lia | exact Hex'].
Qed.

End Layers.

End CacheFacts.

Module CacheTheorems.

Import CacheFacts.

(** X11: the cache reset on a well-formed cache.  When every layer has at
    least two entries, [reset_past_key_values] returns without exception;
    afterwards the [current_length] of the first two entries of every layer
    is 0, every other cell of the store holds what it held before, and a
    second reset changes nothing. *)
Theorem reset_past_key_values_resets {D : Type}
    (passed_key_values : list (list (kv_cache D))) (h : store) :
  Forall (fun layer => (2 <= length layer)%nat) passed_key_values ->
  exists h' : store,
    reset_past_key_values passed_key_values h = (h', None)
    /\ (forall (layer : list (kv_cache D)) (j : nat),
          In layer passed_key_values -> (j < 2)%nat ->
          forall d : kv_cache D, h' (current_length (nth j layer d)) = 0)
    /\ (forall x : nat, ~ In x (reset_cells passed_key_values) -> h' x = h x)
    /\ forall x : nat, fst (reset_past_key_values passed_key_values h') x = h' x.
Proof.
  intros Hall.
  destruct (reset_success passed_key_values h Hall) as [Hnone Hzero].
  destruct (reset_past_key_values passed_key_values h) as [h' o] eqn:E.
  cbn [fst snd] in *. subst o. exists h'. split; [reflexivity|].
  assert (Hcells : forall x, In x (reset_cells passed_key_values) -> h' x = 0)
    by exact Hzero.
  split.
  { intros layer j Hlayer Hj d. apply Hcells.
    unfold reset_cells. apply in_flat_map. exists layer. split; [exact Hlayer|].
    rewrite Forall_forall in Hall. specialize (Hall layer Hlayer).
    apply in_map. rewrite <- (firstn_skipn 2 layer) at 1.
    rewrite app_nth1 by (rewrite length_firstn; lia).
    apply nth_In. rewrite length_firstn. lia. }
  split.
  { intros x Hx. pose proof (reset_cells_only passed_key_values h x) as [_ Hkeep].
    rewrite E in Hkeep. apply Hkeep. exact Hx. }
  intros x.
  destruct (in_dec Nat.eq_dec x (reset_cells passed_key_values)) as [Hin|Hout].
  - rewrite (Hcells x Hin). apply reset_zero_stays. apply Hcells. exact Hin.
  - apply (reset_cells_only passed_key_values h' x). exact Hout.
Qed.

(** Two layers over four cells; the third entry of the first layer has a
    cell of its own, which keeps its length. *)
Lemma reset_past_key_values_resets_witness :
  let pkv := [[{| kv_data := tt; current_length := 0 |};
               {| kv_data := tt; current_length := 1 |};
               {| kv_data := tt; current_length := 4 |}];
              [{| kv_data := tt; current_length := 2 |};
               {| kv_data := tt; current_length := 3 |}]] in
  let h : store := fun x => 10 + Z.of_nat x in
  exists h' : store,
    reset_past_key_values pkv h = (h', None)
    /\ (forall (layer : list (kv_cache unit)) (j : nat),
          In layer pkv -> (j < 2)%nat ->
          forall d : kv_cache unit, h' (current_length (nth j layer d)) = 0)
    /\ (forall x : nat, ~ In x (reset_cells pkv) -> h' x = h x)
    /\ forall x : nat, fst (reset_past_key_values pkv h') x = h' x.
Proof.
  intros pkv h.
  apply (reset_past_key_values_resets pkv h).
  repeat constructor.
Defined.

(** X12: the cache reset on any cache.  It raises exactly when some layer
    has fewer than two entries, and then an [IndexError]; whether it raises
    or not, every cell of the store is afterwards what it was or 0, and the
    cells that are not the [current_length] of one of the first two
    entries of a layer are what they were. *)
Theorem reset_past_key_values_writes_only_lengths {D : Type}
    (passed_key_values : list (list (kv_cache D))) (h : store) :
  (forall e : exn,
     snd (reset_past_key_values passed_key_values h) = Some e
     <-> e = IndexError
         /\ Exists (fun layer => (length layer < 2)%nat) passed_key_values)
  /\ forall x : nat,
       (fst (reset_past_key_values passed_key_values h) x = h x
        \/ fst (reset_past_key_values passed_key_values h) x = 0)
       /\ (~ In x (reset_cells passed_key_values) ->
           fst (reset_past_key_values passed_key_values h) x = h x).
Proof.
  split.
  - intros e. apply reset_failure.
  - intros x. apply reset_cells_only.
Qed.

End CacheTheorems.

(** ** What the generator offers *)

Module GeneratorFacts.

Import Torch TopologyFacts BuilderFacts TensorFacts SelectionFacts.
Import CandidateFacts TreePlumbing DecoderFacts SuppressFacts.

(** *** [topk]: a selection from a sorted permutation *)

Section TopkOrder.

Context {T : Type} {ord : Ord T}.

Lemma insert_desc_perm (p : Z * T) (l : list (Z * T)) :
  Permutation (insert_desc p l) (p :: l).
Proof.
  induction l as [|q t IH]; [apply Permutation_refl|].
  cbn [insert_desc]. destruct (tlt (snd p) (snd q)).
  - apply perm_trans with (q :: p :: t); [apply perm_skip; exact IH|].
    apply perm_swap.
  - apply Permutation_refl.
Qed.

Lemma sort_desc_perm (l : list (Z * T)) : Permutation (sort_desc l) l.
Proof.
  unfold sort_desc. induction l as [|p t IH]; [apply perm_nil|].
  cbn [fold_right].
  apply perm_trans with (p :: fold_right insert_desc [] t);
    [apply insert_desc_perm | apply perm_skip; exact IH].
Qed.

Lemma map_fst_combine {A B : Type} (a : list A) : forall b : list B,
  length a = length b -> map fst (combine a b) = a.
Proof.
  induction a as [|x t IH]; intros [|y u] H; try discriminate; [reflexivity|].
  cbn [combine map fst]. rewrite IH by (cbn in H; lia). reflexivity.
Qed.

Lemma enumerate_fst (x : list T) :
  map fst (enumerate x) = map Z.of_nat (seq 0 (length x)).
Proof.
  unfold enumerate. apply map_fst_combine. rewrite length_map, length_seq.
  reflexivity.
Qed.

Lemma enumerate_nth (d : T) (x : list T) (n : nat) :
  (n < length x)%nat ->
  nth n (enumerate x) (0, d) = (Z.of_nat n, nth n x d).
Proof.
  intros Hn. unfold enumerate. rewrite combine_nth
    by (rewrite length_map, length_seq; reflexivity).
  rewrite (nth_map_in Z.of_nat _ n 0%nat 0) by (rewrite length_seq; exact Hn).
  rewrite seq_nth by exact Hn. reflexivity.
Qed.

Lemma enumerate_In (d : T) (x : list T) (i : Z) (v : T) :
  In (i, v) (enumerate x)
  <-> 0 <= i < len x /\ v = nth (Z.to_nat i) x d.
Proof.
  split.
  - intros Hin. destruct (In_nth _ _ (0, d) Hin) as [n [Hn Hnth]].
    rewrite enumerate_length in Hn. rewrite enumerate_nth in Hnth by exact Hn.
    injection Hnth as <- <-. unfold len. rewrite Nat2Z.id. split; [lia | reflexivity].
  - intros [Hi ->]. unfold len in Hi.
    rewrite <- (Z2Nat.id i) at 1 by lia.
    rewrite <- (enumerate_nth d x (Z.to_nat i)) by lia.
    apply nth_In. rewrite enumerate_length. lia.
Qed.

Lemma NoDup_firstn {A : Type} (n : nat) (l : list A) : NoDup l -> NoDup (firstn n l).
Proof.
  intros H. rewrite <- (firstn_skipn n l) in H.
  apply (NoDup_app_remove_r _ _ H).
Qed.

Lemma In_firstn_In {A : Type} (n : nat) (l : list A) (x : A) :
  In x (firstn n l) -> In x l.
Proof.
  intros H. rewrite <- (firstn_skipn n l). apply in_or_app. left. exact H.
Qed.

Lemma sorted_indices (x : list T) :
  Permutation (map fst (sort_desc (enumerate x)))
              (map Z.of_nat (seq 0 (length x))).
Proof.
  rewrite <- enumerate_fst. apply Permutation_map. apply sort_desc_perm.
Qed.

(** The indices [topk] returns are distinct positions of its argument. *)
Lemma topk_indices_sound (x : list T) (k : Z) (l : list Z) :
  topk_indices x k = inr l ->
  len l = k /\ NoDup l /\ Forall (fun t => 0 <= t < len x) l.
Proof.
  unfold topk_indices. intros H.
  destruct (Z.ltb_spec k 0); [discriminate|].
  destruct (Z.ltb_spec (len x) k); [discriminate|].
  cbn [orb ret] in H. injection H as <-.
  assert (Hnd : NoDup (map fst (sort_desc (enumerate x)))).
  { apply (Permutation_NoDup (Permutation_sym (sorted_indices x))).
    apply Injective_map_NoDup; [intros a b; apply Nat2Z.inj | apply seq_NoDup]. }
  split.
  { unfold len in *. rewrite length_map, length_firstn, sort_desc_length,
      enumerate_length. lia. }
  rewrite <- firstn_map. split; [apply NoDup_firstn; exact Hnd|].
  apply Forall_forall. intros t Ht. apply In_firstn_In in Ht.
  apply (Permutation_in _ (sorted_indices x)) in Ht.
  apply in_map_iff in Ht. destruct Ht as [n [<- Hn]]. apply in_seq in Hn.
  unfold len. lia.
Qed.

Hypothesis tlt_irrefl : forall x : T, tlt x x = false.
Hypothesis tlt_trans :
  forall x y z : T, tlt x y = true -> tlt y z = true -> tlt x z = true.
Hypothesis tlt_cotrans :
  forall x y z : T, tlt x z = true -> tlt x y = true \/ tlt y z = true.

Lemma insert_desc_sorted (p : Z * T) (l : list (Z * T)) :
  StronglySorted (fun a b => tlt (snd a) (snd b) = false) l ->
  StronglySorted (fun a b => tlt (snd a) (snd b) = false) (insert_desc p l).
Proof.
  induction l as [|q t IH]; intros Hs.
  - cbn. constructor; constructor.
  - apply StronglySorted_inv in Hs. destruct Hs as [Ht Hq].
    cbn [insert_desc]. destruct (tlt (snd p) (snd q)) eqn:E.
    + constructor; [apply IH; exact Ht|].
      apply Forall_forall. intros a Ha.
      apply (Permutation_in _ (insert_desc_perm p t)) in Ha.
      destruct Ha as [<-|Ha].
      * destruct (tlt (snd q) (snd p)) eqn:E'; [|reflexivity].
        pose proof (tlt_trans _ _ _ E E') as Hpp.
        rewrite tlt_irrefl in Hpp. discriminate.
      * rewrite Forall_forall in Hq. apply Hq. exact Ha.
    + constructor; [constructor; assumption|].
      constructor; [exact E|].
      apply Forall_forall. intros a Ha.
      rewrite Forall_forall in Hq. specialize (Hq a Ha).
      destruct (tlt (snd p) (snd a)) eqn:E'; [|reflexivity].
      destruct (tlt_cotrans _ (snd q) _ E') as [H|H]; congruence.
Qed.

Lemma sort_desc_sorted (l : list (Z * T)) :
  StronglySorted (fun a b => tlt (snd a) (snd b) = false) (sort_desc l).
Proof.
  unfold sort_desc. induction l as [|p t IH]; [constructor|].
  cbn [fold_right]. apply insert_desc_sorted. exact IH.
Qed.

Lemma sorted_app_rel {A : Type} (R : A -> A -> Prop) (a b : list A) :
  StronglySorted R (a ++ b) ->
  forall x y : A, In x a -> In y b -> R x y.
Proof.
  induction a as [|h t IH]; intros Hs x y Hx Hy; [destruct Hx|].
  cbn [app] in Hs. apply StronglySorted_inv in Hs. destruct Hs as [Ht Hh].
  destruct Hx as [<-|Hx].
  - rewrite Forall_forall in Hh. apply Hh. apply in_or_app. right. exact Hy.
  - apply IH; assumption.
Qed.

(** No entry that [topk] leaves out is larger than one it returns. *)
Lemma topk_indices_dominate (d : T) (x : list T) (k : Z) (l : list Z) :
  topk_indices x k = inr l ->
  forall t j : Z, In t l -> 0 <= j < len x -> ~ In j l ->
  tlt (nth (Z.to_nat t) x d) (nth (Z.to_nat j) x d) = false.
Proof.
  unfold topk_indices. intros H.
  destruct (Z.ltb_spec k 0); [discriminate|].
  destruct (Z.ltb_spec (len x) k); [discriminate|].
  cbn [orb ret] in H. injection H as <-.
  intros t j Ht Hj Hout.
  set (s := sort_desc (enumerate x)) in *.
  apply in_map_iff in Ht. destruct Ht as [[t' vt] [Heq Ht]]. cbn [fst] in Heq.
  subst t'.
  assert (Hvt : vt = nth (Z.to_nat t) x d).
  { apply In_firstn_In in Ht.
    apply (Permutation_in _ (sort_desc_perm (enumerate x))) in Ht.
    apply (enumerate_In d) in Ht. apply Ht. }
  assert (Hjs : In (j, nth (Z.to_nat j) x d) s).
  { apply (Permutation_in _ (Permutation_sym (sort_desc_perm (enumerate x)))).
    apply (enumerate_In d). split; [exact Hj | reflexivity]. }
  rewrite <- (firstn_skipn (Z.to_nat k) s) in Hjs.
  apply in_app_or in Hjs. destruct Hjs as [Hjs|Hjs].
  { exfalso. apply Hout. apply in_map_iff.
    exists (j, nth (Z.to_nat j) x d). split; [reflexivity | exact Hjs]. }
  pose proof (sort_desc_sorted (enumerate x)) as Hsorted. fold s in Hsorted.
  rewrite <- (firstn_skipn (Z.to_nat k) s) in Hsorted.
  pose proof (sorted_app_rel _ _ _ Hsorted _ _ Ht Hjs) as Hrel.
  cbn [snd] in Hrel. rewrite <- Hvt. exact Hrel.
Qed.

End TopkOrder.

(** *** Rows of a cartesian product *)

Lemma cartesian_rows_In (ts : list (list Z)) : forall row : list Z,
  In row (cartesian_rows ts) <-> Forall2 (fun x t => In x t) row ts.
Proof.
  induction ts as [|t rest IH]; intros row.
  - cbn. split.
    + intros [<-|[]]. constructor.
    + intros H. inversion H. left. reflexivity.
  - cbn [cartesian_rows]. rewrite in_flat_map. split.
    + intros [x [Hx Hrow]]. apply in_map_iff in Hrow.
      destruct Hrow as [r [<- Hr]]. constructor; [exact Hx|]. apply IH. exact Hr.
    + intros H. inversion H as [|x t' r rest' Hx Hr]; subst.
      exists x. split; [exact Hx|]. apply in_map. apply IH. exact Hr.
Qed.

Lemma cartesian_rows_NoDup (ts : list (list Z)) :
  Forall (@NoDup Z) ts -> NoDup (cartesian_rows ts).
Proof.
  induction 1 as [|t rest Ht Hrest IH]; [repeat constructor; intros []|].
  cbn [cartesian_rows].
  induction Ht as [|x t' Hx Ht' IHt]; [constructor|].
  cbn [flat_map]. apply NoDup_app.
  - apply Injective_map_NoDup; [|exact IH]. intros a b Hab. congruence.
  - exact IHt.
  - intros row Hrow Hin. apply in_map_iff in Hrow. destruct Hrow as [r [<- _]].
    apply in_flat_map in Hin. destruct Hin as [y [Hy Hin]].
    apply in_map_iff in Hin. destruct Hin as [r' [Heq _]].
    injection Heq as -> _. contradiction.
Qed.

Lemma argmax_total_range {T : Type} {ord : Ord T} (l : list T) :
  l <> [] -> 0 <= argmax_total l < len l.
Proof.
  intros Hne. destruct l as [|v t]; [congruence|]. cbn [argmax_total].
  assert (H : forall (u : list T) (bi i : Z) (bv : T),
            0 <= bi < i -> bi <= argmax_from bi bv i u < i + len u
                           /\ 0 <= argmax_from bi bv i u).
  { induction u as [|w u IH]; intros bi i bv Hb.
    - cbn. unfold len. cbn. lia.
    - cbn [argmax_from]. unfold len. cbn [length]. rewrite Nat2Z.inj_succ.
      destruct (tlt bv w).
      + destruct (IH i (i + 1) w ltac:(lia)) as [H1 H2]. unfold len in H1. lia.
      + destruct (IH bi (i + 1) bv ltac:(lia)) as [H1 H2]. unfold len in H1. lia. }
  destruct (H t 0 1 v ltac:(lia)) as [H1 _].
  unfold len in *. cbn [length]. lia.
Qed.

(** *** The pool of the generator, head by head *)

Section PoolSpec.

Context {F : Type} {ord : Ord F}.

Variable medusa_logits : list (list (list (list F))).
Variable medusa_topk : list Z.
Hypothesis Hheads : Forall2 head_ok medusa_logits medusa_topk.

Lemma topk_each_head_spec (c0 : list (list Z)) :
  forall n : nat, (n <= length medusa_logits)%nat ->
  exists tk : list (list Z),
    for_range n
      (fun i candidates =>
         v <- head_last (nth i medusa_logits []) ;;
         k <- list_item medusa_topk i ;;
         candidate_i <- topk_indices v k ;;
         ret (candidates ++ [candidate_i]))
      c0
    = inr (c0 ++ tk)
    /\ length tk = n
    /\ forall i : nat, (i < n)%nat ->
         exists v : list F,
           head_last (nth i medusa_logits []) = inr v
           /\ topk_indices v (nth i medusa_topk 0) = inr (nth i tk []).
Proof.
  pose proof (Forall2_length Hheads) as Hlen.
  induction n as [|n IH]; intros Hn.
  - exists []. rewrite app_nil_r. split; [reflexivity|]. split; [reflexivity|].
    intros i Hi. lia.
  - destruct IH as [tk [Hrun [Hlk Htk]]]; [lia|].
    rewrite for_range_S, Hrun. cbn [bind].
    assert (Hok : head_ok (nth n medusa_logits []) (nth n medusa_topk 0)).
    { apply (Forall2_nth head_ok); [exact Hheads | lia]. }
    destruct Hok as [v [Hv Hk]]. rewrite Hv. cbn [bind].
    unfold list_item. rewrite (nth_error_nth' medusa_topk 0) by lia. cbn [bind ret].
    destruct (topk_indices_ok v (nth n medusa_topk 0) ltac:(lia)) as [l [Hl Hll]].
    rewrite Hl. cbn [bind].
    exists (tk ++ [l]). split; [rewrite app_assoc; reflexivity|].
    split; [rewrite length_app, Hlk; cbn; lia|].
    intros i Hi. destruct (Nat.eq_dec i n) as [->|Hne].
    + exists v. split; [exact Hv|].
      rewrite app_nth2 by lia. rewrite Hlk, Nat.sub_diag. exact Hl.
    + rewrite app_nth1 by lia. apply Htk. lia.
Qed.

Lemma topk_all_heads_spec (k0 : Z) :
  (forall k, In k medusa_topk -> k = k0) ->
  exists tk : list (list Z),
    map_result (fun head => v <- head_last head ;; topk_indices v k0) medusa_logits
    = inr tk
    /\ length tk = length medusa_logits
    /\ forall i : nat, (i < length medusa_logits)%nat ->
         exists v : list F,
           head_last (nth i medusa_logits []) = inr v
           /\ topk_indices v (nth i medusa_topk 0) = inr (nth i tk []).
Proof.
  intros Hall.
  destruct (topk_all_heads k0 medusa_logits medusa_topk Hheads Hall)
    as [tk [Hrun _]].
  exists tk. split; [exact Hrun|].
  destruct (map_result_inr_inv _ _ _ Hrun) as [Hlen Hnth].
  split; [exact Hlen|]. intros i Hi.
  specialize (Hnth i [] [] Hi).
  pose proof (Forall2_length Hheads) as HL.
  assert (Hk : nth i medusa_topk 0 = k0) by (apply Hall; apply nth_In; lia).
  destruct (head_last (nth i medusa_logits [])) as [e|v]; cbn [bind] in Hnth;
    [discriminate|].
  exists v. split; [reflexivity|]. rewrite Hk. exact Hnth.
Qed.

(** Both branches of the generator: the candidates are the cartesian product
    of the root with, for every head, the result of [topk] on that head. *)
Lemma generate_candidates_pool (logits : list (list (list F)))
    (tree_indices : list Z) :
  Forall (fun b => b <> []) logits ->
  flatten (map (fun b => last b []) logits) <> [] ->
  exists offered : list (list Z),
    length offered = length medusa_logits
    /\ (forall i : nat, (i < length medusa_logits)%nat ->
          exists v : list F,
            head_last (nth i medusa_logits []) = inr v
            /\ topk_indices v (nth i medusa_topk 0) = inr (nth i offered []))
    /\ generate_candidates medusa_logits logits medusa_topk tree_indices
       = (tree_candidates <-
            index_rows 0
              (flatten ([argmax_total (flatten (map (fun b => last b []) logits))]
                        :: offered))
              tree_indices ;;
          ret (cartesian_prod
                 ([argmax_total (flatten (map (fun b => last b []) logits))]
                  :: offered),
               [tree_candidates])).
Proof.
  intros Hlast Hne.
  set (root := argmax_total (flatten (map (fun b => last b []) logits))).
  unfold generate_candidates.
  rewrite (map_result_ok last_position (fun b => last b [])) by
    (intros b Hb; apply last_position_ok; rewrite Forall_forall in Hlast;
     apply Hlast; exact Hb).
  cbn [bind].
  assert (Hroot : argmax (flatten (map (fun b => last b []) logits)) = inr root).
  { subst root. destruct (flatten (map (fun b => last b []) logits));
      [congruence | reflexivity]. }
  rewrite Hroot. cbn [bind].
  destruct (single_valued medusa_topk) eqn:Esv.
  - destruct (topk_all_heads_spec (hd 0 medusa_topk)
                (single_valued_all medusa_topk Esv)) as [tk [Hrun [Hlen Hspec]]].
    rewrite Hrun. cbn [bind ret app]. exists tk.
    split; [exact Hlen|]. split; [exact Hspec | reflexivity].
  - destruct (topk_each_head_spec [[root]] (length medusa_logits) (le_n _))
      as [tk [Hrun [Hlen Hspec]]].
    rewrite Hrun. cbn [bind ret app]. exists tk.
    split; [exact Hlen|]. split; [exact Hspec | reflexivity].
Qed.

End PoolSpec.

End GeneratorFacts.

Module GeneratorTheorems.

Import Torch TopologyFacts BuilderFacts TensorFacts SelectionFacts.
Import CandidateFacts TreePlumbing DecoderFacts SuppressFacts GeneratorFacts.

(** X13: what the generator offers.  Over a strict weak order on logits, a
    run of the generator that returns gives the cartesian product of the
    root token (the argmax of the base logits at the last position) with one
    list of offered tokens per head; the list of head [i] has
    [medusa_topk[i]] pairwise distinct positions of that head's last logits
    vector, and no position left out has a larger logit than an offered
    one. *)
Theorem candidates_are_top_k_products {F : Type} {ord : Ord F} (d : F)
    (medusa_logits : list (list (list (list F))))
    (logits : list (list (list F))) (medusa_topk tree_indices : list Z)
    (candidates : long_tensor) (tree_candidates : list (list Z)) :
  (forall x : F, tlt x x = false) ->
  (forall x y z : F, tlt x y = true -> tlt y z = true -> tlt x z = true) ->
  (forall x y z : F, tlt x z = true -> tlt x y = true \/ tlt y z = true) ->
  Forall (fun b => b <> []) logits ->
  flatten (map (fun b => last b []) logits) <> [] ->
  Forall2 head_ok medusa_logits medusa_topk ->
  generate_candidates medusa_logits logits medusa_topk tree_indices
  = inr (candidates, tree_candidates) ->
  exists offered : list (list Z),
    rows_of candidates
    = cartesian_rows
        ([argmax_total (flatten (map (fun b => last b []) logits))] :: offered)
    /\ length offered = length medusa_logits
    /\ forall i : nat, (i < length medusa_logits)%nat ->
         exists v : list F,
           head_last (nth i medusa_logits []) = inr v
           /\ len (nth i offered []) = nth i medusa_topk 0
           /\ NoDup (nth i offered [])
           /\ Forall (fun t => 0 <= t < len v) (nth i offered [])
           /\ forall t j : Z,
                In t (nth i offered []) -> 0 <= j < len v ->
                ~ In j (nth i offered []) ->
                tlt (nth (Z.to_nat t) v d) (nth (Z.to_nat j) v d) = false.
Proof.
  intros Hirr Htrans Hcotrans Hlast Hne Hheads Hrun.
  destruct (generate_candidates_pool medusa_logits medusa_topk Hheads logits
              tree_indices Hlast Hne) as [offered [Hlen [Hspec Hform]]].
  rewrite Hform in Hrun.
  destruct (index_rows 0 _ tree_indices) as [e|tree]; cbn [bind ret] in Hrun;
    [discriminate|].
  set (prod_rows := cartesian_prod _) in Hrun.
  injection Hrun as <- _. subst prod_rows.
  exists offered. split; [apply rows_of_cartesian|]. split; [exact Hlen|].
  intros i Hi. destruct (Hspec i Hi) as [v [Hv Htop]].
  exists v. split; [exact Hv|].
  destruct (topk_indices_sound v _ _ Htop) as [Hk [Hnd Hrange]].
  split; [exact Hk|]. split; [exact Hnd|]. split; [exact Hrange|].
  apply (topk_indices_dominate Hirr Htrans Hcotrans d v _ _ Htop).
Qed.

(** Two heads with top-K values 1 and 2 over a vocabulary of three
    tokens. *)
Lemma candidates_are_top_k_products_witness :
  exists offered : list (list Z),
    cartesian_rows [[1]; [0]; [1; 2]]
    = cartesian_rows
        ([argmax_total (flatten (map (fun b => last b []) [[[1; 7; 2]]]))]
         :: offered)
    /\ length offered = 2%nat
    /\ forall i : nat, (i < 2)%nat ->
         exists v : list Z,
           head_last (nth i [[[[5; 1; 3]]]; [[[2; 9; 4]]]] []) = inr v
           /\ len (nth i offered []) = nth i [1; 2] 0
           /\ NoDup (nth i offered [])
           /\ Forall (fun t => 0 <= t < len v) (nth i offered [])
           /\ forall t j : Z,
                In t (nth i offered []) -> 0 <= j < len v ->
                ~ In j (nth i offered []) ->
                tlt (nth (Z.to_nat t) v 0) (nth (Z.to_nat j) v 0) = false.
Proof.
  assert (H1 : Forall (fun b : list (list Z) => b <> []) [[[1; 7; 2]]])
    by (repeat constructor; discriminate).
  assert (H2 : flatten (map (fun b : list (list Z) => last b []) [[[1; 7; 2]]]) <> [])
    by discriminate.
  assert (H3 : Forall2 (head_ok (F := Z)) [[[[5; 1; 3]]]; [[[2; 9; 4]]]] [1; 2])
    by (repeat constructor; eexists;
        (split; [reflexivity | unfold len; cbn; lia])).
  assert (Hirr : forall x : Z, tlt x x = false) by (intros x; apply Z.ltb_irrefl).
  exact (candidates_are_top_k_products (F := Z) 0
           [[[[5; 1; 3]]]; [[[2; 9; 4]]]] [[[1; 7; 2]]] [1; 2] [0; 1; 2; 3; 2; 3]
           (Tensor2 (cartesian_rows [[1]; [0]; [1; 2]])) [[1; 0; 1; 2; 1; 2]]
           Hirr EvaluatorFacts.Zltb_trans EvaluatorFacts.Zltb_cotrans
           H1 H2 H3 eq_refl).
Defined.

(** X14: the candidate paths are distinct paths over the vocabulary.  When
    every head's last logits vector and the flattened base logits of the
    last position have [V] entries, a run of the generator that returns
    gives pairwise distinct rows, each with one token per head after the
    root, all of them vocabulary indices. *)
Theorem candidates_are_distinct_vocabulary_paths {F : Type} {ord : Ord F}
    (V : nat) (medusa_logits : list (list (list (list F))))
    (logits : list (list (list F))) (medusa_topk tree_indices : list Z)
    (candidates : long_tensor) (tree_candidates : list (list Z)) :
  Forall (fun b => b <> []) logits ->
  len (flatten (map (fun b => last b []) logits)) = Z.of_nat V -> (0 < V)%nat ->
  Forall2 head_ok medusa_logits medusa_topk ->
  Forall (fun head => forall v, head_last head = inr v -> length v = V)
         medusa_logits ->
  generate_candidates medusa_logits logits medusa_topk tree_indices
  = inr (candidates, tree_candidates) ->
  NoDup (rows_of candidates)
  /\ Forall (fun row => length row = S (length medusa_logits)) (rows_of candidates)
  /\ Acceptance.tokens_in_vocab V (rows_of candidates).
Proof.
  intros Hlast HV HVpos Hheads Hwidth Hrun.
  assert (Hne : flatten (map (fun b => last b []) logits) <> []).
  { intros Hnil. rewrite Hnil in HV. unfold len in HV. cbn in HV. lia. }
  destruct (generate_candidates_pool medusa_logits medusa_topk Hheads logits
              tree_indices Hlast Hne) as [offered [Hlen [Hspec Hform]]].
  rewrite Hform in Hrun.
  destruct (index_rows 0 _ tree_indices) as [e|tree]; cbn [bind ret] in Hrun;
    [discriminate|].
  set (prod_rows := cartesian_prod _) in Hrun.
  injection Hrun as <- _. subst prod_rows. rewrite rows_of_cartesian.
  set (root := argmax_total (flatten (map (fun b => last b []) logits))).
  assert (Hoff : forall l, In l offered ->
            NoDup l /\ Forall (fun t => 0 <= t < Z.of_nat V) l).
  { intros l Hl. destruct (In_nth _ _ [] Hl) as [i [Hi <-]].
    rewrite Hlen in Hi. destruct (Hspec i Hi) as [v [Hv Htop]].
    destruct (topk_indices_sound v _ _ Htop) as [_ [Hnd Hrange]].
    split; [exact Hnd|].
    rewrite Forall_forall in Hwidth.
    specialize (Hwidth (nth i medusa_logits []) (nth_In _ _ Hi) v Hv).
    unfold len in Hrange. rewrite Hwidth in Hrange. exact Hrange. }
  pose proof (argmax_total_range _ Hne) as Hroot. fold root in Hroot.
  rewrite HV in Hroot.
  split.
  { apply cartesian_rows_NoDup. constructor.
    - repeat constructor. intros [].
    - apply Forall_forall. intros l Hl. apply (Hoff l Hl). }
  split.
  { apply Forall_forall. intros row Hrow. apply cartesian_rows_In in Hrow.
    rewrite (Forall2_length Hrow). cbn [length]. rewrite Hlen. reflexivity. }
  unfold Acceptance.tokens_in_vocab.
  apply Forall_forall. intros row Hrow. apply cartesian_rows_In in Hrow.
  apply Forall_forall. intros tok Htok.
  destruct (In_nth _ _ 0 Htok) as [i [Hi <-]].
  pose proof (Forall2_length Hrow) as HL.
  pose proof (Forall2_nth (fun x t => In x t) 0 [] row ([root] :: offered) i
                Hrow Hi) as Hin.
  destruct i as [|i].
  - cbn [nth] in Hin. destruct Hin as [<-|[]]. exact Hroot.
  - cbn [nth] in Hin. cbn [length] in HL.
    destruct (Hoff (nth i offered [])) as [_ Hrange]; [apply nth_In; lia|].
    rewrite Forall_forall in Hrange. apply Hrange. exact Hin.
Qed.

Lemma candidates_are_distinct_vocabulary_paths_witness :
  NoDup (rows_of (Tensor2 (cartesian_rows [[1]; [0]; [1; 2]])))
  /\ Forall (fun row => length row = 3%nat)
            (rows_of (Tensor2 (cartesian_rows [[1]; [0]; [1; 2]])))
  /\ Acceptance.tokens_in_vocab 3 (rows_of (Tensor2 (cartesian_rows [[1]; [0]; [1; 2]]))).
Proof.
  assert (H1 : Forall (fun b : list (list Z) => b <> []) [[[1; 7; 2]]])
    by (repeat constructor; discriminate).
  assert (H2 : len (flatten (map (fun b : list (list Z) => last b []) [[[1; 7; 2]]]))
               = Z.of_nat 3) by reflexivity.
  assert (H3 : Forall2 (head_ok (F := Z)) [[[[5; 1; 3]]]; [[[2; 9; 4]]]] [1; 2])
    by (repeat constructor; eexists;
        (split; [reflexivity | unfold len; cbn; lia])).
  assert (H4 : Forall (fun head : list (list (list Z)) =>
                         forall v, head_last head = inr v -> length v = 3%nat)
                      [[[[5; 1; 3]]]; [[[2; 9; 4]]]]).
  { repeat constructor; intros v [= <-]; reflexivity. }
  exact (candidates_are_distinct_vocabulary_paths (F := Z) 3
           [[[[5; 1; 3]]]; [[[2; 9; 4]]]] [[[1; 7; 2]]] [1; 2] [0; 1; 2; 3; 2; 3]
           (Tensor2 (cartesian_rows [[1]; [0]; [1; 2]])) [[1; 0; 1; 2; 1; 2]]
           H1 H2 ltac:(lia) H3 H4 eq_refl).
Defined.

(** X23: when the generator raises.  On well-shaped logits the only way for
    the generator to fail is a tree index outside the candidate pool: it
    raises exactly when some entry of [tree_indices] lies outside
    [-n, n) for [n = 1 + sum medusa_topk], and then an [IndexError]. *)
Theorem generate_candidates_index_error {F : Type} {ord : Ord F}
    (medusa_logits : list (list (list (list F))))
    (logits : list (list (list F))) (medusa_topk tree_indices : list Z)
    (e : exn) :
  Forall (fun b => b <> []) logits ->
  flatten (map (fun b => last b []) logits) <> [] ->
  Forall2 head_ok medusa_logits medusa_topk ->
  generate_candidates medusa_logits logits medusa_topk tree_indices = inl e
  <-> e = IndexError
      /\ Exists (fun i => ~ (- (1 + sum medusa_topk) <= i < 1 + sum medusa_topk))
                tree_indices.
Proof.
  intros Hlast Hne Hheads.
  destruct (generate_candidates_form medusa_logits logits medusa_topk
              tree_indices Hlast Hne Hheads) as [tk [Hlens Hform]].
  rewrite Hform.
  set (pool := flatten (_ :: tk)).
  assert (Hpool : len pool = 1 + sum medusa_topk).
  { subst pool. rewrite <- (firstn_all (_ :: tk)) at 1.
    rewrite len_concat_firstn. cbn [map]. rewrite Hlens.
    change (length (?x :: tk)) with (S (length tk)).
    rewrite <- Hlens at 2. rewrite <- (length_map len tk), Hlens.
    change (S (length medusa_topk)) with (length (1 :: medusa_topk)).
    unfold len at 1. cbn [length]. apply cs_all. }
  split.
  - intros Hfail. apply bind_inl_inv in Hfail.
    destruct Hfail as [Hfail|[tree [_ Hfail]]]; [|discriminate].
    unfold index_rows in Hfail.
    destruct (map_result_inl_inv _ _ _ Hfail) as [i [Hi Hbad]].
    apply bind_inl_inv in Hbad. destruct Hbad as [Hbad|[k [_ Hbad]]];
      [|discriminate].
    destruct (norm_index_fails _ _ _ Hbad) as [-> Hout].
    split; [reflexivity|]. apply Exists_exists. exists i.
    rewrite <- Hpool. split; assumption.
  - intros [-> Hex]. apply Exists_exists in Hex. destruct Hex as [i [Hi Hout]].
    rewrite <- Hpool in Hout. unfold index_rows.
    rewrite (map_result_fails _ tree_indices IndexError).
    + reflexivity.
    + intros y e' _ Hy. apply bind_inl_inv in Hy.
      destruct Hy as [Hy|[k [_ Hy]]]; [|discriminate].
      apply (norm_index_fails _ _ _ Hy).
    + exists i. split; [exact Hi|]. rewrite (norm_index_out _ _ Hout). reflexivity.
Qed.

Lemma generate_candidates_index_error_witness :
  generate_candidates (F := Z) [[[[5; 1; 3]]]; [[[2; 9; 4]]]] [[[1; 7; 2]]]
    [1; 2] [0; 4; 1] = inl IndexError
  <-> IndexError = IndexError
      /\ Exists (fun i => ~ (- (1 + sum [1; 2]) <= i < 1 + sum [1; 2])) [0; 4; 1].
Proof.
  assert (H1 : Forall (fun b : list (list Z) => b <> []) [[[1; 7; 2]]])
    by (repeat constructor; discriminate).
  assert (H2 : flatten (map (fun b : list (list Z) => last b []) [[[1; 7; 2]]]) <> [])
    by discriminate.
  assert (H3 : Forall2 (head_ok (F := Z)) [[[[5; 1; 3]]]; [[[2; 9; 4]]]] [1; 2])
    by (repeat constructor; eexists;
        (split; [reflexivity | unfold len; cbn; lia])).
  exact (generate_candidates_index_error (F := Z) [[[[5; 1; 3]]]; [[[2; 9; 4]]]]
           [[[1; 7; 2]]] [1; 2] [0; 4; 1] IndexError H1 H2 H3).
Defined.

End GeneratorTheorems.

(** ** Step 5 of the builder: [list_indices] *)

Module ListIndexFacts.

Import Torch Topology TopologyFacts BuilderFacts TreeFacts BuilderErrors.
Import TensorFacts TreePlumbing DecoderFacts.

(** Row [r] of one block: the children, in level [i], of the node with
    offset [r mod q] in the level above. *)
Lemma block_row (lo : Z) (n q k r : nat) :
  (0 < q)%nat -> (r < k * q)%nat ->
  let ci := map (fun j => lo + Z.of_nat j) (seq 0 n) in
  let offs := map (fun j => 0 + Z.of_nat j) (seq 0 q) in
  nth r
    (concat
       (repeat
          (map (fun p => map (fun x => x + snd p * len ci) (fst p))
               (combine (repeat ci q) offs))
          k)) []
  = map (fun c => lo + Z.of_nat c + Z.of_nat (r mod q) * Z.of_nat n) (seq 0 n).
Proof.
  intros Hq Hr ci offs.
  assert (Hlen2 : length (map (fun p : list Z * Z =>
                                 map (fun x => x + snd p * len ci) (fst p))
                              (combine (repeat ci q) offs)) = q).
  { rewrite length_map, length_combine, repeat_length. subst offs.
    rewrite length_map, length_seq. lia. }
  rewrite nth_concat_repeat by (rewrite Hlen2; exact Hr).
  rewrite Hlen2.
  pose proof (Nat.mod_upper_bound r q ltac:(lia)) as Ht.
  set (t := (r mod q)%nat) in *.
  rewrite (nth_map_in _ _ t (ci, 0) [])
    by (rewrite length_combine, repeat_length; subst offs;
        rewrite length_map, length_seq; lia).
  rewrite combine_nth
    by (rewrite repeat_length; subst offs; rewrite length_map, length_seq;
        reflexivity).
  cbn [fst snd]. rewrite nth_repeat.
  subst offs. rewrite nth_arange by exact Ht.
  subst ci. rewrite map_map. apply map_ext. intros c.
  unfold len. rewrite length_map, length_seq. lia.
Qed.

(** Step 5 on a well-formed specification, with the content of the
    blocks. *)
Lemma list_indices_loop_content (b : list Z) :
  positive_spec b ->
  forall k : nat, (k <= length b)%nat ->
  exists blocks : list (list (list Z)),
    for_range k (list_indices_body b (prod b)) ([], 0) = inr (blocks, st b k)
    /\ length blocks = k
    /\ forall i : nat, (i < k)%nat ->
         length (nth i blocks []) = Z.to_nat (prod b)
         /\ forall r : nat, (r < Z.to_nat (prod b))%nat ->
              nth r (nth i blocks []) []
              = map (fun c => st b i + Z.of_nat c
                              + (Z.of_nat r mod cp b i) * nth i b 0)
                    (seq 0 (Z.to_nat (nth i b 0))).
Proof.
  intros Hb k. induction k as [|k IH]; intros Hk.
  - exists []. split; [reflexivity|]. split; [reflexivity|]. intros i Hi. lia.
  - destruct IH as [blocks [Hrun [Hlen Hall]]]; [lia|].
    rewrite for_range_S, (bind_inr _ _ _ Hrun).
    unfold list_indices_body.
    pose proof (positive_nth b k Hb ltac:(lia)) as Hbk.
    pose proof (cp_pos b k Hb) as Hcp.
    pose proof (prod_skipn_pos b k Hb) as Hq.
    rewrite arange2_ok by lia. cbn [bind].
    rewrite cumprod_nth, cp_S by lia.
    rewrite tensor_floordiv_ok by lia. cbn [bind].
    rewrite Z.div_mul by lia.
    rewrite repeat_rows_ok by lia. cbn [bind].
    unfold arange. rewrite arange2_ok by lia. cbn [bind].
    rewrite tensor_floordiv_ok by lia. cbn [bind].
    rewrite prod_div_cp by exact Hb.
    rewrite tile_rows_ok by lia. cbn [bind ret].
    replace (st b k + nth k b 0 - st b k) with (nth k b 0) by lia.
    rewrite Z.sub_0_r.
    eexists. split; [rewrite st_S, cp_S by lia; reflexivity|].
    split; [rewrite length_app, Hlen; simpl; lia|].
    intros i Hi. destruct (Nat.eq_dec i k) as [->|Hne].
    + rewrite app_nth2 by lia. rewrite Hlen, Nat.sub_diag. cbn [nth].
      assert (Hrows : (Z.to_nat (prod b)
                       = Z.to_nat (prod (skipn k b)) * Z.to_nat (cp b k))%nat).
      { rewrite (prod_split b k), Z2Nat.inj_mul by lia. lia. }
      split.
      * rewrite length_concat_repeat, length_map, length_combine.
        rewrite repeat_length, length_map, length_seq. lia.
      * intros r Hr.
        rewrite (block_row (st b k) (Z.to_nat (nth k b 0)) (Z.to_nat (cp b k))
                   (Z.to_nat (prod (skipn k b))) r) by lia.
        apply map_ext. intros c.
        rewrite Nat2Z.inj_mod, !Z2Nat.id by lia. reflexivity.
    + rewrite app_nth1 by lia. apply Hall. lia.
Qed.

(** [torch.cat(blocks, dim=1)] row by row. *)
Lemma cat_dim1_rows (n : nat) (blocks : list (list (list Z))) :
  blocks <> [] ->
  Forall (fun m => length m = n) blocks ->
  cat_dim1 blocks
  = inr (map (fun r => concat (map (fun m => nth r m []) blocks)) (seq 0 n)).
Proof.
  intros Hne Hall. induction Hall as [|m rest Hm Hrest IH]; [congruence|].
  destruct rest as [|m2 rest'].
  - cbn [cat_dim1]. unfold ret. f_equal. apply (map_seq_ext []); [exact Hm|].
    intros r Hr. cbn [map concat]. rewrite app_nil_r. reflexivity.
  - change (cat_dim1 (m :: m2 :: rest'))
      with (r <- cat_dim1 (m2 :: rest') ;;
            if Nat.eqb (length m) (length r)
            then ret (map (fun p => fst p ++ snd p) (combine m r))
            else raise RuntimeError).
    rewrite IH by discriminate. cbn [bind].
    rewrite length_map, length_seq, Hm, Nat.eqb_refl. unfold ret. f_equal.
    apply (map_seq_ext []).
    + rewrite length_map, length_combine, length_map, length_seq. lia.
    + intros r Hr.
      rewrite (nth_map_in _ _ r ([], []) [])
        by (rewrite length_combine, length_map, length_seq; lia).
      rewrite combine_nth by (rewrite length_map, length_seq; exact Hm).
      cbn [fst snd]. rewrite nth_map_seq by exact Hr. reflexivity.
Qed.

(** The loop of step 5 and the concatenation behind the returned
    [list_indices]. *)
Lemma generate_list_indices (b : list Z) (bufs : medusa_buffers) :
  generate_medusa_buffers b = inr bufs ->
  exists (blocks : list (list (list Z))) (prev : Z) (cat : list (list Z)),
    for_range (length b) (list_indices_body b (prod b)) ([], 0)
    = inr (blocks, prev)
    /\ cat_dim1 blocks = inr cat
    /\ list_indices bufs = transpose (length (hd [] cat)) cat.
Proof.
  intros Hrun.
  destruct (generate_medusa_buffers_success b bufs Hrun) as [Hne Hb].
  unfold generate_medusa_buffers in Hrun.
  destruct b as [|x t] eqn:Eb; [discriminate|]. rewrite <- Eb in *.
  cbv zeta in Hrun.
  apply bind_inr_inv in Hrun. destruct Hrun as [mask0 [_ Hrun]].
  apply bind_inr_inv in Hrun. destruct Hrun as [mi [_ Hrun]].
  apply bind_inr_inv in Hrun. destruct Hrun as [[[ti pcs] pcp] [_ Hrun]].
  apply bind_inr_inv in Hrun. destruct Hrun as [[mask ?] [_ Hrun]].
  apply bind_inr_inv in Hrun. destruct Hrun as [r0 [_ Hrun]].
  apply bind_inr_inv in Hrun. destruct Hrun as [[ri prev0] [_ Hrun]].
  rewrite cumprod_max in Hrun by (try exact Hb; rewrite Eb; discriminate).
  apply bind_inr_inv in Hrun. destruct Hrun as [[blocks prev] [Hloop Hrun]].
  apply bind_inr_inv in Hrun. destruct Hrun as [c [Hcat Hrun]].
  injection Hrun as <-. cbn [list_indices].
  exists blocks, prev, c. split; [exact Hloop|]. split; [exact Hcat | reflexivity].
Qed.

Lemma nat_of_factors (b : list Z) :
  positive_spec b ->
  map len (map (fun i => seq 0 (Z.to_nat (nth i b 0))) (seq 0 (length b))) = b.
Proof.
  intros Hb. rewrite map_map. symmetry. apply (map_seq_ext 0); [reflexivity|].
  intros i Hi. unfold len. rewrite length_seq.
  pose proof (positive_nth b i Hb Hi). lia.
Qed.

End ListIndexFacts.

Module ListIndexTheorems.

Import Torch Topology TopologyFacts BuilderFacts TreeFacts BuilderErrors.
Import TensorFacts TreePlumbing DecoderFacts ListIndexFacts.

(** X15: closed form of [list_indices].  For buffers returned by the
    builder on [b], [list_indices] has [sum b] rows of [prod b] entries;
    for level [i], choice [c < b[i]] and path [r], the entry in row
    [b[0] + ... + b[i-1] + c] and column [r] is the node of level [i] that
    is child number [c] of the node with offset [r mod (b[0] * ... * b[i-1])]
    in the level above. *)
Theorem list_indices_closed_form (b : list Z) (bufs : medusa_buffers) :
  generate_medusa_buffers b = inr bufs ->
  len (list_indices bufs) = sum b
  /\ Forall (fun row => len row = prod b) (list_indices bufs)
  /\ forall (i : nat) (c r : Z),
       (i < length b)%nat -> 0 <= c < nth i b 0 -> 0 <= r < prod b ->
       let node :=
         nth (Z.to_nat r) (nth (Z.to_nat (cs b i + c)) (list_indices bufs) []) 0 in
       node = st b i + (r mod cp b i) * nth i b 0 + c
       /\ st b i <= node < st b (S i).
Proof.
  intros Hrun.
  destruct (generate_medusa_buffers_built b bufs Hrun) as [Hne [Hb _]].
  destruct (generate_list_indices b bufs Hrun) as [blocks [prev [cat [Hloop [Hcat Hli]]]]].
  destruct (list_indices_loop_content b Hb (length b) (le_n _))
    as [blocks' [Hloop' [Hlen Hcontent]]].
  rewrite Hloop in Hloop'. injection Hloop' as <- _.
  pose proof (prod_pos b Hb) as HP. pose proof (sum_nonneg b Hb) as HS.
  set (n := Z.to_nat (prod b)) in *.
  assert (Hall : Forall (fun m => length m = n) blocks).
  { apply Forall_forall. intros m Hm. destruct (In_nth _ _ [] Hm) as [i [Hi <-]].
    apply Hcontent. lia. }
  assert (Hbne : blocks <> []).
  { intros ->. cbn in Hlen. destruct b; [congruence | discriminate]. }
  rewrite (cat_dim1_rows n blocks Hbne Hall) in Hcat. injection Hcat as <-.
  set (ts := fun r : nat =>
    map (fun i => map (fun c => st b i + Z.of_nat c
                                + (Z.of_nat r mod cp b i) * nth i b 0)
                      (seq 0 (Z.to_nat (nth i b 0))))
        (seq 0 (length b))).
  assert (Hrow : forall r : nat, (r < n)%nat ->
            map (fun m => nth r m []) blocks = ts r).
  { intros r Hr. apply (map_seq_ext []).
    - rewrite length_map. exact Hlen.
    - intros i Hi. rewrite (nth_map_in _ _ i [] []) by lia.
      apply Hcontent; assumption. }
  assert (Hlens : forall r : nat, map len (ts r) = b).
  { intros r. subst ts. cbv beta. rewrite map_map. symmetry.
    apply (map_seq_ext 0); [reflexivity|].
    intros i Hi. unfold len. rewrite length_map, length_seq.
    pose proof (positive_nth b i Hb Hi). lia. }
  assert (Hwidth : forall r : nat, len (concat (ts r)) = sum b).
  { intros r. rewrite <- (firstn_all (ts r)) at 1.
    rewrite len_concat_firstn, Hlens.
    replace (length (ts r)) with (length b)
      by (subst ts; cbv beta; rewrite length_map, length_seq; reflexivity).
    apply cs_all. }
  assert (Hcols : length (hd [] (map (fun r => concat (map (fun m => nth r m []) blocks))
                                     (seq 0 n))) = Z.to_nat (sum b)).
  { destruct n as [|n'] eqn:En; [lia|].
    cbn [seq map hd]. rewrite (Hrow 0%nat) by lia.
    pose proof (Hwidth 0%nat) as Hw. unfold len in Hw. lia. }
  rewrite Hli, Hcols. unfold transpose.
  split; [unfold len; rewrite length_map, length_seq; lia|].
  split.
  { apply Forall_forall. intros row Hin. apply in_map_iff in Hin.
    destruct Hin as [j [<- _]]. unfold len.
    rewrite !length_map, length_seq. subst n. lia. }
  intros i c r Hi Hc Hr. cbv zeta.
  pose proof (cs_nonneg b i Hb) as Hcs.
  pose proof (cs_mono b (S i) (length b) Hb ltac:(lia)) as Hcm.
  rewrite cs_all, (cs_S b i) in Hcm by exact Hi.
  rewrite nth_map_seq by lia.
  rewrite (nth_map_in _ _ (Z.to_nat r) [] 0)
    by (rewrite length_map, length_seq; subst n; lia).
  rewrite nth_map_seq by (subst n; lia).
  rewrite Hrow by (subst n; lia).
  pose proof (len_concat_firstn (ts (Z.to_nat r)) i) as Hoff.
  rewrite Hlens in Hoff. unfold len in Hoff.
  replace (Z.to_nat (cs b i + c))
    with (length (concat (firstn i (ts (Z.to_nat r)))) + Z.to_nat c)%nat by lia.
  assert (Hnth : nth i (ts (Z.to_nat r)) []
                 = map (fun c => st b i + Z.of_nat c
                                 + (Z.of_nat (Z.to_nat r) mod cp b i) * nth i b 0)
                       (seq 0 (Z.to_nat (nth i b 0)))).
  { subst ts. cbv beta. rewrite nth_map_seq by exact Hi. reflexivity. }
  rewrite nth_concat_at
    by (try (subst ts; cbv beta; rewrite length_map, length_seq; exact Hi);
        rewrite Hnth, length_map, length_seq; lia).
  rewrite Hnth, nth_map_seq by lia.
  rewrite !Z2Nat.id by lia.
  pose proof (cp_pos b i Hb) as Hcp.
  pose proof (Z.mod_pos_bound r (cp b i) Hcp) as Hmod.
  split; [lia|].
  rewrite (st_S b i), (cp_S b i) by exact Hi. nia.
Qed.

Lemma list_indices_closed_form_witness :
  exists bufs : medusa_buffers,
    generate_medusa_buffers [2; 3] = inr bufs
    /\ len (list_indices bufs) = 5
    /\ Forall (fun row => len row = 6) (list_indices bufs)
    /\ forall (i : nat) (c r : Z),
         (i < 2)%nat -> 0 <= c < nth i [2; 3] 0 -> 0 <= r < 6 ->
         let node :=
           nth (Z.to_nat r)
               (nth (Z.to_nat (cs [2; 3] i + c)) (list_indices bufs) []) 0 in
         node = st [2; 3] i + (r mod cp [2; 3] i) * nth i [2; 3] 0 + c
         /\ st [2; 3] i <= node < st [2; 3] (S i).
Proof.
  destruct (generate_medusa_buffers [2; 3]) as [e|bufs] eqn:Hrun;
    [vm_compute in Hrun; discriminate|].
  exists bufs. split; [reflexivity|].
  exact (list_indices_closed_form [2; 3] bufs Hrun).
Defined.

End ListIndexTheorems.

(** ** The timestamp rules *)

Module TimestampFacts.

Import Torch BuilderFacts TensorFacts DecoderFacts SuppressFacts StepFacts.

(** *** Indexed maps and entries *)

Lemma imap_length {A B : Type} (f : nat -> A -> B) (l : list A) :
  length (imap f l) = length l.
Proof.
  unfold imap. rewrite length_map, length_combine, length_seq. lia.
Qed.

Lemma imap_nth {A B : Type} (f : nat -> A -> B) (l : list A) (k : nat)
    (d : A) (d' : B) :
  (k < length l)%nat -> nth k (imap f l) d' = f k (nth k l d).
Proof.
  intros Hk. unfold imap.
  rewrite (nth_map_in _ _ k (0%nat, d) d')
    by (rewrite length_combine, length_seq; lia).
  rewrite combine_nth by (rewrite length_seq; reflexivity).
  cbn [fst snd]. rewrite seq_nth by exact Hk. reflexivity.
Qed.

Lemma imap_nth_out {A B : Type} (f : nat -> A -> B) (l : list A) (k : nat)
    (d' : B) :
  (length l <= k)%nat -> nth k (imap f l) d' = d'.
Proof.
  intros Hk. apply nth_overflow. rewrite imap_length. exact Hk.
Qed.

Lemma hd_nth {A : Type} (d : A) (l : list A) : hd d l = nth 0 l d.
Proof. destruct l; reflexivity. Qed.

Section Fill.

Context {F : Type}.
Variable neg_inf : F.

Lemma fill_where_length (sel : nat -> nat -> nat -> bool)
    (s : list (list (list F))) :
  length (fill_where neg_inf sel s) = length s.
Proof. apply imap_length. Qed.

Lemma fill_where_heads (sel : nat -> nat -> nat -> bool)
    (s : list (list (list F))) (k : nat) :
  length (nth k (fill_where neg_inf sel s) []) = length (nth k s []).
Proof.
  unfold fill_where. destruct (Nat.lt_ge_cases k (length s)) as [Hk|Hk].
  - rewrite (imap_nth _ _ k [] []) by exact Hk. apply imap_length.
  - rewrite imap_nth_out by exact Hk. rewrite nth_overflow by exact Hk.
    reflexivity.
Qed.

Lemma fill_where_vocab (sel : nat -> nat -> nat -> bool)
    (s : list (list (list F))) (k h : nat) :
  length (nth h (nth k (fill_where neg_inf sel s) []) [])
  = length (nth h (nth k s []) []).
Proof.
  unfold fill_where. destruct (Nat.lt_ge_cases k (length s)) as [Hk|Hk].
  - rewrite (imap_nth _ _ k [] []) by exact Hk.
    destruct (Nat.lt_ge_cases h (length (nth k s []))) as [Hh|Hh].
    + rewrite (imap_nth _ _ h [] []) by exact Hh. apply imap_length.
    + rewrite imap_nth_out by exact Hh. rewrite nth_overflow by exact Hh.
      reflexivity.
  - rewrite imap_nth_out by exact Hk. rewrite (nth_overflow s) by exact Hk.
    destruct h; reflexivity.
Qed.

Lemma fill_where_entry (d : F) (sel : nat -> nat -> nat -> bool)
    (s : list (list (list F))) (k h j : nat) :
  (k < length s)%nat -> (h < length (nth k s []))%nat ->
  (j < length (nth h (nth k s []) []))%nat ->
  entry d (fill_where neg_inf sel s) k h j
  = if sel k h j then neg_inf else entry d s k h j.
Proof.
  intros Hk Hh Hj. unfold entry, fill_where.
  rewrite (imap_nth _ _ k [] []) by exact Hk.
  rewrite (imap_nth _ _ h [] []) by exact Hh.
  rewrite (imap_nth _ _ j d d) by exact Hj. reflexivity.
Qed.

Lemma entry_out (d : F) (s s' : list (list (list F))) (k h j : nat) :
  length s' = length s ->
  length (nth k s' []) = length (nth k s []) ->
  length (nth h (nth k s' []) []) = length (nth h (nth k s []) []) ->
  ~ ((k < length s)%nat /\ (h < length (nth k s []))%nat
     /\ (j < length (nth h (nth k s []) []))%nat) ->
  entry d s' k h j = entry d s k h j.
Proof.
  intros H1 H2 H3 Hout. unfold entry.
  destruct (Nat.lt_ge_cases j (length (nth h (nth k s []) []))) as [Hj|Hj].
  - destruct (Nat.lt_ge_cases h (length (nth k s []))) as [Hh|Hh].
    + destruct (Nat.lt_ge_cases k (length s)) as [Hk|Hk]; [tauto|].
      rewrite (nth_overflow s) in Hh by exact Hk. cbn in Hh. lia.
    + rewrite (nth_overflow (nth k s [])) in Hj by exact Hh. cbn in Hj. lia.
  - rewrite !nth_overflow by lia. reflexivity.
Qed.

Lemma fill_where_only_masked (sel : nat -> nat -> nat -> bool)
    (s : list (list (list F))) :
  only_masked neg_inf s (fill_where neg_inf sel s).
Proof.
  split; [apply fill_where_length|]. split; [apply fill_where_heads|].
  split; [apply fill_where_vocab|].
  intros d k h j.
  destruct (Nat.lt_ge_cases k (length s)) as [Hk|Hk];
    [destruct (Nat.lt_ge_cases h (length (nth k s []))) as [Hh|Hh];
     [destruct (Nat.lt_ge_cases j (length (nth h (nth k s []) []))) as [Hj|Hj]|]|].
  - rewrite fill_where_entry by assumption.
    destruct (sel k h j); [right | left]; reflexivity.
  - left. apply entry_out;
      [apply fill_where_length | apply fill_where_heads | apply fill_where_vocab | lia].
  - left. apply entry_out;
      [apply fill_where_length | apply fill_where_heads | apply fill_where_vocab | lia].
  - left. apply entry_out;
      [apply fill_where_length | apply fill_where_heads | apply fill_where_vocab | lia].
Qed.

Lemma only_masked_refl (s : list (list (list F))) : only_masked neg_inf s s.
Proof.
  split; [reflexivity|]. split; [reflexivity|]. split; [reflexivity|].
  intros d k h j. left. reflexivity.
Qed.

Lemma only_masked_trans (s1 s2 s3 : list (list (list F))) :
  only_masked neg_inf s1 s2 -> only_masked neg_inf s2 s3 ->
  only_masked neg_inf s1 s3.
Proof.
  intros [A1 [A2 [A3 A4]]] [B1 [B2 [B3 B4]]].
  split; [congruence|].
  split; [intros k; rewrite B2; apply A2|].
  split; [intros k h; rewrite B3; apply A3|].
  intros d k h j. destruct (B4 d k h j) as [H|H]; [|right; exact H].
  rewrite H. apply A4.
Qed.

(** An entry that is minus infinity stays so. *)
Lemma only_masked_keeps (d : F) (s s' : list (list (list F))) (k h j : nat) :
  only_masked neg_inf s s' -> entry d s k h j = neg_inf ->
  entry d s' k h j = neg_inf.
Proof.
  intros [_ [_ [_ H]]] He. destruct (H d k h j) as [Hs|Hs]; congruence.
Qed.

Lemma only_masked_heads_of (s s' : list (list (list F))) :
  only_masked neg_inf s s' -> heads_of s' = heads_of s.
Proof.
  intros [_ [H _]]. unfold heads_of, len. rewrite !(hd_nth []), H. reflexivity.
Qed.

Lemma only_masked_vocab_of (s s' : list (list (list F))) :
  only_masked neg_inf s s' -> vocab_of s' = vocab_of s.
Proof.
  intros [_ [_ [H _]]]. unfold vocab_of, len. rewrite !(hd_nth []), H.
  reflexivity.
Qed.

Lemma only_masked_rectangular (B H V : nat) (s s' : list (list (list F))) :
  only_masked neg_inf s s' -> rectangular B H V s -> rectangular B H V s'.
Proof.
  intros [A1 [A2 [A3 _]]] [R1 R2]. rewrite Forall_forall in R2.
  split; [congruence|]. apply Forall_forall. intros heads Hin.
  destruct (In_nth _ _ [] Hin) as [k [Hk <-]].
  assert (Hks : (k < length s)%nat) by lia.
  destruct (R2 _ (nth_In s [] Hks)) as [Hh Hv]. rewrite Forall_forall in Hv.
  split; [rewrite A2; exact Hh|].
  apply Forall_forall. intros v Hvin.
  destruct (In_nth _ _ [] Hvin) as [h [Hh' <-]].
  rewrite A3. apply Hv. apply nth_In. rewrite A2 in Hh'. exact Hh'.
Qed.

Lemma rectangular_sizes (B H V : nat) (s : list (list (list F))) :
  rectangular B H V s -> (0 < B)%nat -> (0 < H)%nat ->
  len s = Z.of_nat B /\ heads_of s = Z.of_nat H /\ vocab_of s = Z.of_nat V.
Proof.
  intros [R1 R2] HB HH. unfold heads_of, vocab_of, len.
  destruct s as [|heads rest]; [cbn in R1; lia|].
  inversion R2 as [|? ? [Hh Hv] _]; subst. cbn [hd].
  destruct heads as [|v hs]; [cbn in HH; lia|].
  inversion Hv as [|? ? Hvl _]; subst. cbn [hd].
  repeat split; reflexivity.
Qed.

Lemma rectangular_nth (B H V : nat) (s : list (list (list F))) (k h : nat) :
  rectangular B H V s -> (k < B)%nat -> (h < H)%nat ->
  (k < length s)%nat /\ length (nth k s []) = H
  /\ length (nth h (nth k s []) []) = V.
Proof.
  intros [R1 R2] Hk Hh. rewrite Forall_forall in R2.
  assert (Hks : (k < length s)%nat) by lia.
  destruct (R2 _ (nth_In s [] Hks)) as [HH Hv]. rewrite Forall_forall in Hv.
  split; [exact Hks|]. split; [exact HH|].
  apply Hv. apply nth_In. lia.
Qed.

End Fill.

(** *** Every statement of the processor only masks *)

Lemma for_range_rel {S : Type} (R : S -> S -> Prop) (body : nat -> S -> result S) :
  (forall s, R s s) ->
  (forall s1 s2 s3, R s1 s2 -> R s2 s3 -> R s1 s3) ->
  (forall i s s', body i s = inr s' -> R s s') ->
  forall (n : nat) (s s' : S), for_range n body s = inr s' -> R s s'.
Proof.
  intros Hrefl Htrans Hbody. induction n as [|n IH]; intros s s' Hrun.
  - injection Hrun as <-. apply Hrefl.
  - rewrite for_range_S in Hrun. apply bind_inr_inv in Hrun.
    destruct Hrun as [s1 [H1 H2]].
    apply (Htrans _ s1); [apply IH; exact H1 | apply (Hbody n); exact H2].
Qed.

Section Phases.

Context {F : Type} {ops : FloatOps F}.
Variable neg_inf : F.
Variable self : timestamp_processor.

Lemma fill_where_unselected (d : F) (sel : nat -> nat -> nat -> bool)
    (s : list (list (list F))) (k h j : nat) :
  sel k h j = false ->
  entry d (fill_where neg_inf sel s) k h j = entry d s k h j.
Proof.
  intros Hsel.
  destruct (Nat.lt_ge_cases k (length s)) as [Hk|Hk];
    [destruct (Nat.lt_ge_cases h (length (nth k s []))) as [Hh|Hh];
     [destruct (Nat.lt_ge_cases j (length (nth h (nth k s []) []))) as [Hj|Hj]|]|].
  - rewrite fill_where_entry by assumption. rewrite Hsel. reflexivity.
  - apply entry_out;
      [apply fill_where_length | apply fill_where_heads | apply fill_where_vocab | lia].
  - apply entry_out;
      [apply fill_where_length | apply fill_where_heads | apply fill_where_vocab | lia].
  - apply entry_out;
      [apply fill_where_length | apply fill_where_heads | apply fill_where_vocab | lia].
Qed.

Lemma pairing_only_masked (k : nat) (row : list Z) (s s' : list (list (list F))) :
  pairing_rules neg_inf self k row s = inr s' -> only_masked neg_inf s s'.
Proof.
  unfold pairing_rules. intros Hrun.
  apply bind_inr_inv in Hrun. destruct Hrun as [s1 [H1 H2]].
  assert (Hs1 : only_masked neg_inf s s1).
  { destruct (last_was_timestamp self row).
    - apply bind_inr_inv in H1. destruct H1 as [? [_ H1]].
      apply bind_inr_inv in H1. destruct H1 as [? [_ H1]].
      destruct (penultimate_was_timestamp self row); injection H1 as <-;
        apply fill_where_only_masked.
    - injection H1 as <-. apply only_masked_refl. }
  apply (only_masked_trans neg_inf s s1 s'); [exact Hs1|].
  destruct (last_item (timestamps_of self row)) as [t|].
  - apply bind_inr_inv in H2. destruct H2 as [? [_ H2]].
    destruct (Z.leb_spec
                (if last_was_timestamp self row
                    && negb (penultimate_was_timestamp self row)
                 then t else t + 1) 0); [discriminate|].
    injection H2 as <-. apply fill_where_only_masked.
  - injection H2 as <-. apply only_masked_refl.
Qed.

Lemma initial_only_masked (input_ids : list (list Z))
    (s s' : list (list (list F))) :
  initial_rules neg_inf self input_ids s = inr s' -> only_masked neg_inf s s'.
Proof.
  unfold initial_rules. intros Hrun.
  destruct (len (hd [] input_ids) =? ts_begin_index self).
  - apply bind_inr_inv in Hrun. destruct Hrun as [? [_ Hrun]].
    apply bind_inr_inv in Hrun. destruct Hrun as [? [_ Hrun]].
    destruct (ts_max_initial_timestamp_index self); injection Hrun as <-;
      repeat (eapply only_masked_trans; [|apply fill_where_only_masked]);
      apply only_masked_refl.
  - injection Hrun as <-. apply only_masked_refl.
Qed.

Lemma detect_head_only_masked (k : nat) (tl ml : list F) (i : nat)
    (st st' : list (list (list F)) * bool) :
  detect_head neg_inf self k tl ml i st = inr st' ->
  only_masked neg_inf (fst st) (fst st').
Proof.
  unfold detect_head. destruct st as [s prev].
  destruct ((tlt (nth i ml fzero) (nth i tl fzero) || prev)
            && ts_detect_timestamp_from_logprob self);
    intros [= <-]; cbn [fst];
    [apply fill_where_only_masked | apply only_masked_refl].
Qed.

Lemma detect_rules_only_masked (logprobs : list (list (list F))) (k : nat)
    (s s' : list (list (list F))) :
  detect_rules neg_inf self logprobs k s = inr s' -> only_masked neg_inf s s'.
Proof.
  unfold detect_rules. intros Hrun.
  apply bind_inr_inv in Hrun. destruct Hrun as [? [_ Hrun]].
  apply bind_inr_inv in Hrun. destruct Hrun as [ml [_ Hrun]].
  apply bind_inr_inv in Hrun. destruct Hrun as [[s2 prev] [Hloop Hrun]].
  injection Hrun as <-.
  change s with (fst (s, false)). change s2 with (fst (s2, prev)).
  revert Hloop.
  apply (for_range_rel (fun st st' => only_masked neg_inf (fst st) (fst st'))).
  - intros st. apply only_masked_refl.
  - intros s1 s3 s4. apply only_masked_trans.
  - intros i st st'. apply detect_head_only_masked.
Qed.

Lemma timestamp_call_only_masked (input_ids : list (list Z))
    (s s' : list (list (list F))) :
  timestamp_call neg_inf self input_ids s = inr s' -> only_masked neg_inf s s'.
Proof.
  unfold timestamp_call. intros Hrun.
  apply bind_inr_inv in Hrun. destruct Hrun as [nts [_ Hrun]].
  apply bind_inr_inv in Hrun. destruct Hrun as [s2 [H2 Hrun]].
  apply bind_inr_inv in Hrun. destruct Hrun as [s3 [H3 Hrun]].
  set (s1 := fill_where neg_inf (fun _ _ j : nat => Nat.eqb j nts) s) in *.
  apply (only_masked_trans neg_inf s s1 s');
    [apply fill_where_only_masked|].
  apply (only_masked_trans neg_inf _ s2).
  { revert H2. apply (for_range_rel (only_masked neg_inf)).
    - apply only_masked_refl.
    - apply only_masked_trans.
    - intros i s0 s0'. apply pairing_only_masked. }
  apply (only_masked_trans neg_inf _ s3); [apply (initial_only_masked _ _ _ H3)|].
  revert Hrun. apply (for_range_rel (only_masked neg_inf)).
  - apply only_masked_refl.
  - apply only_masked_trans.
  - intros i s0 s0'. apply detect_rules_only_masked.
Qed.

End Phases.

(** *** Loops that succeed *)

Lemma for_range_total {S : Type} (body : nat -> S -> result S) :
  (forall i s, exists s', body i s = inr s') ->
  forall (n : nat) (s : S), exists s', for_range n body s = inr s'.
Proof.
  intros Hbody. induction n as [|n IH]; intros s; [exists s; reflexivity|].
  destruct (IH s) as [s1 H1]. destruct (Hbody n s1) as [s2 H2].
  exists s2. rewrite for_range_S, H1. exact H2.
Qed.

Lemma for_range_steps {S : Type} (R : S -> S -> Prop) (I : S -> Prop)
    (Q : nat -> S -> Prop) (body : nat -> S -> result S) (n : nat) :
  (forall s, R s s) ->
  (forall s1 s2 s3, R s1 s2 -> R s2 s3 -> R s1 s3) ->
  (forall s s', I s -> R s s' -> I s') ->
  (forall k s s', Q k s -> R s s' -> Q k s') ->
  (forall k s, (k < n)%nat -> I s ->
     exists s', body k s = inr s' /\ R s s' /\ Q k s') ->
  forall s : S, I s ->
  exists s' : S,
    for_range n body s = inr s' /\ R s s' /\ forall k, (k < n)%nat -> Q k s'.
Proof.
  intros Hrefl Htrans HI HQ Hbody s Hs.
  assert (H : forall m : nat, (m <= n)%nat ->
            exists s', for_range m body s = inr s' /\ R s s'
                       /\ forall k, (k < m)%nat -> Q k s').
  { induction m as [|m IH]; intros Hm.
    - exists s. split; [reflexivity|]. split; [apply Hrefl|]. intros k Hk. lia.
    - destruct IH as [s1 [H1 [HR1 HQ1]]]; [lia|].
      destruct (Hbody m s1 ltac:(lia) (HI _ _ Hs HR1)) as [s2 [H2 [HR2 HQ2]]].
      exists s2. split; [rewrite for_range_S, H1; exact H2|].
      split; [apply (Htrans _ s1); assumption|].
      intros k Hk. destruct (Nat.eq_dec k m) as [->|Hne]; [exact HQ2|].
      apply (HQ k s1 s2); [apply HQ1; lia | exact HR2]. }
  apply (H n (le_n _)).
Qed.

Lemma last_item_none (l : list Z) : last_item l = None <-> l = [].
Proof.
  unfold last_item. split.
  - destruct (rev l) as [|x t] eqn:E; [|discriminate].
    intros _. apply (f_equal (@rev Z)) in E. rewrite rev_involutive in E. exact E.
  - intros ->. reflexivity.
Qed.

Lemma last_item_In (l : list Z) (x : Z) : last_item l = Some x -> In x l.
Proof.
  unfold last_item. destruct (rev l) as [|y t] eqn:E; [discriminate|].
  intros [= <-]. apply in_rev. rewrite E. left. reflexivity.
Qed.

Section Rules.

Context {F : Type} {ops : FloatOps F}.
Variable neg_inf : F.
Variable self : timestamp_processor.
Variables (B H V : nat).

Hypothesis HB : (0 < B)%nat.
Hypothesis HH : (2 <= H)%nat.
Hypothesis Hnts : 0 <= ts_no_timestamps_token_id self < Z.of_nat V.
Hypothesis Htb :
  ts_timestamp_begin self = ts_no_timestamps_token_id self + 1.

Lemma timestamp_begin_bound :
  norm_bound (Z.of_nat V) (ts_timestamp_begin self) = ts_timestamp_begin self
  /\ 1 <= ts_timestamp_begin self <= Z.of_nat V.
Proof. split; [apply norm_bound_id; lia | lia]. Qed.

Lemma timestamp_last_positive (row : list Z) (t : Z) :
  last_item (timestamps_of self row) = Some t ->
  ts_timestamp_begin self <= t.
Proof.
  intros Hl. apply last_item_In in Hl. unfold timestamps_of in Hl.
  apply filter_In in Hl. destruct Hl as [_ Hl]. apply Z.leb_le in Hl. exact Hl.
Qed.

Lemma paired_keeps (k : nat) (row : list Z) (s s' : list (list (list F))) :
  paired neg_inf self H V k row s -> only_masked neg_inf s s' -> paired neg_inf self H V k row s'.
Proof.
  intros Hp Hm d. destruct (Hp d) as [Ha [Hb Hc]].
  split; [|split].
  - intros H1 H2 j Hj. apply (only_masked_keeps neg_inf d s s' _ _ _ Hm).
    apply Ha; assumption.
  - intros H1 H2 j Hj Hs. apply (only_masked_keeps neg_inf d s s' _ _ _ Hm).
    apply Hb; assumption.
  - intros H1 h Hh. apply (only_masked_keeps neg_inf d s s' _ _ _ Hm).
    apply Hc; assumption.
Qed.

Lemma pairing_step (k : nat) (row : list Z) (s : list (list (list F))) :
  (k < B)%nat -> rectangular B H V s ->
  exists s' : list (list (list F)),
    pairing_rules neg_inf self k row s = inr s'
    /\ only_masked neg_inf s s' /\ paired neg_inf self H V k row s'.
Proof.
  intros Hk Hrect.
  destruct (rectangular_sizes B H V s Hrect HB ltac:(lia)) as [HlB [HlH HlV]].
  destruct timestamp_begin_bound as [Hnb Htbr].
  destruct (pairing_rules neg_inf self k row s) as [e|s'] eqn:Hrun.
  { exfalso. unfold pairing_rules in Hrun. rewrite HlB, HlH, HlV in Hrun.
    rewrite norm_index_nat in Hrun by lia.
    rewrite (norm_index_ok (Z.of_nat H) 0) in Hrun by lia.
    apply bind_inl_inv in Hrun. destruct Hrun as [Hrun|[s1 [H1 Hrun]]].
    - destruct (last_was_timestamp self row);
        [destruct (penultimate_was_timestamp self row)|]; discriminate.
    - assert (Hl1 : len s1 = Z.of_nat B).
      { destruct (last_was_timestamp self row);
          [destruct (penultimate_was_timestamp self row)|];
          cbn [bind ret] in H1; injection H1 as <-; unfold len in *;
          rewrite ?fill_where_length; exact HlB. }
      destruct (last_item (timestamps_of self row)) as [t|] eqn:El;
        [|discriminate].
      pose proof (timestamp_last_positive row t El) as Ht.
      rewrite Hl1, norm_index_nat in Hrun by lia. cbn [bind] in Hrun.
      destruct (last_was_timestamp self row
                && negb (penultimate_was_timestamp self row));
        [destruct (Z.leb_spec t 0) | destruct (Z.leb_spec (t + 1) 0)];
        try discriminate; lia. }
  exists s'. split; [reflexivity|].
  pose proof (pairing_only_masked neg_inf self k row s s' Hrun) as Hmask.
  split; [exact Hmask|].
  unfold pairing_rules in Hrun. rewrite HlB, HlH, HlV in Hrun.
  rewrite norm_index_nat in Hrun by lia.
  rewrite (norm_index_ok (Z.of_nat H) 0) in Hrun by lia.
  apply bind_inr_inv in Hrun. destruct Hrun as [s1 [H1 H2]].
  assert (Hm1 : only_masked neg_inf s s1).
  { destruct (last_was_timestamp self row);
      [destruct (penultimate_was_timestamp self row)|]; cbn [bind ret] in H1;
      injection H1 as <-;
      [apply fill_where_only_masked | apply fill_where_only_masked
       | apply only_masked_refl]. }
  assert (Hm2 : only_masked neg_inf s1 s').
  { destruct (last_item (timestamps_of self row)) as [t|].
    - apply bind_inr_inv in H2. destruct H2 as [? [_ H2]].
      match type of H2 with
      | (if ?c then _ else _) = _ => destruct c
      end; [discriminate|].
      injection H2 as <-. apply fill_where_only_masked.
    - injection H2 as <-. apply only_masked_refl. }
  pose proof (only_masked_rectangular neg_inf B H V s s1 Hm1 Hrect) as Hrect1.
  intros d. split; [|split].
  - intros Hl Hp j Hj. apply (only_masked_keeps neg_inf d s1 s' _ _ _ Hm2).
    rewrite Hl, Hp in H1. cbn [bind ret] in H1. injection H1 as <-.
    destruct (rectangular_nth B H V s k 0 Hrect Hk ltac:(lia)) as [Q1 [Q2 Q3]].
    rewrite fill_where_entry by lia.
    rewrite !Nat.eqb_refl. cbn [andb]. rewrite Hnb.
    destruct (Z.leb_spec (ts_timestamp_begin self) (Z.of_nat j)); [reflexivity|lia].
  - intros Hl Hp j Hj Hs. apply (only_masked_keeps neg_inf d s1 s' _ _ _ Hm2).
    rewrite Hl, Hp in H1. cbn [bind ret] in H1. injection H1 as <-.
    destruct (rectangular_nth B H V s k 0 Hrect Hk ltac:(lia)) as [Q1 [Q2 Q3]].
    rewrite fill_where_entry by lia.
    rewrite !Nat.eqb_refl. cbn [andb].
    destruct (Z.ltb_spec (Z.of_nat j) (text_stop self (Z.of_nat V)));
      [reflexivity|lia].
  - intros Hne h Hh.
    destruct (last_item (timestamps_of self row)) as [t|] eqn:El.
    2:{ apply last_item_none in El. contradiction. }
    pose proof (timestamp_last_positive row t El) as Ht.
    apply bind_inr_inv in H2. destruct H2 as [? [_ H2]].
    match type of H2 with
    | (if ?c then _ else _) = _ => destruct c
    end; [discriminate|].
    injection H2 as <-.
    destruct (rectangular_nth B H V s1 k h Hrect1 Hk Hh) as [Q1 [Q2 Q3]].
    assert (HV : (0 < V)%nat) by lia.
    rewrite fill_where_entry by lia.
    rewrite Nat.eqb_refl, Hnb. cbn [andb].
    destruct (Z.ltb_spec (Z.of_nat 0) (ts_timestamp_begin self)); [|lia].
    cbn [andb]. change (Z.of_nat 0) with 0. rewrite Z.mod_0_l by
      (destruct (last_was_timestamp self row && negb (penultimate_was_timestamp self row)); lia).
    reflexivity.
Qed.

(** The first loop as a whole. *)
Lemma pairing_loop (input_ids : list (list Z)) (s : list (list (list F))) :
  (length input_ids <= B)%nat -> rectangular B H V s ->
  exists s' : list (list (list F)),
    for_range (length input_ids)
      (fun k scores => pairing_rules neg_inf self k (nth k input_ids []) scores) s
    = inr s'
    /\ only_masked neg_inf s s'
    /\ forall k : nat, (k < length input_ids)%nat ->
         paired neg_inf self H V k (nth k input_ids []) s'.
Proof.
  intros Hids Hrect.
  apply (for_range_steps (only_masked neg_inf) (rectangular B H V)
           (fun k s => paired neg_inf self H V k (nth k input_ids []) s)).
  - apply only_masked_refl.
  - apply only_masked_trans.
  - intros s0 s0' Hr Hm. apply (only_masked_rectangular neg_inf B H V s0 s0' Hm Hr).
  - intros k s0 s0'. apply paired_keeps.
  - intros k s0 Hk Hr. apply pairing_step; [lia | exact Hr].
  - exact Hrect.
Qed.

(** The rules of the first generated position. *)
Lemma initial_step (input_ids : list (list Z)) (s : list (list (list F))) :
  rectangular B H V s ->
  exists s' : list (list (list F)),
    initial_rules neg_inf self input_ids s = inr s'
    /\ only_masked neg_inf s s'
    /\ (len (hd [] input_ids) <> ts_begin_index self -> s' = s)
    /\ (len (hd [] input_ids) = ts_begin_index self ->
        forall (d : F) (k j : nat), (k < B)%nat -> (j < V)%nat ->
          (Z.of_nat j < ts_timestamp_begin self -> entry d s' k 0 j = neg_inf)
          /\ (ts_timestamp_begin self <= Z.of_nat j -> entry d s' k 1 j = neg_inf)).
Proof.
  intros Hrect.
  destruct (rectangular_sizes B H V s Hrect HB ltac:(lia)) as [HlB [HlH HlV]].
  destruct timestamp_begin_bound as [Hnb Htbr].
  destruct (initial_rules neg_inf self input_ids s) as [e|s'] eqn:Hrun.
  { exfalso. unfold initial_rules in Hrun.
    destruct (len (hd [] input_ids) =? ts_begin_index self); [|discriminate].
    rewrite HlH in Hrun. rewrite (norm_index_ok (Z.of_nat H) 0) in Hrun by lia.
    cbn [bind] in Hrun.
    rewrite (only_masked_heads_of neg_inf s _ (fill_where_only_masked neg_inf _ s)),
      HlH in Hrun.
    rewrite (norm_index_ok (Z.of_nat H) 1) in Hrun by lia. cbn [bind] in Hrun.
    destruct (ts_max_initial_timestamp_index self); discriminate. }
  exists s'. split; [reflexivity|].
  split; [apply (initial_only_masked neg_inf self input_ids s s' Hrun)|].
  unfold initial_rules in Hrun.
  destruct (Z.eqb_spec (len (hd [] input_ids)) (ts_begin_index self)) as [Heq|Hne].
  2:{ injection Hrun as <-. split; [reflexivity | intros; contradiction]. }
  split; [intros; contradiction|]. intros _ d k j Hk Hj.
  rewrite HlH, HlV in Hrun.
  rewrite (norm_index_ok (Z.of_nat H) 0) in Hrun by lia. cbn [bind] in Hrun.
  set (s1 := fill_where neg_inf _ s) in Hrun.
  assert (Hm1 : only_masked neg_inf s s1) by apply fill_where_only_masked.
  rewrite (only_masked_heads_of neg_inf s s1 Hm1), HlH in Hrun.
  rewrite (norm_index_ok (Z.of_nat H) 1) in Hrun by lia. cbn [bind] in Hrun.
  set (s2 := fill_where neg_inf _ s1) in Hrun.
  assert (Hm2 : only_masked neg_inf s1 s2) by apply fill_where_only_masked.
  assert (Hm3 : only_masked neg_inf s2 s').
  { destruct (ts_max_initial_timestamp_index self); injection Hrun as <-;
      [apply fill_where_only_masked | apply only_masked_refl]. }
  pose proof (only_masked_rectangular neg_inf B H V s s1 Hm1 Hrect) as Hrect1.
  split.
  - intros Hlt. apply (only_masked_keeps neg_inf d s2 s' _ _ _ Hm3).
    apply (only_masked_keeps neg_inf d s1 s2 _ _ _ Hm2).
    destruct (rectangular_nth B H V s k 0 Hrect Hk ltac:(lia)) as [Q1 [Q2 Q3]].
    subst s1. rewrite fill_where_entry by lia.
    rewrite Nat.eqb_refl, Hnb. cbn [andb].
    destruct (Z.ltb_spec (Z.of_nat j) (ts_timestamp_begin self)); [reflexivity|lia].
  - intros Hge. apply (only_masked_keeps neg_inf d s2 s' _ _ _ Hm3).
    destruct (rectangular_nth B H V s1 k 1 Hrect1 Hk ltac:(lia)) as [Q1 [Q2 Q3]].
    subst s2. rewrite fill_where_entry by lia.
    rewrite Nat.eqb_refl, Hnb. cbn [andb].
    destruct (Z.leb_spec (ts_timestamp_begin self) (Z.of_nat j)); [reflexivity|lia].
Qed.

Lemma max_values_ok (v : list F) :
  v <> [] -> exists m : F, max_values v = inr m.
Proof. destruct v; [congruence | intros _; eexists; reflexivity]. Qed.

Lemma log_softmax_length (v : list F) : length (log_softmax v) = length v.
Proof. unfold log_softmax. apply length_map. Qed.

Lemma detect_head_total (k : nat) (tl ml : list F) (i : nat)
    (st : list (list (list F)) * bool) :
  exists st', detect_head neg_inf self k tl ml i st = inr st'.
Proof.
  unfold detect_head. destruct st as [s0 prev].
  destruct ((tlt (nth i ml fzero) (nth i tl fzero) || prev)
            && ts_detect_timestamp_from_logprob self); eexists; reflexivity.
Qed.

(** The second loop never fails on the log-probabilities of a rectangular
    tensor. *)
Lemma detect_step (s3 s : list (list (list F))) (k : nat) :
  rectangular B H V s3 -> (k < B)%nat ->
  exists s' : list (list (list F)),
    detect_rules neg_inf self (map (map log_softmax) s3) k s = inr s'
    /\ only_masked neg_inf s s'.
Proof.
  intros Hrect Hk.
  destruct timestamp_begin_bound as [Hnb Htbr].
  destruct (detect_rules neg_inf self (map (map log_softmax) s3) k s)
    as [e|s'] eqn:Hrun.
  { exfalso. unfold detect_rules in Hrun.
    destruct Hrect as [R1 R2].
    unfold len in Hrun at 1. rewrite length_map, R1 in Hrun.
    rewrite norm_index_nat in Hrun by lia. cbn [bind] in Hrun.
    apply bind_inl_inv in Hrun. destruct Hrun as [Hrun|[ml [_ Hrun]]].
    - apply map_result_inl_inv in Hrun. destruct Hrun as [v [Hv Hmax]].
      rewrite (nth_map_in _ _ k [] []) in Hv by lia.
      apply in_map_iff in Hv. destruct Hv as [v0 [<- Hv0]].
      rewrite Forall_forall in R2.
      assert (Hks : (k < length s3)%nat) by lia.
      destruct (R2 (nth k s3 []) (nth_In s3 [] Hks)) as [_ Hvs].
      rewrite Forall_forall in Hvs. specialize (Hvs v0 Hv0).
      destruct (max_values_ok
                  (py_slice (log_softmax v0) 0 (ts_timestamp_begin self)))
        as [m Hm].
      + intros Hnil. apply (f_equal (@length F)) in Hnil.
        rewrite py_slice_length in Hnil
          by (try lia; unfold len; rewrite log_softmax_length, Hvs; lia).
        cbn in Hnil. lia.
      + rewrite Hm in Hmax. discriminate.
    - apply bind_inl_inv in Hrun. destruct Hrun as [Hrun|[[s2 prev] [_ Hrun]]];
        [|discriminate].
      destruct (for_range_total (detect_head neg_inf self k
                  (map (fun v => logsumexp (py_slice v (ts_timestamp_begin self) (len v)))
                       (nth k (map (map log_softmax) s3) [])) ml)
                  (detect_head_total k _ ml)
                  (length (map (fun v => logsumexp
                                 (py_slice v (ts_timestamp_begin self) (len v)))
                               (nth k (map (map log_softmax) s3) [])))
                  (s, false)) as [st' Hst].
      rewrite Hst in Hrun. discriminate. }
  exists s'. split; [reflexivity|].
  apply (detect_rules_only_masked neg_inf self _ k s s' Hrun).
Qed.

Lemma detect_loop (n : nat) (s3 : list (list (list F))) :
  rectangular B H V s3 -> (n <= B)%nat ->
  exists s' : list (list (list F)),
    for_range n (detect_rules neg_inf self (map (map log_softmax) s3)) s3 = inr s'
    /\ only_masked neg_inf s3 s'.
Proof.
  intros Hrect Hn.
  destruct (for_range_steps (only_masked neg_inf) (fun _ => True)
              (fun _ _ => True)
              (detect_rules neg_inf self (map (map log_softmax) s3)) n)
    with (s := s3) as [s' [Hrun [Hm _]]].
  - apply only_masked_refl.
  - apply only_masked_trans.
  - trivial.
  - trivial.
  - intros k s0 Hk _. destruct (detect_step s3 s0 k Hrect ltac:(lia)) as [s' [H1 H2]].
    exists s'. split; [exact H1|]. split; [exact H2 | exact I].
  - exact I.
  - exists s'. split; assumption.
Qed.

(** *** The scores of timestamp tokens *)

(** One iteration of the first loop changes the score of a timestamp token
    only on head 0 of its own sequence, and only by the pairing rule. *)
Lemma pairing_step_timestamps (k : nat) (row : list Z)
    (s s' : list (list (list F))) :
  (k < B)%nat -> rectangular B H V s ->
  pairing_rules neg_inf self k row s = inr s' ->
  forall (d : F) (k' h j : nat), (k' < B)%nat -> (h < H)%nat ->
    ts_timestamp_begin self <= Z.of_nat j < Z.of_nat V ->
    entry d s' k' h j
    = if Nat.eqb k' k && Nat.eqb h 0 && last_was_timestamp self row
         && (penultimate_was_timestamp self row
             || (Z.of_nat j <? text_stop self (Z.of_nat V)))
      then neg_inf else entry d s k' h j.
Proof.
  intros Hk Hrect Hrun d k' h j Hk' Hh Hj.
  destruct (rectangular_sizes B H V s Hrect HB ltac:(lia)) as [HlB [HlH HlV]].
  destruct timestamp_begin_bound as [Hnb Htbr].
  destruct (rectangular_nth B H V s k' h Hrect Hk' Hh) as [Q1 [Q2 Q3]].
  unfold pairing_rules in Hrun. rewrite HlB, HlH, HlV in Hrun.
  rewrite norm_index_nat in Hrun by lia.
  rewrite (norm_index_ok (Z.of_nat H) 0) in Hrun by lia.
  apply bind_inr_inv in Hrun. destruct Hrun as [s1 [H1 H2]].
  assert (E2 : entry d s' k' h j = entry d s1 k' h j).
  { destruct (last_item (timestamps_of self row)) as [t|].
    - apply bind_inr_inv in H2. destruct H2 as [? [_ H2]].
      match type of H2 with
      | (if ?c then _ else _) = _ => destruct c
      end; [discriminate|].
      injection H2 as <-. apply fill_where_unselected.
      rewrite Hnb.
      destruct (Z.ltb_spec (Z.of_nat j) (ts_timestamp_begin self)); [lia|].
      rewrite andb_false_r. reflexivity.
    - injection H2 as <-. reflexivity. }
  rewrite E2.
  destruct (last_was_timestamp self row);
    [destruct (penultimate_was_timestamp self row)|]; cbn [bind ret] in H1;
    injection H1 as <-.
  - rewrite fill_where_entry by lia. rewrite Hnb.
    destruct (Z.leb_spec (ts_timestamp_begin self) (Z.of_nat j)); [|lia].
    destruct (Nat.eqb k' k), (Nat.eqb h 0); reflexivity.
  - rewrite fill_where_entry by lia.
    destruct (Nat.eqb k' k), (Nat.eqb h 0),
      (Z.of_nat j <? text_stop self (Z.of_nat V)); reflexivity.
  - destruct (Nat.eqb k' k), (Nat.eqb h 0); reflexivity.
Qed.

Lemma pairing_loop_timestamps (input_ids : list (list Z))
    (s : list (list (list F))) :
  (length input_ids <= B)%nat -> rectangular B H V s ->
  forall (n : nat) (s' : list (list (list F))),
    (n <= length input_ids)%nat ->
    for_range n
      (fun k scores => pairing_rules neg_inf self k (nth k input_ids []) scores) s
    = inr s' ->
    forall (d : F) (k h j : nat), (k < B)%nat -> (h < H)%nat ->
      ts_timestamp_begin self <= Z.of_nat j < Z.of_nat V ->
      entry d s' k h j
      = if Nat.ltb k n && Nat.eqb h 0
           && last_was_timestamp self (nth k input_ids [])
           && (penultimate_was_timestamp self (nth k input_ids [])
               || (Z.of_nat j <? text_stop self (Z.of_nat V)))
        then neg_inf else entry d s k h j.
Proof.
  intros Hids Hrect. induction n as [|n IH]; intros s' Hn Hrun d k h j Hk Hh Hj.
  - injection Hrun as <-. reflexivity.
  - rewrite for_range_S in Hrun. apply bind_inr_inv in Hrun.
    destruct Hrun as [s1 [H1 H2]].
    assert (Hm1 : only_masked neg_inf s s1).
    { revert H1. apply (for_range_rel (only_masked neg_inf)).
      - apply only_masked_refl.
      - apply only_masked_trans.
      - intros i s0 s0'. apply pairing_only_masked. }
    pose proof (only_masked_rectangular neg_inf B H V s s1 Hm1 Hrect) as Hrect1.
    rewrite (pairing_step_timestamps n (nth n input_ids []) s1 s'
               ltac:(lia) Hrect1 H2 d k h j Hk Hh Hj).
    rewrite (IH s1 ltac:(lia) H1 d k h j Hk Hh Hj).
    destruct (Nat.eqb_spec k n) as [->|Hne].
    + destruct (Nat.ltb_spec n n); [lia|].
      destruct (Nat.ltb_spec n (S n)); [|lia]. cbn [andb].
      destruct (Nat.eqb h 0 && last_was_timestamp self (nth n input_ids [])
                && (penultimate_was_timestamp self (nth n input_ids [])
                    || (Z.of_nat j <? text_stop self (Z.of_nat V))));
        reflexivity.
    + cbn [andb].
      destruct (Nat.ltb_spec k n); destruct (Nat.ltb_spec k (S n)); try lia;
        reflexivity.
Qed.

(** The second loop never changes the score of a timestamp token. *)
Lemma detect_rules_timestamps (logprobs : list (list (list F))) (k : nat)
    (s s' : list (list (list F))) :
  vocab_of s = Z.of_nat V ->
  detect_rules neg_inf self logprobs k s = inr s' ->
  forall (d : F) (k' h j : nat), ts_timestamp_begin self <= Z.of_nat j ->
    entry d s' k' h j = entry d s k' h j.
Proof.
  intros HV Hrun. unfold detect_rules in Hrun.
  destruct timestamp_begin_bound as [Hnb Htbr].
  apply bind_inr_inv in Hrun. destruct Hrun as [? [_ Hrun]].
  apply bind_inr_inv in Hrun. destruct Hrun as [ml [_ Hrun]].
  apply bind_inr_inv in Hrun. destruct Hrun as [[s2 prev] [Hloop Hrun]].
  injection Hrun as <-.
  set (R := fun st st' : list (list (list F)) * bool =>
              vocab_of (fst st) = Z.of_nat V ->
              vocab_of (fst st') = Z.of_nat V
              /\ forall (d : F) (k' h j : nat),
                   ts_timestamp_begin self <= Z.of_nat j ->
                   entry d (fst st') k' h j = entry d (fst st) k' h j).
  assert (HR : R (s, false) (s2, prev)).
  { revert Hloop. apply (for_range_rel R).
    - intros st Hv. split; [exact Hv | reflexivity].
    - intros s1 s3 s4 H12 H23 Hv. destruct (H12 Hv) as [Hv2 E12].
      destruct (H23 Hv2) as [Hv3 E23]. split; [exact Hv3|].
      intros d k' h j Hj. rewrite E23, E12 by exact Hj. reflexivity.
    - intros i [s0 p0] st' Hstep Hv. cbn [fst] in Hv.
      pose proof (detect_head_only_masked neg_inf self k _ _ i _ _ Hstep) as Hm.
      cbn [fst] in Hm.
      split; [rewrite (only_masked_vocab_of neg_inf _ _ Hm); exact Hv|].
      intros d k' h j Hj. unfold detect_head in Hstep.
      match type of Hstep with
      | (if ?c then _ else _) = _ => destruct c
      end; injection Hstep as <-; cbn [fst]; [|reflexivity].
      apply fill_where_unselected. rewrite Hv, Hnb.
      destruct (Z.ltb_spec (Z.of_nat j) (ts_timestamp_begin self)); [lia|].
      rewrite andb_false_r. reflexivity. }
  intros d k' h j Hj. apply (HR HV). exact Hj.
Qed.

Lemma detect_loop_timestamps (logprobs : list (list (list F))) (n : nat)
    (s s' : list (list (list F))) :
  vocab_of s = Z.of_nat V ->
  for_range n (detect_rules neg_inf self logprobs) s = inr s' ->
  forall (d : F) (k' h j : nat), ts_timestamp_begin self <= Z.of_nat j ->
    entry d s' k' h j = entry d s k' h j.
Proof.
  intros HV Hrun.
  set (R := fun s0 s0' : list (list (list F)) =>
              vocab_of s0 = Z.of_nat V ->
              vocab_of s0' = Z.of_nat V
              /\ forall (d : F) (k' h j : nat),
                   ts_timestamp_begin self <= Z.of_nat j ->
                   entry d s0' k' h j = entry d s0 k' h j).
  assert (HR : R s s').
  { revert Hrun. apply (for_range_rel R).
    - intros st Hv. split; [exact Hv | reflexivity].
    - intros s1 s3 s4 H12 H23 Hv. destruct (H12 Hv) as [Hv2 E12].
      destruct (H23 Hv2) as [Hv3 E23]. split; [exact Hv3|].
      intros d k' h j Hj. rewrite E23, E12 by exact Hj. reflexivity.
    - intros i s0 s0' Hstep Hv.
      pose proof (detect_rules_only_masked neg_inf self _ i _ _ Hstep) as Hm.
      split; [rewrite (only_masked_vocab_of neg_inf _ _ Hm); exact Hv|].
      apply (detect_rules_timestamps logprobs i s0 s0' Hv Hstep). }
  intros d k' h j Hj. apply (HR HV). exact Hj.
Qed.

(** *** The second loop masks heads in pairs *)

Lemma for_range_split {S : Type} (body : nat -> S -> result S) (a : nat) :
  forall (b : nat) (s : S),
    for_range (a + b) body s
    = (s1 <- for_range a body s ;; for_range b (fun i => body (a + i)%nat) s1).
Proof.
  induction b as [|b IH]; intros s.
  - rewrite Nat.add_0_r. cbn [for_range]. destruct (for_range a body s); reflexivity.
  - rewrite Nat.add_succ_r, for_range_S, IH.
    destruct (for_range a body s) as [e|s1]; cbn [bind]; [reflexivity|].
    rewrite for_range_S. reflexivity.
Qed.

Lemma detect_first_heads (k n : nat) (tl ml : list F)
    (s s' : list (list (list F))) (prev : bool) :
  rectangular B H V s -> (k < B)%nat ->
  ts_detect_timestamp_from_logprob self = true ->
  tlt (nth 0 ml fzero) (nth 0 tl fzero) = true ->
  for_range (2 + n) (detect_head neg_inf self k tl ml) (s, false) = inr (s', prev) ->
  forall (d : F) (j : nat), Z.of_nat j < ts_timestamp_begin self ->
    entry d s' k 0 j = neg_inf /\ entry d s' k 1 j = neg_inf.
Proof.
  intros Hrect Hk Hdet Hfire Hrun d j Hj.
  destruct (rectangular_sizes B H V s Hrect HB ltac:(lia)) as [HlB [HlH HlV]].
  destruct timestamp_begin_bound as [Hnb Htbr].
  rewrite for_range_split in Hrun.
  apply bind_inr_inv in Hrun. destruct Hrun as [[s2 p2] [H2 Hrest]].
  assert (Hm : only_masked neg_inf s2 s').
  { change s2 with (fst (s2, p2)). change s' with (fst (s', prev)).
    revert Hrest.
    apply (for_range_rel (fun st st' => only_masked neg_inf (fst st) (fst st'))).
    - intros st. apply only_masked_refl.
    - intros s1 s3 s4. apply only_masked_trans.
    - intros i st st'. apply detect_head_only_masked. }
  set (tb := ts_timestamp_begin self) in *.
  set (s0 := fill_where neg_inf
               (fun k' h j => Nat.eqb k' k && Nat.eqb h 0
                              && (Z.of_nat j <? norm_bound (vocab_of s) tb)) s).
  set (s1 := fill_where neg_inf
               (fun k' h j => Nat.eqb k' k && Nat.eqb h 1
                              && (Z.of_nat j <? norm_bound (vocab_of s0) tb)) s0).
  assert (E0 : detect_head neg_inf self k tl ml 0 (s, false) = inr (s0, true)).
  { unfold detect_head. rewrite Hfire, Hdet. reflexivity. }
  assert (E1 : detect_head neg_inf self k tl ml 1 (s0, true) = inr (s1, false)).
  { unfold detect_head. rewrite Hdet, orb_true_r. reflexivity. }
  change (for_range 2 (detect_head neg_inf self k tl ml) (s, false))
    with (st1 <- (st0 <- ret (s, false) ;; detect_head neg_inf self k tl ml 0 st0) ;;
          detect_head neg_inf self k tl ml 1 st1) in H2.
  cbn [bind ret] in H2. rewrite E0 in H2. cbn [bind] in H2. rewrite E1 in H2.
  injection H2 as <- _.
  assert (Hm0 : only_masked neg_inf s s0) by apply fill_where_only_masked.
  assert (Hm01 : only_masked neg_inf s0 s1) by apply fill_where_only_masked.
  pose proof (only_masked_rectangular neg_inf B H V s s0 Hm0 Hrect) as Hrect0.
  assert (Hj' : (j < V)%nat) by lia.
  split.
  - apply (only_masked_keeps neg_inf d s1 s' _ _ _ Hm).
    apply (only_masked_keeps neg_inf d s0 s1 _ _ _ Hm01).
    destruct (rectangular_nth B H V s k 0 Hrect Hk ltac:(lia)) as [Q1 [Q2 Q3]].
    subst s0. rewrite fill_where_entry by lia.
    rewrite !Nat.eqb_refl, HlV, Hnb. cbn [andb].
    destruct (Z.ltb_spec (Z.of_nat j) tb); [reflexivity|lia].
  - apply (only_masked_keeps neg_inf d s1 s' _ _ _ Hm).
    destruct (rectangular_nth B H V s0 k 1 Hrect0 Hk ltac:(lia)) as [Q1 [Q2 Q3]].
    subst s1. rewrite fill_where_entry by lia.
    rewrite !Nat.eqb_refl, (only_masked_vocab_of neg_inf s s0 Hm0), HlV, Hnb.
    cbn [andb].
    destruct (Z.ltb_spec (Z.of_nat j) tb); [reflexivity|lia].
Qed.

End Rules.

End TimestampFacts.

Module TimestampTheorems.

Import Torch BuilderFacts TensorFacts DecoderFacts SuppressFacts StepFacts.
Import TimestampFacts.

(** X16: the timestamp processor only masks.  Whatever the processor, the
    sequences and the scores, a call that returns gives a tensor of the
    shape of its argument in which every entry is the entry of the argument
    or minus infinity. *)
Theorem timestamp_call_only_masks {F : Type} {ops : FloatOps F} (neg_inf : F)
    (self : timestamp_processor) (input_ids : list (list Z))
    (scores scores' : list (list (list F))) :
  timestamp_call neg_inf self input_ids scores = inr scores' ->
  length scores' = length scores
  /\ (forall k : nat, length (nth k scores' []) = length (nth k scores []))
  /\ (forall k h : nat,
        length (nth h (nth k scores' []) []) = length (nth h (nth k scores []) []))
  /\ forall (d : F) (k h j : nat),
       entry d scores' k h j = entry d scores k h j
       \/ entry d scores' k h j = neg_inf.
Proof.
  intros Hrun.
  exact (timestamp_call_only_masked neg_inf self input_ids scores scores' Hrun).
Qed.

(** One sequence that ends in a timestamp pair, two heads, a vocabulary of
    four tokens of which 2 is [<|notimestamps|>] and 3 the only timestamp;
    scores are integers and the detection from log-probabilities is off. *)
Lemma timestamp_call_only_masks_witness :
  let ops : FloatOps Z :=
    {| float_ord := Z_Ord; fzero := 0; fone := 1; feps := 0;
       fadd := Z.add; fmul := Z.mul; fdiv := Z.div; fneg := Z.opp;
       fexp := fun x => x; flog := fun x => x; feqb := Z.eqb |} in
  let self :=
    {| ts_no_timestamps_token_id := 2; ts_timestamp_begin := 3;
       ts_eos_token_id := Some 1; ts_detect_timestamp_from_logprob := false;
       ts_begin_index := 1; ts_max_initial_timestamp_index := None |} in
  let scores := [[[5; 6; 7; 8]; [1; 2; 3; 4]]] in
  let scores' := [[[-1000; 6; -1000; -1000]; [-1000; 2; -1000; 4]]] in
  length scores' = length scores
  /\ (forall k : nat, length (nth k scores' []) = length (nth k scores []))
  /\ (forall k h : nat,
        length (nth h (nth k scores' []) []) = length (nth h (nth k scores []) []))
  /\ forall (d : Z) (k h j : nat),
       entry d scores' k h j = entry d scores k h j
       \/ entry d scores' k h j = -1000.
Proof.
  intros ops self scores scores'.
  exact (timestamp_call_only_masks (ops := ops) (-1000) self [[0; 3; 3]]
           scores scores' eq_refl).
Defined.

(** X17: what the timestamp processor always suppresses.  On a [B x H x V]
    tensor with at least two heads, at most [B] sequences and a
    [<|notimestamps|>] token inside the vocabulary, the call returns; in the
    result the [<|notimestamps|>] token is minus infinity everywhere; for
    every sequence the pairing rules hold on head 0 (no timestamp after two
    sampled timestamps or after a timestamp sampled first, no token below
    the eos token after a text token followed by a timestamp) and, when the
    sampled tokens hold a timestamp, token 0 is minus infinity on every
    head; and at the first generated position head 0 offers no text token
    and head 1 no timestamp. *)
Theorem timestamp_call_suppresses {F : Type} {ops : FloatOps F} (neg_inf : F)
    (self : timestamp_processor) (B H V : nat) (input_ids : list (list Z))
    (scores : list (list (list F))) :
  (0 < B)%nat -> (2 <= H)%nat -> rectangular B H V scores ->
  (length input_ids <= B)%nat ->
  0 <= ts_no_timestamps_token_id self < Z.of_nat V ->
  ts_timestamp_begin self = ts_no_timestamps_token_id self + 1 ->
  exists scores' : list (list (list F)),
    timestamp_call neg_inf self input_ids scores = inr scores'
    /\ rectangular B H V scores'
    /\ (forall (d : F) (k h : nat), (k < B)%nat -> (h < H)%nat ->
          entry d scores' k h (Z.to_nat (ts_no_timestamps_token_id self))
          = neg_inf)
    /\ (forall k : nat, (k < length input_ids)%nat ->
          paired neg_inf self H V k (nth k input_ids []) scores')
    /\ (len (hd [] input_ids) = ts_begin_index self ->
        forall (d : F) (k j : nat), (k < B)%nat -> (j < V)%nat ->
          (Z.of_nat j < ts_timestamp_begin self ->
           entry d scores' k 0 j = neg_inf)
          /\ (ts_timestamp_begin self <= Z.of_nat j ->
              entry d scores' k 1 j = neg_inf)).
Proof.
  intros HB HH Hrect Hids Hnts Htb.
  destruct (rectangular_sizes B H V scores Hrect HB ltac:(lia)) as [HlB [HlH HlV]].
  unfold timestamp_call. rewrite HlV.
  rewrite norm_index_ok by exact Hnts. cbn [bind].
  set (nts := Z.to_nat (ts_no_timestamps_token_id self)).
  set (s1 := fill_where neg_inf (fun _ _ j : nat => Nat.eqb j nts) scores).
  assert (Hm1 : only_masked neg_inf scores s1) by apply fill_where_only_masked.
  pose proof (only_masked_rectangular neg_inf B H V _ _ Hm1 Hrect) as Hrect1.
  destruct (pairing_loop neg_inf self B H V HB HH Hnts Htb input_ids s1 Hids Hrect1)
    as [s2 [Hrun2 [Hm2 Hpaired]]].
  rewrite Hrun2. cbn [bind].
  pose proof (only_masked_rectangular neg_inf B H V _ _ Hm2 Hrect1) as Hrect2.
  destruct (initial_step neg_inf self B H V HB HH Hnts Htb input_ids s2 Hrect2)
    as [s3 [Hrun3 [Hm3 [_ Hinit]]]].
  rewrite Hrun3. cbn [bind].
  pose proof (only_masked_rectangular neg_inf B H V _ _ Hm3 Hrect2) as Hrect3.
  destruct (detect_loop neg_inf self B H V HB HH Hnts Htb (length input_ids) s3
              Hrect3 Hids) as [s4 [Hrun4 Hm4]].
  rewrite Hrun4. exists s4. split; [reflexivity|].
  split; [apply (only_masked_rectangular neg_inf B H V _ _ Hm4 Hrect3)|].
  split.
  { intros d k h Hk Hh.
    apply (only_masked_keeps neg_inf d s3 s4 _ _ _ Hm4).
    apply (only_masked_keeps neg_inf d s2 s3 _ _ _ Hm3).
    apply (only_masked_keeps neg_inf d s1 s2 _ _ _ Hm2).
    destruct (rectangular_nth B H V scores k h Hrect Hk Hh) as [Q1 [Q2 Q3]].
    subst s1. rewrite fill_where_entry by (subst nts; lia).
    rewrite Nat.eqb_refl. reflexivity. }
  split.
  { intros k Hk. apply (paired_keeps neg_inf self H V k _ s3 s4); [|exact Hm4].
    apply (paired_keeps neg_inf self H V k _ s2 s3); [|exact Hm3].
    apply Hpaired. exact Hk. }
  intros Hfirst d k j Hk Hj.
  destruct (Hinit Hfirst d k j Hk Hj) as [Htext Htime]. split.
  - intros Hlt. apply (only_masked_keeps neg_inf d s3 s4 _ _ _ Hm4).
    apply Htext. exact Hlt.
  - intros Hge. apply (only_masked_keeps neg_inf d s3 s4 _ _ _ Hm4).
    apply Htime. exact Hge.
Qed.

Lemma timestamp_call_suppresses_witness :
  let self :=
    {| ts_no_timestamps_token_id := 2; ts_timestamp_begin := 3;
       ts_eos_token_id := Some 1; ts_detect_timestamp_from_logprob := true;
       ts_begin_index := 1; ts_max_initial_timestamp_index := Some 1 |} in
  let scores := [[[5; 6; 7; 8]; [1; 2; 3; 4]]]%R in
  exists scores' : list (list (list R)),
    timestamp_call (-1000)%R self [[0; 3; 3]] scores = inr scores'
    /\ rectangular 1 2 4 scores'
    /\ (forall (d : R) (k h : nat), (k < 1)%nat -> (h < 2)%nat ->
          entry d scores' k h (Z.to_nat 2) = (-1000)%R)
    /\ (forall k : nat, (k < 1)%nat ->
          paired (-1000)%R self 2 4 k (nth k [[0; 3; 3]] []) scores')
    /\ (len (hd [] [[0; 3; 3]]) = 1 ->
        forall (d : R) (k j : nat), (k < 1)%nat -> (j < 4)%nat ->
          (Z.of_nat j < 3 -> entry d scores' k 0 j = (-1000)%R)
          /\ (3 <= Z.of_nat j -> entry d scores' k 1 j = (-1000)%R)).
Proof.
  intros self scores.
  assert (Hrect : rectangular 1 2 4 scores)
    by (split; [reflexivity | repeat constructor]).
  exact (timestamp_call_suppresses (-1000)%R self 1 2 4 [[0; 3; 3]] scores
           ltac:(lia) ltac:(lia) Hrect ltac:(cbn; lia) ltac:(cbn; lia) eq_refl).
Defined.

(** X18: the scores of timestamp tokens.  Under the conditions of X17, with
    one sequence per batch entry and away from the first generated
    position, the score of a timestamp token is changed in one case only:
    on head 0, when the last sampled token was a timestamp, and either the
    one before was a timestamp too (or is missing) or the token lies below
    the eos token.  On every other head, and in every other case, the
    scores of all timestamp tokens come back as they went in. *)
Theorem timestamp_scores_after_call {F : Type} {ops : FloatOps F} (neg_inf : F)
    (self : timestamp_processor) (B H V : nat) (input_ids : list (list Z))
    (scores scores' : list (list (list F))) :
  (0 < B)%nat -> (2 <= H)%nat -> rectangular B H V scores ->
  length input_ids = B ->
  0 <= ts_no_timestamps_token_id self < Z.of_nat V ->
  ts_timestamp_begin self = ts_no_timestamps_token_id self + 1 ->
  len (hd [] input_ids) <> ts_begin_index self ->
  timestamp_call neg_inf self input_ids scores = inr scores' ->
  forall (d : F) (k h j : nat), (k < B)%nat -> (h < H)%nat ->
    ts_timestamp_begin self <= Z.of_nat j < Z.of_nat V ->
    entry d scores' k h j
    = if Nat.eqb h 0 && last_was_timestamp self (nth k input_ids [])
         && (penultimate_was_timestamp self (nth k input_ids [])
             || (Z.of_nat j <? text_stop self (Z.of_nat V)))
      then neg_inf else entry d scores k h j.
Proof.
  intros HB HH Hrect Hids Hnts Htb Hfirst Hrun d k h j Hk Hh Hj.
  destruct (rectangular_sizes B H V scores Hrect HB ltac:(lia)) as [HlB [HlH HlV]].
  unfold timestamp_call in Hrun. rewrite HlV in Hrun.
  rewrite norm_index_ok in Hrun by exact Hnts. cbn [bind] in Hrun.
  set (nts := Z.to_nat (ts_no_timestamps_token_id self)) in *.
  set (s1 := fill_where neg_inf (fun _ _ j : nat => Nat.eqb j nts) scores) in *.
  assert (Hm1 : only_masked neg_inf scores s1) by apply fill_where_only_masked.
  pose proof (only_masked_rectangular neg_inf B H V _ _ Hm1 Hrect) as Hrect1.
  apply bind_inr_inv in Hrun. destruct Hrun as [s2 [Hrun2 Hrun]].
  apply bind_inr_inv in Hrun. destruct Hrun as [s3 [Hrun3 Hrun4]].
  assert (Hm2 : only_masked neg_inf s1 s2).
  { revert Hrun2. apply (for_range_rel (only_masked neg_inf)).
    - apply only_masked_refl.
    - apply only_masked_trans.
    - intros i s0 s0'. apply pairing_only_masked. }
  pose proof (only_masked_rectangular neg_inf B H V _ _ Hm2 Hrect1) as Hrect2.
  destruct (initial_step neg_inf self B H V HB HH Hnts Htb input_ids s2 Hrect2)
    as [s3' [Hrun3' [_ [Hsame _]]]].
  rewrite Hrun3 in Hrun3'. injection Hrun3' as <-.
  rewrite (Hsame Hfirst) in *.
  destruct (rectangular_sizes B H V s2 Hrect2 HB ltac:(lia)) as [_ [_ HlV2]].
  rewrite (detect_loop_timestamps neg_inf self B H V HB HH Hnts Htb _ _ s2 scores'
             HlV2 Hrun4) by lia.
  rewrite (pairing_loop_timestamps neg_inf self B H V HB HH Hnts Htb input_ids s1
             ltac:(lia) Hrect1 (length input_ids) s2 (le_n _) Hrun2 d k h j Hk Hh Hj).
  destruct (Nat.ltb_spec k (length input_ids)); [|lia]. cbn [andb].
  assert (E1 : entry d s1 k h j = entry d scores k h j).
  { subst s1. apply fill_where_unselected.
    destruct (Nat.eqb_spec j nts); [subst nts; lia | reflexivity]. }
  rewrite E1. reflexivity.
Qed.

(** The sequence of the witness of X16, whose sampled tokens end in two
    timestamps: the timestamp of head 0 is masked, that of head 1 is
    kept. *)
Lemma timestamp_scores_after_call_witness :
  let ops : FloatOps Z :=
    {| float_ord := Z_Ord; fzero := 0; fone := 1; feps := 0;
       fadd := Z.add; fmul := Z.mul; fdiv := Z.div; fneg := Z.opp;
       fexp := fun x => x; flog := fun x => x; feqb := Z.eqb |} in
  let self :=
    {| ts_no_timestamps_token_id := 2; ts_timestamp_begin := 3;
       ts_eos_token_id := Some 1; ts_detect_timestamp_from_logprob := false;
       ts_begin_index := 1; ts_max_initial_timestamp_index := None |} in
  let scores := [[[5; 6; 7; 8]; [1; 2; 3; 4]]] in
  let scores' := [[[-1000; 6; -1000; -1000]; [-1000; 2; -1000; 4]]] in
  timestamp_call (-1000) self [[0; 3; 3]] scores = inr scores'
  /\ forall (d : Z) (k h j : nat), (k < 1)%nat -> (h < 2)%nat ->
       3 <= Z.of_nat j < 4 ->
       entry d scores' k h j
       = if Nat.eqb h 0 && last_was_timestamp self (nth k [[0; 3; 3]] [])
            && (penultimate_was_timestamp self (nth k [[0; 3; 3]] [])
                || (Z.of_nat j <? text_stop self 4))
         then -1000 else entry d scores k h j.
Proof.
  intros ops self scores scores'. split; [reflexivity|].
  assert (Hrect : rectangular 1 2 4 scores)
    by (split; [reflexivity | repeat constructor]).
  exact (timestamp_scores_after_call (ops := ops) (-1000) self 1 2 4 [[0; 3; 3]]
           scores scores' ltac:(lia) ltac:(lia) Hrect eq_refl
           ltac:(cbn; lia) eq_refl ltac:(unfold len; cbn; lia) eq_refl).
Defined.

(** X19: what the constructor fixes.  The processor starts with
    [timestamp_begin = no_timestamps_token_id + 1]; its [begin_index] is
    never 0: an argument of 0 or [None] gives the number of forced decoder
    ids plus one, any other argument is kept; and an eos token id of 0 or
    [None] is replaced by the bos token id. *)
Theorem timestamp_processor_init_defaults (generate_config : generate_config)
    (begin_index : option Z) (detect : option bool) :
  let self := timestamp_processor_init generate_config begin_index detect in
  let num_forced_ids :=
    match cfg_forced_decoder_ids generate_config with
    | Some ids => len ids
    | None => 0
    end in
  ts_timestamp_begin self = ts_no_timestamps_token_id self + 1
  /\ ts_begin_index self <> 0
  /\ (begin_index = None \/ begin_index = Some 0 ->
      ts_begin_index self = num_forced_ids + 1)
  /\ (forall i : Z, begin_index = Some i -> i <> 0 -> ts_begin_index self = i)
  /\ (cfg_eos_token_id generate_config = None
      \/ cfg_eos_token_id generate_config = Some 0 ->
      ts_eos_token_id self = cfg_bos_token_id generate_config)
  /\ (forall e : Z, cfg_eos_token_id generate_config = Some e -> e <> 0 ->
      ts_eos_token_id self = Some e).
Proof.
  cbv zeta. unfold timestamp_processor_init.
  cbn [ts_timestamp_begin ts_no_timestamps_token_id ts_begin_index ts_eos_token_id].
  assert (Hn : 0 <= match cfg_forced_decoder_ids generate_config with
                    | Some ids => len ids
                    | None => 0
                    end).
  { destruct (cfg_forced_decoder_ids generate_config); unfold len; lia. }
  split; [reflexivity|]. split.
  { destruct begin_index as [i|]; [destruct (Z.eqb_spec i 0)|]; lia. }
  split.
  { intros [->| ->]; reflexivity. }
  split.
  { intros i -> Hi. destruct (Z.eqb_spec i 0); [contradiction | reflexivity]. }
  split.
  { intros [->| ->]; reflexivity. }
  intros e -> He. unfold py_or. destruct (Z.eqb_spec e 0); [contradiction|].
  reflexivity.
Qed.

(** X20: the detection from log-probabilities masks heads in pairs.  In the
    second loop, for a sequence [k] of a [B x H x V] tensor with the
    detection on: when on head 0 the log-probability mass of the timestamps
    exceeds the largest log-probability of a text token, the text tokens of
    head 0 and also those of head 1 are minus infinity afterwards, whatever
    the log-probabilities of head 1. *)
Theorem detect_rules_mask_heads_in_pairs {F : Type} {ops : FloatOps F}
    (neg_inf : F) (self : timestamp_processor) (B H V : nat)
    (logprobs scores scores' : list (list (list F))) (k : nat) (m0 : F) :
  (0 < B)%nat -> (2 <= H)%nat ->
  rectangular B H V scores -> rectangular B H V logprobs -> (k < B)%nat ->
  0 <= ts_no_timestamps_token_id self < Z.of_nat V ->
  ts_timestamp_begin self = ts_no_timestamps_token_id self + 1 ->
  ts_detect_timestamp_from_logprob self = true ->
  let v0 := nth 0 (nth k logprobs []) [] in
  max_values (py_slice v0 0 (ts_timestamp_begin self)) = inr m0 ->
  tlt m0 (logsumexp (py_slice v0 (ts_timestamp_begin self) (len v0))) = true ->
  detect_rules neg_inf self logprobs k scores = inr scores' ->
  forall (d : F) (j : nat), Z.of_nat j < ts_timestamp_begin self ->
    entry d scores' k 0 j = neg_inf /\ entry d scores' k 1 j = neg_inf.
Proof.
  intros HB HH Hrect Hlp Hk Hnts Htb Hdet v0 Hmax Hfire Hrun.
  destruct (rectangular_nth B H V logprobs k 0 Hlp Hk ltac:(lia)) as [Q1 [Q2 Q3]].
  unfold detect_rules in Hrun.
  apply bind_inr_inv in Hrun. destruct Hrun as [? [_ Hrun]].
  apply bind_inr_inv in Hrun. destruct Hrun as [ml [Hml Hrun]].
  apply bind_inr_inv in Hrun. destruct Hrun as [[s2 prev] [Hloop Hrun]].
  injection Hrun as <-.
  destruct (map_result_inr_inv _ _ _ Hml) as [_ Hnth].
  specialize (Hnth 0%nat [] fzero ltac:(lia)). fold v0 in Hnth.
  rewrite Hmax in Hnth. injection Hnth as Hm0.
  rewrite length_map, Q2 in Hloop.
  replace H with (2 + (H - 2))%nat in Hloop by lia.
  set (tl := map (fun v => logsumexp (py_slice v (ts_timestamp_begin self) (len v)))
                 (nth k logprobs [])) in *.
  apply (detect_first_heads neg_inf self B H V HB HH Hnts Htb k (H - 2) tl ml
           scores s2 prev Hrect Hk Hdet); [|exact Hloop].
  rewrite <- Hm0. subst tl.
  rewrite (nth_map_in (fun v => logsumexp (py_slice v (ts_timestamp_begin self) (len v)))
             _ 0 [] fzero) by lia.
  exact Hfire.
Qed.

(** Two heads over four tokens, integers standing for log-probabilities:
    on head 0 the timestamp (entry 3) beats every text token, on head 1 it
    does not; the text tokens of both heads are masked. *)
Lemma detect_rules_mask_heads_in_pairs_witness :
  let ops : FloatOps Z :=
    {| float_ord := Z_Ord; fzero := 0; fone := 1; feps := 0;
       fadd := Z.add; fmul := Z.mul; fdiv := Z.div; fneg := Z.opp;
       fexp := fun x => x; flog := fun x => x; feqb := Z.eqb |} in
  let self :=
    {| ts_no_timestamps_token_id := 2; ts_timestamp_begin := 3;
       ts_eos_token_id := Some 1; ts_detect_timestamp_from_logprob := true;
       ts_begin_index := 1; ts_max_initial_timestamp_index := None |} in
  detect_rules (-1000) self [[[1; 2; 3; 9]; [5; 6; 7; 0]]] 0
    [[[1; 2; 3; 9]; [5; 6; 7; 0]]]
  = inr [[[-1000; -1000; -1000; 9]; [-1000; -1000; -1000; 0]]]
  /\ forall (d : Z) (j : nat), Z.of_nat j < 3 ->
       entry d [[[-1000; -1000; -1000; 9]; [-1000; -1000; -1000; 0]]] 0 0 j = -1000
       /\ entry d [[[-1000; -1000; -1000; 9]; [-1000; -1000; -1000; 0]]] 0 1 j
          = -1000.
Proof.
  intros ops self. split; [reflexivity|].
  assert (H1 : rectangular 1 2 4 [[[1; 2; 3; 9]; [5; 6; 7; 0]]])
    by (split; [reflexivity | repeat constructor]).
  exact (detect_rules_mask_heads_in_pairs (ops := ops) (-1000) self 1 2 4
           [[[1; 2; 3; 9]; [5; 6; 7; 0]]] [[[1; 2; 3; 9]; [5; 6; 7; 0]]]
           [[[-1000; -1000; -1000; 9]; [-1000; -1000; -1000; 0]]] 0 3
           ltac:(lia) ltac:(lia) H1 H1 ltac:(lia) ltac:(cbn; lia) eq_refl eq_refl
           eq_refl eq_refl eq_refl).
Defined.

End TimestampTheorems.

(** ** A whole decoding step *)

Module PipelineFacts.

Import Torch Topology TopologyFacts BuilderFacts TreeFacts BuilderErrors.
Import Acceptance TensorFacts SelectionFacts EvaluatorFacts CandidateFacts.
Import UpdaterFacts TreePlumbing StepFacts DecoderFacts GeneratorFacts.

(** The updater on a path and an accept length inside the tables. *)
Lemma update_after_choice {F : Type} {ord : Ord F} (P D V : nat)
    (logits : list (list (list F))) (candidates retrieve_indices : list (list Z))
    (row : list Z) (new_token : Z) (pad_token_id : option Z)
    (unfinished_sequences : list Z) (best al : nat) :
  shaped P D V logits candidates -> length retrieve_indices = P ->
  (best < P)%nat -> (al <= D)%nat ->
  update_inference_inputs [row] candidates (Z.of_nat best) (Z.of_nat al)
    retrieve_indices logits new_token None pad_token_id unfinished_sequences
    false
  = inr {| upd_input_ids := [row ++ firstn (S al) (nth best candidates [])];
           upd_logits := [[nth al (nth best logits []) []]];
           upd_new_token := new_token + Z.of_nat (S al);
           upd_next_tokens := [firstn (S al) (nth best candidates [])] |}.
Proof.
  intros Hshape Hret Hb Hal.
  pose proof (shaped_row P D V logits candidates Hshape best Hb) as Hrow.
  pose proof (shaped_path P D V logits candidates Hshape best Hb) as Hpath.
  destruct Hshape as [Hl [Hc _]].
  unfold update_inference_inputs.
  rewrite !norm_index_nat by (unfold len; lia). cbn [bind ret].
  rewrite (py_slice_single [] _ al) by lia.
  replace (Z.of_nat al + 1) with (Z.of_nat (S al)) by lia.
  rewrite !py_slice_prefix by lia. reflexivity.
Qed.

(** The verification pass with the builder's buffers, in explicit form. *)
Lemma tree_decoding_run {F K O : Type}
    (model : K -> list (list Z) -> list Z -> O)
    (output_logits : O -> list (list (list (list F))))
    (b : list Z) (bufs : medusa_buffers) (tree_candidates : list (list Z))
    (past_key_values : K) (input_ids : list (list Z))
    (nodes : list (list F)) (batch_rest : list (list (list F)))
    (heads_rest : list (list (list (list F)))) :
  let outputs :=
    model past_key_values tree_candidates
      (map (fun d => d + len (hd [] input_ids)) (medusa_position_ids bufs)) in
  generate_medusa_buffers b = inr bufs ->
  output_logits outputs = (nodes :: batch_rest) :: heads_rest ->
  len nodes = sum (cumprod b) ->
  tree_decoding model output_logits tree_candidates past_key_values
    (medusa_position_ids bufs) input_ids (retrieve_indices bufs)
  = inr (map (map (fun i => nth (Z.to_nat i) nodes [])) (retrieve_indices bufs),
         outputs).
Proof.
  intros outputs Hrun Hout Hnodes.
  destruct (generate_medusa_buffers_built b bufs Hrun) as [Hne [Hb Hbuilt]].
  pose proof (retrieve_entries_are_nodes b bufs Hb Hbuilt) as Hentries.
  rewrite Forall_forall in Hentries.
  unfold tree_decoding. fold outputs. rewrite Hout. cbn [first_position bind ret].
  rewrite (map_result_ok (index_rows [] nodes)
             (map (fun i => nth (Z.to_nat i) nodes []))).
  - reflexivity.
  - intros row Hrow. apply index_rows_ok. rewrite Hnodes.
    apply Hentries. exact Hrow.
Qed.

(** Logits gathered along the paths of the builder are well shaped. *)
Lemma gathered_logits_shaped {F : Type} (b : list Z) (bufs : medusa_buffers)
    (V : nat) (nodes : list (list F)) (candidates : list (list Z)) :
  positive_spec b -> b <> [] -> built b bufs ->
  len nodes = sum (cumprod b) -> Forall (fun v => length v = V) nodes ->
  length candidates = Z.to_nat (prod b) ->
  Forall (fun row => length row = length b) candidates ->
  shaped (Z.to_nat (prod b)) (length b - 1) V
    (map (map (fun i => nth (Z.to_nat i) nodes [])) (retrieve_indices bufs))
    candidates.
Proof.
  intros Hb Hne Hbuilt Hnodes Hvec Hcl Hcr.
  assert (HL : (0 < length b)%nat) by (destruct b; [congruence | cbn; lia]).
  pose proof (retrieve_entries_are_nodes b bufs Hb Hbuilt) as Hentries.
  rewrite Forall_forall in Hentries.
  pose proof (built_retrieve_cols _ _ Hbuilt) as Hcols.
  rewrite Forall_forall in Hcols.
  split; [rewrite length_map; apply (built_retrieve_rows _ _ Hbuilt)|].
  split; [exact Hcl|]. split.
  - apply Forall_forall. intros path Hpath. apply in_map_iff in Hpath.
    destruct Hpath as [row [<- Hrow]]. split.
    + rewrite length_map, (Hcols row Hrow). lia.
    + apply Forall_forall. intros v Hv. apply in_map_iff in Hv.
      destruct Hv as [i [<- Hi]].
      specialize (Hentries row Hrow). rewrite Forall_forall in Hentries.
      specialize (Hentries i Hi).
      rewrite Forall_forall in Hvec. apply Hvec. apply nth_In.
      unfold len in Hnodes. lia.
  - eapply Forall_impl; [|exact Hcr]. intros row Hr. cbn beta in Hr. lia.
Qed.

End PipelineFacts.

Module PipelineTheorems.

Import Torch Topology TopologyFacts BuilderFacts TreeFacts BuilderErrors.
Import Acceptance TensorFacts SelectionFacts EvaluatorFacts CandidateFacts.
Import UpdaterFacts TreePlumbing StepFacts DecoderFacts GeneratorFacts.
Import PipelineFacts.

(** X21: one decoding step with typical acceptance.  Over an irreflexive
    and transitive order on probabilities, with a non-zero temperature, on
    well-shaped candidates of vocabulary tokens and well-shaped logits, the
    outcome of the evaluator is always accepted by the updater (no eos token
    configured, no bonus token): the step appends the first
    [accept_length + 1] tokens of the returned path, every appended token
    after the first has passed the typical-acceptance test at its position,
    and the token counter grows by the number of appended tokens. *)
Theorem typical_step_appends_accepted_tokens {F : Type} {ops : FloatOps F}
    (P D V : nat) (logits : list (list (list F))) (candidates : list (list Z))
    (retrieve_indices : list (list Z)) (row : list Z) (new_token : Z)
    (pad_token_id : option Z) (unfinished_sequences : list Z)
    (temperature posterior_threshold posterior_alpha : F) :
  (forall x : F, tlt x x = false) ->
  (forall x y z : F, tlt x y = true -> tlt y z = true -> tlt x z = true) ->
  feqb temperature fzero = false ->
  shaped P D V logits candidates -> tokens_in_vocab V candidates ->
  (0 < P)%nat -> length retrieve_indices = P ->
  exists (best al : nat) (u : inference_update F),
    evaluate_posterior logits candidates temperature posterior_threshold
      posterior_alpha = inr (Z.of_nat best, Z.of_nat al)
    /\ update_inference_inputs [row] candidates (Z.of_nat best) (Z.of_nat al)
         retrieve_indices logits new_token None pad_token_id
         unfinished_sequences false = inr u
    /\ (best < P)%nat /\ (al <= D)%nat
    /\ upd_input_ids u = [row ++ firstn (S al) (nth best candidates [])]
    /\ length (firstn (S al) (nth best candidates [])) = S al
    /\ (forall i : nat, (i < al)%nat ->
          typical_accepts logits candidates temperature posterior_threshold
            posterior_alpha best i = true)
    /\ upd_logits u = [[nth al (nth best logits []) []]]
    /\ upd_new_token u = new_token + Z.of_nat (S al).
Proof.
  intros Hirr Htrans HT Hshape Htok HP Hret.
  destruct (typical_run P D V logits candidates temperature posterior_threshold
              posterior_alpha Hshape Htok HP Hirr Htrans)
    as [best [al [Hrun [Hb [Hbal _]]]]].
  destruct (longest_true_prefix_accepted
              (typical_accepts logits candidates temperature posterior_threshold
                 posterior_alpha best) D) as [Hbound [Hacc _]].
  fold (accepted_length
          (typical_accepts logits candidates temperature posterior_threshold
             posterior_alpha best) D) in Hbound, Hacc.
  rewrite Hbal in Hbound, Hacc.
  pose proof (shaped_row P D V logits candidates Hshape best Hb) as Hrow.
  exists best, al. eexists.
  split; [unfold evaluate_posterior; rewrite HT; exact Hrun|].
  split; [apply (update_after_choice P D V); assumption|].
  cbn [upd_input_ids upd_logits upd_new_token].
  split; [exact Hb|]. split; [exact Hbound|]. split; [reflexivity|].
  split; [rewrite length_firstn; lia|].
  split; [exact Hacc|]. split; reflexivity.
Qed.

(** Two paths of depth 1 over a vocabulary of two tokens, at temperature
    1. *)
Lemma typical_step_appends_accepted_tokens_witness :
  exists (best al : nat) (u : inference_update R),
    evaluate_posterior (F := R)
      [[[0; 1]; [0; 0]]; [[1; 0]; [0; 0]]]%R [[0; 1]; [0; 0]]
      1%R (9 / 100)%R (3 / 10)%R = inr (Z.of_nat best, Z.of_nat al)
    /\ update_inference_inputs (F := R) [[7; 8]] [[0; 1]; [0; 0]]
         (Z.of_nat best) (Z.of_nat al) [[0; 1]; [0; 2]]
         [[[0; 1]; [0; 0]]; [[1; 0]; [0; 0]]]%R 3 None None [1] false = inr u
    /\ (best < 2)%nat /\ (al <= 1)%nat
    /\ upd_input_ids u = [[7; 8] ++ firstn (S al) (nth best [[0; 1]; [0; 0]] [])]
    /\ length (firstn (S al) (nth best [[0; 1]; [0; 0]] [])) = S al
    /\ (forall i : nat, (i < al)%nat ->
          typical_accepts (F := R) [[[0; 1]; [0; 0]]; [[1; 0]; [0; 0]]]%R
            [[0; 1]; [0; 0]] 1%R (9 / 100)%R (3 / 10)%R best i = true)
    /\ upd_logits u
       = [[nth al (nth best [[[0; 1]; [0; 0]]; [[1; 0]; [0; 0]]]%R []) []]]
    /\ upd_new_token u = 3 + Z.of_nat (S al).
Proof.
  assert (HT : feqb (F := R) 1%R fzero = false)
    by (apply Reqb_false; cbn; intros Heq; lra).
  assert (Hshape : shaped (F := R) 2 1 2 [[[0; 1]; [0; 0]]; [[1; 0]; [0; 0]]]%R
                     [[0; 1]; [0; 0]]).
  { split; [reflexivity|]. split; [reflexivity|].
    split; repeat constructor. }
  assert (Htok : tokens_in_vocab 2 [[0; 1]; [0; 0]])
    by (repeat constructor; cbn; lia).
  exact (typical_step_appends_accepted_tokens (F := R) 2 1 2
           [[[0; 1]; [0; 0]]; [[1; 0]; [0; 0]]]%R [[0; 1]; [0; 0]]
           [[0; 1]; [0; 2]] [7; 8] 3 None [1] 1%R (9 / 100)%R (3 / 10)%R
           Rltb_irrefl Rltb_trans HT Hshape Htok ltac:(lia) eq_refl).
Defined.

(** X22: a whole greedy Medusa step.  With at least one Medusa head, the
    buffers the builder returns for [1 :: medusa_topk], base and head logits
    over a vocabulary of [V] tokens, and a model that answers the tree with
    one vector of [V] logits per node, the four stages run through without
    exception: the generator proposes a two-dimensional tensor of
    candidates, [tree_decoding] gathers the verified logits along the paths,
    the evaluator at temperature 0 picks a path of these candidates and an
    accept length of at most the number of heads, and the updater extends
    the sequence by [accept_length + 1 >= 1] tokens, the first of which is
    the argmax of the base logits at the last position, and hands one
    vector of [V] logits to the next step.  (Without a head the generator
    returns a one-dimensional tensor, which the evaluator cannot slice.) *)
Theorem greedy_medusa_step_makes_progress {F K O : Type} {ops : FloatOps F}
    (model : K -> list (list Z) -> list Z -> O)
    (output_logits : O -> list (list (list (list F))))
    (V : nat) (medusa_logits : list (list (list (list F))))
    (base_logits : list (list (list F))) (medusa_topk : list Z)
    (bufs : medusa_buffers) (past_key_values : K) (row : list Z)
    (new_token : Z) (pad_token_id : option Z) (unfinished_sequences : list Z)
    (temperature posterior_threshold posterior_alpha : F) :
  feqb temperature fzero = true -> (0 < V)%nat ->
  medusa_topk <> [] ->
  Forall (fun b => b <> []) base_logits ->
  flatten (map (fun b => last b []) base_logits) <> [] ->
  Forall2 head_ok medusa_logits medusa_topk ->
  generate_medusa_buffers (1 :: medusa_topk) = inr bufs ->
  (forall tree_candidates : list (list Z),
     exists nodes batch_rest heads_rest,
       output_logits
         (model past_key_values tree_candidates
            (map (fun d => d + len row) (medusa_position_ids bufs)))
       = (nodes :: batch_rest) :: heads_rest
       /\ len nodes = len (medusa_attn_mask bufs)
       /\ Forall (fun v => length v = V) nodes) ->
  exists (candidates : list (list Z)) (tree_candidates : list Z)
         (logits : list (list (list F))) (outputs : O) (best al : nat)
         (u : inference_update F) (toks : list Z),
    generate_candidates medusa_logits base_logits medusa_topk (tree_indices bufs)
    = inr (Tensor2 candidates, [tree_candidates])
    /\ tree_decoding model output_logits [tree_candidates] past_key_values
         (medusa_position_ids bufs) [row] (retrieve_indices bufs)
       = inr (logits, outputs)
    /\ evaluate_posterior logits candidates temperature
         posterior_threshold posterior_alpha = inr (Z.of_nat best, Z.of_nat al)
    /\ update_inference_inputs [row] candidates (Z.of_nat best)
         (Z.of_nat al) (retrieve_indices bufs) logits new_token None
         pad_token_id unfinished_sequences false = inr u
    /\ (al <= length medusa_topk)%nat
    /\ upd_input_ids u = [row ++ toks]
    /\ length toks = S al
    /\ hd_error toks
       = Some (argmax_total (flatten (map (fun b => last b []) base_logits)))
    /\ upd_new_token u = new_token + Z.of_nat (S al)
    /\ exists v : list F, upd_logits u = [[v]] /\ length v = V.
Proof.
  intros HT HV Hheads1 Hlast Hne Hheads Hrun Hmodel.
  set (root := argmax_total (flatten (map (fun b => last b []) base_logits))).
  destruct (generate_candidates_form medusa_logits base_logits medusa_topk
              (tree_indices bufs) Hlast Hne Hheads) as [tk [Hlens Hform]].
  fold root in Hform.
  assert (Htensor : cartesian_prod ([root] :: tk)
                    = Tensor2 (cartesian_rows ([root] :: tk))).
  { destruct tk as [|t rest]; [|reflexivity].
    exfalso. apply Hheads1. rewrite <- Hlens. reflexivity. }
  assert (Hb : map len ([root] :: tk) = 1 :: medusa_topk).
  { cbn [map]. rewrite Hlens. reflexivity. }
  pose proof Hrun as Hrun'. rewrite <- Hb in Hrun'.
  destruct (pool_gather ([root] :: tk) bufs Hrun') as [tree [Htree _]].
  destruct (generate_medusa_buffers_built _ bufs Hrun) as [Hbne [Hpos Hbuilt]].
  set (b := 1 :: medusa_topk) in *.
  assert (HN : len (medusa_attn_mask bufs) = sum (cumprod b)).
  { unfold len. rewrite (built_mask_rows _ _ Hbuilt).
    pose proof (sum_cumprod_nonneg b Hpos). lia. }
  destruct (Hmodel [tree]) as [nodes [batch_rest [heads_rest [Hout [Hnodes Hvec]]]]].
  rewrite HN in Hnodes.
  pose proof (tree_decoding_run model output_logits b bufs [tree] past_key_values
                [row] nodes batch_rest heads_rest Hrun Hout Hnodes) as Hdec.
  cbv zeta in Hdec.
  set (logits := map (map (fun i => nth (Z.to_nat i) nodes []))
                     (retrieve_indices bufs)) in *.
  set (rows := cartesian_rows ([root] :: tk)).
  pose proof (prod_pos b Hpos) as HP.
  assert (Hrows_len : length rows = Z.to_nat (prod b)).
  { subst rows. pose proof (cartesian_rows_length ([root] :: tk)) as Hc.
    rewrite Hb in Hc. unfold len in Hc. lia. }
  assert (Hrows_cols : Forall (fun r => length r = length b) rows).
  { apply Forall_forall. intros r Hr. subst rows. apply cartesian_rows_In in Hr.
    rewrite (Forall2_length Hr). rewrite <- Hb, length_map. reflexivity. }
  pose proof (gathered_logits_shaped b bufs V nodes rows Hpos Hbne Hbuilt Hnodes
                Hvec Hrows_len Hrows_cols) as Hshape.
  fold logits in Hshape.
  destruct (greedy_run (Z.to_nat (prod b)) (length b - 1) V logits rows Hshape
              ltac:(lia) HV) as [best [al [Heval [Hbest [Hbal _]]]]].
  assert (HalD : (al <= length b - 1)%nat).
  { destruct (longest_true_prefix_accepted (greedy_accepts logits rows best)
                (length b - 1)) as [Hbound _].
    fold (accepted_length (greedy_accepts logits rows best) (length b - 1))
      in Hbound. lia. }
  pose proof (update_after_choice (Z.to_nat (prod b)) (length b - 1) V logits rows
                (retrieve_indices bufs) row new_token pad_token_id
                unfinished_sequences best al Hshape
                (built_retrieve_rows _ _ Hbuilt) Hbest HalD) as Hupd.
  pose proof (shaped_row _ _ _ logits rows Hshape best Hbest) as Hrowlen.
  exists rows, tree, logits.
  eexists. exists best, al. eexists.
  exists (firstn (S al) (nth best rows [])).
  split; [rewrite Hform, Htree, Htensor; reflexivity|].
  split; [exact Hdec|].
  split; [unfold evaluate_posterior; rewrite HT; exact Heval|].
  split; [exact Hupd|].
  cbn [upd_input_ids upd_new_token upd_logits].
  split; [subst b; cbn [length] in HalD; lia|].
  split; [reflexivity|].
  split; [rewrite length_firstn; lia|].
  split.
  { pose proof (cartesian_rows_root root tk) as Hroot.
    rewrite Forall_forall in Hroot.
    assert (Hin : In (nth best rows []) rows) by (apply nth_In; lia).
    specialize (Hroot _ Hin).
    destruct (nth best rows []) as [|x r]; [discriminate|].
    cbn [firstn hd_error] in *. exact Hroot. }
  split; [reflexivity|].
  eexists. split; [reflexivity|].
  apply (shaped_vocab _ _ _ logits rows Hshape best al Hbest). lia.
Qed.

(** One head with top-K value 2 over a vocabulary of three tokens, and a
    model that answers every node with the same logits. *)
Lemma greedy_medusa_step_makes_progress_witness :
  exists (bufs : medusa_buffers) (candidates : list (list Z))
         (tree_candidates : list Z) (logits : list (list (list R)))
         (outputs : list (list (list (list R)))) (best al : nat)
         (u : inference_update R) (toks : list Z),
    generate_medusa_buffers [1; 2] = inr bufs
    /\ generate_candidates (F := R) [[[[2; 9; 4]]]]%R [[[1; 7; 2]]]%R [2]
         (tree_indices bufs)
       = inr (Tensor2 candidates, [tree_candidates])
    /\ tree_decoding (F := R) (K := unit)
         (fun _ _ pos => [[map (fun _ => [3; 1; 2]%R) pos]]) (fun o => o)
         [tree_candidates] tt (medusa_position_ids bufs) [[7; 8]]
         (retrieve_indices bufs)
       = inr (logits, outputs)
    /\ evaluate_posterior logits candidates 0%R (9 / 100)%R (3 / 10)%R
       = inr (Z.of_nat best, Z.of_nat al)
    /\ update_inference_inputs [[7; 8]] candidates (Z.of_nat best)
         (Z.of_nat al) (retrieve_indices bufs) logits 3 None None [1] false
       = inr u
    /\ (al <= 1)%nat
    /\ upd_input_ids u = [[7; 8] ++ toks]
    /\ length toks = S al
    /\ hd_error toks
       = Some (argmax_total
                 (flatten (map (fun b => last b []) [[[1; 7; 2]]]%R)))
    /\ upd_new_token u = 3 + Z.of_nat (S al)
    /\ exists v : list R, upd_logits u = [[v]] /\ length v = 3%nat.
Proof.
  assert (HT : feqb (F := R) 0%R fzero = true) by (apply Reqb_true; reflexivity).
  assert (H1 : Forall (fun b : list (list R) => b <> []) [[[1; 7; 2]]]%R)
    by (repeat constructor; discriminate).
  assert (H2 : flatten (map (fun b : list (list R) => last b []) [[[1; 7; 2]]]%R)
               <> []) by discriminate.
  assert (H3 : Forall2 (head_ok (F := R)) [[[[2; 9; 4]]]]%R [2])
    by (repeat constructor; eexists;
        (split; [reflexivity | unfold len; cbn; lia])).
  destruct (generate_medusa_buffers [1; 2]) as [e|bufs] eqn:Hrun;
    [vm_compute in Hrun; discriminate|].
  assert (Hmodel : forall tree_candidates : list (list Z),
            exists nodes batch_rest heads_rest,
              (fun o : list (list (list (list R))) => o)
                ((fun (_ : unit) (_ : list (list Z)) (pos : list Z) =>
                    [[map (fun _ => [3; 1; 2]%R) pos]]) tt tree_candidates
                   (map (fun d => d + len [7; 8]) (medusa_position_ids bufs)))
              = (nodes :: batch_rest) :: heads_rest
              /\ len nodes = len (medusa_attn_mask bufs)
              /\ Forall (fun v => length v = 3%nat) nodes).
  { intros tc. eexists. exists [], []. split; [reflexivity|]. split.
    - vm_compute in Hrun. injection Hrun as <-. reflexivity.
    - apply Forall_forall. intros v Hv. apply in_map_iff in Hv.
      destruct Hv as [x [<- _]]. reflexivity. }
  destruct (greedy_medusa_step_makes_progress (F := R) (K := unit)
              (fun _ _ pos => [[map (fun _ => [3; 1; 2]%R) pos]]) (fun o => o)
              3 [[[[2; 9; 4]]]]%R [[[1; 7; 2]]]%R [2] bufs tt [7; 8] 3 None [1]
              0%R (9 / 100)%R (3 / 10)%R HT ltac:(lia) ltac:(discriminate)
              H1 H2 H3 Hrun Hmodel)
    as [c [t [l [o [best [al [u [toks H]]]]]]]].
  exists bufs, c, t, l, o, best, al, u, toks. split; [reflexivity | exact H].
Defined.

End PipelineTheorems.
